(** * oneshot: the step pipeline, progress inference and the run tracker

    A shallow embedding of [src/index.ts] (the six pipeline steps) and
    [src/server.ts] (progress inference from a directory listing, the
    table of running steps and the handler of the step route), with the
    properties the specification states about them. *)

From Stdlib Require Import ZArith NArith List Bool Lia Ascii String DecimalString DecimalNat.
From stdpp Require Import gmap list.

Local Open Scope N_scope.

(** ** JavaScript strings

    A JavaScript string is a sequence of 16-bit code units.  The model
    keeps the code units as numbers, so that every character a reply or
    a file name may hold is covered by the same functions. *)

Abbreviation jstring := (list N).

Module Js.

(** The code units of an ASCII literal. *)
Definition of_string (s : string) : jstring :=
  map N_of_ascii (list_ascii_of_string s).

Definition quote : N := 34.

Definition is_digit (c : N) : bool := (48 <=? c) && (c <=? 57).

(** [\s] of a regular expression, and the white space [parseInt] skips:
    WhiteSpace and LineTerminator of ECMA-262. *)
Definition is_space (c : N) : bool :=
  ((9 <=? c) && (c <=? 13)) || (c =? 32) || (c =? 160) || (c =? 5760)
  || ((8192 <=? c) && (c <=? 8202)) || (c =? 8232) || (c =? 8233)
  || (c =? 8239) || (c =? 8287) || (c =? 12288) || (c =? 65279).

Definition eqb (a b : jstring) : bool := bool_decide (a = b).

Fixpoint startsWith (s p : jstring) {struct p} : bool :=
  match p, s with
  | [], _ => true
  | c :: p', d :: s' => (c =? d) && startsWith s' p'
  | _ :: _, [] => false
  end.

(** [s.endsWith(p)] *)
Definition endsWith (s p : jstring) : bool :=
  (length p <=? length s)%nat && eqb (drop (length s - length p)%nat s) p.

(** [s.indexOf(c)] for a one-character pattern; [None] is -1. *)
Fixpoint indexOf (s : jstring) (c : N) : option nat :=
  match s with
  | [] => None
  | d :: s' => if d =? c then Some O else S <$> indexOf s' c
  end.

(** [s.lastIndexOf(c)] for a one-character pattern; [None] is -1. *)
Fixpoint lastIndexOf (s : jstring) (c : N) : option nat :=
  match s with
  | [] => None
  | d :: s' =>
      match lastIndexOf s' c with
      | Some i => Some (S i)
      | None => if d =? c then Some O else None
      end
  end.

(** [s.slice(from, to)] for indices within the string ([to] at most the
    length): empty when [to <= from]. *)
Definition slice (s : jstring) (from to : nat) : jstring :=
  take (to - from)%nat (drop from s).

(** Template literal [`${n}`] of a non-negative integer. *)
Definition decimal (n : nat) : jstring :=
  of_string (NilEmpty.string_of_uint (Nat.to_uint n)).

(** The longest run of characters satisfying [p], and what follows. *)
Fixpoint span (p : N -> bool) (s : jstring) : jstring * jstring :=
  match s with
  | c :: s' => if p c then let '(a, b) := span p s' in (c :: a, b) else ([], s)
  | [] => ([], [])
  end.

(** [s.match(/^PREFIX\d+SUFFIX$/)] is not null: the prefix, one or more
    decimal digits, the suffix, and nothing else.  The suffixes in use
    start with a dot, so the greedy run of digits is the only split. *)
Definition matchNumbered (prefix suffix s : jstring) : bool :=
  startsWith s prefix &&
  let '(ds, rest) := span is_digit (drop (length prefix) s) in
  negb (bool_decide (ds = [])) && eqb rest suffix.

End Js.

Definition js : string -> jstring := Js.of_string.
Arguments js _%_string.

(** ** Progress inference ([detectStatus], server.ts) *)

Record status := { completedStep : Z; artifacts : list jstring }.

Module Progress.

(** [files.includes(name)] *)
Definition includes (files : list jstring) (name : jstring) : bool :=
  bool_decide (name ∈ files).

(** The six conditions of [detectStatus], in the order of the code. *)
Definition hasInput (files : list jstring) := includes files (js "input.txt").
Definition hasScript (files : list jstring) := includes files (js "script.json").
Definition hasCharacter (files : list jstring) := includes files (js "character.jpg").
Definition hasKeyframe (files : list jstring) :=
  existsb (Js.matchNumbered (js "keyframe") (js ".jpg")) files.
Definition hasSegment (files : list jstring) :=
  existsb (Js.matchNumbered (js "segment") (js ".mp4")) files.
Definition hasMovie (files : list jstring) :=
  includes files (js "movie.mp4") || includes files (js "output.mp4").

(** The condition tested for step [k]. *)
Definition stepPresent (files : list jstring) (k : Z) : bool :=
  if (k =? 1)%Z then hasInput files
  else if (k =? 2)%Z then hasScript files
  else if (k =? 3)%Z then hasCharacter files
  else if (k =? 4)%Z then hasKeyframe files
  else if (k =? 5)%Z then hasSegment files
  else if (k =? 6)%Z then hasMovie files
  else false.

Definition isArtifact (f : jstring) : bool :=
  Js.endsWith f (js ".jpg") || Js.endsWith f (js ".mp4")
  || Js.endsWith f (js ".json") || Js.eqb f (js "input.txt").

(** [dir] is [None] when the directory does not exist, otherwise the
    listing [fs.readdirSync] returns. *)
Definition detectStatus (dir : option (list jstring)) : status :=
  match dir with
  | None => {| completedStep := 0; artifacts := [] |}
  | Some files =>
      let artifacts := List.filter isArtifact files in
      let completedStep := 0%Z in
      let completedStep := if hasInput files then 1%Z else completedStep in
      let completedStep := if hasScript files then 2%Z else completedStep in
      let completedStep := if hasCharacter files then 3%Z else completedStep in
      let completedStep := if hasKeyframe files then 4%Z else completedStep in
      let completedStep := if hasSegment files then 5%Z else completedStep in
      let completedStep := if hasMovie files then 6%Z else completedStep in
      {| completedStep := completedStep; artifacts := artifacts |}
  end.


(** The step the sequence of assignments ends with: that of the last
    condition that holds. *)
Definition pick (b1 b2 b3 b4 b5 b6 : bool) : Z :=
  (if b6 then 6 else if b5 then 5 else if b4 then 4
   else if b3 then 3 else if b2 then 2 else if b1 then 1 else 0)%Z.

End Progress.

(** ** JSON values and [JSON.parse] *)

(** The outcome of an operation that may throw. *)
Inductive error :=
| ENOENT (file : jstring)          (* a file read that finds no file *)
| SyntaxError                      (* thrown by [JSON.parse] *)
| TypeError                        (* property access on null or undefined,
                                      or a call of what is no function *)
| ParseFailure                     (* "Failed to parse script from response" *)
| InvalidScript                    (* "Invalid script: missing ..." *)
| KeyframeMismatch (expected got : nat)
| ProviderError (detail : jstring) (* a capability call that fails *)
| DownloadFailed (detail : jstring).

Inductive result (A : Type) := Ok (a : A) | Throw (e : error).
Arguments Ok {A} a.
Arguments Throw {A} e.

Module Json.

(** A number keeps the exact value of its literal,
    [(-1)^negative * mantissa * 10^exponent]; [JSON.parse] rounds that
    value to a double. *)
Record number := { negative : bool; mantissa : N; exponent : Z }.

Unset Elimination Schemes.
Inductive value :=
| Null
| Bool (b : bool)
| Num (n : number)
| Str (s : jstring)
| Arr (items : list value)
| Obj (members : list (jstring * value)).
Set Elimination Schemes.

(** The white space of the JSON grammar: space, tab, LF, CR. *)
Definition is_ws (c : N) : bool :=
  (c =? 32) || (c =? 9) || (c =? 10) || (c =? 13).

Fixpoint skip_ws (s : jstring) : jstring :=
  match s with
  | c :: s' => if is_ws c then skip_ws s' else s
  | [] => []
  end.

Definition hex_val (c : N) : option N :=
  if Js.is_digit c then Some (c - 48)
  else if (97 <=? c) && (c <=? 102) then Some (c - 87)
  else if (65 <=? c) && (c <=? 70) then Some (c - 55)
  else None.

Definition hex4 (a b c d : N) : option N :=
  x ← hex_val a; y ← hex_val b; z ← hex_val c; w ← hex_val d;
  Some (4096 * x + 256 * y + 16 * z + w).

(** The single-character escapes: quote, backslash, slash, b f n r t. *)
Definition escape_val (c : N) : option N :=
  if c =? 34 then Some 34
  else if c =? 92 then Some 92
  else if c =? 47 then Some 47
  else if c =? 98 then Some 8
  else if c =? 102 then Some 12
  else if c =? 110 then Some 10
  else if c =? 114 then Some 13
  else if c =? 116 then Some 9
  else None.

(** The characters of a string literal after its opening quote, up to
    and including the closing quote.  A raw character below U+0020 is
    refused. *)
Fixpoint parse_chars (s : jstring) : option (jstring * jstring) :=
  match s with
  | [] => None
  | c :: s' =>
      if c =? 34 then Some ([], s')
      else if c =? 92 then
        match s' with
        | e :: s'' =>
            if e =? 117 then
              match s'' with
              | h1 :: h2 :: h3 :: h4 :: s3 =>
                  u ← hex4 h1 h2 h3 h4;
                  '(str, rest) ← parse_chars s3;
                  Some (u :: str, rest)
              | _ => None
              end
            else
              u ← escape_val e;
              '(str, rest) ← parse_chars s'';
              Some (u :: str, rest)
        | [] => None
        end
      else if c <? 32 then None
      else
        '(str, rest) ← parse_chars s';
        Some (c :: str, rest)
  end.

Definition digits_val (ds : jstring) : N :=
  fold_left (fun acc d => 10 * acc + (d - 48)) ds 0.

(** A number literal at the head of [s]: an optional minus, an integer
    part ("0" or a run of digits that does not start with 0), an
    optional fraction and an optional exponent.  A dot or an "e" that no
    digit follows is left in the rest, where no caller accepts it. *)
Definition parse_number (s : jstring) : option (number * jstring) :=
  let '(neg, s1) :=
    match s with
    | c :: t => if c =? 45 then (true, t) else (false, s)
    | [] => (false, s)
    end in
  match s1 with
  | d :: t =>
      if Js.is_digit d then
        let '(int, s2) := if d =? 48 then ([d], t) else Js.span Js.is_digit s1 in
        let '(frac, s3) :=
          match s2 with
          | c :: t2 =>
              if c =? 46 then
                match Js.span Js.is_digit t2 with
                | ([], _) => ([], s2)
                | (f, r) => (f, r)
                end
              else ([], s2)
          | [] => ([], s2)
          end in
        let '(exp, s4) :=
          match s3 with
          | c :: t3 =>
              if (c =? 101) || (c =? 69) then
                let '(eneg, t4) :=
                  match t3 with
                  | g :: t5 => if g =? 45 then (true, t5)
                               else if g =? 43 then (false, t5) else (false, t3)
                  | [] => (false, t3)
                  end in
                match Js.span Js.is_digit t4 with
                | ([], _) => (0%Z, s3)
                | (e, r) => ((if eneg then - Z.of_N (digits_val e)
                              else Z.of_N (digits_val e))%Z, r)
                end
              else (0%Z, s3)
          | [] => (0%Z, s3)
          end in
        Some ({| negative := neg;
                 mantissa := digits_val (int ++ frac);
                 exponent := (exp - Z.of_nat (length frac))%Z |}, s4)
      else None
  | [] => None
  end.

(** Recursive descent over the grammar of ECMA-404.  [fuel] bounds the
    nesting of the calls; [parse] below gives more than any text of
    that length can use. *)
Fixpoint parse_value (fuel : nat) (s : jstring) : option (value * jstring) :=
  match fuel with
  | O => None
  | S fuel =>
      match skip_ws s with
      | [] => None
      | c :: t =>
          if c =? 123 then
            match skip_ws t with
            | d :: t' =>
                if d =? 125 then Some (Obj [], t')
                else '(ms, rest) ← parse_members fuel (d :: t'); Some (Obj ms, rest)
            | [] => None
            end
          else if c =? 91 then
            match skip_ws t with
            | d :: t' =>
                if d =? 93 then Some (Arr [], t')
                else '(vs, rest) ← parse_items fuel (d :: t'); Some (Arr vs, rest)
            | [] => None
            end
          else if c =? 34 then
            '(str, rest) ← parse_chars t; Some (Str str, rest)
          else if Js.startsWith (c :: t) (js "true") then Some (Bool true, drop 4 (c :: t))
          else if Js.startsWith (c :: t) (js "false") then Some (Bool false, drop 5 (c :: t))
          else if Js.startsWith (c :: t) (js "null") then Some (Null, drop 4 (c :: t))
          else '(n, rest) ← parse_number (c :: t); Some (Num n, rest)
      end
  end
with parse_items (fuel : nat) (s : jstring) : option (list value * jstring) :=
  match fuel with
  | O => None
  | S fuel =>
      '(v, s1) ← parse_value fuel s;
      match skip_ws s1 with
      | c :: t =>
          if c =? 44 then '(vs, rest) ← parse_items fuel t; Some (v :: vs, rest)
          else if c =? 93 then Some ([v], t)
          else None
      | [] => None
      end
  end
with parse_members (fuel : nat) (s : jstring)
    : option (list (jstring * value) * jstring) :=
  match fuel with
  | O => None
  | S fuel =>
      match skip_ws s with
      | q :: t =>
          if q =? 34 then
            '(k, s1) ← parse_chars t;
            match skip_ws s1 with
            | c :: s2 =>
                if c =? 58 then
                  '(v, s3) ← parse_value fuel s2;
                  match skip_ws s3 with
                  | d :: t' =>
                      if d =? 44 then
                        '(ms, rest) ← parse_members fuel t'; Some ((k, v) :: ms, rest)
                      else if d =? 125 then Some ([(k, v)], t')
                      else None
                  | [] => None
                  end
                else None
            | [] => None
            end
          else None
      | [] => None
      end
  end.

(** [JSON.parse(s)]: one value, white space around it, nothing else.
    [None] is the SyntaxError. *)
Definition parse (s : jstring) : option value :=
  '(v, rest) ← parse_value (2 * length s + 2) s;
  match skip_ws rest with [] => Some v | _ => None end.

(** [v[name]] for a name that no prototype defines: the members of an
    object are kept in the order of the text, and a later member
    overwrites an earlier one of the same name.  [None] is undefined;
    reading a property of null throws. *)
Fixpoint lookup_last (ms : list (jstring * value)) (name : jstring) : option value :=
  match ms with
  | [] => None
  | (k, v) :: ms' =>
      match lookup_last ms' name with
      | Some w => Some w
      | None => if Js.eqb k name then Some v else None
      end
  end.

Definition get (v : option value) (name : jstring) : result (option value) :=
  match v with
  | None | Some Null => Throw TypeError
  | Some (Obj ms) => Ok (lookup_last ms name)
  | Some _ => Ok None
  end.

(** The double a number literal denotes is zero when its mantissa is,
    and when its value is at most 2^-1075, half of the least positive
    double (the tie rounds to the even neighbour, zero). *)
Definition is_zero (n : number) : bool :=
  (mantissa n =? 0) ||
  ((exponent n <? 0)%Z &&
   (Z.of_N (mantissa n) * 2 ^ 1075 <=? 10 ^ (- exponent n))%Z).

(** ToBoolean *)
Definition truthy (v : option value) : bool :=
  match v with
  | None | Some Null => false
  | Some (Bool b) => b
  | Some (Num n) => negb (is_zero n)
  | Some (Str s) => negb (bool_decide (s = []))
  | Some (Arr _) | Some (Obj _) => true
  end.

(** ToString of a value, as a template literal applies it, throws a
    TypeError on an object that has a member named toString (no JSON
    value is callable, and the valueOf it falls back on returns the
    object), and on an array one of whose elements it throws on; null
    elements are joined as the empty string. *)
Fixpoint toStringThrows (v : value) : bool :=
  match v with
  | Obj ms =>
      match lookup_last ms (js "toString") with Some _ => true | None => false end
  | Arr l => existsb toStringThrows l
  | _ => false
  end.

(** [Array.isArray(v)] *)
Definition isArray (v : option value) : bool :=
  match v with Some (Arr _) => true | _ => false end.

End Json.

(** ** The repair of a generated reply (step2, index.ts lines 65-82) *)

Module Repair.

Definition is_close (c : N) : bool := (c =? 125) || (c =? 93).

(** After the white space [\s*] at the head of [s] comes [}] or []]. *)
Fixpoint closes_after_space (s : jstring) : bool :=
  match s with
  | c :: s' => if Js.is_space c then closes_after_space s' else is_close c
  | [] => false
  end.

(** [s.replace(/,\s*([}\]])/g, '$1')], read from left to right.  A comma
    that white space and a closing bracket follow is dropped together
    with that white space ([dropping] is true while it is skipped); the
    bracket is copied, and being no comma it starts no other match. *)
Fixpoint stripFrom (dropping : bool) (s : jstring) : jstring :=
  match s with
  | [] => []
  | c :: t =>
      if dropping && Js.is_space c then stripFrom true t
      else if (c =? 44) && closes_after_space t then stripFrom true t
      else c :: stripFrom false t
  end.

Definition stripTrailingCommas (s : jstring) : jstring := stripFrom false s.

(** The lookbehind of the second pattern, a colon, spaces (U+0020) and
    a double quote: [before] is the text before the position, last
    character first. *)
Fixpoint after_colon (before : jstring) : bool :=
  match before with
  | c :: b => if c =? 32 then after_colon b else c =? 58
  | [] => false
  end.

Definition after_colon_quote (before : jstring) : bool :=
  match before with
  | c :: b => (c =? 34) && after_colon b
  | [] => false
  end.

(** [.] matches every character but the line terminators. *)
Definition is_line_terminator (c : N) : bool :=
  (c =? 10) || (c =? 13) || (c =? 8232) || (c =? 8233).

(** The length of the captured run at the head of [s] (characters other
    than the double quote and the backslash, or a backslash and any
    character [.] matches) when the lookahead holds after it, that is
    when a double quote follows.  Each character has one way to be
    consumed, so the run is the longest one and no shorter run ends
    before a quote. *)
Fixpoint value_run (s : jstring) : option nat :=
  match s with
  | [] => None
  | c :: t =>
      if c =? 34 then Some O
      else if c =? 92 then
        match t with
        | e :: t' =>
            if is_line_terminator e then None
            else (fun n => S (S n)) <$> value_run t'
        | [] => None
        end
      else S <$> value_run t
  end.

(** The replacer of a match: LF, CR and TAB become their escapes. *)
Definition escape_char (c : N) : jstring :=
  if c =? 10 then [92; 110]
  else if c =? 13 then [92; 114]
  else if c =? 9 then [92; 116]
  else [c].

(** The replacement of line 72 (lookbehind, captured run, lookahead,
    global), read from left to right: [inside] counts the characters of
    the current match still to come.  The lookbehind reads the text as
    it was, not as replaced.  An empty match replaces nothing, and the
    search goes on one character further. *)
Fixpoint escapeFrom (before : jstring) (inside : nat) (s : jstring) : jstring :=
  match s with
  | [] => []
  | c :: t =>
      match inside with
      | S n => escape_char c ++ escapeFrom (c :: before) n t
      | O =>
          match (if after_colon_quote before then value_run s else None) with
          | Some (S n) => escape_char c ++ escapeFrom (c :: before) n t
          | _ => c :: escapeFrom (c :: before) O t
          end
      end
  end.

Definition escapeValues (s : jstring) : jstring := escapeFrom [] O s.

(** [s.replace(/[\x00-\x1f]/g, ' ')] *)
Definition stripControls (s : jstring) : jstring :=
  map (fun c => if c <? 32 then 32 else c) s.

(** Lines 65-82: from the first [{] to the last [}], the two repairs, a
    parse, and on a SyntaxError the last resort and a second parse. *)
Definition parseReply (raw : jstring) : result Json.value :=
  match Js.indexOf raw 123, Js.lastIndexOf raw 125 with
  | Some start, Some end_ =>
      let jsonStr := Js.slice raw start (end_ + 1) in
      let jsonStr := stripTrailingCommas jsonStr in
      let jsonStr := escapeValues jsonStr in
      match Json.parse jsonStr with
      | Some script => Ok script
      | None =>
          let jsonStr := stripControls jsonStr in
          match Json.parse jsonStr with
          | Some script => Ok script
          | None => Throw SyntaxError
          end
      end
  | _, _ => Throw ParseFailure
  end.

End Repair.

(** ** The step pipeline (index.ts)

    A step runs against the directory of one project.  The state it
    threads is the content of that directory, the state of the world
    outside (what the providers will answer next) and the trace of the
    capability calls made so far. *)

Inductive event :=
| TextCall (description : jstring) (returned : result jstring)
| VideoCall (prompt first last : option Json.value) (returned : result jstring)
| Download (url dest : jstring) (fetched : result jstring).

Record world (E : Type) := World {
  files : gmap jstring jstring;
  outside : E;
  trace : list event
}.
Arguments World {E} _ _ _.
Arguments files {E} _.
Arguments outside {E} _.
Arguments trace {E} _.

Definition M (E A : Type) : Type := world E -> world E * result A.

Definition ret {E A} (a : A) : M E A := fun w => (w, Ok a).
Definition throw {E A} (e : error) : M E A := fun w => (w, Throw e).
Definition lift {E A} (r : result A) : M E A := fun w => (w, r).
Definition andThen {E A B} (m : M E A) (k : A -> M E B) : M E B :=
  fun w => match m w with
           | (w', Ok a) => k a w'
           | (w', Throw e) => (w', Throw e)
           end.

Notation "'run!' x ':=' m 'in' k" := (andThen m (fun x => k))
  (at level 10, x pattern, m at level 100, k at level 200).

(** ** Async functions and [Promise.all]

    An async function in flight.  Each [await] hands control back to the
    event loop, and the function goes on when the loop resumes it: a
    task is settled, or waits with the code it runs when it is resumed,
    which runs to the next [await] or to the end.  The call that is
    awaited is made before control is handed back, so its effect on the
    world outside is taken then, and its answer when the function is
    resumed; when the answer is an error the function throws it. *)
Unset Elimination Schemes.
Inductive task (E A : Type) : Type :=
| Settled (r : result A)
| Waiting (resume : world E -> world E * task E A).
Set Elimination Schemes.
Arguments Settled {E A} r.
Arguments Waiting {E A} resume.

Definition code (E A : Type) : Type := world E -> world E * task E A.

(** [const x = await m; k x] *)
Definition await {E X A} (m : M E X) (k : X -> code E A) : code E A :=
  fun w =>
    let '(w', r) := m w in
    (w', Waiting (fun w => match r with
                           | Ok x => k x w
                           | Throw e => (w, Settled (Throw e))
                           end)).

(** The end of the function: [m] runs and the function returns. *)
Definition returns {E A} (m : M E A) : code E A :=
  fun w => let '(w', r) := m w in (w', Settled r).

(** A task resumed until it settles, with nothing else in between. *)
Fixpoint finish {E A} (t : task E A) (w : world E) : world E * result A :=
  match t with
  | Settled r => (w, r)
  | Waiting resume => let '(w', t') := resume w in finish t' w'
  end.

(** The tasks finished one after the other, in the order of their
    indices, up to the first one that throws. *)
Fixpoint drain {E A} (tasks : list (task E A)) : M E (list A) :=
  fun w =>
    match tasks with
    | [] => (w, Ok [])
    | t :: ts =>
        match finish t w with
        | (w1, Throw e) => (w1, Throw e)
        | (w1, Ok a) =>
            match drain ts w1 with
            | (w2, Throw e) => (w2, Throw e)
            | (w2, Ok l) => (w2, Ok (a :: l))
            end
        end
    end.

(** [await Promise.all(tasks)], for tasks wrapped by a limiter.  [order]
    is the order in which the event loop resumes the tasks, by index:
    the task named is resumed once, and an index that names no task, or
    a settled one, is passed over.  The promise rejects as soon as a
    task throws, with the world as it is then: the tasks still in
    flight are not waited for.  When the order is used up, what remains
    of the tasks runs in the order of the indices.  When every task has
    returned, the values come in the order of the indices.  The limiter
    decides when a task may start, that is which orders can occur; the
    statements about [awaitAll] hold for every order. *)
Fixpoint awaitAll {E A} (order : list nat) (tasks : list (task E A)) : M E (list A) :=
  fun w =>
    match order with
    | [] => drain tasks w
    | i :: order' =>
        match tasks !! i with
        | Some (Waiting resume) =>
            let '(w', t) := resume w in
            match t with
            | Settled (Throw e) => (w', Throw e)
            | _ => awaitAll order' (<[i := t]> tasks) w'
            end
        | _ => awaitAll order' tasks w
        end
    end.

Module JsonOps.

(** The elements of an array, [None] for what is no array. *)
Definition items (v : option Json.value) : option (list Json.value) :=
  match v with Some (Json.Arr l) => Some l | _ => None end.

(** [v[i]] for an index [i]: an element of an array, a character of a
    string, the member named by the decimal numeral of an object. *)
Definition index (v : Json.value) (i : nat) : result (option Json.value) :=
  match v with
  | Json.Null => Throw TypeError
  | Json.Arr l => Ok (l !! i)
  | Json.Str s => Ok ((fun c => Json.Str [c]) <$> s !! i)
  | Json.Obj ms => Ok (Json.lookup_last ms (Js.decimal i))
  | _ => Ok None
  end.

(** [v[name]] for a value that is not null. *)
Definition property (v : Json.value) (name : jstring) : option Json.value :=
  match v with Json.Obj ms => Json.lookup_last ms name | _ => None end.

End JsonOps.

Section Pipeline.

Context {E : Type}.

(** The text, video and download capabilities, and [JSON.stringify]
    with an indentation of 2.  The prompt of step 2 is a fixed template
    around the description, so the text capability is a function of the
    description. *)
Variable callLLM : jstring -> E -> E * result jstring.
Variable generateVideo :
  option Json.value -> option Json.value -> option Json.value -> E -> E * result jstring.
Variable fetch : jstring -> E -> E * result jstring.
Variable stringify : Json.value -> jstring.

(** [fs.readFileSync(name, "utf-8")] and [fs.writeFileSync(name, data)].
    A file holds the string written to it: what the code writes as text
    is read back as it was written when it is well formed, which the
    statements about a text given from outside assume of it (a surrogate
    on its own would be read back as U+FFFD). *)
Definition readFileSync (name : jstring) : M E jstring :=
  fun w => (w, match files w !! name with
               | Some data => Ok data
               | None => Throw (ENOENT name)
               end).

Definition writeFileSync (name data : jstring) : M E unit :=
  fun w => (World (<[name := data]> (files w)) (outside w) (trace w), Ok tt).

Definition readJSON (name : jstring) : M E Json.value :=
  run! text := readFileSync name in
  match Json.parse text with
  | Some v => ret v
  | None => throw SyntaxError
  end.

Definition askText (description : jstring) : M E jstring :=
  fun w =>
    let '(o, r) := callLLM description (outside w) in
    (World (files w) o (trace w ++ [TextCall description r]), r).

Definition askVideo (prompt first last : option Json.value) : M E jstring :=
  fun w =>
    let '(o, r) := generateVideo prompt first last (outside w) in
    (World (files w) o (trace w ++ [VideoCall prompt first last r]), r).

(** [downloadFile(url, dest)]: the file is written when the fetch
    succeeds. *)
Definition downloadFile (url dest : jstring) : M E unit :=
  fun w =>
    let '(o, r) := fetch url (outside w) in
    match r with
    | Ok data =>
        (World (<[dest := data]> (files w)) o (trace w ++ [Download url dest r]), Ok tt)
    | Throw e =>
        (World (files w) o (trace w ++ [Download url dest r]), Throw e)
    end.

(** Step 1 *)
Definition step1 (description : jstring) : M E unit :=
  writeFileSync (js "input.txt") description.

(** A value interpolated in a template literal: only whether its
    conversion to a string throws matters here. *)
Definition interpolate (v : option Json.value) : M E unit :=
  match v with
  | Some x => if Json.toStringThrows x then throw TypeError else ret tt
  | None => ret tt
  end.

(** [keyframes.forEach((kf, i) => console.log(... kf ...))] *)
Fixpoint logKeyframes (keyframes : list Json.value) : M E unit :=
  match keyframes with
  | [] => ret tt
  | kf :: rest => run! _ := interpolate (Some kf) in logKeyframes rest
  end.

(** [segments.forEach((s, i) => console.log(... s.script ...))]: reading
    the property throws a TypeError on a null segment. *)
Fixpoint logSegments (segments : list Json.value) : M E unit :=
  match segments with
  | [] => ret tt
  | s :: rest =>
      run! text := lift (Json.get (Some s) (js "script")) in
      run! _ := interpolate text in
      logSegments rest
  end.

(** The log lines that end step 2 (lines 93-100). *)
Definition logScript (mainCharacterDescription : option Json.value)
    (keyframes segments : list Json.value) : M E unit :=
  run! _ := interpolate mainCharacterDescription in
  run! _ := logKeyframes keyframes in
  logSegments segments.

(** Step 2 *)
Definition step2 : M E unit :=
  run! description := readFileSync (js "input.txt") in
  run! raw := askText description in
  run! script := lift (Repair.parseReply raw) in
  run! segments := lift (Json.get (Some script) (js "segments")) in
  run! keyframes := lift (Json.get (Some script) (js "keyframes")) in
  run! mainCharacterDescription :=
    lift (Json.get (Some script) (js "mainCharacterDescription")) in
  if negb (Json.isArray segments) || negb (Json.isArray keyframes)
     || negb (Json.truthy mainCharacterDescription)
  then throw InvalidScript
  else
    match JsonOps.items segments, JsonOps.items keyframes with
    | Some segs, Some kfs =>
        let expected := (length segs + 1)%nat in
        if negb (length kfs =? expected)%nat
        then throw (KeyframeMismatch expected (length kfs))
        else
          run! _ := writeFileSync (js "script.json") (stringify script) in
          logScript mainCharacterDescription kfs segs
    | _, _ => throw InvalidScript
    end.

(** The request of [downloadFile]: the fetch is made, and the trace
    keeps what it answers. *)
Definition requestFile (url dest : jstring) : M E jstring :=
  fun w =>
    let '(o, r) := fetch url (outside w) in
    (World (files w) o (trace w ++ [Download url dest r]), r).

(** The task of step 5 for the segment of index [i]: the arguments are
    read and the video call is made; when it has answered the download is
    requested; when that has answered the file is written. *)
Definition segmentTask (keyframeUrls : Json.value) (i : nat)
    (segment : Json.value) : task E unit :=
  Waiting
    (await (run! prompt := lift (Json.get (Some segment) (js "script")) in
            run! first := lift (JsonOps.index keyframeUrls i) in
            run! last := lift (JsonOps.index keyframeUrls (i + 1)) in
            askVideo prompt first last) (fun videoUrl =>
     await (requestFile videoUrl (js "segment" ++ Js.decimal (i + 1) ++ js ".mp4"))
       (fun data =>
     returns (writeFileSync (js "segment" ++ Js.decimal (i + 1) ++ js ".mp4") data)))).

(** Step 5.  [segments.map] is a TypeError on what is no array. *)
Definition step5 (order : list nat) : M E unit :=
  run! script := readJSON (js "script.json") in
  run! keyframeUrls := readJSON (js "keyframes.json") in
  run! segments := lift (Json.get (Some script) (js "segments")) in
  match JsonOps.items segments with
  | Some segs =>
      run! _ := awaitAll order (imap (segmentTask keyframeUrls) segs) in
      ret tt
  | None => throw TypeError
  end.

End Pipeline.

(** ** The server (server.ts): the table of running steps and the route
    [POST /api/projects/:id/step/:stepNum] *)

Module Server.

(** What [parseInt] returns.  The integer is the exact value of the
    digits; its rounding to a double keeps every comparison made here
    (with 1 and with 6) and every case of the switch. *)
Inductive num := NaN | Int (z : Z).

(** [a < b] on numbers: false when either is NaN. *)
Definition lt (a b : num) : bool :=
  match a, b with Int x, Int y => (x <? y)%Z | _, _ => false end.

Definition digit_val (c : N) : option N :=
  if Js.is_digit c then Some (c - 48)
  else if (97 <=? c) && (c <=? 122) then Some (c - 87)
  else if (65 <=? c) && (c <=? 90) then Some (c - 55)
  else None.

Definition is_radix_digit (radix c : N) : bool :=
  match digit_val c with Some d => d <? radix | None => false end.

Definition radix_val (radix : N) (ds : jstring) : N :=
  fold_left (fun acc c => radix * acc + default 0 (digit_val c)) ds 0.

Fixpoint trimStart (s : jstring) : jstring :=
  match s with
  | c :: s' => if Js.is_space c then trimStart s' else s
  | [] => []
  end.

(** [parseInt(s)] with no radix: leading white space, a sign, the
    prefix 0x or 0X for radix 16, then the longest run of digits; NaN
    when that run is empty. *)
Definition parseInt (s : jstring) : num :=
  let s := trimStart s in
  let '(negative, s) :=
    match s with
    | c :: t => if c =? 45 then (true, t) else if c =? 43 then (false, t) else (false, s)
    | [] => (false, s)
    end in
  let '(radix, s) :=
    match s with
    | a :: b :: t => if (a =? 48) && ((b =? 120) || (b =? 88)) then (16, t) else (10, s)
    | _ => (10, s)
    end in
  match fst (Js.span (is_radix_digit radix) s) with
  | [] => NaN
  | ds => Int (if negative then - Z.of_N (radix_val radix ds) else Z.of_N (radix_val radix ds))
  end.

Inductive message :=
| StepNumRange                 (* stepNum must be 1-6 *)
| AlreadyRunning (n : num)     (* Step n is already running for this project *)
| DescriptionRequired          (* description required for step 1 *)
| Failure (e : error).         (* err.message *)

Inductive payload :=
| ErrorBody (m : message)
| StatusBody (id : jstring) (st : status).

Record response := Response { code : Z; body : payload }.

(** The state of the process: the map [running], the directories of
    the projects under temp/ (project id to file name to content), and,
    for the statements below, the list of the step functions called so
    far, each entered when the call is made. *)
Record server := Server {
  running : gmap jstring num;
  disk : gmap jstring (gmap jstring jstring);
  called : list (jstring * Z)
}.

Inductive progress :=
| Responded (r : response)
| Awaiting (n : Z).           (* suspended at [await stepN(dir)] *)

Inductive input :=
| Request (id stepNum : jstring) (reqBody : option Json.value)
| Settled (id : jstring).     (* the awaited step of project [id] settles *)

Section Route.

(** The step functions of index.ts as the route sees them: step [n]
    of project [id] (with the description, for step 1) changes the
    directories and returns or throws. *)
Variable runStep :
  Z -> jstring -> option Json.value ->
  gmap jstring (gmap jstring jstring) -> gmap jstring (gmap jstring jstring) * result unit.

(** [fs.readdirSync(dir)] when the directory exists: the names of its
    files.  The code gets them sorted; the order here is that of the
    map, and nothing below depends on it. *)
Definition readdir (srv : server) (id : jstring) : option (list jstring) :=
  (fun dir => fst <$> map_to_list dir) <$> disk srv !! id.

Definition callStep (n : Z) (id : jstring) (description : option Json.value)
    (srv : server) : server * result unit :=
  let '(d, r) := runStep n id description (disk srv) in
  (Server (running srv) d (called srv ++ [(id, n)]), r).

(** [finally { running.delete(id) }] *)
Definition finally (id : jstring) (srv : server) : server :=
  Server (delete id (running srv)) (disk srv) (called srv).

(** The end of the try block once the switch is over: the status
    reply, or the reply of the catch clause, and the finally clause. *)
Definition finish (id : jstring) (r : result unit) (srv : server)
    : server * response :=
  (finally id srv,
   match r with
   | Ok _ => Response 200 (StatusBody id (Progress.detectStatus (readdir srv id)))
   | Throw e => Response 500 (ErrorBody (Failure e))
   end).

(** A step function called and awaited: the call is made in the turn of
    the request, where the function runs to its first await (the steps 2
    to 5 of index.ts read their input files there and write nothing). *)
Definition beginStep (n : Z) (id : jstring) (srv : server) : server :=
  Server (running srv) (disk srv) (called srv ++ [(id, n)]).

(** What the step did to the directories, taken at once when it
    settles, with what it returned or threw. *)
Definition endStep (n : Z) (id : jstring) (srv : server) : server * result unit :=
  let '(d, r) := runStep n id None (disk srv) in
  (Server (running srv) d (called srv), r).

(** The handler up to its first await, or to its end when it meets
    none.  Steps 1 and 6 are called and return in the turn of the
    request; steps 2 to 5 are called there and awaited. *)
Definition enter (srv : server) (id stepNumParam : jstring)
    (reqBody : option Json.value) : server * progress :=
  let stepNum := parseInt stepNumParam in
  if lt stepNum (Int 1) || lt (Int 6) stepNum then
    (srv, Responded (Response 400 (ErrorBody StepNumRange)))
  else
    match running srv !! id with
    | Some n => (srv, Responded (Response 409 (ErrorBody (AlreadyRunning n))))
    | None =>
        let srv := Server (<[id := stepNum]> (running srv)) (disk srv) (called srv) in
        match stepNum with
        | Int 1 =>
            match Json.get reqBody (js "description") with
            | Throw e => let '(s, r) := finish id (Throw e) srv in (s, Responded r)
            | Ok description =>
                if negb (Json.truthy description) then
                  (finally id srv, Responded (Response 400 (ErrorBody DescriptionRequired)))
                else
                  let '(srv, r) := callStep 1 id description srv in
                  let '(s, r) := finish id r srv in (s, Responded r)
            end
        | Int 6 =>
            let '(srv, r) := callStep 6 id None srv in
            let '(s, r) := finish id r srv in (s, Responded r)
        | Int n =>
            if ((2 <=? n) && (n <=? 5))%Z then (beginStep n id srv, Awaiting n)
            else let '(s, r) := finish id (Ok tt) srv in (s, Responded r)
        | NaN => let '(s, r) := finish id (Ok tt) srv in (s, Responded r)
        end
    end.

(** The handler from the await on, when the step it waits for
    settles. *)
Definition resume (srv : server) (id : jstring) : server * option response :=
  match running srv !! id with
  | Some (Int n) =>
      if ((2 <=? n) && (n <=? 5))%Z then
        let '(srv, r) := endStep n id srv in
        let '(s, r) := finish id r srv in (s, Some r)
      else (srv, None)
  | _ => (srv, None)
  end.

(** One turn of the event loop. *)
Definition react (srv : server) (i : input) : server * option response :=
  match i with
  | Request id stepNum reqBody =>
      match enter srv id stepNum reqBody with
      | (s, Responded r) => (s, Some r)
      | (s, Awaiting _) => (s, None)
      end
  | Settled id => resume srv id
  end.

Fixpoint run (srv : server) (inputs : list input) : server :=
  match inputs with
  | [] => srv
  | i :: rest => run (fst (react srv i)) rest
  end.

End Route.

Definition start : server := Server ∅ ∅ [].

Definition inputId (i : input) : jstring :=
  match i with Request id _ _ => id | Settled id => id end.

(** The entries of the table are the runs suspended at an await: steps
    2 to 5. *)
Definition suspended (srv : server) : Prop :=
  forall id n, running srv !! id = Some n -> exists k, n = Int k /\ (2 <= k <= 5)%Z.

(** A step function that changes nothing and returns. *)
Definition idle (n : Z) (id : jstring) (description : option Json.value)
    (d : gmap jstring (gmap jstring jstring))
    : gmap jstring (gmap jstring jstring) * result unit := (d, Ok tt).

End Server.

(** ** The trace of step 5 *)

Module Step5Trace.

(** The file of the segment of index [i]. *)
Definition segmentFile (i : nat) : jstring :=
  js "segment" ++ Js.decimal (i + 1) ++ js ".mp4".
Arguments segmentFile : simpl never.

(** The arguments of the video calls of a trace. *)
Definition videoCalls (evs : list event)
    : list (option Json.value * option Json.value * option Json.value) :=
  omap (fun ev => match ev with
                  | VideoCall prompt first last _ => Some (prompt, first, last)
                  | _ => None
                  end) evs.

(** The arguments the claim gives the call of each segment: its script
    text and the URLs at its index and at the next one. *)
Definition calls (urls segs : list Json.value)
    : list (option Json.value * option Json.value * option Json.value) :=
  imap (fun i segment => (JsonOps.property segment (js "script"),
                          urls !! i, urls !! (i + 1)%nat)) segs.

(** A call or a download of the trace that threw [e]. *)
Definition threw (e : error) (ev : event) : Prop :=
  match ev with
  | VideoCall _ _ _ r => r = Throw e
  | Download _ _ r => r = Throw e
  | TextCall _ r => r = Throw e
  end.

Section Linked.

Context {E : Type}.
Variable generateVideo :
  option Json.value -> option Json.value -> option Json.value -> E -> E * result jstring.
Variable fetch : jstring -> E -> E * result jstring.

(** The events are the calls made, in the order they were made: from
    the world outside [o], each video call and each fetch of the list
    answers what the event says, and the last leaves the world [o']. *)
Fixpoint linked (o : E) (evs : list event) (o' : E) : Prop :=
  match evs with
  | [] => o = o'
  | VideoCall prompt first last r :: rest =>
      snd (generateVideo prompt first last o) = r
      /\ linked (fst (generateVideo prompt first last o)) rest o'
  | Download url _ r :: rest =>
      snd (fetch url o) = r /\ linked (fst (fetch url o)) rest o'
  | TextCall _ _ :: _ => False
  end.

End Linked.

End Step5Trace.

(** ** A compact printer of JSON values

    No white space, strings written raw between double quotes, numbers as
    mantissa and exponent.  It stands for [JSON.stringify] in the sample
    runs below. *)

Module Render.

Definition quoted (s : jstring) : jstring := Js.quote :: s ++ [Js.quote].

Definition number (n : Json.number) : jstring :=
  (if Json.negative n then js "-" else [])
  ++ Js.decimal (N.to_nat (Json.mantissa n)) ++ js "e"
  ++ (if (Json.exponent n <? 0)%Z then js "-" else [])
  ++ Js.decimal (Z.abs_nat (Json.exponent n)).

Fixpoint text (v : Json.value) : jstring :=
  match v with
  | Json.Null => js "null"
  | Json.Bool true => js "true"
  | Json.Bool false => js "false"
  | Json.Num n => number n
  | Json.Str s => quoted s
  | Json.Arr l =>
      91 :: (fix items (l : list Json.value) : jstring :=
               match l with
               | [] => []
               | [x] => text x
               | x :: l' => text x ++ 44 :: items l'
               end) l ++ [93]
  | Json.Obj ms =>
      123 :: (fix members (ms : list (jstring * Json.value)) : jstring :=
                match ms with
                | [] => []
                | [(k, x)] => quoted k ++ 58 :: text x
                | (k, x) :: ms' => quoted k ++ 58 :: text x ++ 44 :: members ms'
                end) ms ++ [125]
  end.

(** A character that stands for itself in a string literal and is no
    closing bracket: not below U+0020, no double quote, no backslash,
    no [}] and no []]. *)
Definition plainChar (c : N) : bool :=
  (32 <=? c) && negb (c =? 34) && negb (c =? 92) && negb (Repair.is_close c).

Definition plainString (s : jstring) : bool := forallb plainChar s.

(** The value of a script: the description of the main character, the
    descriptions of the keyframes and the texts of the segments. *)
Definition script (mainCharacterDescription : jstring)
    (keyframes segments : list jstring) : Json.value :=
  Json.Obj
    [(js "mainCharacterDescription", Json.Str mainCharacterDescription);
     (js "keyframes", Json.Arr (Json.Str <$> keyframes));
     (js "segments",
      Json.Arr ((fun s => Json.Obj [(js "script", Json.Str s)]) <$> segments))].

End Render.

(** ** JSON texts with their layout

    A JSON text with the white space it has between its tokens and, for
    each array and object, whether a comma stands before its closing
    bracket.  A string is given by the characters written between its
    double quotes, escapes included, and a number by the parts of its
    literal. *)

Module Layout.

(** What a string literal denotes, from the characters written between
    its double quotes: a character from U+0020 on other than the double
    quote and the backslash stands for itself; a backslash and one of
    the characters of [Json.escape_val] for the character escaped; a
    backslash, the letter u and four hexadecimal digits for the code unit
    of that number.  [None] when the characters are not those of a
    string literal. *)
Fixpoint unquote (s : jstring) : option jstring :=
  match s with
  | [] => Some []
  | c :: t =>
      if c =? 92 then
        match t with
        | e :: t' =>
            if e =? 117 then
              match t' with
              | h1 :: h2 :: h3 :: h4 :: t'' =>
                  u ← Json.hex4 h1 h2 h3 h4; r ← unquote t''; Some (u :: r)
              | _ => None
              end
            else u ← Json.escape_val e; r ← unquote t'; Some (u :: r)
        | [] => None
        end
      else if (c <? 32) || (c =? 34) then None
      else r ← unquote t; Some (c :: r)
  end.

(** A number literal: whether it has a minus sign, the digits of its
    integer part, the digits of its fraction (none when it has no
    fraction) and, when it has an exponent, whether the letter is a
    capital, the sign as written (none, a plus for [false], a minus for
    [true]) and the digits. *)
Record numeral := Numeral {
  minus : bool;
  whole : jstring;
  fraction : jstring;
  power : option (bool * option bool * jstring)
}.

Definition signText (sign : option bool) : jstring :=
  match sign with
  | None => []
  | Some false => [43]
  | Some true => [45]
  end.

Definition numeralText (n : numeral) : jstring :=
  (if minus n then [45] else [])
  ++ whole n
  ++ match fraction n with [] => [] | f => 46 :: f end
  ++ match power n with
     | None => []
     | Some (capital, sign, ds) => (if capital then 69 else 101) :: signText sign ++ ds
     end.

Definition digits (ds : jstring) : bool := forallb Js.is_digit ds.

(** The integer part is one digit, or digits of which the first is no
    zero; the fraction is made of digits; the exponent has a digit at
    least. *)
Definition numeralOk (n : numeral) : bool :=
  match whole n with
  | [] => false
  | d :: t => Js.is_digit d && digits t && (negb (d =? 48) || bool_decide (t = []))
  end
  && digits (fraction n)
  && match power n with
     | None => true
     | Some (_, _, ds) => negb (bool_decide (ds = [])) && digits ds
     end.

(** What follows a number literal does not continue it: no digit, dot
    or letter e comes next. *)
Definition endsNumeral (rest : jstring) : bool :=
  match rest with
  | [] => true
  | c :: _ => negb (Js.is_digit c || (c =? 46) || (c =? 101) || (c =? 69))
  end.

(** The number the literal denotes. *)
Definition numeralValue (n : numeral) : Json.number :=
  {| Json.negative := minus n;
     Json.mantissa := Json.digits_val (whole n ++ fraction n);
     Json.exponent :=
       (match power n with
        | None => 0
        | Some (_, Some true, ds) => - Z.of_N (Json.digits_val ds)
        | Some (_, _, ds) => Z.of_N (Json.digits_val ds)
        end - Z.of_nat (length (fraction n)))%Z |}.

(** An element of an array, or the value of a member: the value, the
    white space after it, and the white space after the comma that
    follows it (unused after the last element when no comma follows). *)
Unset Elimination Schemes.
Inductive doc :=
| DNull
| DBool (b : bool)
| DNum (n : numeral)
| DStr (s : jstring)
| DArr (w : jstring) (elements : list (doc * jstring * jstring)) (trailing : bool)
| DObj (w : jstring)
       (members : list ((jstring * jstring * jstring) * (doc * jstring * jstring)))
       (trailing : bool).
Set Elimination Schemes.

(** The text: [w] follows the opening bracket; a member is its name, the
    white space before the colon, the colon, the white space after it,
    and its value as an element. *)
Fixpoint text (d : doc) : jstring :=
  match d with
  | DNull => js "null"
  | DBool true => js "true"
  | DBool false => js "false"
  | DNum n => numeralText n
  | DStr s => Render.quoted s
  | DArr w els tr =>
      91 :: w ++
      (fix items (els : list (doc * jstring * jstring)) : jstring :=
         match els with
         | [] => []
         | [(x, a, b)] => text x ++ a ++ (if tr then 44 :: b else [])
         | (x, a, b) :: els' => text x ++ a ++ 44 :: b ++ items els'
         end) els ++ [93]
  | DObj w ms tr =>
      123 :: w ++
      (fix members (ms : list ((jstring * jstring * jstring) * (doc * jstring * jstring)))
         : jstring :=
         match ms with
         | [] => []
         | [((k, wk, wc), (x, a, b))] =>
             Render.quoted k ++ wk ++ 58 :: wc ++ text x ++ a
             ++ (if tr then 44 :: b else [])
         | ((k, wk, wc), (x, a, b)) :: ms' =>
             Render.quoted k ++ wk ++ 58 :: wc ++ text x ++ a ++ 44 :: b ++ members ms'
         end) ms ++ [125]
  end.

Definition itemsText (tr : bool) : list (doc * jstring * jstring) -> jstring :=
  fix items (els : list (doc * jstring * jstring)) : jstring :=
    match els with
    | [] => []
    | [(x, a, b)] => text x ++ a ++ (if tr then 44 :: b else [])
    | (x, a, b) :: els' => text x ++ a ++ 44 :: b ++ items els'
    end.

Definition membersText (tr : bool)
    : list ((jstring * jstring * jstring) * (doc * jstring * jstring)) -> jstring :=
  fix members (ms : list ((jstring * jstring * jstring) * (doc * jstring * jstring)))
    : jstring :=
    match ms with
    | [] => []
    | [((k, wk, wc), (x, a, b))] =>
        Render.quoted k ++ wk ++ 58 :: wc ++ text x ++ a
        ++ (if tr then 44 :: b else [])
    | ((k, wk, wc), (x, a, b)) :: ms' =>
        Render.quoted k ++ wk ++ 58 :: wc ++ text x ++ a ++ 44 :: b ++ members ms'
    end.

(** The string a literal denotes (the empty string for what is no
    literal). *)
Definition unquoted (s : jstring) : jstring := default [] (unquote s).

(** The value the text denotes. *)
Fixpoint value (d : doc) : Json.value :=
  match d with
  | DNull => Json.Null
  | DBool b => Json.Bool b
  | DNum n => Json.Num (numeralValue n)
  | DStr s => Json.Str (unquoted s)
  | DArr _ els _ => Json.Arr (map (fun e => value (fst (fst e))) els)
  | DObj _ ms _ =>
      Json.Obj (map (fun m => (unquoted (fst (fst (fst m))), value (fst (fst (snd m))))) ms)
  end.

(** The same text without its trailing commas, and without the white
    space that followed them. *)
Fixpoint strict (d : doc) : doc :=
  match d with
  | DArr w els _ =>
      DArr w (map (fun e => (strict (fst (fst e)), snd (fst e), snd e)) els) false
  | DObj w ms _ =>
      DObj w (map (fun m => (fst m, (strict (fst (fst (snd m))),
                                     snd (fst (snd m)), snd (snd m)))) ms) false
  | _ => d
  end.

(** A run of the white space of JSON. *)
Definition space (w : jstring) : bool := forallb Json.is_ws w.

(** A string written without escapes that the repairs leave alone:
    plain characters, and no colon followed by spaces only at its end. *)
Definition quiet (s : jstring) : bool :=
  Render.plainString s && negb (Repair.after_colon (rev s)).

(** No comma of the string is followed by white space, or by nothing,
    and then by a closing bracket or brace: the first replacement of
    step 2 would take that comma away. *)
Fixpoint commaSafe (s : jstring) : bool :=
  match s with
  | [] => true
  | c :: t => negb ((c =? 44) && Repair.closes_after_space t) && commaSafe t
  end.

(** A string literal the repairs leave alone: the characters of a
    string literal, with no comma as above and no colon followed by
    spaces only at the end. *)
Definition calm (s : jstring) : bool :=
  match unquote s with Some _ => true | None => false end
  && commaSafe s && negb (Repair.after_colon (rev s)).

(** Every white space is a run of JSON white space, every number is a
    number literal, and every string and member name is calm. *)
Fixpoint wf (d : doc) : bool :=
  match d with
  | DNull | DBool _ => true
  | DNum n => numeralOk n
  | DStr s => calm s
  | DArr w els _ =>
      space w
      && forallb (fun e => wf (fst (fst e)) && space (snd (fst e)) && space (snd e)) els
  | DObj w ms _ =>
      space w
      && forallb (fun m =>
                    calm (fst (fst (fst m))) && space (snd (fst (fst m)))
                    && space (snd (fst m))
                    && wf (fst (fst (snd m))) && space (snd (fst (snd m)))
                    && space (snd (snd m))) ms
  end.

(** No array and no object of the text has a trailing comma. *)
Fixpoint isStrict (d : doc) : bool :=
  match d with
  | DArr _ els tr => negb tr && forallb (fun e => isStrict (fst (fst e))) els
  | DObj _ ms tr => negb tr && forallb (fun m => isStrict (fst (fst (snd m)))) ms
  | _ => true
  end.

(** A text seen by its string literals alone: characters other than the
    double quote, and calm strings between double quotes. *)
Inductive lexical : jstring -> Prop :=
| lexical_nil : lexical []
| lexical_char (c : N) (s : jstring) : c <> 34 -> lexical s -> lexical (c :: s)
| lexical_string (q s : jstring) :
    calm q = true -> lexical s -> lexical (Render.quoted q ++ s).

(** The text a pretty printer gives a script: one member per line, the
    arrays on one line, a trailing comma in each array and object. *)
Definition script (mainCharacterDescription : jstring)
    (keyframes segments : list jstring) : doc :=
  let line := [10; 32; 32] in
  DObj line
    [((js "mainCharacterDescription", [], [32]),
      (DStr mainCharacterDescription, [], line));
     ((js "keyframes", [], [32]),
      (DArr [] (map (fun k => (DStr k, [], [32])) keyframes) true, [], line));
     ((js "segments", [], [32]),
      (DArr [] (map (fun s => (DObj [] [((js "script", [], [32]), (DStr s, [], []))] true,
                               [], [32])) segments) true,
       [], [10]))]
    true.

End Layout.

(** ** Sample projects and replies *)

Module Sample.

(** A text capability that answers [reply] to every prompt. *)
Definition llm (reply : jstring) (description : jstring) (o : unit)
    : unit * result jstring := (o, Ok reply).

(** A project after step 1. *)
Definition project : world unit :=
  World {[ js "input.txt" := js "a lone astronaut" ]} tt [].

(** Two segments and three keyframes. *)
Definition twoSegments : Json.value :=
  Render.script (js "an astronaut") [js "dawn"; js "noon"; js "dusk"]
    [js "walks"; js "rests"].

(** Three segments and two keyframes. *)
Definition mismatch : Json.value :=
  Render.script (js "an astronaut") [js "dawn"; js "dusk"]
    [js "walks"; js "rests"; js "sleeps"].

(** The text of a script as a pretty printer gives it. *)
Definition pretty : Layout.doc :=
  Layout.script (js "an astronaut: tall, in a white suit")
    [js "dawn"; js "noon"; js "dusk"] [js "walks"; js "rests"].

(** That text after prose that holds braces. *)
Definition bracedReply : jstring :=
  js "Here is {the script}: " ++ Layout.text pretty.

(** A script as a model may write it: an escaped double quote, braces
    and brackets inside strings, a unicode escape, numbers, and a comma
    before each closing bracket. *)
Definition rich : Layout.doc :=
  let line := [10; 32; 32] in
  Layout.DObj line
    [((js "mainCharacterDescription", [], [32]),
      (Layout.DStr (js "an astronaut {tall}, called " ++ [92; 34] ++ js "Al" ++ [92; 34]),
       [], line));
     ((js "keyframes", [], [32]),
      (Layout.DArr []
         [(Layout.DStr (js "dawn [1]"), [], [32]);
          (Layout.DStr (js "caf\u00e9 at noon"), [], [32]);
          (Layout.DStr (js "dusk, at last"), [], [])] true, [], line));
     ((js "segments", [], [32]),
      (Layout.DArr []
         [(Layout.DObj []
             [((js "script", [], [32]), (Layout.DStr (js "walks\n}"), [], [32]));
              ((js "seconds", [], [32]),
               (Layout.DNum (Layout.Numeral false (js "6") (js "5")
                               (Some (false, Some true, js "1"))), [], []))]
             true, [], [32]);
          (Layout.DObj []
             [((js "script", [], [32]), (Layout.DStr (js "rests"), [], [32]));
              ((js "seconds", [], [32]),
               (Layout.DNum (Layout.Numeral true (js "12") [] None), [], []))]
             false, [], [])] true,
       [], [10]))]
    true.

(** An object whose one string holds a comma, a space and a closing
    brace. *)
Definition comma : Layout.doc :=
  Layout.DObj [] [((js "a", [], []), (Layout.DStr (js "x, }y"), [], []))] false.

(** An object over two lines, with a trailing comma, whose first string
    ends with a colon and a space. *)
Definition colon : Layout.doc :=
  Layout.DObj []
    [((js "mainCharacterDescription", [], []),
      (Layout.DStr (js "an astronaut: "), [], [10]));
     ((js "keyframes", [], []),
      (Layout.DArr [] [(Layout.DStr (js "dawn"), [], []);
                       (Layout.DStr (js "dusk"), [], [])] false, [], []))]
    true.

(** A project after step 4, with the script of two segments. *)
Definition keyframeUrls : list Json.value :=
  [Json.Str (js "u0"); Json.Str (js "u1"); Json.Str (js "u2")].

Definition videoProject : world unit :=
  World {[ js "script.json" := Render.text twoSegments;
           js "keyframes.json" := Render.text (Json.Arr keyframeUrls) ]} tt [].

(** A video capability and a download that always succeed. *)
Definition video (prompt first last : option Json.value) (o : unit)
    : unit * result jstring := (o, Ok (js "v")).

Definition bytes (url : jstring) (o : unit) : unit * result jstring :=
  (o, Ok (js "data")).

End Sample.

(** ** Arrays of strings *)

Module JsText.

(** [l.join(sep)] for an array of strings. *)
Fixpoint join (sep : jstring) (l : list jstring) : jstring :=
  match l with
  | [] => []
  | [x] => x
  | x :: l' => x ++ sep ++ join sep l'
  end.

(** [l.indexOf(x)] for an array of strings; [None] is -1. *)
Fixpoint indexOf (l : list jstring) (x : jstring) : option nat :=
  match l with
  | [] => None
  | y :: l' => if Js.eqb y x then Some O else S <$> indexOf l' x
  end.

(** [s.trim()]: the white space [parseInt] skips, at both ends. *)
Definition trim (s : jstring) : jstring :=
  rev (Server.trimStart (rev (Server.trimStart s))).

End JsText.

(** ** [JSON.stringify] of an array of strings (step4, index.ts line 137) *)

Module Stringify.

(** A lower-case hexadecimal digit. *)
Definition hex_digit (d : N) : N := if d <? 10 then 48 + d else 87 + d.

(** UnicodeEscape: a backslash, "u" and four hexadecimal digits. *)
Definition unicode_escape (c : N) : jstring :=
  [92; 117; hex_digit (c / 4096); hex_digit ((c / 256) mod 16);
   hex_digit ((c / 16) mod 16); hex_digit (c mod 16)].

Definition is_high_surrogate (c : N) : bool := (55296 <=? c) && (c <=? 56319).
Definition is_low_surrogate (c : N) : bool := (56320 <=? c) && (c <=? 57343).

(** [String.prototype.isWellFormed]: no surrogate that is not half of a
    pair.  A well-formed string written to a file as UTF-8 is the string
    that is read back; a surrogate on its own would come back as
    U+FFFD. *)
Fixpoint isWellFormed (s : jstring) : bool :=
  match s with
  | [] => true
  | c :: t =>
      if is_high_surrogate c then
        match t with
        | d :: t' => is_low_surrogate d && isWellFormed t'
        | [] => false
        end
      else negb (is_low_surrogate c) && isWellFormed t
  end.

(** The characters of QuoteJSONString between its two quotes: the short
    escapes for backspace, tab, line feed, form feed, carriage return,
    double quote and backslash; a unicode escape for the other
    characters below U+0020 and for a surrogate that is not half of a
    pair; every other character as it is. *)
Fixpoint quote_chars (s : jstring) : jstring :=
  match s with
  | [] => []
  | c :: t =>
      if c =? 8 then 92 :: 98 :: quote_chars t
      else if c =? 9 then 92 :: 116 :: quote_chars t
      else if c =? 10 then 92 :: 110 :: quote_chars t
      else if c =? 12 then 92 :: 102 :: quote_chars t
      else if c =? 13 then 92 :: 114 :: quote_chars t
      else if c =? 34 then 92 :: 34 :: quote_chars t
      else if c =? 92 then 92 :: 92 :: quote_chars t
      else if c <? 32 then unicode_escape c ++ quote_chars t
      else if is_high_surrogate c then
        match t with
        | d :: t' =>
            if is_low_surrogate d then c :: d :: quote_chars t'
            else unicode_escape c ++ quote_chars t
        | [] => unicode_escape c
        end
      else if is_low_surrogate c then unicode_escape c ++ quote_chars t
      else c :: quote_chars t
  end.

Definition quote (s : jstring) : jstring := 34 :: quote_chars s ++ [34].

(** [JSON.stringify(l, null, 2)] for an array of strings: the empty
    array on one line, otherwise one element per line behind two
    spaces. *)
Definition strings (l : list jstring) : jstring :=
  match l with
  | [] => js "[]"
  | _ => 91 :: [10; 32; 32] ++ JsText.join [44; 10; 32; 32] (quote <$> l) ++ [10; 93]
  end.

End Stringify.

(** ** The other steps of the pipeline (index.ts) *)

(** [new Error(message)], for the messages of steps 4 and 6 and of the
    provider: the errors of the model carry such a message under
    [ProviderError]. *)
Definition Error (message : jstring) : error := ProviderError message.

(** [fs.readdirSync] of the directory of a project. *)
Definition readdirSync {E} (w : world E) : list jstring :=
  fst <$> map_to_list (files w).

Section Studio.

Context {E : Type}.

(** The capabilities: the three generators of the provider, the fetch
    of a download, [JSON.stringify] of a script, the length
    [Array.from] reads from a value that is neither an array nor a
    string (ToLength), and the ffmpeg command of step 6, which is
    handed the directory and leaves it as it sees fit. *)
Variable callLLM : jstring -> E -> E * result jstring.
Variable generateImage :
  option Json.value -> option jstring -> E -> E * result jstring.
Variable generateVideo :
  option Json.value -> option Json.value -> option Json.value -> E -> E * result jstring.
Variable fetch : jstring -> E -> E * result jstring.
Variable stringify : Json.value -> jstring.
Variable toLength : Json.value -> result nat.
Variable ffmpeg : gmap jstring jstring -> E -> gmap jstring jstring * E * result unit.

(** A call of [generateImage]; the trace keeps the downloads, not the
    image calls. *)
Definition askImage (prompt : option Json.value) (reference : option jstring)
    : M E jstring :=
  fun w =>
    let '(o, r) := generateImage prompt reference (outside w) in
    (World (files w) o (trace w), r).

(** Step 3 *)
Definition step3 : M E unit :=
  run! script := readJSON (js "script.json") in
  run! mainCharacterDescription :=
    lift (Json.get (Some script) (js "mainCharacterDescription")) in
  run! characterImageUrl := askImage mainCharacterDescription None in
  run! _ := downloadFile fetch characterImageUrl (js "character.jpg") in
  writeFileSync (js "character_url.txt") characterImageUrl.

(** The file of the keyframe of index [i]. *)
Definition keyframeFile (i : nat) : jstring :=
  js "keyframe" ++ Js.decimal i ++ js ".jpg".

(** The task of step 4 for the keyframe of index [i]: the image call is
    made; when it has answered the download is requested; when that has
    answered the file is written and the URL returned. *)
Definition keyframeTask (characterImageUrl : jstring) (i : nat)
    (description : Json.value) : task E jstring :=
  Waiting
    (await (askImage (Some description) (Some characterImageUrl)) (fun url =>
     await (requestFile fetch url (keyframeFile i)) (fun data =>
     returns (run! _ := writeFileSync (keyframeFile i) data in ret url)))).

(** Step 4.  [keyframes.map] is a TypeError on what is no array. *)
Definition step4 (order : list nat) : M E unit :=
  run! script := readJSON (js "script.json") in
  run! characterImageUrl := readFileSync (js "character_url.txt") in
  run! keyframes := lift (Json.get (Some script) (js "keyframes")) in
  if negb (Json.truthy keyframes) then
    throw (Error (js "Script is missing keyframes. Re-run step 2 to generate a new script."))
  else
    match JsonOps.items keyframes with
    | Some kfs =>
        run! keyframeUrls :=
          awaitAll order (imap (keyframeTask characterImageUrl) kfs) in
        writeFileSync (js "keyframes.json") (Stringify.strings keyframeUrls)
    | None => throw TypeError
    end.

(** [script.segments.length] as [Array.from] takes it: the length of an
    array or of a string; zero for a number or a boolean, whose
    [length] is undefined; for an object, the length its member of that
    name gives, zero when it has none. *)
Definition segmentCount (script : Json.value) : result nat :=
  match Json.get (Some script) (js "segments") with
  | Throw e => Throw e
  | Ok None | Ok (Some Json.Null) => Throw TypeError
  | Ok (Some (Json.Arr l)) => Ok (length l)
  | Ok (Some (Json.Str s)) => Ok (length s)
  | Ok (Some (Json.Num _)) | Ok (Some (Json.Bool _)) => Ok O
  | Ok (Some (Json.Obj ms)) =>
      match Json.lookup_last ms (js "length") with
      | Some v => toLength v
      | None => Ok O
      end
  end.

(** The line of list.txt for the segment of index [i]. *)
Definition listLine (i : nat) : jstring :=
  js "file 'segment" ++ Js.decimal (i + 1) ++ js ".mp4'".

(** [Array.from({ length: count }, (_, i) => line i).join(LF)] *)
Definition listContent (count : nat) : jstring :=
  JsText.join [10] (listLine <$> seq 0 count).

(** [execSync] of the ffmpeg command. *)
Definition execFfmpeg : M E unit :=
  fun w =>
    let '(fs, o, r) := ffmpeg (files w) (outside w) in
    (World fs o (trace w), r).

(** Step 6 *)
Definition step6 : M E unit :=
  run! script := readJSON (js "script.json") in
  run! count := lift (segmentCount script) in
  run! _ := writeFileSync (js "list.txt") (listContent count) in
  execFfmpeg.

(** [createMovie], in the directory it makes for the run; [order4] and
    [order5] are the orders in which the tasks of steps 4 and 5 are
    resumed. *)
Definition createMovie (order4 order5 : list nat) (description : jstring) : M E unit :=
  run! _ := step1 description in
  run! _ := step2 callLLM stringify in
  run! _ := step3 in
  run! _ := step4 order4 in
  run! _ := step5 generateVideo fetch order5 in
  step6.

End Studio.

(** ** The tasks of steps 4 and 5

    Both steps run one task per element, of the same shape: a generator
    call, the download of the URL it returns, the write of what was
    fetched.  What a run has done is told by its actions, in the order
    they were made, and by how far each task has come. *)

Module Pool.

(** The call of the task of index [i], with what it answered, and its
    fetch of [url], with what that answered. *)
Inductive action :=
| Call (i : nat) (r : result jstring)
| Fetch (i : nat) (url : jstring) (r : result jstring).

(** How far a task has come: not started; its call made, the answer
    not taken yet; its fetch made, the answer not taken yet; its file
    written. *)
Inductive phase :=
| Queued
| Called (r : result jstring)
| Fetching (url : jstring) (r : result jstring)
| Finished (url data : jstring).

(** The indices of the tasks that have made their call, and of those
    that have made their fetch. *)
Definition callers (acts : list action) : list nat :=
  omap (fun a => match a with Call i _ => Some i | Fetch _ _ _ => None end) acts.

Definition fetchers (acts : list action) : list nat :=
  omap (fun a => match a with Fetch i _ _ => Some i | Call _ _ => None end) acts.

(** An action that threw [e]. *)
Definition threw (e : error) (a : action) : Prop :=
  match a with
  | Call _ r => r = Throw e
  | Fetch _ _ r => r = Throw e
  end.

Section Pool.

Context {E A : Type}.

(** The fetch; for the task of index [i], its call as the task makes it,
    the file it writes and the value it returns. *)
Variable fetch : jstring -> E -> E * result jstring.
Variable call : nat -> M E jstring.
Variable dest : nat -> jstring.
Variable value : jstring -> A.

(** The task of index [i]. *)
Definition job (i : nat) : task E A :=
  Waiting
    (await (call i) (fun url =>
     await (requestFile fetch url (dest i)) (fun data =>
     returns (run! _ := writeFileSync (dest i) data in ret (value url))))).

(** The task of index [i] when it has come as far as [ph]. *)
Definition at_phase (i : nat) (ph : phase) : task E A :=
  match ph with
  | Queued => job i
  | Called r =>
      Waiting (fun w =>
        match r with
        | Ok url =>
            await (requestFile fetch url (dest i)) (fun data =>
            returns (run! _ := writeFileSync (dest i) data in ret (value url))) w
        | Throw e => (w, Settled (Throw e))
        end)
  | Fetching url r =>
      Waiting (fun w =>
        match r with
        | Ok data => returns (run! _ := writeFileSync (dest i) data in ret (value url)) w
        | Throw e => (w, Settled (Throw e))
        end)
  | Finished url _ => Settled (Ok (value url))
  end.

(** What the call of the task of index [i] does to the world outside,
    and what it adds to the trace. *)
Variable act : nat -> E -> E * result jstring.
Variable log : nat -> result jstring -> list event.

(** The actions are the calls and fetches made, in the order they were
    made: from the world outside [o], each answers what the action
    says, and the last leaves the world [o']. *)
Fixpoint linked (o : E) (acts : list action) (o' : E) : Prop :=
  match acts with
  | [] => o = o'
  | Call i r :: rest => snd (act i o) = r /\ linked (fst (act i o)) rest o'
  | Fetch _ url r :: rest => snd (fetch url o) = r /\ linked (fst (fetch url o)) rest o'
  end.

(** The events an action leaves in the trace. *)
Definition shown (a : action) : list event :=
  match a with
  | Call i r => log i r
  | Fetch i url r => [Download url (dest i) r]
  end.

(** A phase and the actions agree: the actions of the task are those
    the phase tells, and a finished task has its file. *)
Definition told (acts : list action) (fs : gmap jstring jstring) (i : nat) (ph : phase)
    : Prop :=
  match ph with
  | Queued => (i ∉ callers acts) /\ (i ∉ fetchers acts)
  | Called r => (Call i r ∈ acts) /\ (i ∉ fetchers acts)
  | Fetching url r => (Call i (Ok url) ∈ acts) /\ (Fetch i url r ∈ acts)
  | Finished url data =>
      (Call i (Ok url) ∈ acts) /\ (Fetch i url (Ok data) ∈ acts)
      /\ fs !! dest i = Some data
  end.

(** What holds of a run that started in the world [w0] and has come to
    the world [w], with the tasks in the phases [phases] after the
    actions [acts]. *)
Record reached (w0 : world E) (phases : list phase) (acts : list action) (w : world E)
    : Prop := Reached {
  reached_linked : linked (outside w0) acts (outside w);
  reached_trace : trace w = trace w0 ++ (acts ≫= shown);
  reached_told : forall i ph, phases !! i = Some ph -> told acts (files w) i ph;
  reached_callers : NoDup (callers acts);
  reached_fetchers : NoDup (fetchers acts);
  reached_bound : forall i,
    (i ∈ callers acts) \/ (i ∈ fetchers acts) -> (i < length phases)%nat;
  reached_files : forall name,
    (forall i url data, phases !! i = Some (Finished url data) -> dest i <> name) ->
    files w !! name = files w0 !! name
}.

(** Every task has written its file. *)
Definition finished (phases : list phase) : Prop :=
  Forall (fun ph => match ph with Finished _ _ => True | _ => False end) phases.

(** The URLs of the finished tasks. *)
Definition urls (phases : list phase) : list jstring :=
  omap (fun ph => match ph with Finished url _ => Some url | _ => None end) phases.

(** What finishing the task of index [i] on its own leaves: the task
    has come to some phase; when it returns its file is written, and
    when it throws the error is that of an action. *)
Definition finishes (w0 : world E) (phases : list phase) (i : nat)
    (out : world E * result A) : Prop :=
  exists ph acts,
    reached w0 (<[i := ph]> phases) acts (fst out)
    /\ match snd out with
       | Ok a => exists url data, ph = Finished url data /\ a = value url
       | Throw e => exists a, a ∈ acts /\ threw e a
       end.

(** What a run of [n] tasks that started in [w0] ends in: the tasks are
    where the actions tell; when the promise resolves every task has
    written its file and the values are those of the tasks, in the
    order of the indices; when it rejects the error is that of an
    action. *)
Definition ends (w0 : world E) (n : nat) (out : world E * result (list A)) : Prop :=
  exists phases acts,
    length phases = n
    /\ reached w0 phases acts (fst out)
    /\ match snd out with
       | Ok l => finished phases /\ l = value <$> urls phases
       | Throw e => exists a, a ∈ acts /\ threw e a
       end.

(** The same, told by the actions alone.  The actions are the calls
    and fetches made, in order, and the trace shows them; no task calls
    or fetches twice; a task fetches the URL its call returned; a file
    is as it was or holds what the task that writes it fetched.  When
    the promise resolves every task has called, fetched and written, and
    the values are those of the tasks in the order of the indices; when
    it rejects the error is that of a call or of a fetch. *)
Record report (w0 : world E) (n : nat) (acts : list action)
    (out : world E * result (list A)) : Prop := Report {
  report_linked : linked (outside w0) acts (outside (fst out));
  report_trace : trace (fst out) = trace w0 ++ (acts ≫= shown);
  report_callers : callers acts ⊆+ seq 0 n;
  report_fetchers : fetchers acts ⊆+ seq 0 n;
  report_fetch : forall i url r, Fetch i url r ∈ acts -> Call i (Ok url) ∈ acts;
  report_files : forall name,
    files (fst out) !! name = files w0 !! name
    \/ exists i url data,
         name = dest i /\ Fetch i url (Ok data) ∈ acts
         /\ files (fst out) !! name = Some data;
  report_result :
    match snd out with
    | Ok l =>
        length l = n /\ callers acts ≡ₚ seq 0 n /\ fetchers acts ≡ₚ seq 0 n
        /\ forall i, (i < n)%nat ->
             exists url data,
               Call i (Ok url) ∈ acts /\ Fetch i url (Ok data) ∈ acts
               /\ files (fst out) !! dest i = Some data /\ l !! i = Some (value url)
    | Throw e => exists a, a ∈ acts /\ threw e a
    end
}.

End Pool.

End Pool.

(** ** The calls of steps 4 and 5 as the tasks make them *)

Module Step4Trace.

Section Calls.

Context {E : Type}.
Variable generateImage :
  option Json.value -> option jstring -> E -> E * result jstring.

(** The call of the task of index [i], as [keyframeTask] makes it.  A
    keyframe that does not exist has no task. *)
Definition call (reference : jstring) (kfs : list Json.value) (i : nat) : M E jstring :=
  match kfs !! i with
  | Some description => askImage generateImage (Some description) (Some reference)
  | None => throw TypeError
  end.

(** What that call does to the world outside. *)
Definition act (reference : jstring) (kfs : list Json.value) (i : nat) (o : E)
    : E * result jstring :=
  match kfs !! i with
  | Some description => generateImage (Some description) (Some reference) o
  | None => (o, Throw TypeError)
  end.

(** The trace keeps no image call. *)
Definition log (i : nat) (r : result jstring) : list event := [].

End Calls.

End Step4Trace.

Module Step5Calls.

(** The arguments of the video call of the segment of index [i], read in
    the order of the call: the script text of the segment (reading it
    throws on a null segment), and the keyframe URLs at [i] and at
    [i + 1]. *)
Definition arguments (keyframeUrls : Json.value) (i : nat) (segment : Json.value)
    : result (option Json.value * option Json.value * option Json.value) :=
  match Json.get (Some segment) (js "script") with
  | Throw e => Throw e
  | Ok prompt =>
      match JsonOps.index keyframeUrls i with
      | Throw e => Throw e
      | Ok first =>
          match JsonOps.index keyframeUrls (i + 1) with
          | Throw e => Throw e
          | Ok last => Ok (prompt, first, last)
          end
      end
  end.

(** The arguments of the call of the task of index [i], when it makes
    one. *)
Definition made (keyframeUrls : Json.value) (segs : list Json.value) (i : nat)
    : list (option Json.value * option Json.value * option Json.value) :=
  match segs !! i with
  | Some segment =>
      match arguments keyframeUrls i segment with
      | Ok x => [x]
      | Throw _ => []
      end
  | None => []
  end.

Section Calls.

Context {E : Type}.
Variable generateVideo :
  option Json.value -> option Json.value -> option Json.value -> E -> E * result jstring.

(** The call of the task of index [i], as [segmentTask] makes it. *)
Definition call (keyframeUrls : Json.value) (segs : list Json.value) (i : nat)
    : M E jstring :=
  match segs !! i with
  | Some segment =>
      run! prompt := lift (Json.get (Some segment) (js "script")) in
      run! first := lift (JsonOps.index keyframeUrls i) in
      run! last := lift (JsonOps.index keyframeUrls (i + 1)) in
      askVideo generateVideo prompt first last
  | None => throw TypeError
  end.

(** What that call does to the world outside: nothing when reading the
    arguments throws. *)
Definition act (keyframeUrls : Json.value) (segs : list Json.value) (i : nat) (o : E)
    : E * result jstring :=
  match segs !! i with
  | Some segment =>
      match arguments keyframeUrls i segment with
      | Ok (prompt, first, last) => generateVideo prompt first last o
      | Throw e => (o, Throw e)
      end
  | None => (o, Throw TypeError)
  end.

(** The event of that call: none when reading the arguments throws. *)
Definition log (keyframeUrls : Json.value) (segs : list Json.value) (i : nat)
    (r : result jstring) : list event :=
  match segs !! i with
  | Some segment =>
      match arguments keyframeUrls i segment with
      | Ok (prompt, first, last) => [VideoCall prompt first last r]
      | Throw _ => []
      end
  | None => []
  end.

End Calls.

End Step5Calls.

(** ** The other routes of the server (server.ts) *)

Module Routes.

(** The reply of the status route: the id, the status inferred from the
    directory, and the entry of the table of running steps, [None] for
    null. *)
Record statusReply := StatusReply {
  project : jstring;
  state : status;
  runningStep : option Server.num
}.

(** GET /api/projects/:id/status *)
Definition getStatus (srv : Server.server) (id : jstring) : statusReply :=
  StatusReply id (Progress.detectStatus (Server.readdir srv id))
              (Server.running srv !! id).

Inductive scriptReply :=
| ScriptNotFound                   (* 404, "Script not found" *)
| ScriptBody (script : Json.value) (* 200 *)
| ScriptUnhandled (e : error).     (* thrown out of the handler *)

(** GET /api/projects/:id/script *)
Definition getScript (srv : Server.server) (id : jstring) : scriptReply :=
  match Server.disk srv !! id ≫= (fun dir => dir !! js "script.json") with
  | None => ScriptNotFound
  | Some text =>
      match Json.parse text with
      | Some script => ScriptBody script
      | None => ScriptUnhandled SyntaxError
      end
  end.

Inductive createReply :=
| Created (id : jstring)           (* 200, with completedStep 1 *)
| DescriptionRequired              (* 400, "description required" *)
| CreateUnhandled (e : error).     (* thrown out of the handler *)

Section Create.

Variable runStep :
  Z -> jstring -> option Json.value ->
  gmap jstring (gmap jstring jstring) -> gmap jstring (gmap jstring jstring) * result unit.

(** POST /api/projects, when the clock reads [now] milliseconds. *)
Definition create (now : nat) (srv : Server.server) (reqBody : option Json.value)
    : Server.server * createReply :=
  match Json.get reqBody (js "description") with
  | Throw e => (srv, CreateUnhandled e)
  | Ok description =>
      if negb (Json.truthy description) then (srv, DescriptionRequired)
      else
        let id := Js.decimal now in
        let '(srv, r) := Server.callStep runStep 1 id description srv in
        (srv, match r with Ok _ => Created id | Throw e => CreateUnhandled e end)
  end.

End Create.

End Routes.

(** ** The command line (cli.ts) *)

Module Cli.

Inductive action :=
| FullRun (description : jstring)  (* createMovie(description) *)
| Usage                            (* the usage lines, exit code 1 *)
| PathError                        (* path.join with an undefined id throws *)
| Step1 (id description : jstring) (* step1(outDir, desc) *)
| Step1NeedsDescription            (* "Step 1 requires a description", exit code 1 *)
| Step (n : Z) (id : jstring)      (* step n of 2 to 6 *)
| StepRange.                       (* "Step must be 1-6", exit code 1 *)

(** [args.filter((_, i) => i !== stepIdx && i !== stepIdx + 1 &&
    i !== idIdx && i !== idIdx + 1)] *)
Definition others (stepIdx idIdx : nat) (args : list jstring) : list jstring :=
  omap (fun x => x)
    (imap (fun i a =>
             if negb (i =? stepIdx)%nat && negb (i =? stepIdx + 1)%nat
                && negb (i =? idIdx)%nat && negb (i =? idIdx + 1)%nat
             then Some a else None) args).

(** The single-step form.  A missing step argument reads as undefined,
    which [parseInt] turns into NaN. *)
Definition single (args : list jstring) : action :=
  match JsText.indexOf args (js "--step"), JsText.indexOf args (js "--id") with
  | Some stepIdx, Some idIdx =>
      let stepNum :=
        match args !! (stepIdx + 1)%nat with
        | Some s => Server.parseInt s
        | None => Server.NaN
        end in
      match args !! (idIdx + 1)%nat with
      | None => PathError
      | Some id =>
          match stepNum with
          | Server.Int 1 =>
              let desc := JsText.trim (JsText.join [32] (others stepIdx idIdx args)) in
              if bool_decide (desc = []) then Step1NeedsDescription else Step1 id desc
          | Server.Int n => if ((2 <=? n) && (n <=? 6))%Z then Step n id else StepRange
          | Server.NaN => StepRange
          end
      end
  | _, _ => Usage
  end.

(** [main] *)
Definition main (args : list jstring) : action :=
  match args with
  | first :: _ =>
      if negb (Js.startsWith first (js "--step"))
      then FullRun (JsText.trim (JsText.join [32] args))
      else single args
  | [] => single args
  end.

End Cli.

(** ** Objects of strings over several lines

    The JSON text of an object whose values are strings, written
    without white space but for the spaces after a colon, the strings
    raw between double quotes: a value may hold line feeds, carriage
    returns and tabs. *)

Module Flat.

(** A member: its name, the spaces after its colon, its value. *)
Definition member : Type := jstring * jstring * jstring.

Definition memberText (m : member) : jstring :=
  Render.quoted (fst (fst m)) ++ 58 :: snd (fst m) ++ Render.quoted (snd m).

Definition text (ms : list member) : jstring :=
  123 :: JsText.join [44] (memberText <$> ms) ++ [125].

(** The same text with the line feeds, carriage returns and tabs of the
    values written as escapes. *)
Definition escapedMember (m : member) : jstring :=
  Render.quoted (fst (fst m)) ++ 58 :: snd (fst m)
  ++ Render.quoted (concat (Repair.escape_char <$> snd m)).

Definition escapedText (ms : list member) : jstring :=
  123 :: JsText.join [44] (escapedMember <$> ms) ++ [125].

(** The value the text denotes. *)
Definition value (ms : list member) : Json.value :=
  Json.Obj ((fun m => (fst (fst m), Json.Str (snd m))) <$> ms).

(** A character of a value: a plain character, a line feed, a carriage
    return or a tab. *)
Definition lineChar (c : N) : bool :=
  Render.plainChar c || (c =? 10) || (c =? 13) || (c =? 9).

(** Names are quiet, the white space after a colon is made of spaces,
    and the values are made of the characters above. *)
Definition wf (ms : list member) : bool :=
  forallb (fun m => Layout.quiet (fst (fst m))
                    && forallb (N.eqb 32) (snd (fst m))
                    && forallb lineChar (snd m)) ms.

End Flat.

(** ** The provider (minimax.ts)

    The three generators over HTTP.  The state they thread is the state
    of the world outside and the log of what was done: the requests
    sent and the pauses taken. *)

Module Minimax.

(** A request, by what tells it from the others: the key of the
    Authorization header and the values written in its body or in its
    query. *)
Inductive request :=
| Chat (key prompt : jstring)
| Image (key : jstring) (prompt : option Json.value) (reference : option jstring)
| CreateVideo (key : jstring) (prompt first last : option Json.value)
| QueryVideo (key : jstring) (taskId : option Json.value)
| RetrieveFile (key : jstring) (fileId : option Json.value).

(** A response: [res.ok], [res.status] and the text of the body. *)
Record response := Response { ok : bool; status : nat; body : jstring }.

Inductive action :=
| Sent (r : request)
| Slept (ms : nat).

(** [r.then(k)] for a result. *)
Definition next {A B} (r : result A) (k : A -> result B) : result B :=
  match r with Ok a => k a | Throw e => Throw e end.

(** [res.json()] *)
Definition json (res : response) : result Json.value :=
  match Json.parse (body res) with
  | Some v => Ok v
  | None => Throw SyntaxError
  end.

(** [v[0]] *)
Definition first (v : option Json.value) : result (option Json.value) :=
  match v with
  | Some x => JsonOps.index x 0
  | None => Throw TypeError
  end.

(** [v !== 0] *)
Definition notZero (v : option Json.value) : bool :=
  match v with
  | Some (Json.Num n) => negb (Json.is_zero n)
  | _ => true
  end.

(** [v === text] for a string literal. *)
Definition equals (v : option Json.value) (text : jstring) : bool :=
  match v with
  | Some (Json.Str s) => Js.eqb s text
  | _ => false
  end.

(** The error of a response that is not ok: "MiniMax", what was asked,
    the status and the body. *)
Definition refused (what : jstring) (res : response) : error :=
  Error (js "MiniMax " ++ what ++ js " " ++ Js.decimal (status res) ++ js ": " ++ body res).

Section Provider.

Context {E : Type}.

(** The key in the environment, the fetch of a request, and the string
    a template literal makes of a value (when making it does not
    throw). *)
Variable env : option jstring.
Variable fetch : request -> E -> E * result response.
Variable toText : option Json.value -> jstring.

Definition state : Type := E * list action.

Definition getApiKey : result jstring :=
  match env with
  | Some key =>
      if bool_decide (key = []) then Throw (Error (js "MINIMAX_API_KEY not set"))
      else Ok key
  | None => Throw (Error (js "MINIMAX_API_KEY not set"))
  end.

Definition send (r : request) (s : state) : state * result response :=
  let '(o, res) := fetch r (fst s) in ((o, snd s ++ [Sent r]), res).

Definition sleep (ms : nat) (s : state) : state := (fst s, snd s ++ [Slept ms]).

(** A value in a template literal. *)
Definition template (v : option Json.value) : result jstring :=
  match v with
  | Some x => if Json.toStringThrows x then Throw TypeError else Ok (toText v)
  | None => Ok (toText v)
  end.

(** The check of [base_resp.status_code], with the error made of
    [base_resp.status_msg]. *)
Definition checked (what : jstring) (j : Json.value) : result unit :=
  next (Json.get (Some j) (js "base_resp")) (fun base =>
  next (Json.get base (js "status_code")) (fun code =>
  if notZero code then
    next (Json.get base (js "status_msg")) (fun msg =>
    next (template msg) (fun text =>
    Throw (Error (js "MiniMax " ++ what ++ js " error: " ++ text))))
  else Ok tt)).

(** [callLLM] *)
Definition callLLM (prompt : jstring) (s : state) : state * result (option Json.value) :=
  match getApiKey with
  | Throw e => (s, Throw e)
  | Ok key =>
      let '(s, r) := send (Chat key prompt) s in
      match r with
      | Throw e => (s, Throw e)
      | Ok res =>
          if negb (ok res) then (s, Throw (refused (js "LLM") res))
          else
            (s, next (json res) (fun j =>
                next (Json.get (Some j) (js "choices")) (fun choices =>
                next (first choices) (fun choice =>
                next (Json.get choice (js "message")) (fun message =>
                Json.get message (js "content"))))))
      end
  end.

(** [generateImage]: the reference is sent when it is a string that is
    not empty. *)
Definition generateImage (prompt : option Json.value) (reference : option jstring)
    (s : state) : state * result (option Json.value) :=
  let reference :=
    match reference with
    | Some url => if bool_decide (url = []) then None else Some url
    | None => None
    end in
  match getApiKey with
  | Throw e => (s, Throw e)
  | Ok key =>
      let '(s, r) := send (Image key prompt reference) s in
      match r with
      | Throw e => (s, Throw e)
      | Ok res =>
          if negb (ok res) then (s, Throw (refused (js "image") res))
          else
            (s, next (json res) (fun j =>
                next (checked (js "image") j) (fun _ =>
                next (Json.get (Some j) (js "data")) (fun data =>
                next (Json.get data (js "image_urls")) first))))
      end
  end.

(** What one answer to a query means for the loop of [pollVideoTask]:
    [None] to go on, otherwise what to return or throw. *)
Definition verdict (res : response) : option (result (option Json.value)) :=
  if negb (ok res) then Some (Throw (refused (js "poll") res))
  else
    match json res with
    | Throw e => Some (Throw e)
    | Ok j =>
        match Json.get (Some j) (js "status") with
        | Throw e => Some (Throw e)
        | Ok status =>
            match Json.get (Some j) (js "file_id") with
            | Throw e => Some (Throw e)
            | Ok fileId =>
                if equals status (js "Success") && Json.truthy fileId then Some (Ok fileId)
                else if equals status (js "Fail") then
                  Some (next (Json.get (Some j) (js "base_resp")) (fun base =>
                        next (Json.get base (js "status_msg")) (fun msg =>
                        next (template msg) (fun text =>
                        Throw (Error (js "Video generation failed: " ++ text))))))
                else None
            end
        end
    end.

(** [pollVideoTask]: [fuel] bounds the number of queries; [None] when it
    runs out. *)
Fixpoint pollVideoTask (fuel : nat) (taskId : option Json.value) (s : state)
    : state * option (result (option Json.value)) :=
  match fuel with
  | O => (s, None)
  | S fuel =>
      match template taskId with
      | Throw e => (s, Some (Throw e))
      | Ok _ =>
          match getApiKey with
          | Throw e => (s, Some (Throw e))
          | Ok key =>
              let '(s, r) := send (QueryVideo key taskId) s in
              match r with
              | Throw e => (s, Some (Throw e))
              | Ok res =>
                  match verdict res with
                  | Some outcome => (s, Some outcome)
                  | None => pollVideoTask fuel taskId (sleep 5000 s)
                  end
              end
          end
      end
  end.

(** [getFileUrl] *)
Definition getFileUrl (fileId : option Json.value) (s : state)
    : state * result (option Json.value) :=
  match template fileId with
  | Throw e => (s, Throw e)
  | Ok _ =>
      match getApiKey with
      | Throw e => (s, Throw e)
      | Ok key =>
          let '(s, r) := send (RetrieveFile key fileId) s in
          match r with
          | Throw e => (s, Throw e)
          | Ok res =>
              if negb (ok res) then (s, Throw (refused (js "file") res))
              else
                (s, next (json res) (fun j =>
                    next (Json.get (Some j) (js "file")) (fun file =>
                    Json.get file (js "download_url"))))
          end
      end
  end.

(** [generateVideo] *)
Definition generateVideo (fuel : nat) (prompt firstFrame lastFrame : option Json.value)
    (s : state) : state * option (result (option Json.value)) :=
  match getApiKey with
  | Throw e => (s, Some (Throw e))
  | Ok key =>
      let '(s, r) := send (CreateVideo key prompt firstFrame lastFrame) s in
      match r with
      | Throw e => (s, Some (Throw e))
      | Ok res =>
          if negb (ok res) then (s, Some (Throw (refused (js "video") res)))
          else
            match next (json res) (fun task =>
                  next (checked (js "video") task) (fun _ =>
                  Json.get (Some task) (js "task_id"))) with
            | Throw e => (s, Some (Throw e))
            | Ok taskId =>
                match pollVideoTask fuel taskId s with
                | (s, None) => (s, None)
                | (s, Some (Throw e)) => (s, Some (Throw e))
                | (s, Some (Ok fileId)) =>
                    let '(s, r) := getFileUrl fileId s in (s, Some r)
                end
            end
      end
  end.

End Provider.

End Minimax.

(** ** More sample projects *)

Module Demo.

(** An image capability that always succeeds. *)
Definition image (prompt : option Json.value) (reference : option jstring) (o : unit)
    : unit * result jstring := (o, Ok (js "u")).

(** A project after step 3, with the script of two segments. *)
Definition imageProject : world unit :=
  World {[ js "script.json" := Render.text Sample.twoSegments;
           js "character_url.txt" := js "c" ]} tt [].

(** An image capability that answers five calls and fails from the
    sixth on, and a fetch that always succeeds, over a count of the image
    calls. *)
Definition flaky (prompt : option Json.value) (reference : option jstring) (n : nat)
    : nat * result jstring :=
  (S n, if (n <? 5)%nat then Ok (js "u") else Throw (ProviderError (js "busy"))).

Definition fetched (url : jstring) (n : nat) : nat * result jstring :=
  (n, Ok (js "data")).

(** A project after step 3 whose script has six keyframes. *)
Definition sixKeyframes : Json.value :=
  Render.script (js "an astronaut")
    [js "k0"; js "k1"; js "k2"; js "k3"; js "k4"; js "k5"]
    [js "s0"; js "s1"; js "s2"; js "s3"; js "s4"].

Definition flakyProject : world nat :=
  World {[ js "script.json" := Render.text sixKeyframes;
           js "character_url.txt" := js "c" ]} 0%nat [].

(** A script that passes the checks of step 2 and has a null segment. *)
Definition nullSegment : Json.value :=
  Json.Obj
    [(js "mainCharacterDescription", Json.Str (js "an astronaut"));
     (js "keyframes", Json.Arr [Json.Str (js "dawn"); Json.Str (js "dusk")]);
     (js "segments", Json.Arr [Json.Null])].


(** A provider that answers by the number of requests it has seen: the
    creation of a task, two answers that leave it pending, its success,
    and the URL of the file. *)
Definition answers : list Json.value :=
  [Json.Obj [(js "task_id", Json.Str (js "t1"));
             (js "base_resp",
              Json.Obj [(js "status_code",
                         Json.Num {| Json.negative := false; Json.mantissa := 0;
                                     Json.exponent := 0 |})])];
   Json.Obj [(js "status", Json.Str (js "Processing"))];
   Json.Obj [(js "status", Json.Str (js "Processing"))];
   Json.Obj [(js "status", Json.Str (js "Success")); (js "file_id", Json.Str (js "f1"))];
   Json.Obj [(js "file", Json.Obj [(js "download_url", Json.Str (js "https://v"))])]].

Definition answer (n : nat) : Minimax.response :=
  Minimax.Response true 200 (Render.text (default Json.Null (answers !! n))).

Definition provider (r : Minimax.request) (n : nat) : nat * result Minimax.response :=
  (S n, Ok (answer n)).

(** A description over two lines. *)
Definition twoLines : list Flat.member :=
  [(js "mainCharacterDescription", [32], js "an astronaut" ++ [10] ++ js "in a white suit");
   (js "mood", [], js "calm")].

End Demo.

(** * Properties *)

(** ** Progress inference *)

Section ProgressFacts.

Import Progress.

Lemma includes_true (files : list jstring) (name : jstring) :
  includes files name = true <-> name ∈ files.
Proof. unfold includes. apply bool_decide_eq_true. Qed.

Lemma includes_subseteq (l l' : list jstring) (name : jstring) :
  l ⊆ l' -> includes l name = true -> includes l' name = true.
Proof. rewrite !includes_true. intros Hsub Hin. apply Hsub, Hin. Qed.

Lemma existsb_subseteq (p : jstring -> bool) (l l' : list jstring) :
  l ⊆ l' -> existsb p l = true -> existsb p l' = true.
Proof.
  intros Hsub. rewrite !existsb_exists. intros (x & Hin & Hp).
  exists x. split; [| exact Hp].
  apply list_elem_of_In, Hsub, list_elem_of_In, Hin.
Qed.

Lemma stepPresent_subseteq (l l' : list jstring) (k : Z) :
  l ⊆ l' -> stepPresent l k = true -> stepPresent l' k = true.
Proof.
  intros Hsub. unfold stepPresent, hasInput, hasScript, hasCharacter,
    hasKeyframe, hasSegment, hasMovie.
  repeat (case (Z.eqb_spec k _); [intros _ | intros _]);
    eauto using includes_subseteq, existsb_subseteq.
  rewrite !orb_true_iff. intros [H | H]; eauto using includes_subseteq.
Qed.

Lemma completedStep_pick (files : list jstring) :
  completedStep (detectStatus (Some files)) =
  pick (hasInput files) (hasScript files) (hasCharacter files)
       (hasKeyframe files) (hasSegment files) (hasMovie files).
Proof.
  unfold detectStatus, pick; simpl.
  destruct (hasMovie files), (hasSegment files), (hasKeyframe files),
    (hasCharacter files), (hasScript files), (hasInput files); reflexivity.
Qed.


Lemma completedStep_subseteq (l l' : list jstring) :
  l ⊆ l' ->
  (completedStep (detectStatus (Some l)) <= completedStep (detectStatus (Some l')))%Z.
Proof.
  intros Hsub. rewrite !completedStep_pick.
  pose proof (stepPresent_subseteq l l' 1 Hsub) as H1.
  pose proof (stepPresent_subseteq l l' 2 Hsub) as H2.
  pose proof (stepPresent_subseteq l l' 3 Hsub) as H3.
  pose proof (stepPresent_subseteq l l' 4 Hsub) as H4.
  pose proof (stepPresent_subseteq l l' 5 Hsub) as H5.
  pose proof (stepPresent_subseteq l l' 6 Hsub) as H6.
  unfold stepPresent in *; simpl in *. unfold pick.
  destruct (hasMovie l); [rewrite H6 by reflexivity; lia |].
  destruct (hasMovie l'); [destruct (hasSegment l), (hasKeyframe l), (hasCharacter l),
    (hasScript l), (hasInput l); lia |].
  destruct (hasSegment l); [rewrite H5 by reflexivity; lia |].
  destruct (hasSegment l'); [destruct (hasKeyframe l), (hasCharacter l),
    (hasScript l), (hasInput l); lia |].
  destruct (hasKeyframe l); [rewrite H4 by reflexivity; lia |].
  destruct (hasKeyframe l'); [destruct (hasCharacter l), (hasScript l), (hasInput l); lia |].
  destruct (hasCharacter l); [rewrite H3 by reflexivity; lia |].
  destruct (hasCharacter l'); [destruct (hasScript l), (hasInput l); lia |].
  destruct (hasScript l); [rewrite H2 by reflexivity; lia |].
  destruct (hasScript l'); [destruct (hasInput l); lia |].
  destruct (hasInput l); [rewrite H1 by reflexivity; lia |].
  destruct (hasInput l'); lia.
Qed.

End ProgressFacts.



(** C3.  Progress inference is monotonic in the presence of artifacts:
    adding a file name anywhere in a listing never lowers the step
    reported. *)
Theorem detectStatus_monotone (before after : list jstring) (name : jstring) :
  (completedStep (Progress.detectStatus (Some (before ++ after)))
   <= completedStep (Progress.detectStatus (Some (before ++ name :: after))))%Z.
Proof.
  apply completedStep_subseteq. intros x.
  rewrite !elem_of_app, elem_of_cons. tauto.
Qed.

(** C10.  A listing that holds output.mp4 is reported at step 6, also
    when movie.mp4 is absent. *)
Theorem detectStatus_output_mp4 (files : list jstring) :
  js "output.mp4" ∈ files ->
  completedStep (Progress.detectStatus (Some files)) = 6%Z.
Proof.
  intros Hin. rewrite completedStep_pick. unfold Progress.pick, Progress.hasMovie.
  apply includes_true in Hin. rewrite Hin, orb_true_r. reflexivity.
Qed.

Lemma detectStatus_output_mp4_witness :
  ~ js "movie.mp4" ∈ [js "output.mp4"]
  /\ completedStep (Progress.detectStatus (Some [js "output.mp4"])) = 6%Z.
Proof.
  split.
  - compute_done.
  - apply (detectStatus_output_mp4 [js "output.mp4"]).
    compute_done.
Defined.

(** ** The step route and the table of running steps *)

Section RouteFacts.

Import Server.

Variable runStep :
  Z -> jstring -> option Json.value ->
  gmap jstring (gmap jstring jstring) -> gmap jstring (gmap jstring jstring) * result unit.

Lemma finish_running (id : jstring) (r : result unit) (srv : server) :
  running (fst (finish id r srv)) !! id = None.
Proof. simpl. apply lookup_delete_eq. Qed.

Lemma finish_called (id : jstring) (r : result unit) (srv : server) :
  called (fst (finish id r srv)) = called srv.
Proof. reflexivity. Qed.

(** A request for a project that has an entry in the table stops at one
    of the two guards and leaves the state as it was. *)
Lemma enter_while_running (srv : server) (id p : jstring)
    (reqBody : option Json.value) (n : num) :
  running srv !! id = Some n ->
  enter runStep srv id p reqBody =
    (srv, Responded (if lt (parseInt p) (Int 1) || lt (Int 6) (parseInt p)
                     then Response 400 (ErrorBody StepNumRange)
                     else Response 409 (ErrorBody (AlreadyRunning n)))).
Proof.
  intros Hrun. unfold enter.
  destruct (lt (parseInt p) (Int 1) || lt (Int 6) (parseInt p)); [reflexivity |].
  rewrite Hrun. reflexivity.
Qed.

(** Every way the handler ends after it has filled the table goes
    through the finally clause. *)
Lemma enter_responded (srv srv' : server) (id p : jstring)
    (reqBody : option Json.value) (r : response) :
  running srv !! id = None ->
  enter runStep srv id p reqBody = (srv', Responded r) ->
  running srv' !! id = None.
Proof.
  intros Hfree. unfold enter.
  destruct (lt (parseInt p) (Int 1) || lt (Int 6) (parseInt p)).
  { intros [= <- _]. exact Hfree. }
  rewrite Hfree.
  destruct (parseInt p) as [| z].
  { intros [= <- _]. apply lookup_delete_eq. }
  destruct z as [| q | q]; try (intros [= <- _]; apply lookup_delete_eq).
  destruct q as [q | q |]; try destruct q as [q | q |]; try destruct q as [q | q |];
    simpl; try (intros [= <- _]; apply lookup_delete_eq); try discriminate.
  - unfold callStep. simpl. destruct (runStep _ _ _ _) as [d res].
    intros [= <- _]. apply lookup_delete_eq.
  - destruct (Json.get reqBody (js "description")) as [description | e].
    + destruct (negb (Json.truthy description)).
      * intros [= <- _]. apply lookup_delete_eq.
      * unfold callStep. simpl. destruct (runStep _ _ _ _) as [d res].
        intros [= <- _]. apply lookup_delete_eq.
    + intros [= <- _]. apply lookup_delete_eq.
Qed.

Lemma resume_responded (srv srv' : server) (id : jstring) (r : response) :
  resume runStep srv id = (srv', Some r) ->
  running srv' !! id = None.
Proof.
  unfold resume. destruct (running srv !! id) as [[| n] |]; try discriminate.
  destruct ((2 <=? n)%Z && (n <=? 5)%Z); [| discriminate].
  unfold endStep. destruct (runStep _ _ _ _) as [d res]. simpl.
  intros [= <- _]. apply lookup_delete_eq.
Qed.

(** A request for a project without an entry is never answered 409. *)
Lemma enter_free_not_409 (srv srv' : server) (id p : jstring)
    (reqBody : option Json.value) (r : response) :
  running srv !! id = None ->
  enter runStep srv id p reqBody = (srv', Responded r) ->
  code r <> 409%Z.
Proof.
  intros Hfree. unfold enter.
  destruct (lt (parseInt p) (Int 1) || lt (Int 6) (parseInt p)).
  { intros [= _ <-]. discriminate. }
  rewrite Hfree.
  assert (Hfin : forall res s (srv0 : server),
             finish id res srv0 = (s, r) -> code r <> 409%Z).
  { intros [[] | e] s srv0 [= _ <-]; discriminate. }
  destruct (parseInt p) as [| z].
  { destruct (finish id (Ok tt) _) as [s r0] eqn:Hf. intros [= _ <-]. eauto. }
  destruct z as [| q | q];
    try (destruct (finish id (Ok tt) _) as [s r0] eqn:Hf; intros [= _ <-]; eauto).
  destruct q as [q | q |]; try destruct q as [q | q |]; try destruct q as [q | q |];
    simpl; try discriminate; try (intros [= _ <-]; discriminate).
  - unfold callStep. simpl. destruct (runStep _ _ _ _) as [d [[] | e]];
      intros [= _ <-]; discriminate.
  - destruct (Json.get reqBody (js "description")) as [description | e].
    + destruct (negb (Json.truthy description)).
      * intros [= _ <-]. discriminate.
      * unfold callStep. simpl. destruct (runStep _ _ _ _) as [d [[] | e]];
          intros [= _ <-]; discriminate.
    + intros [= _ <-]. discriminate.
Qed.

Lemma suspended_finally (id : jstring) (srv : server) :
  suspended srv -> suspended (finally id srv).
Proof.
  intros Hs id' n. simpl. rewrite lookup_delete.
  case_decide; [discriminate | apply Hs].
Qed.

Lemma suspended_react (srv : server) (i : input) :
  suspended srv -> suspended (fst (react runStep srv i)).
Proof.
  intros Hs. destruct i as [id p reqBody | id]; simpl.
  - destruct (enter runStep srv id p reqBody) as [s pr] eqn:He.
    assert (suspended s) as Hgoal; [| destruct pr; exact Hgoal].
    revert He. unfold enter.
    destruct (lt (parseInt p) (Int 1) || lt (Int 6) (parseInt p)).
    { intros [= <- _]. exact Hs. }
    destruct (running srv !! id) as [n |] eqn:Hrun.
    { intros [= <- _]. exact Hs. }
    assert (Hdel : forall d c, suspended (Server (delete id (<[id := parseInt p]> (running srv))) d c)).
    { intros d c id' n. simpl. rewrite lookup_delete.
      case_decide; [discriminate |]. rewrite lookup_insert_ne by done. apply Hs. }
    destruct (parseInt p) as [| z].
    { intros [= <- _]. apply Hdel. }
    destruct ((2 <=? z)%Z && (z <=? 5)%Z) eqn:Hz.
    + assert (2 <= z <= 5)%Z as Hz' by lia.
      assert (enterAwait : forall X Y : server * progress,
                 X = (Server (<[id := Int z]> (running srv)) (disk srv)
                             (called srv ++ [(id, z)]), Awaiting z) ->
                 X = (s, pr) -> suspended s).
      { intros X Y -> [= <- _]. intros id' n. simpl. rewrite lookup_insert.
        case_decide; [intros [= <-]; eauto | apply Hs]. }
      destruct z as [| q | q]; try lia.
      destruct q as [q | q |]; try destruct q as [q | q |]; try destruct q as [q | q |];
        try lia; simpl; intros He; eapply enterAwait; eauto.
    + destruct z as [| q | q]; try (intros [= <- _]; apply Hdel).
      destruct q as [q | q |]; try destruct q as [q | q |]; try destruct q as [q | q |];
        simpl in *; try discriminate; try (intros [= <- _]; apply Hdel).
      * unfold callStep. simpl. destruct (runStep _ _ _ _) as [d res].
        intros [= <- _]. apply Hdel.
      * destruct (Json.get reqBody (js "description")) as [description | e].
        -- destruct (negb (Json.truthy description)).
           ++ intros [= <- _]. apply Hdel.
           ++ unfold callStep. simpl. destruct (runStep _ _ _ _) as [d res].
              intros [= <- _]. apply Hdel.
        -- intros [= <- _]. apply Hdel.
  - unfold resume. destruct (running srv !! id) as [[| n] |]; try exact Hs.
    destruct ((2 <=? n)%Z && (n <=? 5)%Z); [| exact Hs].
    unfold endStep. destruct (runStep _ _ _ _) as [d res]. simpl.
    intros id' n'. simpl. rewrite lookup_delete.
    case_decide; [discriminate | apply Hs].
Qed.

Lemma suspended_run (inputs : list input) (srv : server) :
  suspended srv -> suspended (run runStep srv inputs).
Proof.
  revert srv. induction inputs as [| i rest IH]; intros srv Hs; simpl; [exact Hs |].
  apply IH, suspended_react, Hs.
Qed.

Lemma suspended_start : suspended start.
Proof. intros id n. unfold start. simpl. rewrite lookup_empty. discriminate. Qed.

(** Whatever run is in the table ends when its step settles. *)
Lemma in_flight_settles (inputs : list input) (id : jstring) (n : num) :
  running (run runStep start inputs) !! id = Some n ->
  exists srv' r, react runStep (run runStep start inputs) (Settled id) = (srv', Some r).
Proof.
  intros Hrun.
  destruct (suspended_run inputs start suspended_start id n Hrun) as (k & -> & Hk).
  simpl. unfold resume. rewrite Hrun.
  replace ((2 <=? k)%Z && (k <=? 5)%Z) with true by lia.
  unfold endStep. destruct (runStep _ _ _ _) as [d res]. simpl. eauto.
Qed.

End RouteFacts.

(** C4, as the code has it.  While the table has an entry for a project,
    a request for a step of that project is rejected at once, runs no
    step and leaves nothing behind (the state of the server is unchanged,
    so nothing is queued): with status 409 when its step number passes
    the range check of the handler, with status 400 when the step number
    is below 1 or above 6, the range check coming first. *)
Theorem second_request_rejected
    (runStep : Z -> jstring -> option Json.value ->
               gmap jstring (gmap jstring jstring) ->
               gmap jstring (gmap jstring jstring) * result unit)
    (srv : Server.server) (id stepNum : jstring)
    (reqBody : option Json.value) (n : Server.num) :
  Server.running srv !! id = Some n ->
  let outOfRange :=
    Server.lt (Server.parseInt stepNum) (Server.Int 1)
    || Server.lt (Server.Int 6) (Server.parseInt stepNum) in
  (outOfRange = false ->
     Server.react runStep srv (Server.Request id stepNum reqBody) =
     (srv, Some (Server.Response 409 (Server.ErrorBody (Server.AlreadyRunning n)))))
  /\ (outOfRange = true ->
     Server.react runStep srv (Server.Request id stepNum reqBody) =
     (srv, Some (Server.Response 400 (Server.ErrorBody Server.StepNumRange)))).
Proof.
  intros Hrun outOfRange. simpl.
  rewrite (enter_while_running runStep srv id stepNum reqBody n Hrun).
  fold outOfRange. split; intros ->; reflexivity.
Qed.

Lemma second_request_rejected_witness :
  let srv := Server.run Server.idle Server.start
               [Server.Request (js "p") (js "2") None] in
  Server.running srv !! js "p" = Some (Server.Int 2)
  /\ Server.react Server.idle srv (Server.Request (js "p") (js "3") None) =
     (srv, Some (Server.Response 409
                   (Server.ErrorBody (Server.AlreadyRunning (Server.Int 2))))).
Proof.
  intros srv.
  assert (Hrun : Server.running srv !! js "p" = Some (Server.Int 2))
    by (vm_compute; reflexivity).
  split; [exact Hrun |].
  apply (second_request_rejected Server.idle srv (js "p") (js "3") None
           (Server.Int 2) Hrun).
  vm_compute. reflexivity.
Defined.

(** C4, as stated, fails: with step 2 of project p in flight, a request
    for step 7 of p is answered 400, not 409. *)
Lemma second_request_out_of_range_is_400 :
  let srv := Server.run Server.idle Server.start
               [Server.Request (js "p") (js "2") None] in
  Server.running srv !! js "p" = Some (Server.Int 2)
  /\ Server.react Server.idle srv (Server.Request (js "p") (js "7") None) =
     (srv, Some (Server.Response 400 (Server.ErrorBody Server.StepNumRange)))
  /\ ~ (exists m, Server.react Server.idle srv
                    (Server.Request (js "p") (js "7") None) =
                  (srv, Some (Server.Response 409 m))).
Proof.
  intros srv.
  assert (Hreact : Server.react Server.idle srv (Server.Request (js "p") (js "7") None) =
     (srv, Some (Server.Response 400 (Server.ErrorBody Server.StepNumRange))))
    by (vm_compute; reflexivity).
  split; [vm_compute; reflexivity |]. split; [exact Hreact |].
  intros [m Hm]. rewrite Hreact in Hm. discriminate.
Qed.

(** C5.  Whenever the handler of a request that got past the two guards
    ends, on the spot or when the step it awaits settles, whatever the
    step did (returned, threw, or was not called because the description
    of step 1 is missing), the table has no entry for the project, and a
    request that follows for the same project is not answered 409. *)
Theorem tracker_entry_removed
    (runStep : Z -> jstring -> option Json.value ->
               gmap jstring (gmap jstring jstring) ->
               gmap jstring (gmap jstring jstring) * result unit)
    (srv srv' : Server.server) (i : Server.input) (r : Server.response) :
  match i with
  | Server.Request id _ _ => Server.running srv !! id = None
  | Server.Settled _ => True
  end ->
  Server.react runStep srv i = (srv', Some r) ->
  Server.running srv' !! Server.inputId i = None
  /\ forall next nextBody srv'' r',
       Server.react runStep srv' (Server.Request (Server.inputId i) next nextBody)
         = (srv'', Some r') ->
       Server.code r' <> 409%Z.
Proof.
  intros Hguard Hreact.
  assert (Hfree : Server.running srv' !! Server.inputId i = None).
  { destruct i as [id p reqBody | id]; simpl in *.
    - destruct (Server.enter runStep srv id p reqBody) as [s [r0 | k]] eqn:He;
        [| discriminate].
      injection Hreact as <- <-. eapply enter_responded; eauto.
    - eapply resume_responded; eauto. }
  split; [exact Hfree |].
  intros next nextBody srv'' r'. simpl.
  destruct (Server.enter runStep srv' (Server.inputId i) next nextBody)
    as [s [r0 | k]] eqn:He; [| discriminate].
  intros [= <- <-]. eapply enter_free_not_409; eauto.
Qed.

Lemma tracker_entry_removed_witness :
  let failing := fun (n : Z) (id : jstring) (d : option Json.value)
                     (dk : gmap jstring (gmap jstring jstring)) =>
                   (dk, @Throw unit InvalidScript) in
  let srv := Server.run failing Server.start [Server.Request (js "p") (js "2") None] in
  let srv' := fst (Server.react failing srv (Server.Settled (js "p"))) in
  Server.running srv !! js "p" = Some (Server.Int 2)
  /\ snd (Server.react failing srv (Server.Settled (js "p"))) =
     Some (Server.Response 500 (Server.ErrorBody (Server.Failure InvalidScript)))
  /\ Server.running srv' !! js "p" = None.
Proof.
  intros failing srv srv'.
  split; [vm_compute; reflexivity |]. split; [vm_compute; reflexivity |].
  refine (proj1 (tracker_entry_removed failing srv srv' (Server.Settled (js "p"))
                   (Server.Response 500 (Server.ErrorBody (Server.Failure InvalidScript)))
                   I _)).
  vm_compute. reflexivity.
Defined.

(** C6 at its failing inputs.  A step number that is no numeral parses to
    NaN, which passes the range check: the request is answered 200 with
    the status of the project, and no step is called.  The numeral of a
    fraction parses to its integer part: the request for step 2.5 calls
    step 2. *)
Theorem stepNum_not_a_numeral_is_accepted
    (runStep : Z -> jstring -> option Json.value ->
               gmap jstring (gmap jstring jstring) ->
               gmap jstring (gmap jstring jstring) * result unit) :
  Server.react runStep Server.start (Server.Request (js "p") (js "abc") None) =
    (Server.start,
     Some (Server.Response 200
             (Server.StatusBody (js "p") {| completedStep := 0; artifacts := [] |})))
  /\ Server.called
       (Server.run runStep Server.start
          [Server.Request (js "p") (js "2.5") None; Server.Settled (js "p")])
     = [(js "p", 2%Z)].
Proof.
  split.
  - vm_compute. reflexivity.
  - vm_compute. destruct (runStep _ _ _ _). reflexivity.
Qed.

(** The part of C6 that holds: an integer below 1 or above 6 is answered
    400, and no step is called. *)
Lemma stepNum_out_of_range_is_400
    (runStep : Z -> jstring -> option Json.value ->
               gmap jstring (gmap jstring jstring) ->
               gmap jstring (gmap jstring jstring) * result unit)
    (srv : Server.server) (id stepNum : jstring) (reqBody : option Json.value) (k : Z) :
  Server.parseInt stepNum = Server.Int k -> (k < 1 \/ 6 < k)%Z ->
  Server.react runStep srv (Server.Request id stepNum reqBody) =
    (srv, Some (Server.Response 400 (Server.ErrorBody Server.StepNumRange))).
Proof.
  intros Hp Hk. simpl. unfold Server.enter. rewrite Hp. simpl.
  replace ((k <? 1)%Z || (6 <? k)%Z) with true by lia. reflexivity.
Qed.

(** ** Step 2: the validation of the script *)

Section Step2Facts.

Context {E : Type}.
Variable callLLM : jstring -> E -> E * result jstring.
Variable stringify : Json.value -> jstring.

(** What step 2 does once the reply is parsed. *)
Lemma step2_parsed (w : world E) (d raw : jstring) (o : E) (script : Json.value)
    (segments keyframes mcd : option Json.value) :
  files w !! js "input.txt" = Some d ->
  callLLM d (outside w) = (o, Ok raw) ->
  Repair.parseReply raw = Ok script ->
  Json.get (Some script) (js "segments") = Ok segments ->
  Json.get (Some script) (js "keyframes") = Ok keyframes ->
  Json.get (Some script) (js "mainCharacterDescription") = Ok mcd ->
  step2 callLLM stringify w =
  let w1 := World (files w) o (trace w ++ [TextCall d (Ok raw)]) in
  if negb (Json.isArray segments) || negb (Json.isArray keyframes)
     || negb (Json.truthy mcd)
  then (w1, Throw InvalidScript)
  else
    match JsonOps.items segments, JsonOps.items keyframes with
    | Some segs, Some kfs =>
        if negb (length kfs =? length segs + 1)%nat
        then (w1, Throw (KeyframeMismatch (length segs + 1) (length kfs)))
        else
          logScript mcd kfs segs
            (World (<[js "script.json" := stringify script]> (files w)) o
                   (trace w ++ [TextCall d (Ok raw)]))
    | _, _ => (w1, Throw InvalidScript)
    end.
Proof.
  intros Hin Hllm Hparse Hseg Hkf Hmcd.
  unfold step2, andThen, readFileSync, askText, lift.
  rewrite Hin, Hllm, Hparse, Hseg, Hkf, Hmcd. simpl.
  destruct (negb (Json.isArray segments) || negb (Json.isArray keyframes)
            || negb (Json.truthy mcd)); [reflexivity |].
  destruct (JsonOps.items segments) as [segs |]; [| reflexivity].
  destruct (JsonOps.items keyframes) as [kfs |]; [| reflexivity].
  destruct (negb (length kfs =? length segs + 1)%nat); reflexivity.
Qed.

(** The log lines that end step 2 leave the world as it is. *)
Lemma interpolate_world (v : option Json.value) (w : world E) :
  fst (interpolate v w) = w.
Proof.
  destruct v as [x |]; simpl; [| reflexivity].
  destruct (Json.toStringThrows x); reflexivity.
Qed.

Lemma logKeyframes_world (kfs : list Json.value) (w : world E) :
  fst (logKeyframes kfs w) = w.
Proof.
  induction kfs as [| kf rest IH]; [reflexivity |].
  cbn [logKeyframes]. unfold andThen.
  pose proof (interpolate_world (Some kf) w) as Hi.
  destruct (interpolate (Some kf) w) as [w1 [[] | e]]; simpl in Hi; subst w1;
    [exact IH | reflexivity].
Qed.

Lemma logSegments_world (segs : list Json.value) (w : world E) :
  fst (logSegments segs w) = w.
Proof.
  induction segs as [| s rest IH]; [reflexivity |].
  cbn [logSegments]. unfold andThen, lift.
  destruct (Json.get (Some s) (js "script")) as [text | e]; [| reflexivity].
  pose proof (interpolate_world text w) as Hi.
  destruct (interpolate text w) as [w1 [[] | e]]; simpl in Hi; subst w1;
    [exact IH | reflexivity].
Qed.

Lemma logScript_files (mcd : option Json.value) (kfs segs : list Json.value)
    (w : world E) :
  files (fst (logScript mcd kfs segs w)) = files w.
Proof.
  unfold logScript, andThen.
  pose proof (interpolate_world mcd w) as Hi.
  destruct (interpolate mcd w) as [w1 [[] | e]]; simpl in Hi; subst w1; [| reflexivity].
  pose proof (logKeyframes_world kfs w) as Hk.
  destruct (logKeyframes kfs w) as [w2 [[] | e]]; simpl in Hk; subst w2; [| reflexivity].
  rewrite logSegments_world. reflexivity.
Qed.

End Step2Facts.

(** C1, as the code has it.  For every reply that parses to a payload
    whose segments and keyframes are arrays: when the number of keyframes
    is not the number of segments plus one, step 2 throws and the
    directory is left as it was (no script.json is written); when it is,
    and the description of the main character is present, script.json is
    written, whatever the number of segments (the range 3 to 6 is not
    checked). *)
Theorem step2_validates_keyframe_count {E : Type}
    (callLLM : jstring -> E -> E * result jstring)
    (stringify : Json.value -> jstring)
    (w : world E) (d raw : jstring) (o : E) (script : Json.value)
    (segs kfs : list Json.value) (mcd : option Json.value) :
  files w !! js "input.txt" = Some d ->
  callLLM d (outside w) = (o, Ok raw) ->
  Repair.parseReply raw = Ok script ->
  Json.get (Some script) (js "segments") = Ok (Some (Json.Arr segs)) ->
  Json.get (Some script) (js "keyframes") = Ok (Some (Json.Arr kfs)) ->
  Json.get (Some script) (js "mainCharacterDescription") = Ok mcd ->
  (length kfs <> (length segs + 1)%nat ->
     (exists e, snd (step2 callLLM stringify w) = Throw e)
     /\ files (fst (step2 callLLM stringify w)) = files w)
  /\ (length kfs = (length segs + 1)%nat -> Json.truthy mcd = true ->
     files (fst (step2 callLLM stringify w))
     = <[js "script.json" := stringify script]> (files w)).
Proof.
  intros Hin Hllm Hparse Hseg Hkf Hmcd.
  rewrite (step2_parsed callLLM stringify w d raw o script _ _ _
             Hin Hllm Hparse Hseg Hkf Hmcd).
  simpl. split.
  - intros Hlen. destruct (negb (Json.truthy mcd)); simpl; [eauto |].
    replace (length kfs =? length segs + 1)%nat with false
      by (symmetry; apply Nat.eqb_neq; exact Hlen).
    simpl. eauto.
  - intros Hlen Hmcd'. rewrite Hmcd'. simpl.
    replace (length kfs =? length segs + 1)%nat with true
      by (symmetry; apply Nat.eqb_eq; exact Hlen).
    simpl. apply logScript_files.
Qed.

Lemma step2_validates_keyframe_count_witness :
  (exists e, snd (step2 (Sample.llm (Render.text Sample.mismatch))
                    Render.text Sample.project) = Throw e)
  /\ files (fst (step2 (Sample.llm (Render.text Sample.mismatch))
                   Render.text Sample.project))
     = files Sample.project.
Proof.
  refine (proj1 (step2_validates_keyframe_count
                   (Sample.llm (Render.text Sample.mismatch)) Render.text
                   Sample.project (js "a lone astronaut")
                   (Render.text Sample.mismatch) tt Sample.mismatch
                   ((fun s => Json.Obj [(js "script", Json.Str s)])
                      <$> [js "walks"; js "rests"; js "sleeps"])
                   [Json.Str (js "dawn"); Json.Str (js "dusk")]
                   (Some (Json.Str (js "an astronaut")))
                   _ _ _ _ _ _) _).
  all: try (vm_compute; reflexivity).
  vm_compute. lia.
Defined.

(** C1, as stated, fails: a reply with two segments and three keyframes
    is accepted and script.json is written. *)
Lemma step2_accepts_two_segments :
  let reply := js "Here is the script: " ++ Render.text Sample.twoSegments in
  let after := step2 (Sample.llm reply) Render.text Sample.project in
  Repair.parseReply reply = Ok Sample.twoSegments
  /\ (JsonOps.items (Json.lookup_last
                       match Sample.twoSegments with Json.Obj ms => ms | _ => [] end
                       (js "segments"))
      = Some [Json.Obj [(js "script", Json.Str (js "walks"))];
              Json.Obj [(js "script", Json.Str (js "rests"))]])
  /\ snd after = Ok tt
  /\ files (fst after) !! js "script.json" = Some (Render.text Sample.twoSegments)
  /\ files (fst after) <> files Sample.project.
Proof.
  intros reply after.
  assert (Hfile : files (fst after) !! js "script.json"
                  = Some (Render.text Sample.twoSegments))
    by (vm_compute; reflexivity).
  repeat split; try (vm_compute; reflexivity).
  intros Heq. rewrite Heq in Hfile. vm_compute in Hfile. discriminate.
Qed.

(** ** The tasks of steps 4 and 5 under [Promise.all] *)

Section LinkedFacts.

Context {E : Type}.
Variable fetch : jstring -> E -> E * result jstring.
Variable act : nat -> E -> E * result jstring.

(** Every action of a linked run answered what some call or fetch
    answered. *)
Lemma linked_elem (acts : list Pool.action) :
  forall (o o' : E) (a : Pool.action),
    Pool.linked fetch act o acts o' -> a ∈ acts ->
    exists o1,
      match a with
      | Pool.Call i r => snd (act i o1) = r
      | Pool.Fetch _ url r => snd (fetch url o1) = r
      end.
Proof.
  induction acts as [| b acts IH]; intros o o' a Hl Ha.
  - apply elem_of_nil in Ha. contradiction.
  - apply elem_of_cons in Ha as [-> | Ha].
    + exists o. destruct b; simpl in Hl; tauto.
    + destruct b; simpl in Hl; destruct Hl as [_ Hl]; eapply IH; eassumption.
Qed.

End LinkedFacts.

Section PoolFacts.

Context {E A : Type}.
Variable fetch : jstring -> E -> E * result jstring.
Variable call : nat -> M E jstring.
Variable dest : nat -> jstring.
Variable value : jstring -> A.
Variable act : nat -> E -> E * result jstring.
Variable log : nat -> result jstring -> list event.

(** The call of a task changes the world outside as [act] says, adds
    the events of [log] to the trace, and leaves the files alone. *)
Hypothesis call_spec : forall i w,
  call i w
  = (World (files w) (fst (act i (outside w)))
           (trace w ++ log i (snd (act i (outside w)))),
     snd (act i (outside w))).

(** Distinct tasks write distinct files. *)
Hypothesis dest_inj : forall i j, dest i = dest j -> i = j.

Import Pool.

Local Abbreviation at_phase := (Pool.at_phase fetch call dest value).
Local Abbreviation linked := (Pool.linked fetch act).
Local Abbreviation shown := (Pool.shown dest log).
Local Abbreviation told := (Pool.told dest).
Local Abbreviation reached := (Pool.reached fetch dest act log).
Local Abbreviation ends := (Pool.ends fetch dest value act log).
Local Abbreviation finishes := (Pool.finishes fetch dest value act log).

Lemma callers_app (acts acts' : list action) :
  callers (acts ++ acts') = callers acts ++ callers acts'.
Proof. apply omap_app. Qed.

Lemma fetchers_app (acts acts' : list action) :
  fetchers (acts ++ acts') = fetchers acts ++ fetchers acts'.
Proof. apply omap_app. Qed.

Lemma callers_elem (acts : list action) (i : nat) :
  i ∈ callers acts <-> exists r, Call i r ∈ acts.
Proof.
  unfold callers. rewrite list_elem_of_omap. split.
  - intros ([j r | j url r] & Hin & Heq); [| discriminate].
    injection Heq as ->. eauto.
  - intros [r Hin]. exists (Call i r). auto.
Qed.

Lemma fetchers_elem (acts : list action) (i : nat) :
  i ∈ fetchers acts <-> exists url r, Fetch i url r ∈ acts.
Proof.
  unfold fetchers. rewrite list_elem_of_omap. split.
  - intros ([j r | j url r] & Hin & Heq); [discriminate |].
    injection Heq as ->. eauto.
  - intros (url & r & Hin). exists (Fetch i url r). auto.
Qed.

Lemma linked_snoc (acts : list action) :
  forall (o o1 o2 : E) (a : action),
    linked o acts o1 -> linked o1 [a] o2 -> linked o (acts ++ [a]) o2.
Proof.
  induction acts as [| b acts IH]; intros o o1 o2 a Hacts Ha.
  - simpl in Hacts. subst o1. exact Ha.
  - destruct b as [i r | i url r]; destruct Hacts as [Hr Hrest];
      (split; [exact Hr | eapply IH; eassumption]).
Qed.

Lemma linked_call (i : nat) (o : E) :
  linked o [Call i (snd (act i o))] (fst (act i o)).
Proof. simpl. auto. Qed.

Lemma linked_fetch (i : nat) (url : jstring) (o : E) :
  linked o [Fetch i url (snd (fetch url o))] (fst (fetch url o)).
Proof. simpl. auto. Qed.

(** *** One task, resumed once *)

Lemma told_other_call (acts : list action) (fs : gmap jstring jstring)
    (i j : nat) (r : result jstring) (ph : phase) :
  i <> j -> told acts fs j ph -> told (acts ++ [Call i r]) fs j ph.
Proof.
  intros Hne. destruct ph as [| r' | url r' | url data]; simpl;
    rewrite ?callers_app, ?fetchers_app; simpl;
    rewrite ?app_nil_r, ?elem_of_app, ?list_elem_of_singleton.
  - intros [Hc Hf]. split; [| exact Hf]. intros [H | H]; [tauto | congruence].
  - intros [Hc Hf]. auto.
  - intros [Hc Hf]. auto.
  - intros (Hc & Hf & Hd). auto.
Qed.

Lemma told_other_fetch (acts : list action) (fs : gmap jstring jstring)
    (i j : nat) (url : jstring) (r : result jstring) (ph : phase) :
  i <> j -> told acts fs j ph -> told (acts ++ [Fetch i url r]) fs j ph.
Proof.
  intros Hne. destruct ph as [| r' | url' r' | url' data]; simpl;
    rewrite ?callers_app, ?fetchers_app; simpl;
    rewrite ?app_nil_r, ?elem_of_app, ?list_elem_of_singleton.
  - intros [Hc Hf]. split; [exact Hc |]. intros [H | H]; [tauto | congruence].
  - intros [Hc Hf]. split; [auto |].
    intros [H | H]; [tauto | congruence].
  - intros [Hc Hf]. auto.
  - intros (Hc & Hf & Hd). auto.
Qed.

Lemma told_other_write (acts : list action) (fs : gmap jstring jstring)
    (i j : nat) (data : jstring) (ph : phase) :
  i <> j -> told acts fs j ph -> told acts (<[dest i := data]> fs) j ph.
Proof.
  intros Hne. destruct ph as [| r' | url' r' | url' data']; simpl; try tauto.
  intros (Hc & Hf & Hd). rewrite lookup_insert_ne; [auto |].
  intros Heq. apply dest_inj in Heq. congruence.
Qed.

(** The call of a task that had not started. *)
Lemma reached_call (w0 w : world E) (phases : list phase) (acts : list action) (i : nat) :
  reached w0 phases acts w ->
  phases !! i = Some Queued ->
  reached w0 (<[i := Called (snd (act i (outside w)))]> phases)
    (acts ++ [Call i (snd (act i (outside w)))])
    (World (files w) (fst (act i (outside w)))
           (trace w ++ log i (snd (act i (outside w))))).
Proof.
  intros [Hl Ht Htold Hnc Hnf Hb Hf] Hi.
  pose proof (Htold i Queued Hi) as [Hic Hif].
  pose proof (lookup_lt_Some _ _ _ Hi) as Hlt.
  constructor; cbn [files outside trace].
  - eapply linked_snoc; [exact Hl | apply linked_call].
  - rewrite Ht, bind_app, <- app_assoc. simpl. rewrite app_nil_r. reflexivity.
  - intros j ph Hj. destruct (decide (j = i)) as [-> | Hne].
    + rewrite list_lookup_insert_eq in Hj by exact Hlt. injection Hj as <-.
      simpl. rewrite elem_of_app, list_elem_of_singleton, fetchers_app. simpl.
      rewrite app_nil_r. split; [right; reflexivity | exact Hif].
    + rewrite list_lookup_insert_ne in Hj by congruence.
      apply told_other_call; [congruence | apply Htold, Hj].
  - rewrite callers_app. simpl. apply NoDup_app. split; [exact Hnc |].
    split; [| apply NoDup_singleton].
    intros x Hx Hx'. apply list_elem_of_singleton in Hx'. subst x. contradiction.
  - rewrite fetchers_app. simpl. rewrite app_nil_r. exact Hnf.
  - intros j. rewrite callers_app, fetchers_app, length_insert. simpl.
    rewrite app_nil_r, elem_of_app, list_elem_of_singleton.
    intros [[H | ->] | H]; [apply Hb; auto | exact Hlt | apply Hb; auto].
  - intros name Hname. apply Hf. intros j url data Hj.
    apply (Hname j url data).
    rewrite list_lookup_insert_ne; [exact Hj | congruence].
Qed.

(** The fetch of a task whose call returned a URL. *)
Lemma reached_fetch (w0 w : world E) (phases : list phase) (acts : list action)
    (i : nat) (url : jstring) :
  reached w0 phases acts w ->
  phases !! i = Some (Called (Ok url)) ->
  reached w0 (<[i := Fetching url (snd (fetch url (outside w)))]> phases)
    (acts ++ [Fetch i url (snd (fetch url (outside w)))])
    (World (files w) (fst (fetch url (outside w)))
           (trace w ++ [Download url (dest i) (snd (fetch url (outside w)))])).
Proof.
  intros [Hl Ht Htold Hnc Hnf Hb Hf] Hi.
  pose proof (Htold i _ Hi) as [Hic Hif].
  pose proof (lookup_lt_Some _ _ _ Hi) as Hlt.
  constructor; cbn [files outside trace].
  - eapply linked_snoc; [exact Hl | apply linked_fetch].
  - rewrite Ht, bind_app, <- app_assoc. reflexivity.
  - intros j ph Hj. destruct (decide (j = i)) as [-> | Hne].
    + rewrite list_lookup_insert_eq in Hj by exact Hlt. injection Hj as <-.
      simpl. rewrite !elem_of_app, !list_elem_of_singleton.
      split; [left; exact Hic | right; reflexivity].
    + rewrite list_lookup_insert_ne in Hj by congruence.
      apply told_other_fetch; [congruence | apply Htold, Hj].
  - rewrite callers_app. simpl. rewrite app_nil_r. exact Hnc.
  - rewrite fetchers_app. simpl. apply NoDup_app. split; [exact Hnf |].
    split; [| apply NoDup_singleton].
    intros x Hx Hx'. apply list_elem_of_singleton in Hx'. subst x. contradiction.
  - intros j. rewrite callers_app, fetchers_app, length_insert. simpl.
    rewrite app_nil_r, elem_of_app, list_elem_of_singleton.
    intros [H | [H | ->]]; [apply Hb; auto | apply Hb; auto | exact Hlt].
  - intros name Hname. apply Hf. intros j url' data Hj.
    apply (Hname j url' data).
    rewrite list_lookup_insert_ne; [exact Hj | congruence].
Qed.

(** The write of a task whose fetch returned data. *)
Lemma reached_write (w0 w : world E) (phases : list phase) (acts : list action)
    (i : nat) (url data : jstring) :
  reached w0 phases acts w ->
  phases !! i = Some (Fetching url (Ok data)) ->
  reached w0 (<[i := Finished url data]> phases) acts
    (World (<[dest i := data]> (files w)) (outside w) (trace w)).
Proof.
  intros [Hl Ht Htold Hnc Hnf Hb Hf] Hi.
  pose proof (Htold i _ Hi) as [Hic Hif].
  pose proof (lookup_lt_Some _ _ _ Hi) as Hlt.
  constructor; cbn [files outside trace]; try assumption.
  - intros j ph Hj. destruct (decide (j = i)) as [-> | Hne].
    + rewrite list_lookup_insert_eq in Hj by exact Hlt. injection Hj as <-.
      simpl. rewrite lookup_insert_eq. auto.
    + rewrite list_lookup_insert_ne in Hj by congruence.
      apply told_other_write; [congruence | apply Htold, Hj].
  - intros j. rewrite length_insert. apply Hb.
  - intros name Hname.
    rewrite lookup_insert_ne.
    + apply Hf. intros j url' data' Hj. apply (Hname j url' data').
      rewrite list_lookup_insert_ne; [exact Hj | congruence].
    + apply (Hname i url data). apply list_lookup_insert_eq, Hlt.
Qed.

(** A task that is about to throw has an action that threw. *)
Lemma reached_threw (w0 w : world E) (phases : list phase) (acts : list action)
    (i : nat) (e : error) :
  reached w0 phases acts w ->
  phases !! i = Some (Called (Throw e))
  \/ (exists url, phases !! i = Some (Fetching url (Throw e))) ->
  exists a, a ∈ acts /\ threw e a.
Proof.
  intros H [Hi | [url Hi]]; pose proof (reached_told _ _ _ _ _ _ _ _ H i _ Hi) as Ht;
    simpl in Ht.
  - exists (Call i (Throw e)). split; [tauto | reflexivity].
  - exists (Fetch i url (Throw e)). split; [tauto | reflexivity].
Qed.

(** *** How a task goes on when it is resumed *)

Lemma pool_insert (phases : list phase) (i : nat) (ph : phase) :
  <[i := at_phase i ph]> (imap at_phase phases) = imap at_phase (<[i := ph]> phases).
Proof.
  apply list_eq. intros j. rewrite list_lookup_imap.
  destruct (decide (i < length phases)%nat) as [Hlt | Hge].
  - destruct (decide (i = j)) as [<- | Hne].
    + rewrite !list_lookup_insert_eq by (rewrite ?length_imap; exact Hlt). reflexivity.
    + rewrite !list_lookup_insert_ne by exact Hne. apply list_lookup_imap.
  - rewrite !list_insert_ge by (rewrite ?length_imap; lia). apply list_lookup_imap.
Qed.

Lemma queued_resume (i : nat) :
  exists resume,
    at_phase i Queued = Waiting resume
    /\ forall w, resume w
                 = (World (files w) (fst (act i (outside w)))
                          (trace w ++ log i (snd (act i (outside w)))),
                    at_phase i (Called (snd (act i (outside w))))).
Proof.
  eexists. split; [reflexivity |]. intros w. unfold await. rewrite call_spec.
  reflexivity.
Qed.

Lemma called_resume (i : nat) (r : result jstring) :
  exists resume,
    at_phase i (Called r) = Waiting resume
    /\ forall w, resume w
                 = match r with
                   | Ok url =>
                       (World (files w) (fst (fetch url (outside w)))
                              (trace w ++ [Download url (dest i)
                                             (snd (fetch url (outside w)))]),
                        at_phase i (Fetching url (snd (fetch url (outside w)))))
                   | Throw e => (w, Settled (Throw e))
                   end.
Proof.
  eexists. split; [reflexivity |]. intros w. destruct r as [url | e]; [| reflexivity].
  unfold await, requestFile. destruct (fetch url (outside w)) as [o r]. reflexivity.
Qed.

Lemma fetching_resume (i : nat) (url : jstring) (r : result jstring) :
  exists resume,
    at_phase i (Fetching url r) = Waiting resume
    /\ forall w, resume w
                 = match r with
                   | Ok data =>
                       (World (<[dest i := data]> (files w)) (outside w) (trace w),
                        at_phase i (Finished url data))
                   | Throw e => (w, Settled (Throw e))
                   end.
Proof.
  eexists. split; [reflexivity |]. intros w. destruct r as [data | e]; reflexivity.
Qed.

Lemma at_phase_goes (i : nat) (ph : phase) (e : error) :
  at_phase i ph <> Settled (Throw e).
Proof. destruct ph; discriminate. Qed.

(** *** [awaitAll], one index of the order at a time *)

Lemma awaitAll_throws (i : nat) (order : list nat) (tasks : list (task E A))
    (resume : world E -> world E * task E A) (w w' : world E) (e : error) :
  tasks !! i = Some (Waiting resume) ->
  resume w = (w', Settled (Throw e)) ->
  awaitAll (i :: order) tasks w = (w', Throw e).
Proof. intros Hi Hr. cbn [awaitAll]. rewrite Hi, Hr. reflexivity. Qed.

Lemma awaitAll_goes (i : nat) (order : list nat) (tasks : list (task E A))
    (resume : world E -> world E * task E A) (w w' : world E) (t : task E A) :
  tasks !! i = Some (Waiting resume) ->
  resume w = (w', t) ->
  (forall e, t <> Settled (Throw e)) ->
  awaitAll (i :: order) tasks w = awaitAll order (<[i := t]> tasks) w'.
Proof.
  intros Hi Hr Ht. cbn [awaitAll]. rewrite Hi, Hr.
  destruct t as [[a | e] | resume']; try reflexivity.
  exfalso. exact (Ht e eq_refl).
Qed.

Lemma awaitAll_passes (i : nat) (order : list nat) (tasks : list (task E A))
    (w : world E) :
  tasks !! i = None \/ (exists r, tasks !! i = Some (Settled r)) ->
  awaitAll (i :: order) tasks w = awaitAll order tasks w.
Proof. intros [Hi | [r Hi]]; cbn [awaitAll]; rewrite Hi; reflexivity. Qed.

(** *** A task finished on its own *)

Lemma finish_waiting (t : task E A) (resume : world E -> world E * task E A)
    (w : world E) :
  t = Waiting resume -> finish t w = finish (snd (resume w)) (fst (resume w)).
Proof. intros ->. cbn [finish]. destruct (resume w). reflexivity. Qed.

Lemma task_finished (w0 w : world E) (phases : list phase) (acts : list action)
    (i : nat) (url data : jstring) :
  reached w0 phases acts w ->
  phases !! i = Some (Finished url data) ->
  finishes w0 phases i (finish (at_phase i (Finished url data)) w).
Proof.
  intros H Hi. exists (Finished url data), acts. cbn [finish at_phase fst snd].
  rewrite list_insert_id by exact Hi. split; [exact H | eauto].
Qed.

Lemma task_fetching (w0 w : world E) (phases : list phase) (acts : list action)
    (i : nat) (url : jstring) (r : result jstring) :
  reached w0 phases acts w ->
  phases !! i = Some (Fetching url r) ->
  finishes w0 phases i (finish (at_phase i (Fetching url r)) w).
Proof.
  intros H Hi. destruct (fetching_resume i url r) as (resume & Hres & Hw).
  rewrite (finish_waiting _ resume w Hres), Hw.
  destruct r as [data | e]; cbn [fst snd].
  - pose proof (reached_write _ _ _ _ _ _ _ H Hi) as H'.
    exists (Finished url data), acts. cbn [finish at_phase fst snd].
    split; [exact H' | eauto].
  - exists (Fetching url (Throw e)), acts. cbn [finish fst snd].
    rewrite list_insert_id by exact Hi. split; [exact H |].
    apply (reached_threw _ _ _ _ i e H). eauto.
Qed.

Lemma task_called (w0 w : world E) (phases : list phase) (acts : list action)
    (i : nat) (r : result jstring) :
  reached w0 phases acts w ->
  phases !! i = Some (Called r) ->
  finishes w0 phases i (finish (at_phase i (Called r)) w).
Proof.
  intros H Hi. destruct (called_resume i r) as (resume & Hres & Hw).
  rewrite (finish_waiting _ resume w Hres), Hw.
  pose proof (lookup_lt_Some _ _ _ Hi) as Hlt.
  destruct r as [url | e]; cbn [fst snd].
  - pose proof (reached_fetch _ _ _ _ _ _ H Hi) as H'.
    destruct (task_fetching _ _ _ _ i url _ H'
                (list_lookup_insert_eq _ _ _ Hlt)) as (ph & acts' & Hr & Hout).
    rewrite list_insert_insert_eq in Hr. exists ph, acts'. split; assumption.
  - exists (Called (Throw e)), acts. cbn [finish fst snd].
    rewrite list_insert_id by exact Hi. split; [exact H |].
    apply (reached_threw _ _ _ _ i e H). eauto.
Qed.

Lemma task_queued (w0 w : world E) (phases : list phase) (acts : list action)
    (i : nat) :
  reached w0 phases acts w ->
  phases !! i = Some Queued ->
  finishes w0 phases i (finish (at_phase i Queued) w).
Proof.
  intros H Hi. destruct (queued_resume i) as (resume & Hres & Hw).
  rewrite (finish_waiting _ resume w Hres), Hw. cbn [fst snd].
  pose proof (lookup_lt_Some _ _ _ Hi) as Hlt.
  pose proof (reached_call _ _ _ _ _ H Hi) as H'.
  destruct (task_called _ _ _ _ i _ H' (list_lookup_insert_eq _ _ _ Hlt))
    as (ph & acts' & Hr & Hout).
  rewrite list_insert_insert_eq in Hr. exists ph, acts'. split; assumption.
Qed.

Lemma task_any (w0 w : world E) (phases : list phase) (acts : list action)
    (i : nat) (ph : phase) :
  reached w0 phases acts w ->
  phases !! i = Some ph ->
  finishes w0 phases i (finish (at_phase i ph) w).
Proof.
  intros H Hi. destruct ph as [| r | url r | url data].
  - eapply task_queued; eassumption.
  - eapply task_called; eassumption.
  - eapply task_fetching; eassumption.
  - eapply task_finished; eassumption.
Qed.

(** *** The run *)

Lemma drain_from (w0 : world E) (k : nat) :
  forall (j : nat) (phases : list phase) (acts : list action) (w : world E),
    (length phases - j = k)%nat ->
    reached w0 phases acts w ->
    exists phases' acts',
      length phases' = length phases
      /\ reached w0 phases' acts' (fst (drain (drop j (imap at_phase phases)) w))
      /\ match snd (drain (drop j (imap at_phase phases)) w) with
         | Ok l =>
             exists rest,
               phases' = take j phases ++ rest
               /\ finished rest /\ l = value <$> urls rest
         | Throw e => exists a, a ∈ acts' /\ threw e a
         end.
Proof.
  induction k as [| k IH]; intros j phases acts w Hk H.
  - rewrite drop_ge by (rewrite length_imap; lia). cbn [drain fst snd].
    exists phases, acts. split; [reflexivity |]. split; [exact H |].
    exists []. rewrite take_ge by lia. rewrite app_nil_r.
    split; [reflexivity |]. split; [constructor | reflexivity].
  - destruct (lookup_lt_is_Some_2 phases j ltac:(lia)) as [ph Hj].
    rewrite (drop_S _ (at_phase j ph) j) by (rewrite list_lookup_imap, Hj; reflexivity).
    cbn [drain].
    destruct (task_any w0 w phases acts j ph H Hj) as (ph' & acts1 & Hr & Hout).
    destruct (finish (at_phase j ph) w) as [w1 [a | e]]; cbn [fst snd] in Hr, Hout.
    + destruct Hout as (url & data & -> & ->).
      assert (Hdrop : drop (S j) (imap at_phase phases)
                      = drop (S j) (imap at_phase (<[j := Finished url data]> phases))).
      { rewrite <- pool_insert, drop_insert_lt by lia. reflexivity. }
      rewrite Hdrop.
      destruct (IH (S j) (<[j := Finished url data]> phases) acts1 w1
                  ltac:(rewrite length_insert; lia) Hr)
        as (phases2 & acts2 & Hlen & Hr2 & Hout2).
      destruct (drain _ w1) as [w2 [l | e]]; cbn [fst snd] in Hr2, Hout2 |- *.
      * destruct Hout2 as (rest & -> & Hfin & ->).
        exists (take (S j) (<[j := Finished url data]> phases) ++ rest), acts2.
        rewrite length_insert in Hlen.
        split; [exact Hlen |]. split; [exact Hr2 |].
        exists (Finished url data :: rest).
        rewrite (take_S_r _ j (Finished url data))
          by (apply list_lookup_insert_eq; lia).
        rewrite take_insert_ge by lia. rewrite <- app_assoc.
        split; [reflexivity |]. split; [constructor; [exact I | exact Hfin] | reflexivity].
      * exists phases2, acts2. rewrite length_insert in Hlen. auto.
    + exists (<[j := ph']> phases), acts1. rewrite length_insert. auto.
Qed.

(** Whatever the order, the run ends as [ends] tells. *)
Lemma awaitAll_ends (w0 : world E) (order : list nat) :
  forall (phases : list phase) (acts : list action) (w : world E),
    reached w0 phases acts w ->
    ends w0 (length phases) (awaitAll order (imap at_phase phases) w).
Proof.
  induction order as [| i order IH]; intros phases acts w H.
  - cbn [awaitAll].
    destruct (drain_from w0 _ 0 phases acts w eq_refl H)
      as (phases' & acts' & Hlen & Hr & Hout).
    rewrite drop_0 in Hr, Hout. exists phases', acts'.
    split; [exact Hlen |]. split; [exact Hr |].
    destruct (snd (drain (imap at_phase phases) w)) as [l | e]; [| exact Hout].
    destruct Hout as (rest & -> & Hfin & ->). rewrite take_0. auto.
  - assert (Hgo : forall resume ph w',
               at_phase i ph = Waiting resume ->
               phases !! i = Some ph ->
               forall ph' acts',
                 resume w = (w', at_phase i ph') ->
                 reached w0 (<[i := ph']> phases) acts' w' ->
                 ends w0 (length phases) (awaitAll (i :: order) (imap at_phase phases) w)).
    { intros resume ph w' Hres Hi ph' acts' Hw H'.
      rewrite (awaitAll_goes i order _ resume w w' (at_phase i ph')).
      - rewrite pool_insert, <- (length_insert phases i ph'). eapply IH, H'.
      - rewrite list_lookup_imap, Hi. cbn. f_equal. exact Hres.
      - exact Hw.
      - intros e. apply at_phase_goes. }
    assert (Hstop : forall resume ph e,
               at_phase i ph = Waiting resume ->
               phases !! i = Some ph ->
               resume w = (w, Settled (Throw e)) ->
               phases !! i = Some (Called (Throw e))
               \/ (exists url, phases !! i = Some (Fetching url (Throw e))) ->
               ends w0 (length phases) (awaitAll (i :: order) (imap at_phase phases) w)).
    { intros resume ph e Hres Hi Hw Hph.
      rewrite (awaitAll_throws i order _ resume w w e).
      - exists phases, acts. split; [reflexivity |]. split; [exact H |].
        apply (reached_threw _ _ _ _ i e H Hph).
      - rewrite list_lookup_imap, Hi. cbn. f_equal. exact Hres.
      - exact Hw. }
    destruct (phases !! i) as [ph |] eqn:Hi.
    + destruct ph as [| r | url r | url data].
      * destruct (queued_resume i) as (resume & Hres & Hw).
        eapply (Hgo resume Queued _ Hres eq_refl); [apply Hw |].
        apply reached_call; eassumption.
      * destruct (called_resume i r) as (resume & Hres & Hw).
        destruct r as [url | e].
        -- eapply (Hgo resume _ _ Hres eq_refl); [apply Hw |].
           apply reached_fetch; eassumption.
        -- eapply (Hstop resume _ e Hres eq_refl); [apply Hw | auto].
      * destruct (fetching_resume i url r) as (resume & Hres & Hw).
        destruct r as [data | e].
        -- eapply (Hgo resume _ _ Hres eq_refl); [apply Hw |].
           apply reached_write; eassumption.
        -- eapply (Hstop resume _ e Hres eq_refl); [apply Hw | eauto].
      * rewrite awaitAll_passes; [apply (IH phases acts), H |].
        right. exists (Ok (value url)). rewrite list_lookup_imap, Hi. reflexivity.
    + rewrite awaitAll_passes; [apply (IH phases acts), H |].
      left. rewrite list_lookup_imap, Hi. reflexivity.
Qed.

(** The start of a run: no task has started and nothing was done. *)
Lemma reached_start (w0 : world E) (n : nat) :
  reached w0 (replicate n Queued) [] w0.
Proof.
  constructor; simpl.
  - reflexivity.
  - rewrite app_nil_r. reflexivity.
  - intros i ph Hi. apply lookup_replicate in Hi as [-> _]. simpl.
    split; apply not_elem_of_nil.
  - constructor.
  - constructor.
  - intros i [Hi | Hi]; apply elem_of_nil in Hi; contradiction.
  - reflexivity.
Qed.

Lemma pool_start {X : Type} (xs : list X) :
  imap (fun i _ => job fetch call dest value i) xs
  = imap at_phase (replicate (length xs) Queued).
Proof.
  apply list_eq. intros i. rewrite !list_lookup_imap.
  destruct (decide (i < length xs)%nat) as [Hlt | Hge].
  - destruct (lookup_lt_is_Some_2 xs i Hlt) as [x ->].
    rewrite (lookup_replicate_2 _ _ _ Hlt). reflexivity.
  - rewrite (lookup_ge_None_2 xs i) by lia.
    rewrite (lookup_ge_None_2 (replicate _ _) i) by (rewrite length_replicate; lia).
    reflexivity.
Qed.

(** A run of the tasks of [xs], from its start. *)
Lemma awaitAll_jobs {X : Type} (xs : list X) (order : list nat) (w : world E) :
  ends w (length xs) (awaitAll order (imap (fun i _ => job fetch call dest value i) xs) w).
Proof.
  rewrite pool_start. rewrite <- (length_replicate (length xs) Queued) at 1.
  apply (awaitAll_ends w order _ []), reached_start.
Qed.

(** *** What the actions tell of a run *)

Lemma callers_unique (acts : list action) (i : nat) (r r' : result jstring) :
  NoDup (callers acts) -> Call i r ∈ acts -> Call i r' ∈ acts -> r = r'.
Proof.
  induction acts as [| a acts IH]; intros Hnd Hr Hr'.
  - apply elem_of_nil in Hr. contradiction.
  - apply elem_of_cons in Hr, Hr'.
    destruct a as [j s | j url s]; cbn in Hnd.
    + apply NoDup_cons in Hnd as [Hj Hnd].
      destruct Hr as [Hr | Hr], Hr' as [Hr' | Hr']; try congruence.
      * injection Hr as <- <-. exfalso. apply Hj, callers_elem. eauto.
      * injection Hr' as <- <-. exfalso. apply Hj, callers_elem. eauto.
      * apply IH; assumption.
    + destruct Hr as [Hr | Hr], Hr' as [Hr' | Hr']; try discriminate.
      apply IH; assumption.
Qed.

Lemma fetchers_unique (acts : list action) (i : nat) (url url' : jstring)
    (r r' : result jstring) :
  NoDup (fetchers acts) -> Fetch i url r ∈ acts -> Fetch i url' r' ∈ acts ->
  url = url' /\ r = r'.
Proof.
  induction acts as [| a acts IH]; intros Hnd Hr Hr'.
  - apply elem_of_nil in Hr. contradiction.
  - apply elem_of_cons in Hr, Hr'.
    destruct a as [j s | j u s]; cbn in Hnd.
    + destruct Hr as [Hr | Hr], Hr' as [Hr' | Hr']; try discriminate.
      apply IH; assumption.
    + apply NoDup_cons in Hnd as [Hj Hnd].
      destruct Hr as [Hr | Hr], Hr' as [Hr' | Hr'].
      * split; congruence.
      * injection Hr as <- <- <-. exfalso. apply Hj, fetchers_elem. eauto.
      * injection Hr' as <- <- <-. exfalso. apply Hj, fetchers_elem. eauto.
      * apply IH; assumption.
Qed.

(** Whether a finished task writes the file [name]. *)
Lemma finished_writes (phases : list phase) (name : jstring) :
  (exists i url data, phases !! i = Some (Finished url data) /\ dest i = name)
  \/ (forall i url data, phases !! i = Some (Finished url data) -> dest i <> name).
Proof.
  induction phases as [| ph phases IH] using rev_ind.
  - right. intros i url data Hi. rewrite lookup_nil in Hi. discriminate.
  - destruct IH as [(i & url & data & Hi & Hd) | IH].
    { left. exists i, url, data. split; [| exact Hd].
      apply lookup_app_l_Some, Hi. }
    assert (Hlast : (exists url data, ph = Finished url data /\ dest (length phases) = name)
                    \/ (forall url data, ph = Finished url data ->
                                         dest (length phases) <> name)).
    { destruct ph as [| r | url r | url data]; try (right; discriminate).
      destruct (decide (dest (length phases) = name)) as [Heq | Hne].
      - left. eauto.
      - right. intros ? ? _. exact Hne. }
    destruct Hlast as [(url & data & -> & Hd) | Hlast].
    + left. exists (length phases), url, data. split; [| exact Hd].
      apply list_lookup_middle. reflexivity.
    + right. intros i url data Hi.
      apply lookup_app_Some in Hi as [Hi | [Hge Hi]]; [eapply IH, Hi |].
      apply list_lookup_singleton_Some in Hi as [Hi ->].
      replace i with (length phases) by lia. eapply Hlast. reflexivity.
Qed.

Lemma urls_finished (phases : list phase) :
  finished phases ->
  length (urls phases) = length phases
  /\ forall i url data, phases !! i = Some (Finished url data) ->
                        urls phases !! i = Some url.
Proof.
  induction 1 as [| ph phases Hph _ [IHl IHu]]; [split; [reflexivity | intros i ? ? Hi; rewrite lookup_nil in Hi; discriminate] |].
  destruct ph as [| r | url r | url data]; try contradiction.
  cbn. split; [f_equal; exact IHl |].
  intros [| i] url' data' Hi; cbn in Hi |- *.
  - congruence.
  - eapply IHu, Hi.
Qed.

Lemma ends_report (w0 : world E) (n : nat) (out : world E * result (list A)) :
  ends w0 n out -> exists acts, report fetch dest value act log w0 n acts out.
Proof.
  intros (phases & acts & Hlen & [Hl Ht Htold Hnc Hnf Hb Hf] & Hout).
  assert (Hphase : forall i, i ∈ callers acts \/ i ∈ fetchers acts ->
                             exists ph, phases !! i = Some ph /\ told acts (files (fst out)) i ph).
  { intros i Hi. destruct (lookup_lt_is_Some_2 phases i (Hb i Hi)) as [ph Hph].
    exists ph. split; [exact Hph | apply Htold, Hph]. }
  exists acts. constructor.
  - exact Hl.
  - exact Ht.
  - apply NoDup_submseteq; [exact Hnc |].
    intros i Hi. apply elem_of_seq. specialize (Hb i (or_introl Hi)). lia.
  - apply NoDup_submseteq; [exact Hnf |].
    intros i Hi. apply elem_of_seq. specialize (Hb i (or_intror Hi)). lia.
  - intros i url r Hin.
    assert (Hi : i ∈ fetchers acts) by (apply fetchers_elem; eauto).
    destruct (Hphase i (or_intror Hi)) as (ph & _ & Hph).
    destruct ph as [| r' | url' r' | url' data]; simpl in Hph.
    + tauto.
    + tauto.
    + destruct Hph as [Hc Hf'].
      destruct (fetchers_unique _ _ _ _ _ _ Hnf Hin Hf') as [-> _]. exact Hc.
    + destruct Hph as (Hc & Hf' & _).
      destruct (fetchers_unique _ _ _ _ _ _ Hnf Hin Hf') as [-> _]. exact Hc.
  - intros name. destruct (finished_writes phases name)
      as [(i & url & data & Hi & Hd) | Hnone].
    + right. destruct (Htold i _ Hi) as (_ & Hfe & Hfile).
      exists i, url, data. subst name. auto.
    + left. apply Hf, Hnone.
  - destruct (snd out) as [l | e]; [| exact Hout].
    destruct Hout as [Hfin ->].
    destruct (urls_finished phases Hfin) as [Hul Hu].
    assert (Hall : forall i, (i < n)%nat ->
                     exists url data, phases !! i = Some (Finished url data)).
    { intros i Hi. destruct (lookup_lt_is_Some_2 phases i ltac:(lia)) as [ph Hph].
      pose proof (proj1 (Forall_lookup _ _) Hfin i ph Hph) as Hd.
      destruct ph as [| r | url r | url data]; try contradiction. eauto. }
    split; [rewrite length_fmap; lia |].
    split; [| split].
    + apply NoDup_Permutation; [exact Hnc | apply NoDup_seq |].
      intros i. rewrite elem_of_seq. split.
      * intros Hi. specialize (Hb i (or_introl Hi)). lia.
      * intros Hi. destruct (Hall i ltac:(lia)) as (url & data & Hph).
        destruct (Htold i _ Hph) as (Hc & _). apply callers_elem. eauto.
    + apply NoDup_Permutation; [exact Hnf | apply NoDup_seq |].
      intros i. rewrite elem_of_seq. split.
      * intros Hi. specialize (Hb i (or_intror Hi)). lia.
      * intros Hi. destruct (Hall i ltac:(lia)) as (url & data & Hph).
        destruct (Htold i _ Hph) as (_ & Hfe & _). apply fetchers_elem. eauto.
    + intros i Hi. destruct (Hall i Hi) as (url & data & Hph).
      destruct (Htold i _ Hph) as (Hc & Hfe & Hfile).
      exists url, data. split; [exact Hc |]. split; [exact Hfe |].
      split; [exact Hfile |].
      rewrite list_lookup_fmap, (Hu i url data Hph). reflexivity.
Qed.

(** A run of the tasks of [xs], from its start, told by its actions. *)
Lemma awaitAll_report {X : Type} (xs : list X) (order : list nat) (w : world E) :
  exists acts,
    report fetch dest value act log w (length xs) acts
      (awaitAll order (imap (fun i _ => job fetch call dest value i) xs) w).
Proof. apply ends_report, awaitAll_jobs. Qed.

End PoolFacts.

(** ** Step 5 *)

Section Step5Facts.

Context {E : Type}.
Variable generateVideo :
  option Json.value -> option Json.value -> option Json.value -> E -> E * result jstring.
Variable fetch : jstring -> E -> E * result jstring.

Import Step5Trace.

Lemma get_property (v : Json.value) (name : jstring) :
  v <> Json.Null -> Json.get (Some v) name = Ok (JsonOps.property v name).
Proof. destruct v; intros Hv; try reflexivity. contradiction. Qed.

(** Distinct indices have distinct files. *)
Lemma of_string_inj (a b : string) : Js.of_string a = Js.of_string b -> a = b.
Proof.
  unfold Js.of_string. intros H.
  rewrite <- (string_of_list_ascii_of_string a), <- (string_of_list_ascii_of_string b).
  f_equal. revert H. generalize (list_ascii_of_string a) (list_ascii_of_string b).
  induction l as [| x l IH]; intros [| y l']; simpl; try discriminate; [reflexivity |].
  intros [= Hxy Hl]. f_equal; [| apply IH, Hl].
  rewrite <- (ascii_N_embedding x), <- (ascii_N_embedding y). congruence.
Qed.

Lemma decimal_inj (n m : nat) : Js.decimal n = Js.decimal m -> n = m.
Proof.
  unfold Js.decimal. intros H. apply of_string_inj in H.
  assert (Hu : Nat.to_uint n = Nat.to_uint m).
  { apply (f_equal NilEmpty.uint_of_string) in H.
    rewrite !NilEmpty.usu in H. congruence. }
  apply (f_equal Nat.of_uint) in Hu. rewrite !DecimalNat.Unsigned.of_to in Hu.
  exact Hu.
Qed.

Lemma segmentFile_inj (i j : nat) : segmentFile i = segmentFile j -> i = j.
Proof.
  unfold segmentFile. intros H. apply app_inv_head in H.
  apply app_inv_tail in H. apply decimal_inj in H. lia.
Qed.

Lemma world_eta (w : world E) : World (files w) (outside w) (trace w) = w.
Proof. destruct w. reflexivity. Qed.

(** The call of a segment task, as the pool sees it. *)
Lemma segment_call_spec (kf : Json.value) (segs : list Json.value) (i : nat)
    (w : world E) :
  Step5Calls.call generateVideo kf segs i w
  = (World (files w) (fst (Step5Calls.act generateVideo kf segs i (outside w)))
           (trace w ++ Step5Calls.log kf segs i
                         (snd (Step5Calls.act generateVideo kf segs i (outside w)))),
     snd (Step5Calls.act generateVideo kf segs i (outside w))).
Proof.
  unfold Step5Calls.call, Step5Calls.act, Step5Calls.log, Step5Calls.arguments.
  destruct (segs !! i) as [segment |];
    [| unfold throw; cbn [fst snd]; rewrite app_nil_r, world_eta; reflexivity].
  unfold andThen, lift.
  destruct (Json.get (Some segment) (js "script")) as [prompt | e];
    [| cbn [fst snd]; rewrite app_nil_r, world_eta; reflexivity].
  destruct (JsonOps.index kf i) as [first | e];
    [| cbn [fst snd]; rewrite app_nil_r, world_eta; reflexivity].
  destruct (JsonOps.index kf (i + 1)) as [last | e];
    [| cbn [fst snd]; rewrite app_nil_r, world_eta; reflexivity].
  unfold askVideo. destruct (generateVideo prompt first last (outside w)) as [o r].
  reflexivity.
Qed.

Lemma segment_tasks (kf : Json.value) (segs : list Json.value) :
  imap (segmentTask generateVideo fetch kf) segs
  = imap (fun i _ => Pool.job fetch (Step5Calls.call generateVideo kf segs)
                       segmentFile (fun _ => tt) i) segs.
Proof.
  apply imap_ext. intros i segment Hi.
  unfold segmentTask, Pool.job, Step5Calls.call. rewrite Hi. reflexivity.
Qed.

(** Step 5, once its two files are read, is the run of its tasks. *)
Lemma step5_report (order : list nat) (w : world E) (scriptText urlsText : jstring)
    (script kf : Json.value) (segs : list Json.value) :
  files w !! js "script.json" = Some scriptText ->
  Json.parse scriptText = Some script ->
  files w !! js "keyframes.json" = Some urlsText ->
  Json.parse urlsText = Some kf ->
  Json.get (Some script) (js "segments") = Ok (Some (Json.Arr segs)) ->
  exists acts out,
    Pool.report fetch segmentFile (fun _ => tt)
      (Step5Calls.act generateVideo kf segs) (Step5Calls.log kf segs)
      w (length segs) acts out
    /\ fst (step5 generateVideo fetch order w) = fst out
    /\ snd (step5 generateVideo fetch order w)
       = match snd out with Ok _ => Ok tt | Throw e => Throw e end.
Proof.
  intros Hs Hps Hu Hpu Hsegs.
  destruct (awaitAll_report fetch (Step5Calls.call generateVideo kf segs) segmentFile
              (fun _ => tt) (Step5Calls.act generateVideo kf segs)
              (Step5Calls.log kf segs) (segment_call_spec kf segs) segmentFile_inj
              segs order w) as [acts Hrep].
  exists acts, (awaitAll order (imap (segmentTask generateVideo fetch kf) segs) w).
  rewrite segment_tasks. split; [exact Hrep |].
  unfold step5, readJSON, andThen, readFileSync, ret, lift.
  rewrite Hs, Hps, Hu, Hpu, Hsegs. cbn [JsonOps.items]. rewrite segment_tasks.
  destruct (awaitAll order _ w) as [w' [l | e]]; split; reflexivity.
Qed.

(** *** The events of the run *)

Lemma videoCalls_app (evs evs' : list event) :
  videoCalls (evs ++ evs') = videoCalls evs ++ videoCalls evs'.
Proof. unfold videoCalls. apply omap_app. Qed.

(** The events are linked as the actions are. *)
Lemma linked_events (kf : Json.value) (segs : list Json.value) (acts : list Pool.action) :
  forall o o',
    Pool.linked fetch (Step5Calls.act generateVideo kf segs) o acts o' ->
    linked generateVideo fetch o
      (acts ≫= Pool.shown segmentFile (Step5Calls.log kf segs)) o'.
Proof.
  induction acts as [| a acts IH]; intros o o' Hl; [exact Hl |].
  destruct a as [i r | i url r]; cbn in Hl |- *; destruct Hl as [Hr Hl].
  - unfold Step5Calls.log, Step5Calls.act in *.
    destruct (segs !! i) as [segment |]; [| apply IH, Hl].
    destruct (Step5Calls.arguments kf i segment) as [[[prompt first] last] | e];
      [| apply IH, Hl].
    cbn. split; [exact Hr | apply IH, Hl].
  - split; [exact Hr | apply IH, Hl].
Qed.

(** The video calls of the trace are those of the tasks that called. *)
Lemma videoCalls_shown (kf : Json.value) (segs : list Json.value)
    (acts : list Pool.action) :
  videoCalls (acts ≫= Pool.shown segmentFile (Step5Calls.log kf segs))
  = Pool.callers acts ≫= Step5Calls.made kf segs.
Proof.
  induction acts as [| a acts IH]; [reflexivity |].
  change ((a :: acts) ≫= Pool.shown segmentFile (Step5Calls.log kf segs))
    with (Pool.shown segmentFile (Step5Calls.log kf segs) a
          ++ acts ≫= Pool.shown segmentFile (Step5Calls.log kf segs)).
  rewrite videoCalls_app, IH. destruct a as [i r | i url r]; cbn; [| reflexivity].
  f_equal. unfold Step5Calls.log, Step5Calls.made.
  destruct (segs !! i) as [segment |]; [| reflexivity].
  destruct (Step5Calls.arguments kf i segment) as [[[prompt first] last] | e];
    reflexivity.
Qed.

(** With a list of URLs, the arguments are read unless the segment is
    null. *)
Lemma arguments_list (urls : list Json.value) (i : nat) (segment : Json.value) :
  Step5Calls.arguments (Json.Arr urls) i segment
  = match segment with
    | Json.Null => Throw TypeError
    | _ => Ok (JsonOps.property segment (js "script"), urls !! i, urls !! (i + 1)%nat)
    end.
Proof.
  unfold Step5Calls.arguments. destruct segment; reflexivity.
Qed.

(** The calls the tasks make are among those of the claim, and are those
    of the claim when no segment is null. *)
Lemma made_calls (urls segs : list Json.value) :
  seq 0 (length segs) ≫= Step5Calls.made (Json.Arr urls) segs ⊆+ calls urls segs
  /\ (Json.Null ∉ segs ->
      seq 0 (length segs) ≫= Step5Calls.made (Json.Arr urls) segs = calls urls segs).
Proof.
  unfold calls.
  assert (H : forall (tail : list Json.value) (k : nat),
             (forall j, tail !! j = segs !! (k + j)%nat) ->
             seq k (length tail) ≫= Step5Calls.made (Json.Arr urls) segs
               ⊆+ imap (fun j segment => (JsonOps.property segment (js "script"),
                                          urls !! (k + j)%nat, urls !! (k + j + 1)%nat)) tail
             /\ (Json.Null ∉ tail ->
                 seq k (length tail) ≫= Step5Calls.made (Json.Arr urls) segs
                 = imap (fun j segment => (JsonOps.property segment (js "script"),
                                           urls !! (k + j)%nat, urls !! (k + j + 1)%nat)) tail)).
  { induction tail as [| segment tail IH]; intros k Hk; [split; reflexivity |].
    destruct (IH (S k)) as [IHs IHe].
    { intros j. replace (S k + j)%nat with (k + S j)%nat by lia. exact (Hk (S j)). }
    assert (Hext : imap ((fun j segment => (JsonOps.property segment (js "script"),
                                            urls !! (k + j)%nat,
                                            urls !! (k + j + 1)%nat)) ∘ S) tail
                   = imap (fun j segment => (JsonOps.property segment (js "script"),
                                             urls !! (S k + j)%nat,
                                             urls !! (S k + j + 1)%nat)) tail).
    { apply imap_ext. intros j x _. cbn. repeat f_equal; lia. }
    cbn [length seq]. rewrite imap_cons, Hext. cbn [mbind list_bind].
    change (foldr _ _ (seq (S k) (length tail)))
      with (seq (S k) (length tail) ≫= Step5Calls.made (Json.Arr urls) segs)
      in *.
    unfold Step5Calls.made at 1 3. rewrite <- (Nat.add_0_r k) at 1 5.
    rewrite <- (Hk 0%nat). cbn [lookup list_lookup]. rewrite !Nat.add_0_r.
    rewrite arguments_list.
    assert (Hsome : Json.Null ∉ segment :: tail -> Json.Null ∉ tail).
    { intros Hnull Hin. apply Hnull. right. exact Hin. }
    destruct segment;
      try (split; [apply submseteq_skip, IHs | intros Hnull; cbn; f_equal; apply IHe, Hsome, Hnull]).
    split; [apply submseteq_cons, IHs |].
    intros Hnull. exfalso. apply Hnull. left. }
  destruct (H segs 0%nat ltac:(reflexivity)) as [Hs He].
  split; [exact Hs | exact He].
Qed.

(** A call of the run is the call of a segment that is not null, and
    the trace shows it with the arguments of the claim. *)
Lemma call_event (urls segs : list Json.value) (acts : list Pool.action)
    (o o' : E) (i : nat) (r : result jstring) :
  Pool.linked fetch (Step5Calls.act generateVideo (Json.Arr urls) segs) o acts o' ->
  Pool.Call i r ∈ acts ->
  (i < length segs)%nat ->
  (segs !! i = Some Json.Null /\ r = Throw TypeError)
  \/ exists segment,
       segs !! i = Some segment /\ segment <> Json.Null
       /\ VideoCall (JsonOps.property segment (js "script"))
            (urls !! i) (urls !! (i + 1)%nat) r
          ∈ acts ≫= Pool.shown segmentFile (Step5Calls.log (Json.Arr urls) segs).
Proof.
  intros Hl Hin Hi.
  destruct (lookup_lt_is_Some_2 segs i Hi) as [segment Hseg].
  destruct (linked_elem fetch _ acts o o' _ Hl Hin) as [o1 Ho1].
  unfold Step5Calls.act in Ho1. rewrite Hseg, arguments_list in Ho1.
  assert (Hshown : segment <> Json.Null ->
            VideoCall (JsonOps.property segment (js "script"))
              (urls !! i) (urls !! (i + 1)%nat) r
            ∈ acts ≫= Pool.shown segmentFile (Step5Calls.log (Json.Arr urls) segs)).
  { intros Hne. apply list_elem_of_bind. exists (Pool.Call i r). split; [| exact Hin].
    cbn. unfold Step5Calls.log. rewrite Hseg, arguments_list.
    destruct segment; try contradiction; apply list_elem_of_singleton; reflexivity. }
  destruct segment; try (right; eexists; split; [exact Hseg |];
                         split; [discriminate | apply Hshown; discriminate]).
  left. cbn in Ho1. split; [exact Hseg | congruence].
Qed.

Lemma fetch_event (kf : Json.value) (segs : list Json.value) (acts : list Pool.action)
    (i : nat) (url : jstring) (r : result jstring) :
  Pool.Fetch i url r ∈ acts ->
  Download url (segmentFile i) r
  ∈ acts ≫= Pool.shown segmentFile (Step5Calls.log kf segs).
Proof.
  intros Hin. apply list_elem_of_bind. exists (Pool.Fetch i url r).
  split; [apply list_elem_of_singleton; reflexivity | exact Hin].
Qed.

(** A download of the trace is the fetch of a task. *)
Lemma download_fetch (kf : Json.value) (segs : list Json.value) (acts : list Pool.action)
    (url dest : jstring) (r : result jstring) :
  Download url dest r ∈ acts ≫= Pool.shown segmentFile (Step5Calls.log kf segs) ->
  exists i, dest = segmentFile i /\ Pool.Fetch i url r ∈ acts.
Proof.
  intros Hin. apply list_elem_of_bind in Hin as (a & Hin & Ha).
  destruct a as [i r' | i url' r']; cbn in Hin.
  - unfold Step5Calls.log in Hin. destruct (segs !! i) as [segment |];
      [| apply elem_of_nil in Hin; contradiction].
    destruct (Step5Calls.arguments kf i segment) as [[[prompt first] last] | e];
      [| apply elem_of_nil in Hin; contradiction].
    apply list_elem_of_singleton in Hin. discriminate.
  - apply list_elem_of_singleton in Hin. injection Hin as -> -> ->. eauto.
Qed.

Lemma callers_bound (acts : list Pool.action) (n i : nat) (r : result jstring) :
  Pool.callers acts ⊆+ seq 0 n -> Pool.Call i r ∈ acts -> (i < n)%nat.
Proof.
  intros Hsub Hin.
  assert (Hi : i ∈ seq 0 n).
  { eapply elem_of_submseteq; [| exact Hsub].
    apply list_elem_of_omap. exists (Pool.Call i r). auto. }
  apply elem_of_seq in Hi. lia.
Qed.

End Step5Facts.

(** The run of step 5, told by the events it adds to the trace. *)
Lemma step5_run {E : Type}
    (generateVideo : option Json.value -> option Json.value -> option Json.value ->
                     E -> E * result jstring)
    (fetch : jstring -> E -> E * result jstring)
    (order : list nat) (w : world E) (scriptText urlsText : jstring)
    (script : Json.value) (segs urls : list Json.value) :
  files w !! js "script.json" = Some scriptText ->
  Json.parse scriptText = Some script ->
  files w !! js "keyframes.json" = Some urlsText ->
  Json.parse urlsText = Some (Json.Arr urls) ->
  Json.get (Some script) (js "segments") = Ok (Some (Json.Arr segs)) ->
  exists evs : list event,
    trace (fst (step5 generateVideo fetch order w)) = trace w ++ evs
    /\ Step5Trace.linked generateVideo fetch (outside w) evs
         (outside (fst (step5 generateVideo fetch order w)))
    /\ Step5Trace.videoCalls evs ⊆+ Step5Trace.calls urls segs
    /\ (forall url dest r,
          Download url dest r ∈ evs ->
          exists i segment,
            segs !! i = Some segment /\ dest = Step5Trace.segmentFile i
            /\ VideoCall (JsonOps.property segment (js "script"))
                 (urls !! i) (urls !! (i + 1)%nat) (Ok url) ∈ evs)
    /\ (forall name,
          files (fst (step5 generateVideo fetch order w)) !! name = files w !! name
          \/ exists i url data,
               name = Step5Trace.segmentFile i
               /\ Download url name (Ok data) ∈ evs
               /\ files (fst (step5 generateVideo fetch order w)) !! name = Some data)
    /\ match snd (step5 generateVideo fetch order w) with
       | Ok _ =>
           Step5Trace.videoCalls evs ≡ₚ Step5Trace.calls urls segs
           /\ forall i segment,
                segs !! i = Some segment ->
                exists url data,
                  VideoCall (JsonOps.property segment (js "script"))
                    (urls !! i) (urls !! (i + 1)%nat) (Ok url) ∈ evs
                  /\ Download url (Step5Trace.segmentFile i) (Ok data) ∈ evs
                  /\ files (fst (step5 generateVideo fetch order w))
                       !! Step5Trace.segmentFile i = Some data
       | Throw e =>
           (Json.Null ∈ segs /\ e = TypeError)
           \/ exists ev, ev ∈ evs /\ Step5Trace.threw e ev
       end.
Proof.
  intros Hs Hps Hu Hpu Hsegs.
  destruct (step5_report generateVideo fetch order w scriptText urlsText script
              (Json.Arr urls) segs Hs Hps Hu Hpu Hsegs)
    as (acts & out & [Hl Ht Hc Hf Hfc Hfiles Hres] & -> & ->).
  exists (acts ≫= Pool.shown Step5Trace.segmentFile (Step5Calls.log (Json.Arr urls) segs)).
  split; [exact Ht |].
  split; [apply linked_events, Hl |].
  split.
  { rewrite videoCalls_shown. etrans; [| apply made_calls].
    apply bind_submseteq, Hc. }
  split.
  { intros url dest r Hin.
    apply download_fetch in Hin as (i & -> & Hin).
    pose proof (Hfc i url r Hin) as Hcall.
    destruct (call_event generateVideo fetch urls segs acts _ _ i _ Hl Hcall
                (callers_bound acts _ i _ Hc Hcall))
      as [[_ Hr] | (segment & Hseg & _ & Hev)]; [discriminate |].
    exists i, segment. auto. }
  split.
  { intros name. destruct (Hfiles name) as [H | (i & url & data & -> & Hfe & Hfile)];
      [left; exact H | right].
    exists i, url, data. split; [reflexivity |]. split; [| exact Hfile].
    apply fetch_event, Hfe. }
  destruct (snd out) as [l | e].
  - destruct Hres as (_ & Hperm & _ & Hall).
    assert (Hcalls : forall i segment,
               segs !! i = Some segment ->
               segment <> Json.Null
               /\ exists url data,
                    VideoCall (JsonOps.property segment (js "script"))
                      (urls !! i) (urls !! (i + 1)%nat) (Ok url)
                    ∈ acts ≫= Pool.shown Step5Trace.segmentFile
                                (Step5Calls.log (Json.Arr urls) segs)
                    /\ Download url (Step5Trace.segmentFile i) (Ok data)
                       ∈ acts ≫= Pool.shown Step5Trace.segmentFile
                                   (Step5Calls.log (Json.Arr urls) segs)
                    /\ files (fst out) !! Step5Trace.segmentFile i = Some data).
    { intros i segment Hseg.
      pose proof (lookup_lt_Some _ _ _ Hseg) as Hi.
      destruct (Hall i Hi) as (url & data & Hcall & Hfe & Hfile & _).
      destruct (call_event generateVideo fetch urls segs acts _ _ i _ Hl Hcall Hi)
        as [[_ Hr] | (segment' & Hseg' & Hne & Hev)]; [discriminate |].
      assert (segment' = segment) by congruence. subst segment'.
      split; [exact Hne |]. exists url, data.
      split; [exact Hev |]. split; [apply fetch_event, Hfe | exact Hfile]. }
    split.
    + rewrite videoCalls_shown.
      rewrite <- (proj2 (made_calls urls segs)).
      * apply bind_Permutation, Hperm.
      * intros Hin. apply list_elem_of_lookup in Hin as [i Hi].
        destruct (Hcalls i _ Hi) as [Hne _]. contradiction.
    + intros i segment Hseg. apply (Hcalls i segment Hseg).
  - destruct Hres as (a & Hin & Ha). destruct a as [i r | i url r]; cbn in Ha; subst r.
    + destruct (call_event generateVideo fetch urls segs acts _ _ i _ Hl Hin
                  (callers_bound acts _ i _ Hc Hin))
        as [[Hseg Hr] | (segment & Hseg & _ & Hev)].
      * left. split; [eapply list_elem_of_lookup_2, Hseg | congruence].
      * right. eexists. split; [exact Hev | reflexivity].
    + right. eexists. split; [apply fetch_event, Hin | reflexivity].
Qed.




(** ** Step 2: the repair of the reply *)

(** Comparisons of characters, from their boolean form. *)
Ltac nbool :=
  repeat match goal with
    | H : (_ <=? _) = true |- _ => apply N.leb_le in H
    | H : (_ <=? _) = false |- _ => apply N.leb_gt in H
    | H : (_ <? _) = true |- _ => apply N.ltb_lt in H
    | H : (_ <? _) = false |- _ => apply N.ltb_ge in H
    | H : (_ =? _) = true |- _ => apply N.eqb_eq in H
    | H : (_ =? _) = false |- _ => apply N.eqb_neq in H
    | H : negb _ = true |- _ => apply negb_true_iff in H
    | H : negb _ = false |- _ => apply negb_false_iff in H
    | H : _ && _ = true |- _ => apply andb_true_iff in H as [? ?]
    | H : _ || _ = false |- _ => apply orb_false_iff in H as [? ?]
    end.

Section RepairFacts.

Import Render.

Lemma plainChar_facts (c : N) :
  plainChar c = true ->
  32 <= c /\ c <> 34 /\ c <> 92 /\ Repair.is_close c = false.
Proof.
  unfold plainChar. intros H. nbool. auto.
Qed.

(** *** The removal of the trailing commas *)

Lemma strip_other (c : N) (s : jstring) :
  c <> 44 -> Repair.stripFrom false (c :: s) = c :: Repair.stripFrom false s.
Proof.
  intros Hc. simpl. apply N.eqb_neq in Hc. rewrite Hc. reflexivity.
Qed.

Lemma strip_comma_kept (s : jstring) :
  Repair.closes_after_space s = false ->
  Repair.stripFrom false (44 :: s) = 44 :: Repair.stripFrom false s.
Proof. intros Hs. simpl. rewrite Hs. reflexivity. Qed.

Lemma strip_app_no_comma (a rest : jstring) :
  Forall (fun c => c <> 44) a ->
  Repair.stripFrom false (a ++ rest) = a ++ Repair.stripFrom false rest.
Proof.
  induction 1 as [| c a Hc _ IH]; [reflexivity |].
  rewrite <- !app_comm_cons, strip_other by exact Hc. f_equal. exact IH.
Qed.

Lemma closes_after_plain (s rest : jstring) :
  plainString s = true ->
  Repair.closes_after_space (s ++ 34 :: rest) = false.
Proof.
  induction s as [| c s IH]; simpl; [reflexivity |].
  rewrite andb_true_iff. intros [Hc Hs].
  destruct (Js.is_space c); [apply IH, Hs |].
  apply plainChar_facts in Hc. tauto.
Qed.

Lemma strip_plain_string (s rest : jstring) :
  plainString s = true ->
  Repair.stripFrom false (s ++ 34 :: rest) = s ++ 34 :: Repair.stripFrom false rest.
Proof.
  induction s as [| c s IH]; intros Hp.
  - reflexivity.
  - simpl in Hp. apply andb_true_iff in Hp as [Hc Hs].
    rewrite <- !app_comm_cons.
    destruct (N.eq_dec c 44) as [-> | Hne].
    + rewrite strip_comma_kept by (apply closes_after_plain, Hs).
      f_equal. apply IH, Hs.
    + rewrite strip_other by exact Hne. f_equal. apply IH, Hs.
Qed.

Lemma strip_quoted (s rest : jstring) :
  plainString s = true ->
  Repair.stripFrom false (quoted s ++ rest) = quoted s ++ Repair.stripFrom false rest.
Proof.
  intros Hp. unfold quoted. rewrite <- !app_comm_cons, <- !app_assoc. simpl.
  f_equal. apply strip_plain_string, Hp.
Qed.

(** *** The escape of control characters *)

Lemma escape_char_printable (c : N) : 32 <= c -> Repair.escape_char c = [c].
Proof.
  intros Hc. unfold Repair.escape_char.
  destruct (N.eqb_spec c 10); [lia |].
  destruct (N.eqb_spec c 13); [lia |].
  destruct (N.eqb_spec c 9); [lia | reflexivity].
Qed.

Lemma plainString_printable (s : jstring) :
  plainString s = true -> Forall (fun c => 32 <= c) s.
Proof.
  induction s as [| c s IH]; simpl; [constructor |].
  intros H. apply andb_true_iff in H as [Hc Hs].
  constructor; [apply plainChar_facts in Hc; tauto | apply IH, Hs].
Qed.

(** *** The parser, one step at a time *)

Lemma parse_chars_plain (s rest : jstring) :
  plainString s = true -> Json.parse_chars (s ++ 34 :: rest) = Some (s, rest).
Proof.
  induction s as [| c s IH]; intros Hp; [reflexivity |].
  simpl in Hp. apply andb_true_iff in Hp as [Hc Hs].
  apply plainChar_facts in Hc as (H32 & H34 & H92 & _).
  simpl. apply N.eqb_neq in H34, H92. rewrite H34, H92.
  replace (c <? 32) with false by (symmetry; apply N.ltb_ge; exact H32).
  rewrite (IH Hs). reflexivity.
Qed.

Lemma parse_items_step (f : nat) (s : jstring) :
  Json.parse_items (S f) s
  = match Json.parse_value f s with
    | Some (v, s1) =>
        match Json.skip_ws s1 with
        | c :: t =>
            if c =? 44 then
              match Json.parse_items f t with
              | Some (vs, rest) => Some (v :: vs, rest)
              | None => None
              end
            else if c =? 93 then Some ([v], t)
            else None
        | [] => None
        end
    | None => None
    end.
Proof. simpl. destruct (Json.parse_value f s) as [[v s1] |]; reflexivity. Qed.

Lemma parse_members_step (f : nat) (t : jstring) :
  Json.parse_members (S f) (34 :: t)
  = match Json.parse_chars t with
    | Some (k, s1) =>
        match Json.skip_ws s1 with
        | c :: s2 =>
            if c =? 58 then
              match Json.parse_value f s2 with
              | Some (v, s3) =>
                  match Json.skip_ws s3 with
                  | d :: t' =>
                      if d =? 44 then
                        match Json.parse_members f t' with
                        | Some (ms, rest) => Some ((k, v) :: ms, rest)
                        | None => None
                        end
                      else if d =? 125 then Some ([(k, v)], t')
                      else None
                  | [] => None
                  end
              | None => None
              end
            else None
        | [] => None
        end
    | None => None
    end.
Proof.
  cbn [Json.parse_members Json.skip_ws]. change (Json.is_ws 34) with false. cbv iota.
  change (34 =? 34) with true. cbv iota.
  destruct (Json.parse_chars t) as [[k s1] |]; [| reflexivity].
  simpl. destruct (Json.skip_ws s1) as [| c s2]; [reflexivity |].
  destruct (c =? 58); [| reflexivity].
  destruct (Json.parse_value f s2) as [[v s3] |]; reflexivity.
Qed.

(** *** String literals with escapes *)

Lemma closes_after_quote (s rest : jstring) :
  Repair.closes_after_space (s ++ 34 :: rest) = Repair.closes_after_space s.
Proof.
  induction s as [| c s IH]; [reflexivity |].
  simpl. destruct (Js.is_space c); [exact IH | reflexivity].
Qed.

(** The first replacement leaves alone a string that holds no comma
    before a closing bracket. *)
Lemma strip_comma_safe (s rest : jstring) :
  Layout.commaSafe s = true ->
  Repair.stripFrom false (s ++ 34 :: rest) = s ++ 34 :: Repair.stripFrom false rest.
Proof.
  induction s as [| c s IH]; intros Hs; [reflexivity |].
  simpl in Hs. apply andb_true_iff in Hs as [Hc Hs]. apply negb_true_iff in Hc.
  rewrite <- !app_comm_cons.
  destruct (N.eq_dec c 44) as [-> | Hne].
  - simpl in Hc. rewrite strip_comma_kept by (rewrite closes_after_quote; exact Hc).
    f_equal. apply IH, Hs.
  - rewrite strip_other by exact Hne. f_equal. apply IH, Hs.
Qed.

Lemma strip_literal (s rest : jstring) :
  Layout.commaSafe s = true ->
  Repair.stripFrom false (quoted s ++ rest) = quoted s ++ Repair.stripFrom false rest.
Proof.
  intros Hp. unfold quoted. rewrite <- !app_comm_cons, <- !app_assoc. simpl.
  f_equal. apply strip_comma_safe, Hp.
Qed.

(** Induction on the characters of a string literal, escape by
    escape. *)
Lemma unquote_ind (P : jstring -> jstring -> Prop) :
  P [] [] ->
  (forall c t r,
     32 <= c -> c <> 34 -> c <> 92 ->
     Layout.unquote t = Some r -> P t r -> P (c :: t) (c :: r)) ->
  (forall e u t r,
     Json.escape_val e = Some u ->
     Layout.unquote t = Some r -> P t r -> P (92 :: e :: t) (u :: r)) ->
  (forall a b c d u t r,
     Json.hex4 a b c d = Some u ->
     Layout.unquote t = Some r -> P t r -> P (92 :: 117 :: a :: b :: c :: d :: t) (u :: r)) ->
  forall s r, Layout.unquote s = Some r -> P s r.
Proof.
  intros Hnil Hplain Hesc Hhex s.
  assert (H : forall n s, (length s <= n)%nat ->
                forall r, Layout.unquote s = Some r -> P s r).
  { clear s. induction n as [| n IH]; intros s Hlen r Hr.
    - destruct s; [| simpl in Hlen; lia]. injection Hr as <-. exact Hnil.
    - destruct s as [| c t]; [injection Hr as <-; exact Hnil |].
      cbn [Layout.unquote] in Hr. cbn [length] in Hlen.
      destruct (N.eqb_spec c 92) as [-> | Hc92].
      + destruct t as [| e t']; [discriminate |]. cbn [length] in Hlen.
        destruct (N.eqb_spec e 117) as [-> | He].
        * destruct t' as [| a [| b [| c [| d t'']]]]; try discriminate.
          cbn [length] in Hlen.
          destruct (Json.hex4 a b c d) as [u |] eqn:Hu; [| discriminate].
          simpl in Hr. destruct (Layout.unquote t'') as [r' |] eqn:Hr'; [| discriminate].
          injection Hr as <-. apply Hhex; [exact Hu | exact Hr' |].
          apply IH; [lia | exact Hr'].
        * destruct (Json.escape_val e) as [u |] eqn:Hu; [| discriminate].
          simpl in Hr. destruct (Layout.unquote t') as [r' |] eqn:Hr'; [| discriminate].
          injection Hr as <-. apply Hesc; [exact Hu | exact Hr' |].
          apply IH; [lia | exact Hr'].
      + destruct ((c <? 32) || (c =? 34)) eqn:Hc; [discriminate |]. nbool.
        destruct (Layout.unquote t) as [r' |] eqn:Hr'; [| discriminate].
        simpl in Hr. injection Hr as <-. apply Hplain; auto.
        apply IH; [lia | exact Hr']. }
  intros r. apply (H (length s)). lia.
Qed.

Lemma escape_val_facts (e u : N) :
  Json.escape_val e = Some u ->
  32 <= e /\ Repair.is_line_terminator e = false
  /\ (e = 34 \/ (e <> 34 /\ e <> 92) \/ e = 92).
Proof.
  unfold Json.escape_val. intros H.
  repeat match type of H with
         | (if ?c =? ?k then _ else _) = _ =>
             destruct (N.eqb_spec c k) as [-> | ?];
             [repeat split; try discriminate; try reflexivity; auto;
              right; left; split; discriminate |]
         end.
  discriminate.
Qed.

Lemma hex_val_facts (c x : N) : Json.hex_val c = Some x -> 48 <= c /\ c <> 92.
Proof.
  unfold Json.hex_val, Js.is_digit. intros H.
  destruct ((48 <=? c) && (c <=? 57)) eqn:H1; [nbool; lia |].
  destruct ((97 <=? c) && (c <=? 102)) eqn:H2; [nbool; lia |].
  destruct ((65 <=? c) && (c <=? 70)) eqn:H3; [nbool; lia | discriminate].
Qed.

Lemma hex4_facts (a b c d u : N) :
  Json.hex4 a b c d = Some u ->
  Forall (fun h => 48 <= h /\ h <> 92) [a; b; c; d].
Proof.
  unfold Json.hex4. intros H.
  destruct (Json.hex_val a) as [x |] eqn:Ha; [| discriminate].
  destruct (Json.hex_val b) as [y |] eqn:Hb; [| discriminate].
  destruct (Json.hex_val c) as [z |] eqn:Hc; [| discriminate].
  destruct (Json.hex_val d) as [w |] eqn:Hd; [| discriminate].
  repeat constructor; eapply hex_val_facts; eassumption.
Qed.

(** The characters of a string literal are printable. *)
Lemma literal_printable (q r : jstring) :
  Layout.unquote q = Some r -> Forall (fun c => 32 <= c) q.
Proof.
  revert q r. apply (unquote_ind (fun q _ => Forall (fun c => 32 <= c) q)).
  - constructor.
  - intros c t r Hc _ _ _ IH. constructor; assumption.
  - intros e u t r He _ IH. apply escape_val_facts in He as [He _].
    constructor; [lia |]. constructor; assumption.
  - intros a b c d u t r Hu _ IH. apply hex4_facts in Hu.
    repeat (apply Forall_cons in Hu as [[? _] Hu]).
    repeat (constructor; [lia |]). exact IH.
Qed.

(** The parser reads a string literal as what it denotes. *)
Lemma parse_chars_unquote (q r : jstring) :
  Layout.unquote q = Some r ->
  forall rest, Json.parse_chars (q ++ 34 :: rest) = Some (r, rest).
Proof.
  revert q r.
  apply (unquote_ind
           (fun q r => forall rest, Json.parse_chars (q ++ 34 :: rest) = Some (r, rest))).
  - reflexivity.
  - intros c t r H32 H34 H92 _ IH rest.
    rewrite <- app_comm_cons. cbn [Json.parse_chars].
    apply N.eqb_neq in H34, H92. rewrite H34, H92.
    replace (c <? 32) with false by (symmetry; apply N.ltb_ge; exact H32).
    rewrite IH. reflexivity.
  - intros e u t r He _ IH rest.
    assert (H117 : (e =? 117) = false).
    { apply N.eqb_neq. intros ->. discriminate. }
    rewrite <- !app_comm_cons. cbn [Json.parse_chars].
    change (92 =? 34) with false. change (92 =? 92) with true. cbv iota.
    rewrite H117, He, IH. reflexivity.
  - intros a b c d u t r Hu _ IH rest.
    rewrite <- !app_comm_cons. cbn [Json.parse_chars].
    change (92 =? 34) with false. change (92 =? 92) with true.
    change (117 =? 117) with true. cbv iota.
    rewrite Hu, IH. reflexivity.
Qed.

(** The captured run of the second pattern, on the characters of a
    string literal. *)
Lemma value_run_literal (q r : jstring) :
  Layout.unquote q = Some r ->
  forall s, Repair.value_run (q ++ 34 :: s) = Some (length q).
Proof.
  revert q r.
  apply (unquote_ind
           (fun q _ => forall s, Repair.value_run (q ++ 34 :: s) = Some (length q))).
  - reflexivity.
  - intros c t r _ H34 H92 _ IH s.
    rewrite <- app_comm_cons. cbn [Repair.value_run length].
    apply N.eqb_neq in H34, H92. rewrite H34, H92, IH. reflexivity.
  - intros e u t r He _ IH s. apply escape_val_facts in He as (_ & Hlt & _).
    rewrite <- !app_comm_cons. cbn [Repair.value_run length].
    change (92 =? 34) with false. change (92 =? 92) with true. cbv iota.
    rewrite Hlt, IH. reflexivity.
  - intros a b c d u t r Hu _ IH s. apply hex4_facts in Hu.
    repeat (apply Forall_cons in Hu as [[? ?] Hu]).
    assert (Hne : forall h, 48 <= h -> h <> 92 -> (h =? 34) = false /\ (h =? 92) = false).
    { intros h H48 H92. split; apply N.eqb_neq; [lia | exact H92]. }
    rewrite <- !app_comm_cons. cbn [Repair.value_run length].
    change (92 =? 34) with false. change (92 =? 92) with true.
    change (Repair.is_line_terminator 117) with false. cbv iota.
    repeat match goal with
           | |- context [?h =? 34] =>
               is_var h;
               let H := fresh in
               destruct (Hne h ltac:(assumption) ltac:(assumption)) as [H ?];
               rewrite H; clear H
           end.
    repeat match goal with
           | H : (?h =? 92) = false |- _ => rewrite H; clear H
           end.
    rewrite IH. reflexivity.
Qed.

(** *** Number literals *)

Lemma span_digits (ds rest : jstring) :
  Layout.digits ds = true ->
  match rest with c :: _ => Js.is_digit c = false | [] => True end ->
  Js.span Js.is_digit (ds ++ rest) = (ds, rest).
Proof.
  intros Hds Hrest. induction ds as [| d ds IH].
  - destruct rest as [| c rest]; [reflexivity |]. simpl. rewrite Hrest. reflexivity.
  - simpl in Hds. apply andb_true_iff in Hds as [Hd Hds].
    simpl. rewrite Hd, (IH Hds). reflexivity.
Qed.

(** *** The extraction of the object from the reply *)

Lemma indexOf_fresh (pre s : jstring) (x : N) :
  Forall (fun c => c <> x) pre -> Js.indexOf (pre ++ x :: s) x = Some (length pre).
Proof.
  induction 1 as [| c pre Hc _ IH]; simpl.
  - rewrite N.eqb_refl. reflexivity.
  - apply N.eqb_neq in Hc. rewrite Hc, IH. reflexivity.
Qed.

Lemma lastIndexOf_none (post : jstring) (x : N) :
  Forall (fun c => c <> x) post -> Js.lastIndexOf post x = None.
Proof.
  induction 1 as [| c post Hc _ IH]; simpl; [reflexivity |].
  apply N.eqb_neq in Hc. rewrite IH, Hc. reflexivity.
Qed.

Lemma lastIndexOf_last (a post : jstring) (x : N) :
  Forall (fun c => c <> x) post -> Js.lastIndexOf (a ++ x :: post) x = Some (length a).
Proof.
  intros Hpost. induction a as [| c a IH]; simpl.
  - rewrite (lastIndexOf_none post x Hpost), N.eqb_refl. reflexivity.
  - rewrite IH. reflexivity.
Qed.

Lemma slice_middle (pre body post : jstring) :
  Js.slice (pre ++ body ++ post) (length pre) (length pre + length body) = body.
Proof.
  unfold Js.slice. rewrite drop_app_length.
  replace (length pre + length body - length pre)%nat with (length body) by lia.
  apply take_app_length.
Qed.

End RepairFacts.

(** ** The fuel of the parser

    A parse that succeeds with some fuel succeeds with any fuel that is
    at least the number of characters it consumes: [Json.parse] never
    fails for lack of fuel. *)

Section ParserFuel.

Import Json.

Lemma skip_ws_length (s : jstring) : (length (skip_ws s) <= length s)%nat.
Proof.
  induction s as [| c s IH]; simpl; [lia |].
  destruct (is_ws c); simpl; lia.
Qed.

Lemma span_length (p : N -> bool) (s a b : jstring) :
  Js.span p s = (a, b) -> (length a + length b = length s)%nat.
Proof.
  revert a b. induction s as [| c s IH]; intros a b; simpl.
  - intros [= <- <-]. reflexivity.
  - destruct (p c).
    + destruct (Js.span p s) as [a' b'] eqn:Hs. intros [= <- <-].
      simpl. rewrite (IH a' b' eq_refl). reflexivity.
    + intros [= <- <-]. reflexivity.
Qed.

Lemma parse_chars_length (s str r : jstring) :
  parse_chars s = Some (str, r) -> (length r < length s)%nat.
Proof.
  assert (Hall : forall (n : nat) (s str r : jstring),
             (length s <= n)%nat -> parse_chars s = Some (str, r) ->
             (length r < length s)%nat); [| apply (Hall (length s)); lia].
  clear s str r. induction n as [| n IHn]; intros s str r Hn.
  { destruct s; [discriminate | simpl in Hn; lia]. }
  assert (IH : forall s0 str0 r0, (length s0 < length s)%nat ->
             parse_chars s0 = Some (str0, r0) -> (length r0 < length s0)%nat).
  { intros s0 str0 r0 Hlt. apply IHn. lia. }
  clear IHn Hn.
  destruct s as [| c s']; simpl; [discriminate |].
  destruct (c =? 34); [intros [= _ <-]; lia |].
  destruct (c =? 92).
  - destruct s' as [| e s'']; [discriminate |].
    destruct (e =? 117).
    + destruct s'' as [| h1 [| h2 [| h3 [| h4 s3]]]]; try discriminate.
      destruct (hex4 h1 h2 h3 h4); [| discriminate]. simpl.
      destruct (parse_chars s3) as [[str' r'] |] eqn:Hp; [| discriminate].
      simpl. intros [= _ <-]. apply IH in Hp; simpl; lia.
    + destruct (escape_val e); [| discriminate]. simpl.
      destruct (parse_chars s'') as [[str' r'] |] eqn:Hp; [| discriminate].
      simpl. intros [= _ <-]. apply IH in Hp; simpl; lia.
  - destruct (c <? 32); [discriminate |].
    destruct (parse_chars s') as [[str' r'] |] eqn:Hp; [| discriminate].
    simpl. intros [= _ <-]. apply IH in Hp; simpl; lia.
Qed.

Lemma parse_number_length (s r : jstring) (n : number) :
  parse_number s = Some (n, r) -> (length r < length s)%nat.
Proof.
  unfold parse_number.
  set (p := match s with
            | c :: t => if c =? 45 then (true, t) else (false, s)
            | [] => (false, s)
            end).
  assert (Hp : (length (snd p) <= length s)%nat).
  { subst p. destruct s as [| c t]; [simpl; lia |]. destruct (c =? 45); simpl; lia. }
  destruct p as [neg s1]. simpl in Hp.
  destruct s1 as [| d t]; [discriminate |].
  destruct (Js.is_digit d) eqn:Hd; [| discriminate].
  set (q := if d =? 48 then ([d], t) else Js.span Js.is_digit (d :: t)).
  assert (Hq : (length (snd q) <= length t)%nat).
  { subst q. destruct (d =? 48); [simpl; lia |].
    simpl. rewrite Hd. destruct (Js.span Js.is_digit t) as [a b] eqn:Hs.
    apply span_length in Hs. simpl. lia. }
  destruct q as [int s2]. simpl in Hq.
  set (fr := match s2 with
             | c :: t2 =>
                 if c =? 46 then
                   match Js.span Js.is_digit t2 with
                   | ([], _) => ([], s2)
                   | (f, r) => (f, r)
                   end
                 else ([], s2)
             | [] => ([], s2)
             end).
  assert (Hfr : (length (snd fr) <= length s2)%nat).
  { subst fr. destruct s2 as [| c t2]; [simpl; lia |].
    destruct (c =? 46); [| simpl; lia].
    destruct (Js.span Js.is_digit t2) as [[| x f] b] eqn:Hs; [simpl; lia |].
    apply span_length in Hs. simpl in *. lia. }
  destruct fr as [frac s3]. simpl in Hfr.
  set (ex := match s3 with
             | c :: t3 =>
                 if (c =? 101) || (c =? 69) then
                   let '(eneg, t4) :=
                     match t3 with
                     | g :: t5 => if g =? 45 then (true, t5)
                                  else if g =? 43 then (false, t5) else (false, t3)
                     | [] => (false, t3)
                     end in
                   match Js.span Js.is_digit t4 with
                   | ([], _) => (0%Z, s3)
                   | (e, r) => ((if eneg then - Z.of_N (digits_val e)
                                 else Z.of_N (digits_val e))%Z, r)
                   end
                 else (0%Z, s3)
             | [] => (0%Z, s3)
             end).
  assert (Hex : (length (snd ex) <= length s3)%nat).
  { subst ex. destruct s3 as [| c t3]; [simpl; lia |].
    destruct ((c =? 101) || (c =? 69)); [| simpl; lia].
    assert (Hsign : forall (eneg : bool) (t4 : jstring),
               (length t4 <= length t3)%nat ->
               (length (snd (match Js.span Js.is_digit t4 with
                             | ([], _) => (0%Z, c :: t3)
                             | (e, r) => ((if eneg then - Z.of_N (digits_val e)
                                           else Z.of_N (digits_val e))%Z, r)
                             end)) <= length (c :: t3))%nat).
    { intros eneg t4 Ht4. destruct (Js.span Js.is_digit t4) as [[| x e] b] eqn:Hs;
        [simpl; lia |]. apply span_length in Hs. simpl in *. lia. }
    destruct t3 as [| g t5]; [exact (Hsign false [] ltac:(simpl; lia)) |].
    destruct (g =? 45); [exact (Hsign true t5 ltac:(simpl; lia)) |].
    destruct (g =? 43);
      [exact (Hsign false t5 ltac:(simpl; lia))
      | exact (Hsign false (g :: t5) ltac:(simpl; lia))]. }
  destruct ex as [exp s4]. simpl in Hex.
  intros [= _ <-]. simpl in *. lia.
Qed.

Lemma startsWith_length (s p : jstring) :
  Js.startsWith s p = true -> (length p <= length s)%nat.
Proof.
  revert s. induction p as [| c p IH]; intros s; simpl; [lia |].
  destruct s as [| d s]; [discriminate |].
  intros H. apply andb_true_iff in H as [_ H]. apply IH in H. simpl. lia.
Qed.

Lemma parse_fuel (f : nat) :
  (forall s v r, parse_value f s = Some (v, r) ->
     (length r < length s)%nat
     /\ forall f', (length s - length r <= f')%nat -> parse_value f' s = Some (v, r))
  /\ (forall s vs r, parse_items f s = Some (vs, r) ->
     (length r < length s)%nat
     /\ forall f', (length s - length r <= f')%nat -> parse_items f' s = Some (vs, r))
  /\ (forall s ms r, parse_members f s = Some (ms, r) ->
     (length r < length s)%nat
     /\ forall f', (length s - length r <= f')%nat -> parse_members f' s = Some (ms, r)).
Proof.
  induction f as [| f (IHv & IHi & IHm)]; [repeat split; discriminate |].
  split; [| split].
  - intros s v r H. cbn [parse_value] in H.
    destruct (skip_ws s) as [| c t] eqn:Hs; [discriminate |].
    pose proof (skip_ws_length s) as Hl. rewrite Hs in Hl. simpl in Hl.
    destruct (c =? 123) eqn:H123.
    { destruct (skip_ws t) as [| d t'] eqn:Ht; [discriminate |].
      pose proof (skip_ws_length t) as Hl'. rewrite Ht in Hl'. simpl in Hl'.
      destruct (d =? 125) eqn:H125.
      - injection H as <- <-. split; [lia |].
        intros [| f'] Hf'; [lia |]. cbn [parse_value]. rewrite Hs, H123, Ht, H125.
        reflexivity.
      - destruct (parse_members f (d :: t')) as [[ms rest] |] eqn:Hm; [| discriminate].
        simpl in H. injection H as <- <-.
        destruct (IHm _ _ _ Hm) as [Hlt Hall]. simpl in Hlt. split; [lia |].
        intros [| f'] Hf'; [lia |]. cbn [parse_value]. rewrite Hs, H123, Ht, H125.
        rewrite Hall by (simpl; lia). reflexivity. }
    destruct (c =? 91) eqn:H91.
    { destruct (skip_ws t) as [| d t'] eqn:Ht; [discriminate |].
      pose proof (skip_ws_length t) as Hl'. rewrite Ht in Hl'. simpl in Hl'.
      destruct (d =? 93) eqn:H93.
      - injection H as <- <-. split; [lia |].
        intros [| f'] Hf'; [lia |]. cbn [parse_value]. rewrite Hs, H123, H91, Ht, H93.
        reflexivity.
      - destruct (parse_items f (d :: t')) as [[vs rest] |] eqn:Hi; [| discriminate].
        simpl in H. injection H as <- <-.
        destruct (IHi _ _ _ Hi) as [Hlt Hall]. simpl in Hlt. split; [lia |].
        intros [| f'] Hf'; [lia |]. cbn [parse_value]. rewrite Hs, H123, H91, Ht, H93.
        rewrite Hall by (simpl; lia). reflexivity. }
    destruct (c =? 34) eqn:H34.
    { destruct (parse_chars t) as [[str rest] |] eqn:Hc; [| discriminate].
      simpl in H. injection H as <- <-.
      apply parse_chars_length in Hc as Hlt. split; [lia |].
      intros [| f'] Hf'; [lia |]. cbn [parse_value]. rewrite Hs, H123, H91, H34, Hc.
      reflexivity. }
    destruct (Js.startsWith (c :: t) (js "true")) eqn:Htrue.
    { injection H as <- <-. apply startsWith_length in Htrue as Hlt.
      change (length (js "true")) with 4%nat in Hlt. rewrite length_drop.
      split; [lia |].
      intros [| f'] Hf'; [lia |]. cbn [parse_value].
      rewrite Hs, H123, H91, H34, Htrue. reflexivity. }
    destruct (Js.startsWith (c :: t) (js "false")) eqn:Hfalse.
    { injection H as <- <-. apply startsWith_length in Hfalse as Hlt.
      change (length (js "false")) with 5%nat in Hlt. rewrite length_drop.
      split; [lia |].
      intros [| f'] Hf'; [lia |]. cbn [parse_value].
      rewrite Hs, H123, H91, H34, Htrue, Hfalse. reflexivity. }
    destruct (Js.startsWith (c :: t) (js "null")) eqn:Hnull.
    { injection H as <- <-. apply startsWith_length in Hnull as Hlt.
      change (length (js "null")) with 4%nat in Hlt. rewrite length_drop.
      split; [lia |].
      intros [| f'] Hf'; [lia |]. cbn [parse_value].
      rewrite Hs, H123, H91, H34, Htrue, Hfalse, Hnull. reflexivity. }
    destruct (parse_number (c :: t)) as [[n rest] |] eqn:Hn; [| discriminate].
    simpl in H. injection H as <- <-.
    apply parse_number_length in Hn as Hlt. cbn [length] in Hlt. split; [lia |].
    intros [| f'] Hf'; [lia |]. cbn [parse_value].
    rewrite Hs, H123, H91, H34, Htrue, Hfalse, Hnull, Hn. reflexivity.
  - intros s vs r H. cbn [parse_items] in H.
    destruct (parse_value f s) as [[v s1] |] eqn:Hv; [| discriminate]. simpl in H.
    destruct (IHv _ _ _ Hv) as [Hlt Hall].
    destruct (skip_ws s1) as [| c t] eqn:Hs; [discriminate |].
    pose proof (skip_ws_length s1) as Hl. rewrite Hs in Hl. simpl in Hl.
    destruct (c =? 44) eqn:H44.
    + destruct (parse_items f t) as [[vs' rest] |] eqn:Hi; [| discriminate].
      simpl in H. injection H as <- <-.
      destruct (IHi _ _ _ Hi) as [Hlt' Hall']. split; [lia |].
      intros [| f'] Hf'; [lia |]. cbn [parse_items].
      rewrite Hall by lia. simpl. rewrite Hs, H44, Hall' by lia. reflexivity.
    + destruct (c =? 93) eqn:H93; [| discriminate].
      injection H as <- <-. split; [lia |].
      intros [| f'] Hf'; [lia |]. cbn [parse_items].
      rewrite Hall by lia. simpl. rewrite Hs, H44, H93. reflexivity.
  - intros s ms r H. cbn [parse_members] in H.
    destruct (skip_ws s) as [| q t] eqn:Hs; [discriminate |].
    pose proof (skip_ws_length s) as Hl. rewrite Hs in Hl. simpl in Hl.
    destruct (q =? 34) eqn:H34; [| discriminate].
    destruct (parse_chars t) as [[k s1] |] eqn:Hc; [| discriminate]. simpl in H.
    apply parse_chars_length in Hc as Hlt1.
    destruct (skip_ws s1) as [| c s2] eqn:Hs1; [discriminate |].
    pose proof (skip_ws_length s1) as Hl1. rewrite Hs1 in Hl1. simpl in Hl1.
    destruct (c =? 58) eqn:H58; [| discriminate].
    destruct (parse_value f s2) as [[v s3] |] eqn:Hv; [| discriminate]. simpl in H.
    destruct (IHv _ _ _ Hv) as [Hlt2 Hall2].
    destruct (skip_ws s3) as [| d t'] eqn:Hs3; [discriminate |].
    pose proof (skip_ws_length s3) as Hl3. rewrite Hs3 in Hl3. simpl in Hl3.
    destruct (d =? 44) eqn:H44.
    + destruct (parse_members f t') as [[ms' rest] |] eqn:Hm; [| discriminate].
      simpl in H. injection H as <- <-.
      destruct (IHm _ _ _ Hm) as [Hlt' Hall']. split; [lia |].
      intros [| f'] Hf'; [lia |]. cbn [parse_members].
      rewrite Hs, H34, Hc. simpl. rewrite Hs1, H58, Hall2 by lia. simpl.
      rewrite Hs3, H44, Hall' by lia. reflexivity.
    + destruct (d =? 125) eqn:H125; [| discriminate].
      injection H as <- <-. split; [lia |].
      intros [| f'] Hf'; [lia |]. cbn [parse_members].
      rewrite Hs, H34, Hc. simpl. rewrite Hs1, H58, Hall2 by lia. simpl.
      rewrite Hs3, H44, H125. reflexivity.
Qed.

(** [Json.parse] fails only on a text that the grammar refuses: a parse
    of the whole text that some fuel allows is the one it returns. *)
Lemma parse_with_any_fuel (f : nat) (s r : jstring) (v : value) :
  parse_value f s = Some (v, r) -> skip_ws r = [] -> parse s = Some v.
Proof.
  intros Hv Hr. unfold parse.
  destruct (proj1 (parse_fuel f) s v r Hv) as [_ Hall].
  rewrite Hall by lia. simpl. rewrite Hr. reflexivity.
Qed.

End ParserFuel.

(** ** Step 2: the repair of a reply with any layout *)

Section LayoutFacts.

Import Layout.

Lemma text_DArr (w : jstring) (els : list (doc * jstring * jstring)) (tr : bool) :
  text (DArr w els tr) = 91 :: w ++ itemsText tr els ++ [93].
Proof. reflexivity. Qed.

Lemma text_DObj (w : jstring)
    (ms : list ((jstring * jstring * jstring) * (doc * jstring * jstring))) (tr : bool) :
  text (DObj w ms tr) = 123 :: w ++ membersText tr ms ++ [125].
Proof. reflexivity. Qed.

Lemma items_one (tr : bool) (x : doc) (a b : jstring) :
  itemsText tr [(x, a, b)] = text x ++ a ++ (if tr then 44 :: b else []).
Proof. reflexivity. Qed.

Lemma items_more (tr : bool) (x : doc) (a b : jstring) (e : doc * jstring * jstring)
    (els : list (doc * jstring * jstring)) :
  itemsText tr ((x, a, b) :: e :: els) = text x ++ a ++ 44 :: b ++ itemsText tr (e :: els).
Proof. reflexivity. Qed.

Lemma members_one (tr : bool) (k wk wc : jstring) (x : doc) (a b : jstring) :
  membersText tr [((k, wk, wc), (x, a, b))]
  = Render.quoted k ++ wk ++ 58 :: wc ++ text x ++ a ++ (if tr then 44 :: b else []).
Proof. reflexivity. Qed.

Lemma members_more (tr : bool) (k wk wc : jstring) (x : doc) (a b : jstring)
    (m : (jstring * jstring * jstring) * (doc * jstring * jstring))
    (ms : list ((jstring * jstring * jstring) * (doc * jstring * jstring))) :
  membersText tr (((k, wk, wc), (x, a, b)) :: m :: ms)
  = Render.quoted k ++ wk ++ 58 :: wc ++ text x ++ a ++ 44 :: b
    ++ membersText tr (m :: ms).
Proof. reflexivity. Qed.

(** Induction on a text together with the elements of its arrays and the
    values of the members of its objects. *)
Lemma doc_ind (P : doc -> Prop) :
  P DNull ->
  (forall b, P (DBool b)) ->
  (forall n, P (DNum n)) ->
  (forall s, P (DStr s)) ->
  (forall w els tr, Forall (fun e => P (fst (fst e))) els -> P (DArr w els tr)) ->
  (forall w ms tr, Forall (fun m => P (fst (fst (snd m)))) ms -> P (DObj w ms tr)) ->
  forall d, P d.
Proof.
  intros HNull HBool HNum HStr HArr HObj.
  fix IH 1. intros [| b | n | s | w els tr | w ms tr].
  - exact HNull.
  - apply HBool.
  - apply HNum.
  - apply HStr.
  - apply HArr. induction els as [| [[x a] b] els IHl]; constructor; [apply IH | exact IHl].
  - apply HObj.
    induction ms as [| [key [[x a] b]] ms IHl]; constructor; [apply IH | exact IHl].
Qed.

(** *** White space *)

Lemma is_ws_facts (c : N) :
  Json.is_ws c = true ->
  Js.is_space c = true /\ c <> 44 /\ c <> 34 /\ Repair.is_close c = false.
Proof.
  unfold Json.is_ws. intros H.
  repeat (apply orb_true_iff in H as [H | H]); apply N.eqb_eq in H; subst;
    repeat split; discriminate.
Qed.

Lemma space_cons (c : N) (w : jstring) :
  space (c :: w) = true -> Json.is_ws c = true /\ space w = true.
Proof. unfold space. simpl. apply andb_true_iff. Qed.

Lemma skip_ws_space (w s : jstring) :
  space w = true -> Json.skip_ws (w ++ s) = Json.skip_ws s.
Proof.
  induction w as [| c w IH]; intros Hw; [reflexivity |].
  apply space_cons in Hw as [Hc Hw]. simpl. rewrite Hc. apply IH, Hw.
Qed.

Lemma skip_ws_head (c : N) (s : jstring) :
  Json.is_ws c = false -> Json.skip_ws (c :: s) = c :: s.
Proof. intros Hc. simpl. rewrite Hc. reflexivity. Qed.

Lemma strip_space (w rest : jstring) :
  space w = true ->
  Repair.stripFrom false (w ++ rest) = w ++ Repair.stripFrom false rest.
Proof.
  intros Hw. apply strip_app_no_comma.
  induction w as [| c w IH]; constructor.
  - apply space_cons in Hw as [Hc _]. apply is_ws_facts in Hc. tauto.
  - apply IH. apply space_cons in Hw. tauto.
Qed.

Lemma closes_after_space_skip (w s : jstring) :
  space w = true ->
  Repair.closes_after_space (w ++ s) = Repair.closes_after_space s.
Proof.
  induction w as [| c w IH]; intros Hw; [reflexivity |].
  apply space_cons in Hw as [Hc Hw]. apply is_ws_facts in Hc as [Hc _].
  simpl. rewrite Hc. apply IH, Hw.
Qed.

Lemma strip_dropping (w rest : jstring) (b : N) :
  space w = true -> Repair.is_close b = true ->
  Repair.stripFrom true (w ++ b :: rest) = b :: Repair.stripFrom false rest.
Proof.
  intros Hw Hb. induction w as [| c w IH].
  - simpl. unfold Repair.is_close in Hb.
    apply orb_true_iff in Hb as [Hb | Hb]; apply N.eqb_eq in Hb; subst; reflexivity.
  - apply space_cons in Hw as [Hc Hw]. apply is_ws_facts in Hc as [Hc _].
    simpl. rewrite Hc. apply IH, Hw.
Qed.

Lemma strip_trailing (w rest : jstring) (b : N) :
  space w = true -> Repair.is_close b = true ->
  Repair.stripFrom false (44 :: w ++ b :: rest) = b :: Repair.stripFrom false rest.
Proof.
  intros Hw Hb. simpl.
  rewrite (closes_after_space_skip w (b :: rest) Hw). simpl.
  replace (Js.is_space b) with false.
  - rewrite Hb. apply strip_dropping; assumption.
  - unfold Repair.is_close in Hb.
    apply orb_true_iff in Hb as [Hb | Hb]; apply N.eqb_eq in Hb; subst; reflexivity.
Qed.

Lemma digit_range (c : N) : Js.is_digit c = true -> 48 <= c <= 57.
Proof. unfold Js.is_digit. intros H. nbool. lia. Qed.

Lemma digits_range (ds : jstring) :
  digits ds = true -> Forall (fun c => 48 <= c <= 57) ds.
Proof.
  unfold digits. induction ds as [| d ds IH]; simpl; [constructor |].
  intros H. apply andb_true_iff in H as [Hd Hds].
  constructor; [apply digit_range, Hd | apply IH, Hds].
Qed.

(** What the parts of a number literal are. *)
Lemma numeral_parts (n : numeral) :
  numeralOk n = true ->
  exists d t,
    whole n = d :: t /\ Js.is_digit d = true /\ digits t = true
    /\ (d = 48 -> t = [])
    /\ digits (fraction n) = true
    /\ match power n with
       | None => True
       | Some (_, _, ds) => ds <> [] /\ digits ds = true
       end.
Proof.
  unfold numeralOk. intros H.
  apply andb_true_iff in H as [H Hp]. apply andb_true_iff in H as [Hw Hf].
  destruct (whole n) as [| d t]; [discriminate |].
  apply andb_true_iff in Hw as [Hw Hz]. apply andb_true_iff in Hw as [Hd Ht].
  exists d, t. repeat split; auto.
  - intros ->. simpl in Hz. apply bool_decide_eq_true in Hz. exact Hz.
  - destruct (power n) as [[[capital sign] ds] |]; [| exact I].
    apply andb_true_iff in Hp as [Hne Hds]. apply negb_true_iff in Hne.
    apply bool_decide_eq_false in Hne. auto.
Qed.

(** The characters of a number literal: digits, signs, a dot, the
    letter e. *)
Lemma numeral_chars (n : numeral) :
  numeralOk n = true ->
  Forall (fun c => 48 <= c <= 57 \/ c = 45 \/ c = 43 \/ c = 46 \/ c = 69 \/ c = 101)
    (numeralText n).
Proof.
  intros H. destruct (numeral_parts n H) as (d & t & Hw & Hd & Ht & _ & Hf & Hp).
  assert (Hdig : forall ds, digits ds = true ->
            Forall (fun c => 48 <= c <= 57 \/ c = 45 \/ c = 43 \/ c = 46
                             \/ c = 69 \/ c = 101) ds).
  { intros ds Hds. eapply Forall_impl; [apply digits_range, Hds |]. intros c Hc. left. exact Hc. }
  unfold numeralText. rewrite Hw. repeat apply Forall_app_2.
  - destruct (minus n); [constructor; [lia | constructor] | constructor].
  - constructor; [left; apply digit_range, Hd | apply Hdig, Ht].
  - destruct (fraction n) as [| c f]; [constructor |].
    constructor; [lia | apply Hdig, Hf].
  - destruct (power n) as [[[capital sign] ds] |]; [| constructor].
    destruct Hp as [_ Hds]. constructor; [destruct capital; lia |].
    apply Forall_app_2; [| apply Hdig, Hds].
    destruct sign as [[|] |]; [constructor; [lia | constructor] ..| constructor].
Qed.

(** A number literal starts with a minus sign or a digit. *)
Lemma numeral_head (n : numeral) :
  numeralOk n = true ->
  exists c s, numeralText n = c :: s /\ (c = 45 \/ 48 <= c <= 57).
Proof.
  intros H. destruct (numeral_parts n H) as (d & t & Hw & Hd & _).
  unfold numeralText. rewrite Hw. destruct (minus n); simpl.
  - eexists _, _. split; [reflexivity | left; reflexivity].
  - eexists _, _. split; [reflexivity | right; apply digit_range, Hd].
Qed.

(** The first character of a text: no white space, no closing bracket,
    no comma. *)
Lemma doc_head (d : doc) :
  wf d = true ->
  exists c s,
    text d = c :: s
    /\ Json.is_ws c = false /\ Js.is_space c = false /\ Repair.is_close c = false.
Proof.
  intros Hwf.
  assert (Hsmall : forall c, 34 <= c <= 123 -> c <> 93 ->
             Json.is_ws c = false /\ Js.is_space c = false /\ Repair.is_close c = false).
  { intros c Hc H93. unfold Json.is_ws, Js.is_space, Repair.is_close.
    repeat split; repeat (apply orb_false_iff; split);
      try (apply andb_false_iff; left; apply N.leb_gt; lia);
      try (apply andb_false_iff; right; apply N.leb_gt; lia);
      try (apply N.eqb_neq; lia). }
  destruct d as [| [|] | n | s | w els tr | w ms tr].
  4: { destruct (numeral_head n Hwf) as (c & s & Hn & Hc).
       exists c, s. split; [exact Hn |]. apply Hsmall; lia. }
  all: eexists _, _; (split; [reflexivity |]);
    apply Hsmall; [vm_compute; split; discriminate | vm_compute; discriminate].
Qed.

Lemma closes_after_doc (w : jstring) (d : doc) (rest : jstring) :
  wf d = true ->
  space w = true -> Repair.closes_after_space (w ++ text d ++ rest) = false.
Proof.
  intros Hwf Hw. rewrite closes_after_space_skip by exact Hw.
  destruct (doc_head d Hwf) as (c & s & -> & _ & Hsp & Hcl).
  simpl. rewrite Hsp. exact Hcl.
Qed.

Lemma closes_after_key (w k rest : jstring) :
  space w = true -> Repair.closes_after_space (w ++ Render.quoted k ++ rest) = false.
Proof. intros Hw. rewrite closes_after_space_skip by exact Hw. reflexivity. Qed.

(** *** The removal of the trailing commas *)

Lemma items_head (tr : bool) (x : doc) (a b : jstring)
    (els : list (doc * jstring * jstring)) (rest : jstring) :
  exists rest', itemsText tr ((x, a, b) :: els) ++ rest = text x ++ rest'.
Proof.
  destruct els as [| e els].
  - rewrite items_one, <- app_assoc. eauto.
  - rewrite items_more, <- app_assoc. eauto.
Qed.

Lemma members_head (tr : bool) (k wk wc : jstring) (e : doc * jstring * jstring)
    (ms : list ((jstring * jstring * jstring) * (doc * jstring * jstring)))
    (rest : jstring) :
  exists rest', membersText tr (((k, wk, wc), e) :: ms) ++ rest = Render.quoted k ++ rest'.
Proof.
  destruct e as [[x a] b], ms as [| m ms].
  - rewrite members_one, <- app_assoc. eauto.
  - rewrite members_more, <- app_assoc. eauto.
Qed.

Lemma strip_doc_items (tr : bool) (els : list (doc * jstring * jstring)) :
  Forall (fun e => wf (fst (fst e)) = true -> forall rest,
            Repair.stripFrom false (text (fst (fst e)) ++ rest)
            = text (strict (fst (fst e))) ++ Repair.stripFrom false rest) els ->
  forallb (fun e => wf (fst (fst e)) && space (snd (fst e)) && space (snd e)) els = true ->
  forall rest,
    Repair.stripFrom false (itemsText tr els ++ 93 :: rest)
    = itemsText false (map (fun e => (strict (fst (fst e)), snd (fst e), snd e)) els)
      ++ 93 :: Repair.stripFrom false rest.
Proof.
  induction 1 as [| [[x a] b] els Hx _ IH]; intros Hwf rest.
  { simpl. reflexivity. }
  simpl in Hwf, Hx. apply andb_true_iff in Hwf as [Hwfx Hwfl].
  apply andb_true_iff in Hwfx as [Hwfx Hb]. apply andb_true_iff in Hwfx as [Hwfx Ha].
  destruct els as [| [[y a'] b'] els].
  - cbn [map]. rewrite !items_one, <- !app_assoc, (Hx Hwfx), (strip_space a _ Ha).
    do 2 f_equal. destruct tr.
    + rewrite <- app_comm_cons. apply strip_trailing; [exact Hb | reflexivity].
    + apply strip_other. discriminate.
  - cbn [map fst snd]. rewrite !items_more, <- !app_assoc, (Hx Hwfx), (strip_space a _ Ha).
    do 2 f_equal. rewrite <- !app_comm_cons, <- !app_assoc, strip_comma_kept.
    + f_equal. rewrite (strip_space b _ Hb). f_equal. apply (IH Hwfl).
    + destruct (items_head tr y a' b' els (93 :: rest)) as [rest' ->].
      apply closes_after_doc; [| exact Hb].
      cbn [forallb fst snd] in Hwfl. apply andb_true_iff in Hwfl as [Hy _].
      apply andb_true_iff in Hy as [Hy _]. apply andb_true_iff in Hy as [Hy _].
      exact Hy.
Qed.

Lemma strip_doc_members (tr : bool)
    (ms : list ((jstring * jstring * jstring) * (doc * jstring * jstring))) :
  Forall (fun m => wf (fst (fst (snd m))) = true -> forall rest,
            Repair.stripFrom false (text (fst (fst (snd m))) ++ rest)
            = text (strict (fst (fst (snd m)))) ++ Repair.stripFrom false rest) ms ->
  forallb (fun m =>
             calm (fst (fst (fst m))) && space (snd (fst (fst m)))
             && space (snd (fst m))
             && wf (fst (fst (snd m))) && space (snd (fst (snd m)))
             && space (snd (snd m))) ms = true ->
  forall rest,
    Repair.stripFrom false (membersText tr ms ++ 125 :: rest)
    = membersText false
        (map (fun m => (fst m, (strict (fst (fst (snd m))),
                                snd (fst (snd m)), snd (snd m)))) ms)
      ++ 125 :: Repair.stripFrom false rest.
Proof.
  induction 1 as [| [[[k wk] wc] [[x a] b]] ms Hx _ IH]; intros Hwf rest.
  { simpl. reflexivity. }
  simpl in Hwf, Hx. apply andb_true_iff in Hwf as [Hm Hwfl].
  apply andb_true_iff in Hm as [Hm Hb]. apply andb_true_iff in Hm as [Hm Ha].
  apply andb_true_iff in Hm as [Hm Hwfx]. apply andb_true_iff in Hm as [Hm Hwc].
  apply andb_true_iff in Hm as [Hk Hwk].
  assert (Hsafe : commaSafe k = true).
  { unfold calm in Hk. apply andb_true_iff in Hk as [Hk _].
    apply andb_true_iff in Hk. tauto. }
  assert (Hhead : forall tail,
             Repair.stripFrom false
               (Render.quoted k ++ wk ++ 58 :: wc ++ text x ++ a ++ tail)
             = Render.quoted k ++ wk ++ 58 :: wc ++ text (strict x) ++ a
               ++ Repair.stripFrom false tail).
  { intros tail. rewrite (strip_literal k _ Hsafe), (strip_space wk _ Hwk).
    do 2 f_equal. rewrite strip_other by discriminate. f_equal.
    rewrite (strip_space wc _ Hwc), (Hx Hwfx), (strip_space a _ Ha). reflexivity. }
  destruct ms as [| [[[k' wk'] wc'] e'] ms].
  - assert (Htail : Repair.stripFrom false ((if tr then 44 :: b else []) ++ 125 :: rest)
                    = 125 :: Repair.stripFrom false rest).
    { destruct tr.
      - rewrite <- app_comm_cons. apply strip_trailing; [exact Hb | reflexivity].
      - apply strip_other. discriminate. }
    cbn [map fst snd]. rewrite !members_one.
    repeat rewrite <- app_assoc. rewrite <- !app_comm_cons.
    repeat rewrite <- app_assoc. rewrite Hhead, Htail. reflexivity.
  - assert (Htail : Repair.stripFrom false
                      (44 :: b ++ membersText tr (((k', wk', wc'), e') :: ms) ++ 125 :: rest)
                    = 44 :: b ++ Repair.stripFrom false
                        (membersText tr (((k', wk', wc'), e') :: ms) ++ 125 :: rest)).
    { rewrite strip_comma_kept.
      - rewrite (strip_space b _ Hb). reflexivity.
      - destruct (members_head tr k' wk' wc' e' ms (125 :: rest)) as [rest' ->].
        apply closes_after_key, Hb. }
    cbn [map fst snd]. rewrite !members_more.
    repeat rewrite <- app_assoc. rewrite <- !app_comm_cons.
    repeat rewrite <- app_assoc. rewrite Hhead.
    rewrite <- !app_comm_cons. repeat rewrite <- app_assoc.
    rewrite Htail, (IH Hwfl). reflexivity.
Qed.

(** The first replacement removes the trailing commas of a text, with
    the white space after them, and nothing else. *)
Lemma strip_doc (d : doc) :
  wf d = true ->
  forall rest,
    Repair.stripFrom false (text d ++ rest) = text (strict d) ++ Repair.stripFrom false rest.
Proof.
  induction d as [| b | n | s | w els tr IH | w ms tr IH] using doc_ind; intros Hwf rest.
  - apply strip_app_no_comma. repeat constructor; discriminate.
  - destruct b; apply strip_app_no_comma; repeat constructor; discriminate.
  - apply strip_app_no_comma. eapply Forall_impl; [apply numeral_chars, Hwf |].
    intros c Hc. simpl in Hc. lia.
  - apply strip_literal. simpl in Hwf. unfold calm in Hwf.
    apply andb_true_iff in Hwf as [Hwf _]. apply andb_true_iff in Hwf. tauto.
  - simpl in Hwf. apply andb_true_iff in Hwf as [Hw Hels].
    cbn [strict]. rewrite !text_DArr, <- !app_comm_cons, strip_other by discriminate.
    f_equal. rewrite <- !app_assoc, (strip_space w _ Hw). f_equal.
    apply (strip_doc_items tr els IH Hels).
  - simpl in Hwf. apply andb_true_iff in Hwf as [Hw Hms].
    cbn [strict]. rewrite !text_DObj, <- !app_comm_cons, strip_other by discriminate.
    f_equal. rewrite <- !app_assoc, (strip_space w _ Hw). f_equal.
    apply (strip_doc_members tr ms IH Hms).
Qed.

(** *** The escape of control characters *)

Lemma escape_free (B s : jstring) (c : N) :
  Repair.after_colon_quote B = false ->
  Repair.escapeFrom B 0 (c :: s) = c :: Repair.escapeFrom (c :: B) 0 s.
Proof. intros HB. simpl. rewrite HB. reflexivity. Qed.

Lemma not_after_quote (c : N) (B : jstring) :
  c <> 34 -> Repair.after_colon_quote (c :: B) = false.
Proof. intros Hc. simpl. apply N.eqb_neq in Hc. rewrite Hc. reflexivity. Qed.

(** Outside a match, a run without double quotes is copied, and no match
    starts right after it. *)
Lemma rev_cons_app (c : N) (P B : jstring) : rev (c :: P) ++ B = rev P ++ c :: B.
Proof. simpl. rewrite <- app_assoc. reflexivity. Qed.

Lemma escape_free_run (P : jstring) :
  Forall (fun c => c <> 34) P ->
  forall B R,
    Repair.after_colon_quote B = false ->
    Repair.escapeFrom B 0 (P ++ R) = P ++ Repair.escapeFrom (rev P ++ B) 0 R.
Proof.
  induction 1 as [| c P Hc _ IH]; intros B R HB; [reflexivity |].
  rewrite <- app_comm_cons, (escape_free B _ c HB), rev_cons_app.
  rewrite (IH (c :: B) R (not_after_quote c B Hc)). reflexivity.
Qed.

Lemma free_after_run (P : jstring) :
  Forall (fun c => c <> 34) P ->
  forall B, Repair.after_colon_quote B = false ->
            Repair.after_colon_quote (rev P ++ B) = false.
Proof.
  induction 1 as [| c P Hc _ IH]; intros B HB; [exact HB |].
  rewrite rev_cons_app. apply IH, not_after_quote, Hc.
Qed.

(** Inside a match, printable characters are copied. *)
Lemma escape_inside (P : jstring) :
  Forall (fun c => 32 <= c) P ->
  forall B R,
    Repair.escapeFrom B (length P) (P ++ R) = P ++ Repair.escapeFrom (rev P ++ B) 0 R.
Proof.
  induction 1 as [| c P Hc _ IH]; intros B R; [reflexivity |].
  rewrite rev_cons_app. simpl.
  rewrite (escape_char_printable c Hc), (IH (c :: B) R). reflexivity.
Qed.

Lemma plainString_no_quote (q : jstring) :
  Render.plainString q = true -> Forall (fun c => c <> 34) q.
Proof.
  induction q as [| c q IH]; simpl; [constructor |].
  intros H. apply andb_true_iff in H as [Hc Hq].
  constructor; [apply plainChar_facts in Hc; tauto | apply IH, Hq].
Qed.

(** The captured run of the second pattern, on a plain string content. *)
Lemma value_run_plain (q s : jstring) :
  Render.plainString q = true -> Repair.value_run (q ++ 34 :: s) = Some (length q).
Proof.
  induction q as [| c q IH]; intros Hq; [reflexivity |].
  simpl in Hq. apply andb_true_iff in Hq as [Hc Hq].
  apply plainChar_facts in Hc as (_ & H34 & H92 & _).
  apply N.eqb_neq in H34, H92. simpl. rewrite H34, H92, (IH Hq). reflexivity.
Qed.

Lemma after_colon_app (L B : jstring) :
  Repair.after_colon L = false -> Repair.after_colon (L ++ 34 :: B) = false.
Proof.
  induction L as [| c L IH]; simpl; [reflexivity |].
  destruct (c =? 32); [exact IH | auto].
Qed.

Lemma escape_match (B t : jstring) (c : N) (n : nat) :
  Repair.after_colon_quote B = true ->
  Repair.value_run (c :: t) = Some (S n) ->
  Repair.escapeFrom B 0 (c :: t)
  = Repair.escape_char c ++ Repair.escapeFrom (c :: B) n t.
Proof. intros HB Hrun. cbn [Repair.escapeFrom]. rewrite HB, Hrun. reflexivity. Qed.

Lemma escape_empty_match (B t : jstring) (c : N) :
  Repair.value_run (c :: t) = Some 0%nat ->
  Repair.escapeFrom B 0 (c :: t) = c :: Repair.escapeFrom (c :: B) 0 t.
Proof.
  intros Hrun. cbn [Repair.escapeFrom]. rewrite Hrun.
  destruct (Repair.after_colon_quote B); reflexivity.
Qed.

(** A quiet string between double quotes is copied, whether or not it is
    taken for a string value, and no match starts right after it. *)
Lemma escape_quoted (q B s : jstring) :
  Layout.quiet q = true ->
  Repair.after_colon_quote B = false ->
  Repair.escapeFrom B 0 (Render.quoted q ++ s)
  = Render.quoted q ++ Repair.escapeFrom (34 :: rev q ++ 34 :: B) 0 s
  /\ Repair.after_colon_quote (34 :: rev q ++ 34 :: B) = false.
Proof.
  intros Hq HB. unfold Layout.quiet in Hq. apply andb_true_iff in Hq as [Hplain Hcolon].
  apply negb_true_iff in Hcolon.
  split; [| simpl; apply after_colon_app, Hcolon].
  unfold Render.quoted, Js.quote. rewrite <- !app_comm_cons, <- !app_assoc.
  rewrite (escape_free B _ 34 HB). f_equal.
  change ([34] ++ s) with (34 :: s).
  change ([34] ++ Repair.escapeFrom (34 :: rev q ++ 34 :: B) 0 s)
    with (34 :: Repair.escapeFrom (34 :: rev q ++ 34 :: B) 0 s).
  pose proof (plainString_no_quote q Hplain) as Hnq.
  destruct (Repair.after_colon B) eqn:Hlook.
  - (* the string follows a colon: its content is the match *)
    destruct q as [| c q].
    + apply escape_empty_match. reflexivity.
    + pose proof (value_run_plain (c :: q) s Hplain) as Hrun.
      pose proof (plainString_printable (c :: q) Hplain) as Hprint.
      inversion Hprint as [| ? ? Hc Hprint']; subst.
      inversion Hnq as [| ? ? Hc34 Hnq']; subst.
      rewrite <- app_comm_cons in *. cbn [length] in Hrun.
      rewrite (escape_match (34 :: B) _ c (length q)); [| simpl; exact Hlook | exact Hrun].
      rewrite (escape_char_printable c Hc), (escape_inside q Hprint').
      cbn [app]. do 2 f_equal. rewrite rev_cons_app.
      apply escape_free, free_after_run; [exact Hnq' | apply not_after_quote, Hc34].
  - rewrite (escape_free_run q Hnq) by (simpl; exact Hlook). f_equal.
    apply escape_free, free_after_run; [exact Hnq | simpl; exact Hlook].
Qed.

(** Outside a match, the characters of a string literal are copied, and
    no match starts right after them: a double quote among them follows
    a backslash. *)
Lemma escape_free_literal (q r : jstring) :
  unquote q = Some r ->
  forall B R,
    Repair.after_colon_quote B = false ->
    Repair.escapeFrom B 0 (q ++ R) = q ++ Repair.escapeFrom (rev q ++ B) 0 R
    /\ Repair.after_colon_quote (rev q ++ B) = false.
Proof.
  revert q r.
  apply (unquote_ind
           (fun q _ => forall B R,
              Repair.after_colon_quote B = false ->
              Repair.escapeFrom B 0 (q ++ R) = q ++ Repair.escapeFrom (rev q ++ B) 0 R
              /\ Repair.after_colon_quote (rev q ++ B) = false)).
  - intros B R HB. split; [reflexivity | exact HB].
  - intros c t r _ H34 _ _ IH B R HB.
    destruct (IH (c :: B) R (not_after_quote c B H34)) as [Hrun Hend].
    rewrite !rev_cons_app, <- app_comm_cons, (escape_free B _ c HB), Hrun. auto.
  - intros e u t r He _ IH B R HB.
    assert (Hpair : Repair.after_colon_quote (e :: 92 :: B) = false).
    { simpl. apply andb_false_r. }
    destruct (IH (e :: 92 :: B) R Hpair) as [Hrun Hend].
    rewrite !rev_cons_app, <- !app_comm_cons, (escape_free B _ 92 HB).
    rewrite (escape_free (92 :: B) _ e) by (apply not_after_quote; discriminate).
    rewrite Hrun. auto.
  - intros a b c d u t r Hu _ IH B R HB.
    assert (Hnq : Forall (fun h => h <> 34) [92; 117; a; b; c; d]).
    { apply hex4_facts in Hu. repeat (apply Forall_cons in Hu as [[? _] Hu]).
      repeat (constructor; [lia |]). constructor. }
    pose proof (free_after_run _ Hnq B HB) as Hfree.
    destruct (IH _ R Hfree) as [Hrun Hend].
    change (92 :: 117 :: a :: b :: c :: d :: t) with ([92; 117; a; b; c; d] ++ t).
    rewrite <- app_assoc, (escape_free_run _ Hnq B (t ++ R) HB), Hrun.
    rewrite rev_app_distr, <- !app_assoc. auto.
Qed.

(** Whatever comes before, no match starts right after the characters
    of a string literal that is not empty. *)
Lemma free_after_literal (q r : jstring) :
  unquote q = Some r ->
  q <> [] -> forall B, Repair.after_colon_quote (rev q ++ B) = false.
Proof.
  revert q r.
  apply (unquote_ind
           (fun q _ => q <> [] -> forall B, Repair.after_colon_quote (rev q ++ B) = false)).
  - intros H. contradiction.
  - intros c t r _ H34 _ _ IH _ B. rewrite rev_cons_app.
    destruct t as [| c' t]; [apply not_after_quote, H34 | apply IH; discriminate].
  - intros e u t r _ _ IH _ B. rewrite !rev_cons_app.
    destruct t as [| c' t]; [simpl; apply andb_false_r | apply IH; discriminate].
  - intros a b c d u t r Hu _ IH _ B. rewrite !rev_cons_app.
    destruct t as [| c' t]; [| apply IH; discriminate].
    apply hex4_facts in Hu. repeat (apply Forall_cons in Hu as [[? _] Hu]).
    apply not_after_quote. lia.
Qed.

(** A calm string between double quotes is copied, whether or not it is
    taken for a string value, and no match starts right after it. *)
Lemma escape_literal (q B s : jstring) :
  calm q = true ->
  Repair.after_colon_quote B = false ->
  Repair.escapeFrom B 0 (Render.quoted q ++ s)
  = Render.quoted q ++ Repair.escapeFrom (34 :: rev q ++ 34 :: B) 0 s
  /\ Repair.after_colon_quote (34 :: rev q ++ 34 :: B) = false.
Proof.
  intros Hq HB. unfold calm in Hq. apply andb_true_iff in Hq as [Hlit Hcolon].
  apply andb_true_iff in Hlit as [Hlit _]. apply negb_true_iff in Hcolon.
  destruct (unquote q) as [r |] eqn:Hr; [clear Hlit | discriminate].
  split; [| simpl; apply after_colon_app, Hcolon].
  unfold Render.quoted, Js.quote. rewrite <- !app_comm_cons, <- !app_assoc.
  rewrite (escape_free B _ 34 HB). f_equal.
  change ([34] ++ s) with (34 :: s).
  change ([34] ++ Repair.escapeFrom (34 :: rev q ++ 34 :: B) 0 s)
    with (34 :: Repair.escapeFrom (34 :: rev q ++ 34 :: B) 0 s).
  destruct (Repair.after_colon B) eqn:Hlook.
  - (* the string follows a colon: its content is the match *)
    destruct q as [| c q'] eqn:Hq.
    + apply escape_empty_match. reflexivity.
    + pose proof (value_run_literal _ _ Hr s) as Hrun.
      pose proof (literal_printable _ _ Hr) as Hprint.
      pose proof (free_after_literal _ _ Hr ltac:(discriminate) (34 :: B)) as Hfree.
      inversion Hprint as [| ? ? Hc Hprint']; subst.
      rewrite <- app_comm_cons in *. cbn [length] in Hrun.
      rewrite (escape_match (34 :: B) _ c (length q')); [| simpl; exact Hlook | exact Hrun].
      rewrite (escape_char_printable c Hc), (escape_inside q' Hprint').
      cbn [app]. do 2 f_equal. rewrite rev_cons_app in Hfree |- *.
      apply escape_free, Hfree.
  - destruct (escape_free_literal _ _ Hr (34 :: B) (34 :: s)) as [Hrun Hfree];
      [simpl; exact Hlook |].
    rewrite Hrun. f_equal. apply escape_free, Hfree.
Qed.

(** The second replacement changes nothing in a text whose strings are
    calm: outside the strings no match starts, and the strings hold no
    control character. *)
Lemma escape_lexical (s : jstring) :
  Layout.lexical s ->
  forall B, Repair.after_colon_quote B = false -> Repair.escapeFrom B 0 s = s.
Proof.
  induction 1 as [| c s Hc _ IH | q s Hq _ IH]; intros B HB.
  - reflexivity.
  - rewrite (escape_free B s c HB), (IH _ (not_after_quote c B Hc)). reflexivity.
  - destruct (escape_literal q B s Hq HB) as [-> HB']. rewrite (IH _ HB'). reflexivity.
Qed.

Lemma lexical_run (P s : jstring) :
  Forall (fun c => c <> 34) P -> lexical s -> lexical (P ++ s).
Proof.
  induction 1 as [| c P Hc _ IH]; intros Hs; [exact Hs |].
  rewrite <- app_comm_cons. apply lexical_char; [exact Hc | apply IH, Hs].
Qed.

Lemma space_no_quote (w : jstring) : space w = true -> Forall (fun c => c <> 34) w.
Proof.
  induction w as [| c w IH]; intros Hw; constructor.
  - apply space_cons in Hw as [Hc _]. apply is_ws_facts in Hc. tauto.
  - apply IH. apply space_cons in Hw. tauto.
Qed.

Lemma lexical_space (w s : jstring) : space w = true -> lexical s -> lexical (w ++ s).
Proof. intros Hw. apply lexical_run, space_no_quote, Hw. Qed.

Lemma lexical_separator (tr : bool) (b s : jstring) :
  space b = true -> lexical s -> lexical ((if tr then 44 :: b else []) ++ s).
Proof.
  intros Hb Hs. destruct tr; [| exact Hs].
  rewrite <- app_comm_cons. apply lexical_char; [discriminate |].
  apply lexical_space; assumption.
Qed.

Lemma lexical_items (tr : bool) (els : list (doc * jstring * jstring)) :
  Forall (fun e => wf (fst (fst e)) = true ->
                   forall s, lexical s -> lexical (text (fst (fst e)) ++ s)) els ->
  forallb (fun e => wf (fst (fst e)) && space (snd (fst e)) && space (snd e)) els = true ->
  forall s, lexical s -> lexical (itemsText tr els ++ s).
Proof.
  induction 1 as [| [[x a] b] els Hx _ IH]; intros Hwf s Hs; [exact Hs |].
  simpl in Hwf, Hx. apply andb_true_iff in Hwf as [Hwfx Hwfl].
  apply andb_true_iff in Hwfx as [Hwfx Hb]. apply andb_true_iff in Hwfx as [Hwfx Ha].
  destruct els as [| e els].
  - rewrite items_one, <- !app_assoc. apply (Hx Hwfx), lexical_space; [exact Ha |].
    apply lexical_separator; assumption.
  - rewrite items_more, <- !app_assoc. apply (Hx Hwfx), lexical_space; [exact Ha |].
    rewrite <- app_comm_cons. apply lexical_char; [discriminate |].
    rewrite <- app_assoc. apply lexical_space; [exact Hb |]. apply (IH Hwfl), Hs.
Qed.

Lemma lexical_members (tr : bool)
    (ms : list ((jstring * jstring * jstring) * (doc * jstring * jstring))) :
  Forall (fun m => wf (fst (fst (snd m))) = true ->
                   forall s, lexical s -> lexical (text (fst (fst (snd m))) ++ s)) ms ->
  forallb (fun m =>
             calm (fst (fst (fst m))) && space (snd (fst (fst m)))
             && space (snd (fst m))
             && wf (fst (fst (snd m))) && space (snd (fst (snd m)))
             && space (snd (snd m))) ms = true ->
  forall s, lexical s -> lexical (membersText tr ms ++ s).
Proof.
  induction 1 as [| [[[k wk] wc] [[x a] b]] ms Hx _ IH]; intros Hwf s Hs; [exact Hs |].
  simpl in Hwf, Hx. apply andb_true_iff in Hwf as [Hm Hwfl].
  apply andb_true_iff in Hm as [Hm Hb]. apply andb_true_iff in Hm as [Hm Ha].
  apply andb_true_iff in Hm as [Hm Hwfx]. apply andb_true_iff in Hm as [Hm Hwc].
  apply andb_true_iff in Hm as [Hk Hwk].
  assert (Hhead : forall tail, lexical tail ->
             lexical (Render.quoted k ++ wk ++ 58 :: wc ++ text x ++ a ++ tail)).
  { intros tail Htail. apply lexical_string; [exact Hk |].
    apply lexical_space; [exact Hwk |]. apply lexical_char; [discriminate |].
    apply lexical_space; [exact Hwc |]. apply (Hx Hwfx).
    apply lexical_space; assumption. }
  destruct ms as [| m ms].
  - rewrite members_one. repeat rewrite <- app_assoc. rewrite <- !app_comm_cons.
    repeat rewrite <- app_assoc. apply Hhead, lexical_separator; assumption.
  - rewrite members_more. repeat rewrite <- app_assoc. rewrite <- !app_comm_cons.
    repeat rewrite <- app_assoc. apply Hhead.
    rewrite <- !app_comm_cons. apply lexical_char; [discriminate |].
    repeat rewrite <- app_assoc. apply lexical_space; [exact Hb |]. apply (IH Hwfl), Hs.
Qed.

Lemma lexical_doc (d : doc) :
  wf d = true -> forall s, lexical s -> lexical (text d ++ s).
Proof.
  induction d as [| b | n | q | w els tr IH | w ms tr IH] using doc_ind; intros Hwf s Hs.
  - apply lexical_run; [repeat constructor; discriminate | exact Hs].
  - destruct b; (apply lexical_run; [repeat constructor; discriminate | exact Hs]).
  - apply lexical_run; [| exact Hs].
    eapply Forall_impl; [apply numeral_chars, Hwf |]. intros c Hc. simpl in Hc. lia.
  - apply lexical_string; [exact Hwf | exact Hs].
  - simpl in Hwf. apply andb_true_iff in Hwf as [Hw Hels].
    rewrite text_DArr, <- app_comm_cons. apply lexical_char; [discriminate |].
    rewrite <- !app_assoc. apply lexical_space; [exact Hw |].
    apply (lexical_items tr els IH Hels).
    apply lexical_char; [discriminate | exact Hs].
  - simpl in Hwf. apply andb_true_iff in Hwf as [Hw Hms].
    rewrite text_DObj, <- app_comm_cons. apply lexical_char; [discriminate |].
    rewrite <- !app_assoc. apply lexical_space; [exact Hw |].
    apply (lexical_members tr ms IH Hms).
    apply lexical_char; [discriminate | exact Hs].
Qed.

Lemma escape_doc (d : doc) :
  wf d = true -> Repair.escapeValues (text d) = text d.
Proof.
  intros Hwf. unfold Repair.escapeValues. apply escape_lexical; [| reflexivity].
  rewrite <- (app_nil_r (text d)). apply lexical_doc; [exact Hwf | constructor].
Qed.

(** *** The text without trailing commas *)

Lemma strict_facts (d : doc) :
  wf (strict d) = wf d /\ isStrict (strict d) = true /\ value (strict d) = value d.
Proof.
  induction d as [| b | n | q | w els tr IH | w ms tr IH] using doc_ind;
    try (repeat split; reflexivity).
  - cbn [strict wf isStrict value negb andb].
    assert (H : forallb (fun e => wf (fst (fst e)) && space (snd (fst e)) && space (snd e))
                  (map (fun e => (strict (fst (fst e)), snd (fst e), snd e)) els)
                = forallb (fun e => wf (fst (fst e)) && space (snd (fst e)) && space (snd e)) els
                /\ forallb (fun e => isStrict (fst (fst e)))
                     (map (fun e => (strict (fst (fst e)), snd (fst e), snd e)) els) = true
                /\ map (fun e => value (fst (fst e)))
                     (map (fun e => (strict (fst (fst e)), snd (fst e), snd e)) els)
                   = map (fun e => value (fst (fst e))) els).
    { induction IH as [| [[x a] b] els (Hw & Hs & Hv) _ (IHw & IHs & IHv)];
        [repeat split; reflexivity |].
      cbn [map forallb fst snd] in *. rewrite Hw, Hs, Hv, IHw, IHs, IHv. auto. }
    destruct H as (-> & -> & ->). auto.
  - cbn [strict wf isStrict value negb andb].
    assert (H : forallb (fun m =>
                    calm (fst (fst (fst m))) && space (snd (fst (fst m)))
                    && space (snd (fst m))
                    && wf (fst (fst (snd m))) && space (snd (fst (snd m)))
                    && space (snd (snd m)))
                  (map (fun m => (fst m, (strict (fst (fst (snd m))),
                                          snd (fst (snd m)), snd (snd m)))) ms)
                = forallb (fun m =>
                    calm (fst (fst (fst m))) && space (snd (fst (fst m)))
                    && space (snd (fst m))
                    && wf (fst (fst (snd m))) && space (snd (fst (snd m)))
                    && space (snd (snd m))) ms
                /\ forallb (fun m => isStrict (fst (fst (snd m))))
                     (map (fun m => (fst m, (strict (fst (fst (snd m))),
                                             snd (fst (snd m)), snd (snd m)))) ms) = true
                /\ map (fun m => (unquoted (fst (fst (fst m))), value (fst (fst (snd m)))))
                     (map (fun m => (fst m, (strict (fst (fst (snd m))),
                                             snd (fst (snd m)), snd (snd m)))) ms)
                   = map (fun m => (unquoted (fst (fst (fst m))), value (fst (fst (snd m))))) ms).
    { induction IH as [| [[[k wk] wc] [[x a] b]] ms (Hw & Hs & Hv) _ (IHw & IHs & IHv)];
        [repeat split; reflexivity |].
      cbn [map forallb fst snd] in *. rewrite Hw, Hs, Hv, IHw, IHs, IHv. auto. }
    destruct H as (-> & -> & ->). auto.
Qed.

(** *** The parse of a number literal *)

Lemma ends_facts (rest : jstring) :
  endsNumeral rest = true ->
  match rest with
  | [] => True
  | c :: _ => Js.is_digit c = false /\ (c =? 46) = false /\ (c =? 101) = false
              /\ (c =? 69) = false
  end.
Proof.
  destruct rest as [| c rest]; [auto |]. simpl. intros H.
  apply negb_true_iff in H. repeat (apply orb_false_iff in H as [H ?]). auto.
Qed.

Lemma digits_cons (d : N) (ds : jstring) :
  digits (d :: ds) = true ->
  Js.is_digit d = true /\ digits ds = true
  /\ (d =? 45) = false /\ (d =? 43) = false /\ (d =? 46) = false
  /\ (d =? 101) = false /\ (d =? 69) = false.
Proof.
  unfold digits. simpl. intros H. apply andb_true_iff in H as [Hd Hds].
  pose proof (digit_range d Hd).
  repeat split; auto; apply N.eqb_neq; lia.
Qed.

(** One step of the evaluation of the parser on a literal: a test on a
    known character, a test settled by a hypothesis, a run of digits. *)
Ltac number_step :=
  first
    [ progress cbv beta iota
    | progress cbn [Js.span app fst snd orb andb negb signText]
    | rewrite <- app_assoc
    | match goal with
      | |- context [?a =? ?b] =>
          tryif is_var a then fail
          else (let v := eval vm_compute in (a =? b) in change (a =? b) with v)
      end
    | match goal with
      | |- context [Js.is_digit ?a] =>
          tryif is_var a then fail
          else (let v := eval vm_compute in (Js.is_digit a) in
                change (Js.is_digit a) with v)
      end
    | match goal with H : (_ =? _) = _ |- _ => rewrite H end
    | match goal with H : Js.is_digit _ = _ |- _ => rewrite H end
    | rewrite span_digits by first [assumption | exact I | reflexivity] ].

(** The parser reads a number literal as the number it denotes, when
    what follows does not continue the literal. *)
Lemma parse_number_numeral (n : numeral) (rest : jstring) :
  numeralOk n = true -> endsNumeral rest = true ->
  Json.parse_number (numeralText n ++ rest) = Some (numeralValue n, rest).
Proof.
  intros Hok Hend.
  destruct (numeral_parts n Hok) as (d & t & Hw & Hd & Ht & Hz & Hf & Hp).
  apply ends_facts in Hend.
  destruct n as [m w f p]. cbn [minus whole fraction power] in *. subst w. clear Hok.
  unfold numeralText, numeralValue. cbn [minus whole fraction power].
  assert (Hdt : digits (d :: t) = true) by (unfold digits; simpl; rewrite Hd; exact Ht).
  destruct (digits_cons d t Hdt) as (_ & _ & Hd45 & _). clear Hdt.
  assert (Hrest : match rest with c :: _ => Js.is_digit c = false | [] => True end).
  { destruct rest; tauto. }
  assert (Hcase : d = 48 /\ t = [] \/ (d =? 48) = false).
  { destruct (N.eqb_spec d 48) as [H48 | H48]; [left; auto | right; reflexivity]. }
  clear Hz.
  assert (Hf0 : match f with
                | f0 :: f' => Js.is_digit f0 = true /\ digits f' = true
                | [] => True
                end).
  { destruct f as [| f0 f']; [exact I |]. destruct (digits_cons f0 f' Hf). tauto. }
  clear Hf.
  assert (Hp0 : match p with
                | Some (_, _, e0 :: ds') =>
                    Js.is_digit e0 = true /\ digits ds' = true
                    /\ (e0 =? 45) = false /\ (e0 =? 43) = false
                | Some (_, _, []) => False
                | None => True
                end).
  { destruct p as [[[capital sign] [| e0 ds']] |]; [tauto | | exact I].
    destruct Hp as [_ Hds]. destruct (digits_cons e0 ds' Hds). tauto. }
  clear Hp.
  destruct rest as [| c rest]; [| destruct Hend as (Hc & Hc46 & Hc101 & Hc69)];
    (destruct f as [| f0 f']; [| destruct Hf0 as [Hf0 Hf']]);
    (destruct p as [[[capital sign] [| e0 ds']] |];
     [contradiction | destruct Hp0 as (He0 & Hds' & He45 & He43) |]);
    (destruct Hcase as [[-> ->] | Hd48]);
    destruct m;
    try (destruct capital, sign as [[|] |]);
    unfold Json.parse_number; repeat number_step; reflexivity.
Qed.

Lemma parse_value_number (f : nat) (n : numeral) (rest : jstring) :
  numeralOk n = true -> endsNumeral rest = true ->
  Json.parse_value (S f) (numeralText n ++ rest) = Some (Json.Num (numeralValue n), rest).
Proof.
  intros Hok Hend. pose proof (parse_number_numeral n rest Hok Hend) as Hnum.
  destruct (numeral_head n Hok) as (c & s & Hn & Hc).
  rewrite Hn in *. rewrite <- app_comm_cons in *.
  assert (Hne : forall k, 58 <= k -> (c =? k) = false /\ (k =? c) = false).
  { intros k Hk. split; apply N.eqb_neq; lia. }
  assert (H34 : (c =? 34) = false) by (apply N.eqb_neq; lia).
  assert (Hws : Json.is_ws c = false).
  { unfold Json.is_ws. repeat (apply orb_false_iff; split); apply N.eqb_neq; lia. }
  cbn [Json.parse_value Json.skip_ws]. rewrite Hws.
  rewrite (proj1 (Hne 123 ltac:(lia))), (proj1 (Hne 91 ltac:(lia))), H34.
  change (js "true") with [116; 114; 117; 101].
  change (js "false") with [102; 97; 108; 115; 101].
  change (js "null") with [110; 117; 108; 108].
  cbn [Js.startsWith].
  rewrite (proj2 (Hne 116 ltac:(lia))), (proj2 (Hne 102 ltac:(lia))),
    (proj2 (Hne 110 ltac:(lia))).
  cbn [andb]. rewrite Hnum. reflexivity.
Qed.

(** White space and then a comma or a closing bracket do not continue
    a number literal. *)
Lemma ends_after_space (a : jstring) (c : N) (rest : jstring) :
  space a = true -> c = 44 \/ c = 93 \/ c = 125 ->
  endsNumeral (a ++ c :: rest) = true.
Proof.
  intros Ha Hc. destruct a as [| c0 a].
  - destruct Hc as [-> | [-> | ->]]; reflexivity.
  - apply space_cons in Ha as [Hc0 _]. unfold Json.is_ws in Hc0.
    repeat (apply orb_true_iff in Hc0 as [Hc0 | Hc0]);
      apply N.eqb_eq in Hc0; subst c0; reflexivity.
Qed.

(** *** The parse of a text without trailing commas *)

Lemma parse_value_space (f : nat) (w s : jstring) :
  space w = true -> Json.parse_value f (w ++ s) = Json.parse_value f s.
Proof.
  intros Hw. destruct f as [| f]; [reflexivity |].
  cbn [Json.parse_value]. rewrite (skip_ws_space w s Hw). reflexivity.
Qed.

Lemma parse_items_space (f : nat) (w s : jstring) :
  space w = true -> Json.parse_items f (w ++ s) = Json.parse_items f s.
Proof.
  intros Hw. destruct f as [| f]; [reflexivity |].
  rewrite !parse_items_step, (parse_value_space f w s Hw). reflexivity.
Qed.

Lemma parse_members_space (f : nat) (w s : jstring) :
  space w = true -> Json.parse_members f (w ++ s) = Json.parse_members f s.
Proof.
  intros Hw. destruct f as [| f]; [reflexivity |].
  cbn [Json.parse_members]. rewrite (skip_ws_space w s Hw). reflexivity.
Qed.

Lemma parse_value_open_array (f : nat) (t t' : jstring) (d : N) :
  Json.skip_ws t = d :: t' -> d <> 93 ->
  Json.parse_value (S f) (91 :: t)
  = match Json.parse_items f (d :: t') with
    | Some (vs, rest) => Some (Json.Arr vs, rest)
    | None => None
    end.
Proof.
  intros Ht Hd. cbn [Json.parse_value Json.skip_ws]. change (Json.is_ws 91) with false.
  cbv iota. change (91 =? 123) with false. change (91 =? 91) with true. cbv iota.
  rewrite Ht. apply N.eqb_neq in Hd. rewrite Hd. reflexivity.
Qed.

Lemma parse_value_empty_array (f : nat) (t rest : jstring) :
  Json.skip_ws t = 93 :: rest ->
  Json.parse_value (S f) (91 :: t) = Some (Json.Arr [], rest).
Proof.
  intros Ht. cbn [Json.parse_value Json.skip_ws]. change (Json.is_ws 91) with false.
  cbv iota. change (91 =? 123) with false. change (91 =? 91) with true. cbv iota.
  rewrite Ht. reflexivity.
Qed.

Lemma parse_value_open_object (f : nat) (t t' : jstring) (d : N) :
  Json.skip_ws t = d :: t' -> d <> 125 ->
  Json.parse_value (S f) (123 :: t)
  = match Json.parse_members f (d :: t') with
    | Some (ms, rest) => Some (Json.Obj ms, rest)
    | None => None
    end.
Proof.
  intros Ht Hd. cbn [Json.parse_value Json.skip_ws]. change (Json.is_ws 123) with false.
  cbv iota. change (123 =? 123) with true. cbv iota.
  rewrite Ht. apply N.eqb_neq in Hd. rewrite Hd. reflexivity.
Qed.

Lemma parse_value_empty_object (f : nat) (t rest : jstring) :
  Json.skip_ws t = 125 :: rest ->
  Json.parse_value (S f) (123 :: t) = Some (Json.Obj [], rest).
Proof.
  intros Ht. cbn [Json.parse_value Json.skip_ws]. change (Json.is_ws 123) with false.
  cbv iota. change (123 =? 123) with true. cbv iota.
  rewrite Ht. reflexivity.
Qed.

Lemma parse_doc_items (els : list (doc * jstring * jstring)) :
  Forall (fun e => wf (fst (fst e)) = true -> isStrict (fst (fst e)) = true ->
            forall fuel rest,
              endsNumeral rest = true ->
              (length (text (fst (fst e))) <= fuel)%nat ->
              Json.parse_value fuel (text (fst (fst e)) ++ rest)
              = Some (value (fst (fst e)), rest)) els ->
  els <> [] ->
  forallb (fun e => wf (fst (fst e)) && space (snd (fst e)) && space (snd e)) els = true ->
  forallb (fun e => isStrict (fst (fst e))) els = true ->
  forall fuel rest,
    (length (itemsText false els) < fuel)%nat ->
    Json.parse_items fuel (itemsText false els ++ 93 :: rest)
    = Some (map (fun e => value (fst (fst e))) els, rest).
Proof.
  induction 1 as [| [[x a] b] els Hx _ IH]; intros Hne Hwf Hst fuel rest Hfuel;
    [contradiction |].
  cbn [forallb fst snd] in Hwf, Hst, Hx.
  apply andb_true_iff in Hwf as [Hwfx Hwfl].
  apply andb_true_iff in Hwfx as [Hwfx Hb]. apply andb_true_iff in Hwfx as [Hwfx Ha].
  apply andb_true_iff in Hst as [Hstx Hstl].
  destruct fuel as [| f]; [lia |]. rewrite parse_items_step.
  destruct els as [| e els].
  - rewrite items_one, app_nil_r in *. rewrite length_app in Hfuel.
    rewrite <- app_assoc, (Hx Hwfx Hstx f)
      by first [apply ends_after_space; [assumption | auto] | lia].
    rewrite (skip_ws_space a _ Ha). reflexivity.
  - rewrite items_more in *. rewrite length_app in Hfuel. rewrite length_app in Hfuel.
    cbn [length] in Hfuel. rewrite length_app in Hfuel.
    rewrite <- !app_assoc, (Hx Hwfx Hstx f)
      by first [apply ends_after_space; [assumption | auto] | lia].
    rewrite (skip_ws_space a _ Ha). rewrite <- app_comm_cons.
    cbn [Json.skip_ws]. change (Json.is_ws 44) with false. cbv iota.
    change (44 =? 44) with true. cbv iota.
    rewrite <- app_assoc, (parse_items_space f b _ Hb).
    rewrite (IH ltac:(discriminate) Hwfl Hstl f rest) by lia. reflexivity.
Qed.

Lemma parse_doc_members
    (ms : list ((jstring * jstring * jstring) * (doc * jstring * jstring))) :
  Forall (fun m => wf (fst (fst (snd m))) = true -> isStrict (fst (fst (snd m))) = true ->
            forall fuel rest,
              endsNumeral rest = true ->
              (length (text (fst (fst (snd m)))) <= fuel)%nat ->
              Json.parse_value fuel (text (fst (fst (snd m))) ++ rest)
              = Some (value (fst (fst (snd m))), rest)) ms ->
  ms <> [] ->
  forallb (fun m =>
             calm (fst (fst (fst m))) && space (snd (fst (fst m)))
             && space (snd (fst m))
             && wf (fst (fst (snd m))) && space (snd (fst (snd m)))
             && space (snd (snd m))) ms = true ->
  forallb (fun m => isStrict (fst (fst (snd m)))) ms = true ->
  forall fuel rest,
    (length (membersText false ms) < fuel)%nat ->
    Json.parse_members fuel (membersText false ms ++ 125 :: rest)
    = Some (map (fun m => (unquoted (fst (fst (fst m))), value (fst (fst (snd m))))) ms,
            rest).
Proof.
  induction 1 as [| [[[k wk] wc] [[x a] b]] ms Hx _ IH];
    intros Hne Hwf Hst fuel rest Hfuel; [contradiction |].
  cbn [forallb fst snd] in Hwf, Hst, Hx.
  apply andb_true_iff in Hwf as [Hm Hwfl].
  apply andb_true_iff in Hm as [Hm Hb]. apply andb_true_iff in Hm as [Hm Ha].
  apply andb_true_iff in Hm as [Hm Hwfx]. apply andb_true_iff in Hm as [Hm Hwc].
  apply andb_true_iff in Hm as [Hk Hwk].
  apply andb_true_iff in Hst as [Hstx Hstl].
  assert (Hlit : unquote k = Some (unquoted k)).
  { unfold calm in Hk. apply andb_true_iff in Hk as [Hk _].
    apply andb_true_iff in Hk as [Hk _]. unfold unquoted.
    destruct (unquote k); [reflexivity | discriminate]. }
  destruct fuel as [| f]; [lia |].
  assert (Hhead : forall tail,
             endsNumeral (a ++ tail) = true ->
             (length (text x) <= f)%nat ->
             Json.parse_members (S f)
               (Render.quoted k ++ wk ++ 58 :: wc ++ text x ++ a ++ tail)
             = match Json.skip_ws tail with
               | d :: t' =>
                   if d =? 44 then
                     match Json.parse_members f t' with
                     | Some (ms', rest') => Some ((unquoted k, value x) :: ms', rest')
                     | None => None
                     end
                   else if d =? 125 then Some ([(unquoted k, value x)], t')
                   else None
               | [] => None
               end).
  { intros tail Hends Hlen. unfold Render.quoted, Js.quote.
    rewrite <- app_comm_cons, <- app_assoc, parse_members_step.
    change ([34] ++ ?y) with (34 :: y). rewrite (parse_chars_unquote k _ Hlit).
    rewrite (skip_ws_space wk _ Hwk). cbn [Json.skip_ws].
    change (Json.is_ws 58) with false. cbv iota. change (58 =? 58) with true. cbv iota.
    rewrite (parse_value_space f wc _ Hwc), (Hx Hwfx Hstx f _ Hends Hlen).
    rewrite (skip_ws_space a _ Ha). reflexivity. }
  destruct ms as [| m ms].
  - rewrite members_one, app_nil_r in *. unfold Render.quoted in Hfuel.
    cbn [length] in Hfuel. repeat rewrite length_app in Hfuel. cbn [length] in Hfuel.
    repeat rewrite length_app in Hfuel.
    repeat rewrite <- app_assoc. rewrite <- !app_comm_cons. repeat rewrite <- app_assoc.
    rewrite Hhead by first [apply ends_after_space; [assumption | auto] | lia].
    reflexivity.
  - rewrite members_more in *. unfold Render.quoted in Hfuel.
    cbn [length] in Hfuel. repeat rewrite length_app in Hfuel. cbn [length] in Hfuel.
    repeat rewrite length_app in Hfuel. cbn [length] in Hfuel.
    repeat rewrite length_app in Hfuel.
    repeat rewrite <- app_assoc. rewrite <- !app_comm_cons. repeat rewrite <- app_assoc.
    rewrite Hhead by first [apply ends_after_space; [assumption | auto] | lia].
    rewrite <- !app_comm_cons, <- !app_assoc.
    cbn [Json.skip_ws]. change (Json.is_ws 44) with false.
    cbv iota. change (44 =? 44) with true. cbv iota.
    rewrite (parse_members_space f b _ Hb).
    rewrite (IH ltac:(discriminate) Hwfl Hstl f rest) by lia. reflexivity.
Qed.

(** The parser reads a text without trailing commas back, with any fuel
    that is at least the length of the text. *)
Lemma parse_doc (d : doc) :
  wf d = true -> isStrict d = true ->
  forall fuel rest,
    endsNumeral rest = true ->
    (length (text d) <= fuel)%nat ->
    Json.parse_value fuel (text d ++ rest) = Some (value d, rest).
Proof.
  induction d as [| b | n | q | w els tr IH | w ms tr IH] using doc_ind;
    intros Hwf Hst fuel rest Hends Hfuel.
  - destruct fuel as [| f]; [simpl in Hfuel; lia | reflexivity].
  - destruct fuel as [| f]; [destruct b; simpl in Hfuel; lia |].
    destruct b; reflexivity.
  - destruct fuel as [| f].
    + destruct (numeral_head n Hwf) as (c & s & Hn & _). cbn [text] in Hfuel.
      rewrite Hn in Hfuel. simpl in Hfuel. lia.
    + apply parse_value_number; assumption.
  - destruct fuel as [| f]; [simpl in Hfuel; lia |].
    assert (Hlit : unquote q = Some (unquoted q)).
    { simpl in Hwf. unfold calm in Hwf. apply andb_true_iff in Hwf as [Hwf _].
      apply andb_true_iff in Hwf as [Hwf _]. unfold unquoted.
      destruct (unquote q); [reflexivity | discriminate]. }
    unfold text, value, Render.quoted, Js.quote. rewrite <- app_comm_cons, <- app_assoc.
    cbn [Json.parse_value Json.skip_ws]. change (Json.is_ws 34) with false.
    cbv iota. change (34 =? 123) with false. change (34 =? 91) with false.
    change (34 =? 34) with true. cbv iota.
    change ([34] ++ rest) with (34 :: rest).
    rewrite (parse_chars_unquote q _ Hlit rest). reflexivity.
  - cbn [wf isStrict] in Hwf, Hst.
    apply andb_true_iff in Hwf as [Hw Hels]. apply andb_true_iff in Hst as [Htr Hst].
    apply negb_true_iff in Htr. subst tr.
    rewrite text_DArr in *. cbn [length] in Hfuel. rewrite !length_app in Hfuel.
    cbn [length] in Hfuel. destruct fuel as [| f]; [lia |].
    rewrite <- app_comm_cons, <- !app_assoc. change ([93] ++ rest) with (93 :: rest).
    cbn [value]. destruct els as [| [[x a] b] els].
    + apply parse_value_empty_array. rewrite (skip_ws_space w _ Hw). reflexivity.
    + destruct (items_head false x a b els (93 :: rest)) as [rest' Hhead].
      assert (Hwfx : wf x = true).
      { cbn [forallb fst snd] in Hels. apply andb_true_iff in Hels as [Hx _].
        apply andb_true_iff in Hx as [Hx _]. apply andb_true_iff in Hx as [Hx _].
        exact Hx. }
      destruct (doc_head x Hwfx) as (c & t & Ht & Hws & _ & Hcl).
      assert (H93 : c <> 93).
      { intros ->. discriminate. }
      rewrite (parse_value_open_array f _ (t ++ rest') c).
      * change (c :: t ++ rest') with ((c :: t) ++ rest'). rewrite <- Ht, <- Hhead.
        rewrite (parse_doc_items _ IH ltac:(discriminate) Hels Hst f rest) by lia.
        reflexivity.
      * rewrite (skip_ws_space w _ Hw), Hhead, Ht, <- app_comm_cons.
        apply skip_ws_head, Hws.
      * exact H93.
  - cbn [wf isStrict] in Hwf, Hst.
    apply andb_true_iff in Hwf as [Hw Hms]. apply andb_true_iff in Hst as [Htr Hst].
    apply negb_true_iff in Htr. subst tr.
    rewrite text_DObj in *. cbn [length] in Hfuel. rewrite !length_app in Hfuel.
    cbn [length] in Hfuel. destruct fuel as [| f]; [lia |].
    rewrite <- app_comm_cons, <- !app_assoc. change ([125] ++ rest) with (125 :: rest).
    cbn [value]. destruct ms as [| [[[k wk] wc] e] ms].
    + apply parse_value_empty_object. rewrite (skip_ws_space w _ Hw). reflexivity.
    + destruct (members_head false k wk wc e ms (125 :: rest)) as [rest' Hhead].
      rewrite (parse_value_open_object f _ ((k ++ [34]) ++ rest') 34).
      * change (34 :: (k ++ [34]) ++ rest') with (Render.quoted k ++ rest').
        rewrite <- Hhead.
        rewrite (parse_doc_members _ IH ltac:(discriminate) Hms Hst f rest) by lia.
        reflexivity.
      * rewrite (skip_ws_space w _ Hw), Hhead. reflexivity.
      * discriminate.
Qed.

End LayoutFacts.

(** C7, as the code has it.  For every reply made of prose that holds no
    opening brace, a JSON text of an object, and prose that holds no
    closing brace, the extraction and repair sequence of step 2 returns
    the object the text denotes.  The text is any JSON text of an object:
    strings with or without escapes, numbers, booleans, null, arrays and
    objects, whatever its white space, and with or without a comma before
    each closing bracket.  Two kinds of strings are left out, which the
    two replacements would change: a string or member name in which a
    comma is followed, after white space or at once, by a closing bracket
    or brace, and one that ends with a colon followed by spaces only. *)
Theorem parseReply_recovers_object (pre post w : jstring)
    (ms : list ((jstring * jstring * jstring) * (Layout.doc * jstring * jstring)))
    (trailing : bool) :
  Forall (fun c => c <> 123) pre ->
  Forall (fun c => c <> 125) post ->
  Layout.wf (Layout.DObj w ms trailing) = true ->
  Repair.parseReply (pre ++ Layout.text (Layout.DObj w ms trailing) ++ post)
  = Ok (Layout.value (Layout.DObj w ms trailing)).
Proof.
  intros Hpre Hpost Hwf.
  set (d := Layout.DObj w ms trailing) in *.
  set (body := w ++ Layout.membersText trailing ms).
  assert (Hbody : Layout.text d = 123 :: body ++ [125]).
  { subst d body. rewrite text_DObj, <- app_assoc. reflexivity. }
  assert (Hslice : match Js.indexOf (pre ++ Layout.text d ++ post) 123,
                         Js.lastIndexOf (pre ++ Layout.text d ++ post) 125 with
                   | Some start, Some end_ =>
                       Js.slice (pre ++ Layout.text d ++ post) start (end_ + 1)
                       = Layout.text d
                   | _, _ => False
                   end).
  { pose proof (slice_middle pre (Layout.text d) post) as Hmid.
    rewrite Hbody in *.
    replace (pre ++ (123 :: body ++ [125]) ++ post)
      with (pre ++ 123 :: (body ++ [125] ++ post))
      by (rewrite <- !app_comm_cons, <- !app_assoc; reflexivity).
    rewrite (indexOf_fresh pre _ 123 Hpre).
    replace (pre ++ 123 :: (body ++ [125] ++ post))
      with ((pre ++ 123 :: body) ++ 125 :: post)
      by (rewrite <- !app_assoc, <- !app_comm_cons; reflexivity).
    rewrite (lastIndexOf_last _ post 125 Hpost).
    replace ((pre ++ 123 :: body) ++ 125 :: post)
      with (pre ++ (123 :: body ++ [125]) ++ post)
      by (rewrite <- !app_assoc, <- !app_comm_cons, <- !app_assoc; reflexivity).
    rewrite <- Hmid at 2. f_equal.
    rewrite !length_app. cbn [length]. rewrite length_app. cbn [length]. lia. }
  unfold Repair.parseReply.
  destruct (Js.indexOf _ 123) as [start |]; [| contradiction].
  destruct (Js.lastIndexOf _ 125) as [end_ |]; [| contradiction].
  rewrite Hslice. unfold Repair.stripTrailingCommas.
  rewrite <- (app_nil_r (Layout.text d)), (strip_doc d Hwf []).
  cbn [Repair.stripFrom]. rewrite app_nil_r.
  destruct (strict_facts d) as (Hwf' & Hstrict & Hvalue).
  rewrite Hwf in Hwf'.
  rewrite (escape_doc _ Hwf').
  unfold Json.parse. rewrite <- (app_nil_r (Layout.text (Layout.strict d))) at 2.
  rewrite (parse_doc _ Hwf' Hstrict) by first [reflexivity | lia].
  rewrite Hvalue. reflexivity.
Qed.

Lemma parseReply_recovers_object_witness :
  Repair.parseReply (js "Here is the script: " ++ Layout.text Sample.rich ++ js " Enjoy!")
  = Ok (Layout.value Sample.rich).
Proof.
  apply (parseReply_recovers_object (js "Here is the script: ") (js " Enjoy!")).
  - repeat constructor; discriminate.
  - repeat constructor; discriminate.
  - vm_compute. reflexivity.
Defined.

(** C7, as stated, fails.  The pretty-printed script, with its trailing
    commas, is parsed when it stands alone, and is not when the prose
    before it holds braces: the text cut at the first opening brace is no
    JSON text, whatever the fuel of the parser. *)
Lemma parseReply_fails_on_valid_objects :
  Repair.parseReply (Layout.text Sample.pretty) = Ok (Layout.value Sample.pretty)
  /\ Repair.parseReply Sample.bracedReply = Throw SyntaxError
  /\ forall fuel,
       Json.parse_value fuel
         (Repair.stripControls
            (Repair.escapeValues
               (Repair.stripTrailingCommas
                  (js "{the script}: " ++ Layout.text Sample.pretty))))
       = None.
Proof.
  split; [| split]; try (vm_compute; reflexivity).
  intros [| [| fuel]]; vm_compute; reflexivity.
Qed.

(** * More of the code *)

(** ** Decimal numerals *)

Section Numerals.

Lemma uint_digits (d : Decimal.uint) :
  Forall (fun c => Js.is_digit c = true) (Js.of_string (NilEmpty.string_of_uint d)).
Proof. induction d; simpl; constructor; auto. Qed.

Lemma uint_value (d : Decimal.uint) (acc : nat) :
  fold_left (fun a c => 10 * a + default 0 (Server.digit_val c))
    (Js.of_string (NilEmpty.string_of_uint d)) (N.of_nat acc)
  = N.of_nat (Nat.of_uint_acc d acc).
Proof.
  revert acc. induction d; intros acc; simpl; [reflexivity | ..];
    rewrite <- IHd; f_equal; rewrite Nat.tail_mul_spec;
    unfold Server.digit_val; simpl; lia.
Qed.

Lemma to_little_uint_nonnil (n : nat) (acc : Decimal.uint) :
  acc <> Decimal.Nil -> Nat.to_little_uint n acc <> Decimal.Nil.
Proof.
  revert acc. induction n as [| n IH]; intros acc Hacc; simpl; [exact Hacc |].
  apply IH. destruct acc; simpl; discriminate.
Qed.

Lemma decimal_digits (n : nat) :
  Forall (fun c => Js.is_digit c = true) (Js.decimal n).
Proof. apply uint_digits. Qed.

Lemma decimal_nonempty (n : nat) : Js.decimal n <> [].
Proof.
  unfold Js.decimal. intros H.
  assert (Hn : Nat.to_uint n <> Decimal.Nil).
  { unfold Nat.to_uint. intros Hr. apply DecimalFacts.rev_nil_inv in Hr.
    revert Hr. apply to_little_uint_nonnil. discriminate. }
  destruct (Nat.to_uint n); try contradiction; discriminate.
Qed.

Lemma decimal_value (n : nat) :
  Server.radix_val 10 (Js.decimal n) = N.of_nat n.
Proof.
  unfold Server.radix_val, Js.decimal.
  change 0 with (N.of_nat 0). rewrite uint_value.
  change (Nat.of_uint_acc (Nat.to_uint n) 0) with (Nat.of_uint (Nat.to_uint n)).
  rewrite DecimalNat.Unsigned.of_to. reflexivity.
Qed.

(** The numeral starts with a digit. *)
Lemma decimal_head (n : nat) :
  exists c t, Js.decimal n = c :: t /\ Js.is_digit c = true
              /\ Forall (fun c => Js.is_digit c = true) t.
Proof.
  pose proof (decimal_digits n) as Hd. pose proof (decimal_nonempty n) as Hn.
  destruct (Js.decimal n) as [| c t]; [contradiction |].
  inversion Hd; subst. eauto.
Qed.

End Numerals.

(** ** [parseInt] *)

Section ParseIntFacts.

Lemma digit_facts (c : N) :
  Js.is_digit c = true -> 48 <= c <= 57.
Proof. unfold Js.is_digit. intros H. nbool. lia. Qed.

Lemma digit_not_space (c : N) : Js.is_digit c = true -> Js.is_space c = false.
Proof.
  intros H. apply digit_facts in H. unfold Js.is_space.
  replace (c <=? 13) with false by (symmetry; apply N.leb_gt; lia).
  replace (8192 <=? c) with false by (symmetry; apply N.leb_gt; lia).
  repeat match goal with
         | |- context [c =? ?b] =>
             replace (c =? b) with false by (symmetry; apply N.eqb_neq; lia)
         end.
  rewrite andb_false_r. reflexivity.
Qed.

Lemma digit_radix (c : N) :
  Js.is_digit c = true -> Server.is_radix_digit 10 c = true.
Proof.
  intros H. unfold Server.is_radix_digit, Server.digit_val. rewrite H.
  apply digit_facts in H. apply N.ltb_lt. lia.
Qed.

Lemma span_all (p : N -> bool) (ds : jstring) :
  Forall (fun c => p c = true) ds -> Js.span p ds = (ds, []).
Proof.
  induction 1 as [| c ds Hc _ IH]; simpl; [reflexivity |].
  rewrite Hc, IH. reflexivity.
Qed.

Lemma span_run (p : N -> bool) (ds rest : jstring) :
  Forall (fun c => p c = true) ds ->
  match rest with c :: _ => p c = false | [] => True end ->
  Js.span p (ds ++ rest) = (ds, rest).
Proof.
  intros Hds Hrest. induction Hds as [| c ds Hc _ IH]; simpl.
  - destruct rest as [| c rest]; [reflexivity |]. simpl. rewrite Hrest. reflexivity.
  - rewrite Hc, IH. reflexivity.
Qed.

Lemma not_digit_radix (c : N) :
  Js.is_digit c = false -> Server.is_radix_digit 10 c = false.
Proof.
  intros H. unfold Server.is_radix_digit, Server.digit_val. rewrite H.
  destruct ((97 <=? c) && (c <=? 122)) eqn:Hl.
  - nbool. apply N.ltb_ge. lia.
  - destruct ((65 <=? c) && (c <=? 90)) eqn:Hu; [| reflexivity].
    nbool. apply N.ltb_ge. lia.
Qed.

Lemma trimStart_space (w s : jstring) :
  Forall (fun c => Js.is_space c = true) w ->
  Server.trimStart (w ++ s) = Server.trimStart s.
Proof.
  induction 1 as [| c w Hc _ IH]; [reflexivity |]. simpl. rewrite Hc. exact IH.
Qed.

(** [parseInt] of a run of decimal digits, and of what follows it when
    that starts with no digit: the value of the run.  When the run is the
    single digit 0, an x after it would start a hexadecimal numeral. *)
Lemma parseInt_digits (s rest : jstring) :
  s <> [] -> Forall (fun c => Js.is_digit c = true) s ->
  match rest with
  | c :: _ => Js.is_digit c = false /\ (s = [48] -> c <> 120 /\ c <> 88)
  | [] => True
  end ->
  Server.parseInt (s ++ rest) = Server.Int (Z.of_N (Server.radix_val 10 s)).
Proof.
  intros Hne Hall Hrest. destruct s as [| c t]; [contradiction |].
  inversion Hall as [| ? ? Hc Ht]; subst.
  unfold Server.parseInt. rewrite <- app_comm_cons. cbn [Server.trimStart].
  rewrite (digit_not_space c Hc).
  pose proof (digit_facts c Hc) as Hr.
  replace (c =? 45) with false by (symmetry; apply N.eqb_neq; lia).
  replace (c =? 43) with false by (symmetry; apply N.eqb_neq; lia).
  assert (Hradix : match c :: t ++ rest with
                   | a :: b :: t' =>
                       if (a =? 48) && ((b =? 120) || (b =? 88)) then (16, t')
                       else (10, c :: t ++ rest)
                   | _ => (10, c :: t ++ rest)
                   end = (10, c :: t ++ rest)).
  { destruct t as [| b t'].
    - destruct rest as [| b rest']; [reflexivity |]. simpl.
      destruct Hrest as [_ Hx]. destruct (N.eqb_spec c 48) as [-> | _]; [| reflexivity].
      destruct (Hx eq_refl) as [H120 H88].
      apply N.eqb_neq in H120, H88. rewrite H120, H88. reflexivity.
    - inversion Ht as [| ? ? Hb _]; subst. apply digit_facts in Hb. simpl.
      replace (b =? 120) with false by (symmetry; apply N.eqb_neq; lia).
      replace (b =? 88) with false by (symmetry; apply N.eqb_neq; lia).
      rewrite andb_false_r. reflexivity. }
  rewrite Hradix. rewrite app_comm_cons.
  rewrite (span_run (Server.is_radix_digit 10) (c :: t) rest).
  - reflexivity.
  - eapply Forall_impl; [exact Hall |]. intros x Hx. apply digit_radix, Hx.
  - destruct rest as [| b rest']; [exact I |]. apply not_digit_radix, Hrest.
Qed.

Lemma parseInt_numeral (n : nat) :
  Server.parseInt (Js.decimal n) = Server.Int (Z.of_nat n).
Proof.
  rewrite <- (app_nil_r (Js.decimal n)).
  rewrite parseInt_digits by (apply decimal_nonempty || apply decimal_digits || exact I).
  rewrite decimal_value. f_equal. lia.
Qed.

End ParseIntFacts.

(** X1.  [parseInt] reads the decimal numeral of a number back, for a
    number up to 2^53 (up to there the number [parseInt] returns is the
    integer the digits denote; beyond, it is that integer rounded to a
    double), whatever white space comes before the numeral and whatever
    text comes after it, as long as that text starts with no digit (and
    with no x after the numeral 0, which would start a hexadecimal
    numeral): the path the client builds for step [n] is parsed to [n],
    and so is a parameter such as the numeral of [n] followed by a
    fraction. *)
Theorem parseInt_decimal (w : jstring) (n : nat) (rest : jstring) :
  (Z.of_nat n <= 2 ^ 53)%Z ->
  Forall (fun c => Js.is_space c = true) w ->
  match rest with
  | c :: _ => Js.is_digit c = false /\ (n = O -> c <> 120 /\ c <> 88)
  | [] => True
  end ->
  Server.parseInt (w ++ Js.decimal n ++ rest) = Server.Int (Z.of_nat n).
Proof.
  intros _ Hw Hrest.
  assert (Htrim : Server.parseInt (w ++ Js.decimal n ++ rest)
                  = Server.parseInt (Js.decimal n ++ rest)).
  { unfold Server.parseInt. rewrite (trimStart_space w _ Hw). reflexivity. }
  rewrite Htrim, parseInt_digits.
  - rewrite decimal_value. f_equal. lia.
  - apply decimal_nonempty.
  - apply decimal_digits.
  - destruct rest as [| c rest']; [exact I |]. destruct Hrest as [Hd Hx].
    split; [exact Hd |]. intros H0. apply Hx.
    apply (decimal_inj n 0). exact H0.
Qed.

Lemma parseInt_decimal_witness :
  Server.parseInt (js " 2.5") = Server.Int 2.
Proof.
  apply (parseInt_decimal (js " ") 2 (js ".5")).
  - vm_compute. discriminate.
  - repeat constructor.
  - split; [reflexivity |]. intros H. discriminate.
Defined.

(** ** The names of the files of the pipeline *)

Section NameFacts.

Lemma startsWith_app (p s : jstring) : Js.startsWith (p ++ s) p = true.
Proof. induction p as [| c p IH]; simpl; [reflexivity |]. rewrite N.eqb_refl. exact IH. Qed.

Lemma eqb_refl (s : jstring) : Js.eqb s s = true.
Proof. unfold Js.eqb. apply bool_decide_eq_true. reflexivity. Qed.

Lemma endsWith_app (s p : jstring) : Js.endsWith (s ++ p) p = true.
Proof.
  unfold Js.endsWith. rewrite length_app.
  replace (length s + length p - length p)%nat with (length s) by lia.
  rewrite drop_app_length, eqb_refl, andb_true_r.
  apply Nat.leb_le. lia.
Qed.

(** A prefix, the numeral of [n] and a suffix that starts with no digit
    match the pattern of a numbered file. *)
Lemma matchNumbered_decimal (prefix suffix : jstring) (n : nat) :
  match suffix with c :: _ => Js.is_digit c = false | [] => True end ->
  Js.matchNumbered prefix suffix (prefix ++ Js.decimal n ++ suffix) = true.
Proof.
  intros Hs. unfold Js.matchNumbered.
  rewrite startsWith_app, drop_app_length.
  rewrite (span_run Js.is_digit (Js.decimal n) suffix (decimal_digits n) Hs).
  rewrite eqb_refl, andb_true_r. simpl.
  apply negb_true_iff, bool_decide_eq_false, decimal_nonempty.
Qed.

Lemma matchNumbered_keyframe (i : nat) :
  Js.matchNumbered (js "keyframe") (js ".jpg") (keyframeFile i) = true.
Proof. apply matchNumbered_decimal. reflexivity. Qed.

Lemma matchNumbered_segment (i : nat) :
  Js.matchNumbered (js "segment") (js ".mp4") (Step5Trace.segmentFile i) = true.
Proof. apply matchNumbered_decimal. reflexivity. Qed.

Lemma isArtifact_keyframe (i : nat) : Progress.isArtifact (keyframeFile i) = true.
Proof.
  unfold Progress.isArtifact, keyframeFile.
  rewrite app_assoc, endsWith_app. reflexivity.
Qed.

Lemma isArtifact_segment (i : nat) :
  Progress.isArtifact (Step5Trace.segmentFile i) = true.
Proof.
  unfold Progress.isArtifact, Step5Trace.segmentFile.
  rewrite app_assoc, endsWith_app, orb_true_r. reflexivity.
Qed.

Lemma hasKeyframe_intro (files : list jstring) (i : nat) :
  keyframeFile i ∈ files -> Progress.hasKeyframe files = true.
Proof.
  intros Hin. unfold Progress.hasKeyframe. apply existsb_exists.
  exists (keyframeFile i). split; [apply list_elem_of_In, Hin | apply matchNumbered_keyframe].
Qed.

Lemma hasSegment_intro (files : list jstring) (i : nat) :
  Step5Trace.segmentFile i ∈ files -> Progress.hasSegment files = true.
Proof.
  intros Hin. unfold Progress.hasSegment. apply existsb_exists.
  exists (Step5Trace.segmentFile i).
  split; [apply list_elem_of_In, Hin | apply matchNumbered_segment].
Qed.

(** A step whose condition holds is at most the step reported. *)
Lemma completedStep_least (files : list jstring) (k : Z) :
  Progress.stepPresent files k = true ->
  (k <= completedStep (Progress.detectStatus (Some files)))%Z.
Proof.
  rewrite completedStep_pick. unfold Progress.stepPresent, Progress.pick.
  repeat (case (Z.eqb_spec k _); [intros -> | intros _]);
    try discriminate; intros ->;
    destruct (Progress.hasMovie files), (Progress.hasSegment files),
      (Progress.hasKeyframe files), (Progress.hasCharacter files),
      (Progress.hasScript files), (Progress.hasInput files); lia.
Qed.

Lemma artifacts_intro (files : list jstring) (name : jstring) :
  name ∈ files -> Progress.isArtifact name = true ->
  name ∈ artifacts (Progress.detectStatus (Some files)).
Proof.
  intros Hin Ha. simpl. apply list_elem_of_In, filter_In.
  split; [apply list_elem_of_In, Hin | exact Ha].
Qed.

(** The listing of a directory holds the names of its files. *)
Lemma readdirSync_elem {E : Type} (w : world E) (name : jstring) :
  name ∈ readdirSync w <-> is_Some (files w !! name).
Proof.
  unfold readdirSync. rewrite list_elem_of_fmap. split.
  - intros ([k v] & -> & Hin). apply elem_of_map_to_list in Hin. simpl. eauto.
  - intros [v Hv]. exists (name, v). split; [reflexivity |].
    apply elem_of_map_to_list, Hv.
Qed.

End NameFacts.

(** X2.  The files steps 4 and 5 write are the files progress
    inference looks for: in a listing that holds the image of a keyframe
    of any index (keyframe0.jpg, keyframe1.jpg, ...) the step reported
    is at least 4, in one that holds the video of a segment of any index
    (segment1.mp4, segment2.mp4, ...) it is at least 5, and both files
    are among the artifacts reported. *)
Theorem numbered_files_detected (files : list jstring) (i : nat) :
  (keyframeFile i ∈ files ->
     (4 <= completedStep (Progress.detectStatus (Some files)))%Z
     /\ keyframeFile i ∈ artifacts (Progress.detectStatus (Some files)))
  /\ (js "segment" ++ Js.decimal (i + 1) ++ js ".mp4" ∈ files ->
     (5 <= completedStep (Progress.detectStatus (Some files)))%Z
     /\ js "segment" ++ Js.decimal (i + 1) ++ js ".mp4"
        ∈ artifacts (Progress.detectStatus (Some files))).
Proof.
  split; intros Hin; split.
  - apply completedStep_least. exact (hasKeyframe_intro files i Hin).
  - apply artifacts_intro; [exact Hin | apply isArtifact_keyframe].
  - apply completedStep_least. exact (hasSegment_intro files i Hin).
  - apply artifacts_intro; [exact Hin | apply isArtifact_segment].
Qed.
(** ** The step route: the requests it accepts *)

Section AcceptedFacts.

Import Server.

Variable runStep :
  Z -> jstring -> option Json.value ->
  gmap jstring (gmap jstring jstring) -> gmap jstring (gmap jstring jstring) * result unit.

Lemma server_eta (srv : server) :
  Server (running srv) (disk srv) (called srv) = srv.
Proof. destruct srv. reflexivity. Qed.

Lemma in_range_passes (k : Z) :
  (1 <= k <= 6)%Z -> lt (Int k) (Int 1) || lt (Int 6) (Int k) = false.
Proof. intros Hk. simpl. lia. Qed.

(** A request for one of the steps 2 to 5 of a project without an entry
    fills the table, calls the step and suspends. *)
Lemma enter_awaits (srv : server) (id p : jstring) (reqBody : option Json.value) (k : Z) :
  running srv !! id = None -> parseInt p = Int k -> (2 <= k <= 5)%Z ->
  enter runStep srv id p reqBody
  = (Server (<[id := Int k]> (running srv)) (disk srv) (called srv ++ [(id, k)]),
     Awaiting k).
Proof.
  intros Hfree Hp Hk. unfold enter. rewrite Hp, in_range_passes, Hfree by lia.
  assert (k = 2 \/ k = 3 \/ k = 4 \/ k = 5)%Z as [-> | [-> | [-> | ->]]] by lia;
    reflexivity.
Qed.

(** When the awaited step settles, what it did is taken and the handler
    ends. *)
Lemma resume_settles (srv : server) (id : jstring) (k : Z) :
  running srv !! id = Some (Int k) -> (2 <= k <= 5)%Z ->
  resume runStep srv id
  = let out := runStep k id None (disk srv) in
    let srv' := Server (running srv) (fst out) (called srv) in
    (finally id srv',
     Some match snd out with
          | Ok _ => Response 200 (StatusBody id (Progress.detectStatus (readdir srv' id)))
          | Throw e => Response 500 (ErrorBody (Failure e))
          end).
Proof.
  intros Hrun Hk. unfold resume. rewrite Hrun.
  replace ((2 <=? k)%Z && (k <=? 5)%Z) with true by lia.
  unfold endStep. destruct (runStep k id None (disk srv)) as [d r]. reflexivity.
Qed.

(** A request for another project leaves the entry of a project as it
    is. *)
Lemma react_running_other (srv : server) (i : input) (id : jstring) :
  inputId i <> id ->
  running (fst (react runStep srv i)) !! id = running srv !! id.
Proof.
  intros Hne. destruct i as [id' p reqBody | id']; simpl in Hne |- *.
  - assert (Hdel : forall d c x,
               running (Server (delete id' (<[id' := x]> (running srv))) d c) !! id
               = running srv !! id).
    { intros d c x. simpl. rewrite lookup_delete_ne, lookup_insert_ne by done.
      reflexivity. }
    destruct (enter runStep srv id' p reqBody) as [s pr] eqn:He.
    assert (running s !! id = running srv !! id) as Hgoal; [| destruct pr; exact Hgoal].
    revert He. unfold enter.
    destruct (lt (parseInt p) (Int 1) || lt (Int 6) (parseInt p)).
    { intros [= <- _]. reflexivity. }
    destruct (running srv !! id') as [n |].
    { intros [= <- _]. reflexivity. }
    destruct (parseInt p) as [| z].
    { intros [= <- _]. apply Hdel. }
    destruct z as [| q | q]; try (intros [= <- _]; apply Hdel).
    destruct q as [q | q |]; try destruct q as [q | q |]; try destruct q as [q | q |];
      simpl; try (intros [= <- _]; apply Hdel);
      try (intros [= <- _]; simpl; rewrite lookup_insert_ne by done; reflexivity).
    + unfold callStep. simpl. destruct (runStep _ _ _ _) as [d res].
      intros [= <- _]. apply Hdel.
    + destruct (Json.get reqBody (js "description")) as [description | e].
      * destruct (negb (Json.truthy description)).
        -- intros [= <- _]. apply Hdel.
        -- unfold callStep. simpl. destruct (runStep _ _ _ _) as [d res].
           intros [= <- _]. apply Hdel.
      * intros [= <- _]. apply Hdel.
  - unfold resume. destruct (running srv !! id') as [[| n] |]; try reflexivity.
    destruct ((2 <=? n)%Z && (n <=? 5)%Z); [| reflexivity].
    unfold endStep. destruct (runStep _ _ _ _) as [d res]. simpl.
    rewrite lookup_delete_ne by done. reflexivity.
Qed.

End AcceptedFacts.
(** X3.  A request for one of the steps 2 to 5 of a project that has
    no step running is accepted: the step function is called in the turn
    of the request, with that step and that project, the handler
    suspends without a reply, and the status route reports the step as
    running.  When the step settles, the step function has still been
    called once and no more; the directories are as the step left them;
    the reply is 200 with the status inferred from the directory as the
    step left it, or 500 with the error the step threw; and the status
    route reports no running step. *)
Theorem accepted_step_runs_once
    (runStep : Z -> jstring -> option Json.value ->
               gmap jstring (gmap jstring jstring) ->
               gmap jstring (gmap jstring jstring) * result unit)
    (srv : Server.server) (id p : jstring) (reqBody : option Json.value) (k : Z) :
  Server.running srv !! id = None ->
  Server.parseInt p = Server.Int k -> (2 <= k <= 5)%Z ->
  let waiting := fst (Server.react runStep srv (Server.Request id p reqBody)) in
  let out := runStep k id None (Server.disk srv) in
  let settled := Server.react runStep waiting (Server.Settled id) in
  snd (Server.react runStep srv (Server.Request id p reqBody)) = None
  /\ Routes.runningStep (Routes.getStatus waiting id) = Some (Server.Int k)
  /\ Server.called waiting = Server.called srv ++ [(id, k)]
  /\ Server.called (fst settled) = Server.called srv ++ [(id, k)]
  /\ Server.disk (fst settled) = fst out
  /\ Routes.runningStep (Routes.getStatus (fst settled) id) = None
  /\ snd settled
     = Some match snd out with
            | Ok _ =>
                Server.Response 200
                  (Server.StatusBody id
                     (Progress.detectStatus (Server.readdir (fst settled) id)))
            | Throw e => Server.Response 500 (Server.ErrorBody (Server.Failure e))
            end.
Proof.
  intros Hfree Hp Hk waiting out settled.
  subst settled waiting. cbn [Server.react].
  rewrite (enter_awaits runStep srv id p reqBody k Hfree Hp Hk). cbn [fst snd].
  rewrite (resume_settles runStep _ id k) by (simpl; try apply lookup_insert_eq; exact Hk).
  cbn [Server.running Server.disk Server.called fst snd Server.finally].
  fold out. unfold Routes.getStatus. cbn [Routes.runningStep Server.running].
  rewrite lookup_insert_eq. unfold Server.finally. cbn [Server.running].
  rewrite lookup_delete_eq.
  repeat split; reflexivity.
Qed.

Lemma accepted_step_runs_once_witness :
  Server.called
    (fst (Server.react Server.idle
            (fst (Server.react Server.idle Server.start
                    (Server.Request (js "p") (js "3") None)))
            (Server.Settled (js "p"))))
  = [(js "p", 3%Z)].
Proof.
  refine (proj1 (proj2 (proj2 (proj2
            (accepted_step_runs_once Server.idle Server.start (js "p") (js "3") None 3
               _ _ _))))).
  - reflexivity.
  - reflexivity.
  - lia.
Defined.

(** X4.  Steps 1 and 6 run within the turn of their request.  For a
    project that has no step running, a request for step 6, or for step 1
    with a description, calls the step function once and is answered in
    the same turn (200 with the status of the directory, or 500 with the
    error), and the table of running steps is left as it was.  A request
    for step 1 whose body has no description, or an empty one, is
    answered 400, calls nothing, and leaves the server as it was: the
    return inside the try block still goes through the finally clause. *)
Theorem synchronous_steps
    (runStep : Z -> jstring -> option Json.value ->
               gmap jstring (gmap jstring jstring) ->
               gmap jstring (gmap jstring jstring) * result unit)
    (srv : Server.server) (id p : jstring) (reqBody : option Json.value) :
  Server.running srv !! id = None ->
  let reply (k : Z) (description : option Json.value) :=
    let out := runStep k id description (Server.disk srv) in
    let srv' := Server.Server (Server.running srv) (fst out)
                  (Server.called srv ++ [(id, k)]) in
    (srv',
     Some match snd out with
          | Ok _ =>
              Server.Response 200
                (Server.StatusBody id (Progress.detectStatus (Server.readdir srv' id)))
          | Throw e => Server.Response 500 (Server.ErrorBody (Server.Failure e))
          end) in
  (Server.parseInt p = Server.Int 6 ->
     Server.react runStep srv (Server.Request id p reqBody) = reply 6%Z None)
  /\ (forall description,
        Server.parseInt p = Server.Int 1 ->
        Json.get reqBody (js "description") = Ok description ->
        Json.truthy description = true ->
        Server.react runStep srv (Server.Request id p reqBody) = reply 1%Z description)
  /\ (forall description,
        Server.parseInt p = Server.Int 1 ->
        Json.get reqBody (js "description") = Ok description ->
        Json.truthy description = false ->
        Server.react runStep srv (Server.Request id p reqBody)
        = (srv, Some (Server.Response 400 (Server.ErrorBody Server.DescriptionRequired)))).
Proof.
  intros Hfree reply. subst reply. cbn [Server.react]. unfold Server.enter.
  split; [| split].
  - intros Hp. rewrite Hp.
    change (Server.lt (Server.Int 6) (Server.Int 1)
            || Server.lt (Server.Int 6) (Server.Int 6)) with false.
    cbv iota. rewrite Hfree. unfold Server.callStep. cbn [Server.disk Server.running Server.called].
    destruct (runStep 6%Z id None (Server.disk srv)) as [d r].
    unfold Server.finish, Server.finally.
    cbn [Server.running Server.disk Server.called fst snd].
    rewrite (delete_insert_id _ _ _ Hfree). reflexivity.
  - intros description Hp Hget Htrue. rewrite Hp.
    change (Server.lt (Server.Int 1) (Server.Int 1)
            || Server.lt (Server.Int 6) (Server.Int 1)) with false.
    cbv iota. rewrite Hfree, Hget, Htrue.
    cbn [negb]. unfold Server.callStep. cbn [Server.disk Server.running Server.called].
    destruct (runStep 1%Z id description (Server.disk srv)) as [d r].
    unfold Server.finish, Server.finally.
    cbn [Server.running Server.disk Server.called fst snd].
    rewrite (delete_insert_id _ _ _ Hfree). reflexivity.
  - intros description Hp Hget Hfalse. rewrite Hp.
    change (Server.lt (Server.Int 1) (Server.Int 1)
            || Server.lt (Server.Int 6) (Server.Int 1)) with false.
    cbv iota. rewrite Hfree, Hget, Hfalse.
    unfold Server.finally. cbn [negb Server.running Server.disk Server.called].
    rewrite (delete_insert_id _ _ _ Hfree), server_eta. reflexivity.
Qed.

Lemma synchronous_steps_witness :
  Server.react Server.idle Server.start
    (Server.Request (js "p") (js "1") (Some (Json.Obj [])))
  = (Server.start,
     Some (Server.Response 400 (Server.ErrorBody Server.DescriptionRequired))).
Proof.
  refine (proj2 (proj2 (synchronous_steps Server.idle Server.start (js "p") (js "1")
                          (Some (Json.Obj [])) _)) None _ _ _); reflexivity.
Defined.

(** X5.  From the start of the server, after any sequence of requests
    and settled steps, the running step the status route reports for a
    project is null or one of the steps 2 to 5: steps 1 and 6, which run
    within one turn, and a step number that is no number are never
    reported as running. *)
Theorem status_reports_awaited_steps_only
    (runStep : Z -> jstring -> option Json.value ->
               gmap jstring (gmap jstring jstring) ->
               gmap jstring (gmap jstring jstring) * result unit)
    (inputs : list Server.input) (id : jstring) :
  match Routes.runningStep
          (Routes.getStatus (Server.run runStep Server.start inputs) id) with
  | None => True
  | Some n => exists k, n = Server.Int k /\ (2 <= k <= 5)%Z
  end.
Proof.
  unfold Routes.getStatus. cbn [Routes.runningStep].
  destruct (Server.running (Server.run runStep Server.start inputs) !! id) as [n |] eqn:Hn;
    [| exact I].
  exact (suspended_run runStep inputs Server.start suspended_start id n Hn).
Qed.

(** X6.  The table is kept per project: a request, or a settled
    step, of one project leaves the entry of every other project as it
    is, and a request for a project that has no entry is never answered
    409, whatever runs for the other projects. *)
Theorem projects_do_not_block_each_other
    (runStep : Z -> jstring -> option Json.value ->
               gmap jstring (gmap jstring jstring) ->
               gmap jstring (gmap jstring jstring) * result unit)
    (srv : Server.server) (i : Server.input) (other : jstring) :
  Server.inputId i <> other ->
  Server.running (fst (Server.react runStep srv i)) !! other
  = Server.running srv !! other
  /\ (Server.running srv !! Server.inputId i = None ->
      forall r, snd (Server.react runStep srv i) = Some r -> Server.code r <> 409%Z).
Proof.
  intros Hne. split; [apply react_running_other, Hne |].
  intros Hfree r Hr. destruct i as [id p reqBody | id]; simpl in *.
  - destruct (Server.enter runStep srv id p reqBody) as [s [r0 | k]] eqn:He;
      simpl in Hr; [| discriminate].
    injection Hr as ->. eapply enter_free_not_409; eauto.
  - unfold Server.resume in Hr. rewrite Hfree in Hr. discriminate.
Qed.

Lemma projects_do_not_block_each_other_witness :
  let srv := Server.run Server.idle Server.start
               [Server.Request (js "p") (js "2") None] in
  Server.running (fst (Server.react Server.idle srv
                         (Server.Request (js "q") (js "3") None))) !! js "p"
  = Server.running srv !! js "p".
Proof.
  intros srv.
  refine (proj1 (projects_do_not_block_each_other Server.idle srv
                   (Server.Request (js "q") (js "3") None) (js "p") _)).
  compute_done.
Defined.
(** ** [JSON.stringify] and [JSON.parse] *)

Section StringifyFacts.

Import Stringify.

Lemma hex_val_digit (d : N) : d < 16 -> Json.hex_val (hex_digit d) = Some d.
Proof.
  intros Hd. unfold hex_digit, Json.hex_val, Js.is_digit.
  destruct (N.ltb_spec d 10).
  - replace (48 <=? 48 + d) with true by (symmetry; apply N.leb_le; lia).
    replace (48 + d <=? 57) with true by (symmetry; apply N.leb_le; lia).
    simpl. f_equal. lia.
  - replace (87 + d <=? 57) with false by (symmetry; apply N.leb_gt; lia).
    rewrite andb_false_r.
    replace (97 <=? 87 + d) with true by (symmetry; apply N.leb_le; lia).
    replace (87 + d <=? 102) with true by (symmetry; apply N.leb_le; lia).
    simpl. f_equal. lia.
Qed.

Lemma hex4_escape (c : N) :
  c < 65536 ->
  Json.hex4 (hex_digit (c / 4096)) (hex_digit ((c / 256) mod 16))
            (hex_digit ((c / 16) mod 16)) (hex_digit (c mod 16)) = Some c.
Proof.
  intros Hc. unfold Json.hex4.
  assert (H1 : c / 4096 < 16) by (apply N.Div0.div_lt_upper_bound; lia).
  assert (H2 : (c / 256) mod 16 < 16) by (apply N.mod_lt; lia).
  assert (H3 : (c / 16) mod 16 < 16) by (apply N.mod_lt; lia).
  assert (H4 : c mod 16 < 16) by (apply N.mod_lt; lia).
  rewrite !hex_val_digit by assumption. simpl. f_equal.
  pose proof (N.div_mod c 16 ltac:(lia)) as E1.
  pose proof (N.div_mod (c / 16) 16 ltac:(lia)) as E2.
  pose proof (N.div_mod (c / 256) 16 ltac:(lia)) as E3.
  assert (D2 : c / 16 / 16 = c / 256) by (rewrite N.Div0.div_div; reflexivity).
  assert (D3 : c / 256 / 16 = c / 4096) by (rewrite N.Div0.div_div; reflexivity).
  rewrite D2 in E2. rewrite D3 in E3. lia.
Qed.

Lemma parse_chars_escape (c : N) (s rest : jstring) (tail0 : jstring) :
  c < 65536 ->
  Json.parse_chars tail0 = Some (s, rest) ->
  Json.parse_chars (unicode_escape c ++ tail0) = Some (c :: s, rest).
Proof.
  intros Hc Ht. unfold unicode_escape. cbn [app Json.parse_chars].
  change (92 =? 34) with false. change (92 =? 92) with true.
  change (117 =? 117) with true. cbv iota.
  rewrite (hex4_escape c Hc). simpl. rewrite Ht. reflexivity.
Qed.

Lemma parse_chars_short (e c : N) (s rest tail0 : jstring) :
  e <> 117 -> Json.escape_val e = Some c ->
  Json.parse_chars tail0 = Some (s, rest) ->
  Json.parse_chars (92 :: e :: tail0) = Some (c :: s, rest).
Proof.
  intros He Hv Ht. cbn [Json.parse_chars].
  change (92 =? 34) with false. change (92 =? 92) with true. cbv iota.
  apply N.eqb_neq in He. rewrite He, Hv. simpl. rewrite Ht. reflexivity.
Qed.

Lemma parse_chars_literal (c : N) (s rest tail0 : jstring) :
  c <> 34 -> c <> 92 -> 32 <= c ->
  Json.parse_chars tail0 = Some (s, rest) ->
  Json.parse_chars (c :: tail0) = Some (c :: s, rest).
Proof.
  intros H34 H92 H32 Ht. cbn [Json.parse_chars].
  apply N.eqb_neq in H34, H92. rewrite H34, H92.
  replace (c <? 32) with false by (symmetry; apply N.ltb_ge; exact H32).
  rewrite Ht. reflexivity.
Qed.

(** A string literal written by QuoteJSONString is read back as the
    string. *)
Lemma parse_chars_quote (n : nat) :
  forall s rest, (length s <= n)%nat ->
  Json.parse_chars (quote_chars s ++ 34 :: rest) = Some (s, rest).
Proof.
  induction n as [| n IH]; intros s rest Hlen.
  { destruct s; [reflexivity | simpl in Hlen; lia]. }
  destruct s as [| c t]; [reflexivity |].
  simpl in Hlen. assert (Ht : (length t <= n)%nat) by lia.
  pose proof (IH t rest Ht) as IHt.
  cbn [quote_chars].
  destruct (N.eqb_spec c 8) as [-> | H8].
  { rewrite <- !app_comm_cons. apply parse_chars_short; [discriminate | reflexivity | exact IHt]. }
  destruct (N.eqb_spec c 9) as [-> | H9].
  { rewrite <- !app_comm_cons. apply parse_chars_short; [discriminate | reflexivity | exact IHt]. }
  destruct (N.eqb_spec c 10) as [-> | H10].
  { rewrite <- !app_comm_cons. apply parse_chars_short; [discriminate | reflexivity | exact IHt]. }
  destruct (N.eqb_spec c 12) as [-> | H12].
  { rewrite <- !app_comm_cons. apply parse_chars_short; [discriminate | reflexivity | exact IHt]. }
  destruct (N.eqb_spec c 13) as [-> | H13].
  { rewrite <- !app_comm_cons. apply parse_chars_short; [discriminate | reflexivity | exact IHt]. }
  destruct (N.eqb_spec c 34) as [-> | H34].
  { rewrite <- !app_comm_cons. apply parse_chars_short; [discriminate | reflexivity | exact IHt]. }
  destruct (N.eqb_spec c 92) as [-> | H92].
  { rewrite <- !app_comm_cons. apply parse_chars_short; [discriminate | reflexivity | exact IHt]. }
  destruct (N.ltb_spec c 32) as [Hlow | H32].
  { rewrite <- app_assoc. apply parse_chars_escape; [lia | exact IHt]. }
  destruct (is_high_surrogate c) eqn:Hhigh.
  { unfold is_high_surrogate in Hhigh. nbool.
    destruct t as [| d t'].
    - apply parse_chars_escape; [lia | reflexivity].
    - destruct (is_low_surrogate d) eqn:Hd.
      + unfold is_low_surrogate in Hd. nbool. rewrite <- !app_comm_cons.
        apply parse_chars_literal; [lia | lia | lia |].
        apply parse_chars_literal; [lia | lia | lia |].
        apply IH. simpl in Ht. lia.
      + rewrite <- app_assoc. apply parse_chars_escape; [lia | exact IHt]. }
  destruct (is_low_surrogate c) eqn:Hlo.
  { unfold is_low_surrogate in Hlo. nbool.
    rewrite <- app_assoc. apply parse_chars_escape; [lia | exact IHt]. }
  rewrite <- app_comm_cons. apply parse_chars_literal; assumption.
Qed.

Lemma parse_value_quote (f : nat) (s rest : jstring) :
  Json.parse_value (S f) (quote s ++ rest) = Some (Json.Str s, rest).
Proof.
  unfold quote. rewrite <- app_comm_cons, <- app_assoc.
  cbn [Json.parse_value Json.skip_ws]. change (Json.is_ws 34) with false. cbv iota.
  change (34 =? 123) with false. change (34 =? 91) with false.
  change (34 =? 34) with true. cbv iota.
  cbn [app]. rewrite (parse_chars_quote (length s) s rest (le_n _)). reflexivity.
Qed.

(** The elements of a non-empty array as [JSON.stringify] lays them
    out, up to the closing bracket. *)
Lemma parse_items_strings (l : list jstring) :
  forall (x : jstring) (f : nat) (rest : jstring),
  (length l < f)%nat ->
  Json.parse_items (S f) (JsText.join [44; 10; 32; 32] (quote <$> (x :: l))
                          ++ 10 :: 93 :: rest)
  = Some (Json.Str <$> (x :: l), rest).
Proof.
  induction l as [| y l IH]; intros x f rest Hf.
  - destruct f as [| f]; [simpl in Hf; lia |].
    rewrite parse_items_step. cbn [fmap list_fmap JsText.join].
    rewrite parse_value_quote. reflexivity.
  - destruct f as [| f]; [simpl in Hf; lia |].
    rewrite parse_items_step.
    change (JsText.join [44; 10; 32; 32] (quote <$> x :: y :: l))
      with (quote x ++ [44; 10; 32; 32] ++ JsText.join [44; 10; 32; 32] (quote <$> y :: l)).
    rewrite <- !app_assoc. rewrite parse_value_quote.
    match goal with
    | |- context [[44; 10; 32; 32] ++ ?t] =>
        change ([44; 10; 32; 32] ++ t) with (44 :: [10; 32; 32] ++ t)
    end.
    cbn [Json.skip_ws]. change (Json.is_ws 44) with false. cbv iota.
    change (44 =? 44) with true. cbv iota.
    rewrite (parse_items_space (S f) [10; 32; 32]) by reflexivity.
    rewrite IH by (simpl in Hf; lia). reflexivity.
Qed.

(** [JSON.parse] reads back what [JSON.stringify] writes of an array of
    strings. *)
Lemma parse_strings (l : list jstring) :
  Json.parse (strings l) = Some (Json.Arr (Json.Str <$> l)).
Proof.
  destruct l as [| x l]; [reflexivity |].
  apply (parse_with_any_fuel (S (S (S (length l)))) _ []); [| reflexivity].
  unfold strings.
  rewrite (parse_value_open_array _ _ (quote_chars x ++ [34] ++
             match l with
             | [] => []
             | _ => [44; 10; 32; 32] ++ JsText.join [44; 10; 32; 32] (quote <$> l)
             end ++ [10; 93]) 34).
  - assert (Hitems := parse_items_strings l x (S (length l)) [] ltac:(lia)).
    replace (34 :: quote_chars x ++ [34] ++
               match l with
               | [] => []
               | _ :: _ => [44; 10; 32; 32] ++ JsText.join [44; 10; 32; 32] (quote <$> l)
               end ++ [10; 93])
      with (JsText.join [44; 10; 32; 32] (quote <$> x :: l) ++ [10; 93]).
    + rewrite Hitems. reflexivity.
    + destruct l as [| y l]; cbn [fmap list_fmap JsText.join]; unfold quote;
        rewrite <- ?app_comm_cons, <- ?app_assoc; reflexivity.
  - destruct l as [| y l]; cbn [fmap list_fmap JsText.join app Json.skip_ws];
      unfold quote; rewrite <- ?app_comm_cons, <- ?app_assoc; reflexivity.
  - discriminate.
Qed.

End StringifyFacts.

(** X7.  The keyframes.json step 4 writes is read back by step 5 as
    it was written: [JSON.parse] of [JSON.stringify(urls, null, 2)] is
    the array of the same strings, whatever characters they hold (quotes,
    backslashes, control characters and lone surrogates are escaped on the
    way out and restored on the way in). *)
Theorem keyframes_json_round_trip (urls : list jstring) :
  Json.parse (Stringify.strings urls) = Some (Json.Arr (Json.Str <$> urls)).
Proof. apply parse_strings. Qed.
(** ** Steps 3 and 4: the images *)

Section ImageFacts.

Context {E : Type}.
Variable generateImage :
  option Json.value -> option jstring -> E -> E * result jstring.
Variable fetch : jstring -> E -> E * result jstring.

Lemma keyframeFile_inj (i j : nat) : keyframeFile i = keyframeFile j -> i = j.
Proof.
  unfold keyframeFile. intros H. apply app_inv_head in H.
  apply app_inv_tail in H. apply decimal_inj in H. exact H.
Qed.

(** keyframes.json is the file of no keyframe. *)
Lemma keyframeFile_not_json (i : nat) : keyframeFile i <> js "keyframes.json".
Proof.
  unfold keyframeFile. intros H.
  change (js "keyframes.json") with (js "keyframe" ++ js "s.json") in H.
  apply app_inv_head in H.
  destruct (decimal_head i) as (c & t & Hd & Hc & _). rewrite Hd in H.
  injection H as -> _. discriminate.
Qed.

Lemma keyframeFile_head (j : nat) : exists t, keyframeFile j = 107 :: t.
Proof. unfold keyframeFile. simpl. eauto. Qed.

(** The call of a keyframe task, as the pool sees it. *)
Lemma keyframe_call_spec (ref : jstring) (kfs : list Json.value) (i : nat)
    (w : world E) :
  Step4Trace.call generateImage ref kfs i w
  = (World (files w) (fst (Step4Trace.act generateImage ref kfs i (outside w)))
           (trace w ++ Step4Trace.log i
                         (snd (Step4Trace.act generateImage ref kfs i (outside w)))),
     snd (Step4Trace.act generateImage ref kfs i (outside w))).
Proof.
  unfold Step4Trace.call, Step4Trace.act, Step4Trace.log. rewrite app_nil_r.
  destruct (kfs !! i) as [description |].
  - unfold askImage.
    destruct (generateImage (Some description) (Some ref) (outside w)) as [o r].
    reflexivity.
  - unfold throw. cbn [fst snd]. rewrite world_eta. reflexivity.
Qed.

Lemma keyframe_tasks (ref : jstring) (kfs : list Json.value) :
  imap (keyframeTask generateImage fetch ref) kfs
  = imap (fun i _ => Pool.job fetch (Step4Trace.call generateImage ref kfs)
                       keyframeFile (fun url => url) i) kfs.
Proof.
  apply imap_ext. intros i kf Hi.
  unfold keyframeTask, Pool.job, Step4Trace.call. rewrite Hi. reflexivity.
Qed.

(** Step 4, once its two files are read and the keyframes are an array,
    is the run of its tasks, and the write of keyframes.json when they
    have all returned. *)
Lemma step4_report (order : list nat) (w : world E) (text ref : jstring)
    (script : Json.value) (kfs : list Json.value) :
  files w !! js "script.json" = Some text ->
  Json.parse text = Some script ->
  files w !! js "character_url.txt" = Some ref ->
  Json.get (Some script) (js "keyframes") = Ok (Some (Json.Arr kfs)) ->
  exists acts out,
    Pool.report fetch keyframeFile (fun url => url)
      (Step4Trace.act generateImage ref kfs) Step4Trace.log
      w (length kfs) acts out
    /\ step4 generateImage fetch order w
       = match snd out with
         | Ok l =>
             (World (<[js "keyframes.json" := Stringify.strings l]> (files (fst out)))
                    (outside (fst out)) (trace (fst out)), Ok tt)
         | Throw e => (fst out, Throw e)
         end.
Proof.
  intros Hs Hp Hr Hk.
  destruct (awaitAll_report fetch (Step4Trace.call generateImage ref kfs) keyframeFile
              (fun url => url) (Step4Trace.act generateImage ref kfs)
              Step4Trace.log (keyframe_call_spec ref kfs) keyframeFile_inj
              kfs order w) as [acts Hrep].
  exists acts, (awaitAll order (imap (keyframeTask generateImage fetch ref) kfs) w).
  rewrite keyframe_tasks. split; [exact Hrep |].
  unfold step4, readJSON, andThen, readFileSync, ret, lift.
  rewrite Hs, Hp, Hr, Hk. cbn [Json.truthy negb JsonOps.items]. rewrite keyframe_tasks.
  destruct (awaitAll order _ w) as [w' [l | e]]; reflexivity.
Qed.

(** A run of step 4 stops before its tasks, the world as it was, or has
    read its two files and found an array of keyframes. *)
Lemma step4_cases (order : list nat) (w : world E) :
  (exists e, step4 generateImage fetch order w = (w, Throw e))
  \/ exists text ref script kfs,
       files w !! js "script.json" = Some text
       /\ Json.parse text = Some script
       /\ files w !! js "character_url.txt" = Some ref
       /\ Json.get (Some script) (js "keyframes") = Ok (Some (Json.Arr kfs)).
Proof.
  unfold step4, readJSON, andThen, readFileSync, ret, throw, lift.
  destruct (files w !! js "script.json") as [text |] eqn:Hs; [| left; eauto].
  destruct (Json.parse text) as [script |] eqn:Hp; [| left; eauto].
  destruct (files w !! js "character_url.txt") as [ref |] eqn:Hr; [| left; eauto].
  destruct (Json.get (Some script) (js "keyframes")) as [keyframes | e] eqn:Hg;
    [| left; eauto].
  destruct (negb (Json.truthy keyframes)); [left; eauto |].
  destruct keyframes as [[| | | | kfs |] |]; cbn [JsonOps.items]; try (left; eauto; fail).
  right. exists text, ref, script, kfs. auto.
Qed.

(** The run of step 4, told by the calls and the fetches it made. *)
Lemma step4_run (order : list nat) (w : world E) (text ref : jstring)
    (script : Json.value) (kfs : list Json.value) :
  files w !! js "script.json" = Some text ->
  Json.parse text = Some script ->
  files w !! js "character_url.txt" = Some ref ->
  Json.get (Some script) (js "keyframes") = Ok (Some (Json.Arr kfs)) ->
  let out := step4 generateImage fetch order w in
  exists acts : list Pool.action,
    Pool.linked fetch (Step4Trace.act generateImage ref kfs)
      (outside w) acts (outside (fst out))
    /\ trace (fst out) = trace w ++ (acts ≫= Pool.shown keyframeFile Step4Trace.log)
    /\ Pool.callers acts ⊆+ seq 0 (length kfs)
    /\ Pool.fetchers acts ⊆+ seq 0 (length kfs)
    /\ (forall i url r, Pool.Fetch i url r ∈ acts -> Pool.Call i (Ok url) ∈ acts)
    /\ (forall name,
          name <> js "keyframes.json" ->
          files (fst out) !! name = files w !! name
          \/ exists i url data,
               name = js "keyframe" ++ Js.decimal i ++ js ".jpg"
               /\ Pool.Fetch i url (Ok data) ∈ acts
               /\ files (fst out) !! name = Some data)
    /\ match snd out with
       | Ok _ =>
           Pool.callers acts ≡ₚ seq 0 (length kfs)
           /\ Pool.fetchers acts ≡ₚ seq 0 (length kfs)
           /\ exists urls : list jstring,
                length urls = length kfs
                /\ files (fst out) !! js "keyframes.json" = Some (Stringify.strings urls)
                /\ forall i, (i < length kfs)%nat ->
                     exists url data,
                       urls !! i = Some url
                       /\ Pool.Call i (Ok url) ∈ acts
                       /\ Pool.Fetch i url (Ok data) ∈ acts
                       /\ files (fst out) !! (js "keyframe" ++ Js.decimal i ++ js ".jpg")
                          = Some data
       | Throw e =>
           files (fst out) !! js "keyframes.json" = files w !! js "keyframes.json"
           /\ exists a, a ∈ acts /\ Pool.threw e a
       end.
Proof.
  intros Hs Hp Hr Hk out.
  destruct (step4_report order w text ref script kfs Hs Hp Hr Hk)
    as (acts & run & [Hl Ht Hc Hf Hfc Hfiles Hres] & Hstep).
  subst out. rewrite Hstep. exists acts.
  change (js "keyframe" ++ Js.decimal ?i ++ js ".jpg") with (keyframeFile i).
  destruct (snd run) as [l | e]; cbn [fst snd files outside trace].
  - destruct Hres as (Hlen & Hpc & Hpf & Hall).
    split; [exact Hl |]. split; [exact Ht |]. split; [exact Hc |]. split; [exact Hf |].
    split; [exact Hfc |]. split.
    { intros name Hne. rewrite lookup_insert_ne by congruence. apply Hfiles. }
    split; [exact Hpc |]. split; [exact Hpf |].
    exists l. split; [exact Hlen |]. split; [apply lookup_insert_eq |].
    intros i Hi. destruct (Hall i Hi) as (url & data & Hcall & Hfe & Hfile & Hli).
    exists url, data. split; [exact Hli |]. split; [exact Hcall |].
    split; [exact Hfe |].
    rewrite lookup_insert_ne
      by (intros Heq; symmetry in Heq; revert Heq; apply keyframeFile_not_json).
    exact Hfile.
  - split; [exact Hl |]. split; [exact Ht |]. split; [exact Hc |]. split; [exact Hf |].
    split; [exact Hfc |]. split; [intros name _; apply Hfiles |].
    split; [| exact Hres].
    destruct (Hfiles (js "keyframes.json")) as [H | (i & url & data & Heq & _)];
      [exact H |].
    symmetry in Heq. apply keyframeFile_not_json in Heq. contradiction.
Qed.

End ImageFacts.
(** The run of step 3. *)
Lemma step3_any {E : Type}
    (generateImage : option Json.value -> option jstring -> E -> E * result jstring)
    (fetch : jstring -> E -> E * result jstring)
    (w : world E) :
  match step3 generateImage fetch w with
  | (w', Ok _) =>
      exists text script description o url data,
        files w !! js "script.json" = Some text
        /\ Json.parse text = Some script
        /\ Json.get (Some script) (js "mainCharacterDescription") = Ok description
        /\ generateImage description None (outside w) = (o, Ok url)
        /\ fetch url o = (outside w', Ok data)
        /\ files w'
           = <[js "character_url.txt" := url]> (<[js "character.jpg" := data]> (files w))
        /\ trace w' = trace w ++ [Download url (js "character.jpg") (Ok data)]
  | (w', Throw _) => files w' = files w
  end.
Proof.
  unfold step3, readJSON, andThen, readFileSync, ret, throw, lift, askImage,
    downloadFile, writeFileSync.
  destruct (files w !! js "script.json") as [text |] eqn:Hs; [| reflexivity].
  destruct (Json.parse text) as [script |] eqn:Hp; [| reflexivity].
  destruct (Json.get (Some script) (js "mainCharacterDescription"))
    as [description | e] eqn:Hd; [| reflexivity].
  cbn [outside files trace].
  destruct (generateImage description None (outside w)) as [o [url | e]] eqn:Hg;
    [| reflexivity].
  cbn [outside files trace].
  destruct (fetch url o) as [o' [data | e]] eqn:Hf; [| reflexivity].
  exists text, script, description, o, url, data. cbn [outside files trace].
  repeat split; auto.
Qed.

(** X8.  Step 3 changes the directory all at once or not at all.  When
    it returns, script.json was read and parsed, the image call was made
    with the description of the main character of that script and no
    reference image, character.jpg holds what was fetched from the URL
    the call returned, and character_url.txt holds that URL; nothing else
    changed, and the download is the one event of the trace.  When it
    throws (no script.json, a script that does not parse or is null, a
    failed call, a failed download) the directory is as it was. *)
Theorem step3_all_or_nothing {E : Type}
    (generateImage : option Json.value -> option jstring -> E -> E * result jstring)
    (fetch : jstring -> E -> E * result jstring)
    (w : world E) :
  match step3 generateImage fetch w with
  | (w', Ok _) =>
      exists text script description o url data,
        files w !! js "script.json" = Some text
        /\ Json.parse text = Some script
        /\ Json.get (Some script) (js "mainCharacterDescription") = Ok description
        /\ generateImage description None (outside w) = (o, Ok url)
        /\ fetch url o = (outside w', Ok data)
        /\ files w'
           = <[js "character_url.txt" := url]> (<[js "character.jpg" := data]> (files w))
        /\ trace w' = trace w ++ [Download url (js "character.jpg") (Ok data)]
  | (w', Throw _) => files w' = files w
  end.
Proof. apply step3_any. Qed.

(** X9.  Step 4 makes one image call per keyframe and stores what each
    returns.  For a directory whose script.json parses to a script with
    an array of keyframes and that holds character_url.txt, and for every
    order in which the tasks are resumed, there is a list of the image
    calls and fetches the run made, in the order it made them: each is
    the call of [generateImage] with the description of the keyframe of
    its index and the reference image read from character_url.txt, or a
    call of [fetch], made in the provider state the one before left; no
    keyframe has two calls or two fetches; a fetch is that of the URL the
    call of its keyframe returned; the trace gains the fetches, as
    downloads to keyframe{i}.jpg; a file other than keyframes.json is as
    it was or is keyframe{i}.jpg and holds what the fetch of keyframe i
    gave.  When step 4 returns, every keyframe has had its call and its
    fetch, keyframe{i}.jpg holds what was fetched, and keyframes.json
    holds what [JSON.stringify] gives of the URLs the calls returned, in
    the order of the keyframes.  When it throws, the error is that of a
    call or of a fetch of the list, and keyframes.json is as it was. *)
Theorem step4_one_image_per_keyframe {E : Type}
    (generateImage : option Json.value -> option jstring -> E -> E * result jstring)
    (fetch : jstring -> E -> E * result jstring)
    (order : list nat) (w : world E) (text ref : jstring)
    (script : Json.value) (kfs : list Json.value) :
  files w !! js "script.json" = Some text ->
  Json.parse text = Some script ->
  files w !! js "character_url.txt" = Some ref ->
  Json.get (Some script) (js "keyframes") = Ok (Some (Json.Arr kfs)) ->
  let out := step4 generateImage fetch order w in
  exists acts : list Pool.action,
    Pool.linked fetch (Step4Trace.act generateImage ref kfs)
      (outside w) acts (outside (fst out))
    /\ trace (fst out) = trace w ++ (acts ≫= Pool.shown keyframeFile Step4Trace.log)
    /\ Pool.callers acts ⊆+ seq 0 (length kfs)
    /\ Pool.fetchers acts ⊆+ seq 0 (length kfs)
    /\ (forall i url r, Pool.Fetch i url r ∈ acts -> Pool.Call i (Ok url) ∈ acts)
    /\ (forall name,
          name <> js "keyframes.json" ->
          files (fst out) !! name = files w !! name
          \/ exists i url data,
               name = js "keyframe" ++ Js.decimal i ++ js ".jpg"
               /\ Pool.Fetch i url (Ok data) ∈ acts
               /\ files (fst out) !! name = Some data)
    /\ match snd out with
       | Ok _ =>
           Pool.callers acts ≡ₚ seq 0 (length kfs)
           /\ Pool.fetchers acts ≡ₚ seq 0 (length kfs)
           /\ exists urls : list jstring,
                length urls = length kfs
                /\ files (fst out) !! js "keyframes.json" = Some (Stringify.strings urls)
                /\ forall i, (i < length kfs)%nat ->
                     exists url data,
                       urls !! i = Some url
                       /\ Pool.Call i (Ok url) ∈ acts
                       /\ Pool.Fetch i url (Ok data) ∈ acts
                       /\ files (fst out) !! (js "keyframe" ++ Js.decimal i ++ js ".jpg")
                          = Some data
       | Throw e =>
           files (fst out) !! js "keyframes.json" = files w !! js "keyframes.json"
           /\ exists a, a ∈ acts /\ Pool.threw e a
       end.
Proof. apply step4_run. Qed.

Lemma step4_one_image_per_keyframe_witness :
  exists acts : list Pool.action,
    Pool.callers acts ≡ₚ [0; 1; 2]%nat
    /\ files (fst (step4 Demo.image Sample.bytes [0; 1; 2; 0; 1; 2; 0; 1; 2]%nat
                     Demo.imageProject)) !! js "keyframes.json"
       = Some (Stringify.strings [js "u"; js "u"; js "u"]).
Proof.
  destruct (step4_one_image_per_keyframe Demo.image Sample.bytes
              [0; 1; 2; 0; 1; 2; 0; 1; 2]%nat Demo.imageProject
              (Render.text Sample.twoSegments) (js "c") Sample.twoSegments
              [Json.Str (js "dawn"); Json.Str (js "noon"); Json.Str (js "dusk")])
    as (acts & _ & _ & _ & _ & _ & _ & Hres).
  - vm_compute; reflexivity.
  - vm_compute; reflexivity.
  - vm_compute; reflexivity.
  - vm_compute; reflexivity.
  - exists acts.
    assert (Hok : snd (step4 Demo.image Sample.bytes [0; 1; 2; 0; 1; 2; 0; 1; 2]%nat
                         Demo.imageProject) = Ok tt)
      by (vm_compute; reflexivity).
    rewrite Hok in Hres. split; [exact (proj1 Hres) |].
    vm_compute. reflexivity.
Defined.

(** X10.  Step 4 looks at the keyframes of the script before it
    calls anything.  With script.json parsed and character_url.txt read:
    when the script has no keyframes, or keyframes that are null, false,
    zero or the empty string, step 4 throws "Script is missing
    keyframes. Re-run step 2 to generate a new script."; when the
    keyframes are anything else that is no array, it throws a TypeError.
    In both cases nothing is called, downloaded or written.  Without
    character_url.txt it throws the error of the read, whatever the
    script holds. *)
Theorem step4_checks_keyframes_first {E : Type}
    (generateImage : option Json.value -> option jstring -> E -> E * result jstring)
    (fetch : jstring -> E -> E * result jstring)
    (order : list nat) (w : world E) (text : jstring) (script : Json.value) :
  files w !! js "script.json" = Some text ->
  Json.parse text = Some script ->
  (files w !! js "character_url.txt" = None ->
     step4 generateImage fetch order w = (w, Throw (ENOENT (js "character_url.txt"))))
  /\ (forall ref keyframes,
        files w !! js "character_url.txt" = Some ref ->
        Json.get (Some script) (js "keyframes") = Ok keyframes ->
        (Json.truthy keyframes = false ->
           step4 generateImage fetch order w
           = (w, Throw (Error (js "Script is missing keyframes. Re-run step 2 to generate a new script."))))
        /\ (Json.truthy keyframes = true -> Json.isArray keyframes = false ->
           step4 generateImage fetch order w = (w, Throw TypeError))).
Proof.
  intros Hs Hp. unfold step4, readJSON, andThen, readFileSync, ret, throw, lift.
  rewrite Hs, Hp. split.
  - intros ->. reflexivity.
  - intros ref keyframes -> ->. split.
    + intros ->. reflexivity.
    + intros -> Harr. cbn [negb].
      destruct keyframes as [[| b | n | s | l | ms] |]; try discriminate; reflexivity.
Qed.

Lemma step4_checks_keyframes_first_witness :
  step4 Demo.image Sample.bytes [0; 0; 0]%nat
    (World {[ js "script.json" := js "{}"; js "character_url.txt" := js "c" ]} tt [])
  = (World {[ js "script.json" := js "{}"; js "character_url.txt" := js "c" ]} tt [],
     Throw (Error (js "Script is missing keyframes. Re-run step 2 to generate a new script."))).
Proof.
  refine (proj1 (proj2 (step4_checks_keyframes_first Demo.image Sample.bytes [0; 0; 0]%nat
                          (World {[ js "script.json" := js "{}";
                                    js "character_url.txt" := js "c" ]} tt [])
                          (js "{}") (Json.Obj []) _ _)
                   (js "c") None _ _) _); vm_compute; reflexivity.
Defined.
(** ** From step 4 to step 5 *)

(** X11.  The frames of a video are the images of step 4.  When step 4
    returns, for a script whose keyframes and segments are arrays, there
    is the list of the URLs its image calls returned, one per keyframe
    and in the order of the keyframes: the image call of keyframe i
    returned the URL of index i, the fetch of that URL gave what
    keyframe{i}.jpg holds, and keyframes.json holds the list.  The step 5
    that follows, whatever the order in which its tasks are resumed,
    reads that list back: the video calls it makes are calls of
    [generateVideo], each made in the provider state the event before
    left, each made at most once, and each the call of a segment i with
    the text of the segment, the URL of index i as first frame and the
    URL of index i+1 as last frame (no frame where the list has no such
    URL); when step 5 returns it has made these calls for all the
    segments. *)
Theorem keyframes_flow_into_videos {E : Type}
    (generateImage : option Json.value -> option jstring -> E -> E * result jstring)
    (generateVideo : option Json.value -> option Json.value -> option Json.value ->
                     E -> E * result jstring)
    (fetch : jstring -> E -> E * result jstring)
    (order4 order5 : list nat)
    (w : world E) (text ref : jstring) (script : Json.value)
    (kfs segs : list Json.value) :
  files w !! js "script.json" = Some text ->
  Json.parse text = Some script ->
  files w !! js "character_url.txt" = Some ref ->
  Json.get (Some script) (js "keyframes") = Ok (Some (Json.Arr kfs)) ->
  Json.get (Some script) (js "segments") = Ok (Some (Json.Arr segs)) ->
  snd (step4 generateImage fetch order4 w) = Ok tt ->
  let w4 := fst (step4 generateImage fetch order4 w) in
  let out := step5 generateVideo fetch order5 w4 in
  exists (urls : list jstring) (acts : list Pool.action) (evs : list event),
    length urls = length kfs
    /\ Pool.linked fetch (Step4Trace.act generateImage ref kfs) (outside w) acts (outside w4)
    /\ (forall i, (i < length kfs)%nat ->
          exists url data,
            urls !! i = Some url
            /\ Pool.Call i (Ok url) ∈ acts
            /\ Pool.Fetch i url (Ok data) ∈ acts
            /\ files w4 !! (js "keyframe" ++ Js.decimal i ++ js ".jpg") = Some data)
    /\ files w4 !! js "keyframes.json" = Some (Stringify.strings urls)
    /\ trace (fst out) = trace w4 ++ evs
    /\ Step5Trace.linked generateVideo fetch (outside w4) evs (outside (fst out))
    /\ Step5Trace.videoCalls evs ⊆+ Step5Trace.calls (Json.Str <$> urls) segs
    /\ (snd out = Ok tt ->
        Step5Trace.videoCalls evs ≡ₚ Step5Trace.calls (Json.Str <$> urls) segs).
Proof.
  intros Hs Hp Hr Hk Hsegs Hok w4 out.
  destruct (step4_run generateImage fetch order4 w text ref script kfs Hs Hp Hr Hk)
    as (acts & Hl & _ & _ & _ & _ & Hfiles & Hres).
  fold w4 in Hl, Hfiles, Hres. rewrite Hok in Hres.
  destruct Hres as (_ & _ & urls & Hlen & Hjson & Hall).
  assert (Hscript : files w4 !! js "script.json" = Some text).
  { destruct (Hfiles (js "script.json") ltac:(discriminate))
      as [H | (i & url & data & Heq & _)]; [congruence |].
    destruct (keyframeFile_head i) as [t Ht]. unfold keyframeFile in Ht.
    rewrite Ht in Heq. discriminate. }
  destruct (step5_run generateVideo fetch order5 w4 text (Stringify.strings urls)
              script segs (Json.Str <$> urls) Hscript Hp Hjson (parse_strings urls) Hsegs)
    as (evs & Ht5 & Hl5 & Hsub & _ & _ & Hres5).
  exists urls, acts, evs. fold out in Ht5, Hl5, Hres5.
  split; [exact Hlen |]. split; [exact Hl |]. split; [exact Hall |].
  split; [exact Hjson |]. split; [exact Ht5 |]. split; [exact Hl5 |].
  split; [exact Hsub |].
  intros Hok5. rewrite Hok5 in Hres5. exact (proj1 Hres5).
Qed.

Lemma keyframes_flow_into_videos_witness :
  let w4 := fst (step4 Demo.image Sample.bytes [0; 1; 2; 0; 1; 2; 0; 1; 2]%nat
                   Demo.imageProject) in
  exists (urls : list jstring) (evs : list event),
    length urls = 3%nat
    /\ trace (fst (step5 Sample.video Sample.bytes [0; 1; 0; 1; 0; 1]%nat w4))
       = trace w4 ++ evs
    /\ Step5Trace.videoCalls evs
       ≡ₚ Step5Trace.calls (Json.Str <$> urls)
            [Json.Obj [(js "script", Json.Str (js "walks"))];
             Json.Obj [(js "script", Json.Str (js "rests"))]].
Proof.
  intros w4.
  destruct (keyframes_flow_into_videos Demo.image Sample.video Sample.bytes
              [0; 1; 2; 0; 1; 2; 0; 1; 2]%nat [0; 1; 0; 1; 0; 1]%nat
              Demo.imageProject (Render.text Sample.twoSegments) (js "c")
              Sample.twoSegments
              [Json.Str (js "dawn"); Json.Str (js "noon"); Json.Str (js "dusk")]
              [Json.Obj [(js "script", Json.Str (js "walks"))];
               Json.Obj [(js "script", Json.Str (js "rests"))]])
    as (urls & acts & evs & Hlu & _ & _ & _ & Ht & _ & _ & Hall).
  - vm_compute; reflexivity.
  - vm_compute; reflexivity.
  - vm_compute; reflexivity.
  - vm_compute; reflexivity.
  - vm_compute; reflexivity.
  - vm_compute; reflexivity.
  - exists urls, evs. split; [exact Hlu |]. split; [exact Ht |].
    apply Hall. vm_compute. reflexivity.
Defined.
(** ** What a run leaves for progress inference *)

Section LeftFacts.

Context {E : Type}.
Variable generateImage :
  option Json.value -> option jstring -> E -> E * result jstring.
Variable generateVideo :
  option Json.value -> option Json.value -> option Json.value -> E -> E * result jstring.
Variable fetch : jstring -> E -> E * result jstring.

Import Step5Trace.

Lemma segmentFile_head (j : nat) : exists t, segmentFile j = 115 :: 101 :: t.
Proof. unfold segmentFile. simpl. eauto. Qed.

(** A run of step 5 stops before its tasks, the world as it was, or has
    read its two files and found an array of segments. *)
Lemma step5_cases (order : list nat) (w : world E) :
  (exists e, step5 generateVideo fetch order w = (w, Throw e))
  \/ exists scriptText urlsText script kf segs,
       files w !! js "script.json" = Some scriptText
       /\ Json.parse scriptText = Some script
       /\ files w !! js "keyframes.json" = Some urlsText
       /\ Json.parse urlsText = Some kf
       /\ Json.get (Some script) (js "segments") = Ok (Some (Json.Arr segs)).
Proof.
  unfold step5, readJSON, andThen, readFileSync, ret, throw, lift.
  destruct (files w !! js "script.json") as [text |] eqn:Hs; [| left; eauto].
  destruct (Json.parse text) as [script |] eqn:Hp; [| left; eauto].
  cbn [fst snd files].
  destruct (files w !! js "keyframes.json") as [text' |] eqn:Hu; [| left; eauto].
  destruct (Json.parse text') as [kf |] eqn:Hpu; [| left; eauto].
  destruct (Json.get (Some script) (js "segments")) as [segments | e] eqn:Hg;
    [| left; eauto].
  destruct segments as [[| | | | segs |] |]; cbn [JsonOps.items]; try (left; eauto; fail).
  right. exists text, text', script, kf, segs. auto.
Qed.

(** What a run of step 5 leaves, whatever the directory holds: a file is
    as it was or is the video of a segment; when the run returns, the
    video of every segment of the script is there. *)
Lemma step5_left (order : list nat) (w : world E) :
  (forall name,
     files (fst (step5 generateVideo fetch order w)) !! name = files w !! name
     \/ exists i data,
          name = segmentFile i
          /\ files (fst (step5 generateVideo fetch order w)) !! name = Some data)
  /\ (snd (step5 generateVideo fetch order w) = Ok tt ->
      exists text script segs,
        files w !! js "script.json" = Some text
        /\ Json.parse text = Some script
        /\ Json.get (Some script) (js "segments") = Ok (Some (Json.Arr segs))
        /\ forall j, (j < length segs)%nat ->
             is_Some (files (fst (step5 generateVideo fetch order w)) !! segmentFile j)).
Proof.
  destruct (step5_cases order w)
    as [[e He] | (text & text' & script & kf & segs & Hs & Hp & Hu & Hpu & Hg)].
  - rewrite He. split; [intros name; left; reflexivity | discriminate].
  - destruct (step5_report generateVideo fetch order w text text' script kf segs
                Hs Hp Hu Hpu Hg)
      as (acts & out & [_ _ _ _ _ Hfiles Hres] & -> & ->).
    split.
    + intros name. destruct (Hfiles name) as [H | (i & url & data & -> & _ & H)];
        [left; exact H | right; eauto].
    + intros Hok. exists text, script, segs. repeat split; auto.
      intros j Hj. destruct (snd out) as [l | e]; [| discriminate].
      destruct Hres as (_ & _ & _ & Hall).
      destruct (Hall j Hj) as (url & data & _ & _ & Hfile & _). eauto.
Qed.

(** What a run of step 4 leaves, whatever the directory holds: a file
    other than keyframes.json is as it was or is the image of a keyframe;
    when the run returns, keyframes.json and the image of every keyframe
    of the script are there; when it throws, keyframes.json is as it
    was. *)
Lemma step4_left (order : list nat) (w : world E) :
  (forall name,
     name <> js "keyframes.json" ->
     files (fst (step4 generateImage fetch order w)) !! name = files w !! name
     \/ exists i data,
          name = keyframeFile i
          /\ files (fst (step4 generateImage fetch order w)) !! name = Some data)
  /\ match snd (step4 generateImage fetch order w) with
     | Ok _ =>
         is_Some (files (fst (step4 generateImage fetch order w)) !! js "keyframes.json")
         /\ exists text script kfs,
              files w !! js "script.json" = Some text
              /\ Json.parse text = Some script
              /\ Json.get (Some script) (js "keyframes") = Ok (Some (Json.Arr kfs))
              /\ forall j, (j < length kfs)%nat ->
                   is_Some (files (fst (step4 generateImage fetch order w))
                              !! keyframeFile j)
     | Throw _ =>
         files (fst (step4 generateImage fetch order w)) !! js "keyframes.json"
         = files w !! js "keyframes.json"
     end.
Proof.
  destruct (step4_cases generateImage fetch order w)
    as [[e He] | (text & ref & script & kfs & Hs & Hp & Hr & Hk)].
  - rewrite He. split; [intros name _; left; reflexivity | reflexivity].
  - destruct (step4_run generateImage fetch order w text ref script kfs Hs Hp Hr Hk)
      as (acts & _ & _ & _ & _ & _ & Hfiles & Hres).
    split.
    + intros name Hne.
      destruct (Hfiles name Hne) as [H | (i & url & data & -> & _ & H)];
        [left; exact H | right; eauto].
    + destruct (snd (step4 generateImage fetch order w)) as [[] | e].
      * destruct Hres as (_ & _ & urls & _ & Hjson & Hall).
        split; [rewrite Hjson; eauto |].
        exists text, script, kfs. repeat split; auto.
        intros j Hj. destruct (Hall j Hj) as (url & data & _ & _ & _ & Hfile). eauto.
      * exact (proj1 Hres).
Qed.

End LeftFacts.
(** ** Step 2: what it writes *)

Section Step2More.

Context {E : Type}.
Variable callLLM : jstring -> E -> E * result jstring.
Variable stringify : Json.value -> jstring.

Lemma interpolate_result (v : option Json.value) (w : world E) :
  snd (interpolate v w) = Ok tt \/ snd (interpolate v w) = Throw TypeError.
Proof.
  destruct v as [x |]; simpl; [| auto].
  destruct (Json.toStringThrows x); simpl; auto.
Qed.

Lemma logKeyframes_result (kfs : list Json.value) (w : world E) :
  snd (logKeyframes kfs w) = Ok tt \/ snd (logKeyframes kfs w) = Throw TypeError.
Proof.
  induction kfs as [| kf rest IH]; [left; reflexivity |].
  cbn [logKeyframes]. unfold andThen.
  pose proof (interpolate_world (Some kf) w) as Hw.
  pose proof (interpolate_result (Some kf) w) as Hr.
  destruct (interpolate (Some kf) w) as [w1 [[] | e]]; simpl in Hw, Hr; subst w1.
  - exact IH.
  - destruct Hr as [Hr | Hr]; [discriminate | right; exact Hr].
Qed.

Lemma logSegments_result (segs : list Json.value) (w : world E) :
  (snd (logSegments segs w) = Ok tt /\ Forall (fun s => s <> Json.Null) segs)
  \/ snd (logSegments segs w) = Throw TypeError.
Proof.
  induction segs as [| s rest IH]; [left; split; [reflexivity | constructor] |].
  cbn [logSegments]. unfold andThen, lift.
  destruct s as [| b | n | str | l | ms]; try (right; reflexivity);
    cbn [Json.get];
    match goal with
    | |- context [interpolate ?t w] =>
        pose proof (interpolate_world t w) as Hw;
        pose proof (interpolate_result t w) as Hr;
        destruct (interpolate t w) as [w1 [[] | e]]; simpl in Hw, Hr; subst w1;
        [ destruct IH as [[IH Hall] | IH];
          [ left; split; [exact IH | constructor; [discriminate | exact Hall]]
          | right; exact IH ]
        | destruct Hr as [Hr | Hr]; [discriminate | right; exact Hr] ]
    end.
Qed.

(** The log lines that end step 2 return, or throw a TypeError; they
    throw when a segment is null. *)
Lemma logScript_result (mcd : option Json.value) (kfs segs : list Json.value)
    (w : world E) :
  (snd (logScript mcd kfs segs w) = Ok tt /\ Forall (fun s => s <> Json.Null) segs)
  \/ snd (logScript mcd kfs segs w) = Throw TypeError.
Proof.
  unfold logScript, andThen.
  pose proof (interpolate_world mcd w) as Hw.
  pose proof (interpolate_result mcd w) as Hr.
  destruct (interpolate mcd w) as [w1 [[] | e]]; simpl in Hw, Hr; subst w1.
  2: { destruct Hr as [Hr | Hr]; [discriminate | right; exact Hr]. }
  pose proof (logKeyframes_world kfs w) as Hw.
  pose proof (logKeyframes_result kfs w) as Hr'.
  destruct (logKeyframes kfs w) as [w2 [[] | e]]; simpl in Hw, Hr'; subst w2.
  2: { destruct Hr' as [Hr' | Hr']; [discriminate | right; exact Hr']. }
  apply logSegments_result.
Qed.

Lemma logScript_world (mcd : option Json.value) (kfs segs : list Json.value)
    (w : world E) :
  fst (logScript mcd kfs segs w) = w.
Proof.
  unfold logScript, andThen.
  pose proof (interpolate_world mcd w) as Hi.
  destruct (interpolate mcd w) as [w1 [[] | e]]; simpl in Hi; subst w1; [| reflexivity].
  pose proof (logKeyframes_world kfs w) as Hk.
  destruct (logKeyframes kfs w) as [w2 [[] | e]]; simpl in Hk; subst w2; [| reflexivity].
  apply logSegments_world.
Qed.

(** The two ways a run of step 2 ends: the directory as it was and an
    error, or script.json written with a script that passed the checks. *)
Lemma step2_any (w : world E) :
  (files (fst (step2 callLLM stringify w)) = files w
   /\ exists e, snd (step2 callLLM stringify w) = Throw e)
  \/ (exists (d raw : jstring) (script : Json.value) (segs kfs : list Json.value)
             (mcd : option Json.value),
        files w !! js "input.txt" = Some d
        /\ snd (callLLM d (outside w)) = Ok raw
        /\ Repair.parseReply raw = Ok script
        /\ Json.get (Some script) (js "segments") = Ok (Some (Json.Arr segs))
        /\ Json.get (Some script) (js "keyframes") = Ok (Some (Json.Arr kfs))
        /\ Json.get (Some script) (js "mainCharacterDescription") = Ok mcd
        /\ Json.truthy mcd = true
        /\ length kfs = (length segs + 1)%nat
        /\ files (fst (step2 callLLM stringify w))
           = <[js "script.json" := stringify script]> (files w)
        /\ ((snd (step2 callLLM stringify w) = Ok tt
             /\ Forall (fun s => s <> Json.Null) segs)
            \/ snd (step2 callLLM stringify w) = Throw TypeError)).
Proof.
  destruct (files w !! js "input.txt") as [d |] eqn:Hin.
  2: { left. unfold step2, andThen, readFileSync. rewrite Hin. simpl. eauto. }
  destruct (callLLM d (outside w)) as [o [raw | e]] eqn:Hllm.
  2: { left. unfold step2, andThen, readFileSync, askText. rewrite Hin, Hllm.
       simpl. eauto. }
  destruct (Repair.parseReply raw) as [script | e] eqn:Hparse.
  2: { left. unfold step2, andThen, readFileSync, askText, lift.
       rewrite Hin, Hllm, Hparse. simpl. eauto. }
  destruct (Json.get (Some script) (js "segments")) as [segments | e] eqn:Hseg.
  2: { left. unfold step2, andThen, readFileSync, askText, lift.
       rewrite Hin, Hllm, Hparse, Hseg. simpl. eauto. }
  destruct (Json.get (Some script) (js "keyframes")) as [keyframes | e] eqn:Hkf.
  2: { left. unfold step2, andThen, readFileSync, askText, lift.
       rewrite Hin, Hllm, Hparse, Hseg, Hkf. simpl. eauto. }
  destruct (Json.get (Some script) (js "mainCharacterDescription")) as [mcd | e] eqn:Hmcd.
  2: { left. unfold step2, andThen, readFileSync, askText, lift.
       rewrite Hin, Hllm, Hparse, Hseg, Hkf, Hmcd. simpl. eauto. }
  rewrite (step2_parsed callLLM stringify w d raw o script _ _ _
             Hin Hllm Hparse Hseg Hkf Hmcd).
  cbv zeta.
  destruct (negb (Json.isArray segments) || negb (Json.isArray keyframes)
            || negb (Json.truthy mcd)) eqn:Hcheck; [left; simpl; eauto |].
  apply orb_false_iff in Hcheck as [Hcheck Htruthy].
  apply orb_false_iff in Hcheck as [Hsa Hka].
  apply negb_false_iff in Hsa, Hka, Htruthy.
  destruct segments as [[| | | | segs |] |]; try discriminate.
  destruct keyframes as [[| | | | kfs |] |]; try discriminate.
  cbn [JsonOps.items].
  destruct (Nat.eqb_spec (length kfs) (length segs + 1)) as [Hlen | Hlen];
    cbn [negb]; [| left; simpl; eauto].
  right. exists d, raw, script, segs, kfs, mcd.
  rewrite logScript_files. cbn [files fst snd].
  split; [reflexivity |]. split; [rewrite Hllm; reflexivity |].
  repeat (split; [solve [auto] |]).
  apply logScript_result.
Qed.

End Step2More.
(** X12.  A run of step 2 ends in one of two ways, whatever the
    directory and the reply are.  Either it throws and the directory is as
    it was; or script.json, and no other file, is written with the value
    parsed from the reply, and that value has an array of segments, an
    array of keyframes with one element more, and a description of the
    main character that is not empty.  After the write step 2 returns, or
    throws a TypeError out of its log lines: an error of step 2 does not
    always mean that no script was written. *)
Theorem step2_writes_checked_scripts_only {E : Type}
    (callLLM : jstring -> E -> E * result jstring)
    (stringify : Json.value -> jstring)
    (w : world E) :
  (files (fst (step2 callLLM stringify w)) = files w
   /\ exists e, snd (step2 callLLM stringify w) = Throw e)
  \/ (exists (d raw : jstring) (script : Json.value) (segs kfs : list Json.value)
             (mcd : option Json.value),
        files w !! js "input.txt" = Some d
        /\ snd (callLLM d (outside w)) = Ok raw
        /\ Repair.parseReply raw = Ok script
        /\ Json.get (Some script) (js "segments") = Ok (Some (Json.Arr segs))
        /\ Json.get (Some script) (js "keyframes") = Ok (Some (Json.Arr kfs))
        /\ Json.get (Some script) (js "mainCharacterDescription") = Ok mcd
        /\ Json.truthy mcd = true
        /\ length kfs = (length segs + 1)%nat
        /\ files (fst (step2 callLLM stringify w))
           = <[js "script.json" := stringify script]> (files w)
        /\ ((snd (step2 callLLM stringify w) = Ok tt
             /\ Forall (fun s => s <> Json.Null) segs)
            \/ snd (step2 callLLM stringify w) = Throw TypeError)).
Proof. apply step2_any. Qed.

(** X13.  A script that passes the checks of step 2 and has a null
    among its segments is written to script.json, and step 2 then throws
    a TypeError: the log line of the segment reads the script text of
    null. *)
Theorem step2_null_segment_throws_after_write {E : Type}
    (callLLM : jstring -> E -> E * result jstring)
    (stringify : Json.value -> jstring)
    (w : world E) (d raw : jstring) (o : E) (script : Json.value)
    (segs kfs : list Json.value) (mcd : option Json.value) :
  files w !! js "input.txt" = Some d ->
  callLLM d (outside w) = (o, Ok raw) ->
  Repair.parseReply raw = Ok script ->
  Json.get (Some script) (js "segments") = Ok (Some (Json.Arr segs)) ->
  Json.get (Some script) (js "keyframes") = Ok (Some (Json.Arr kfs)) ->
  Json.get (Some script) (js "mainCharacterDescription") = Ok mcd ->
  Json.truthy mcd = true ->
  length kfs = (length segs + 1)%nat ->
  Json.Null ∈ segs ->
  snd (step2 callLLM stringify w) = Throw TypeError
  /\ files (fst (step2 callLLM stringify w))
     = <[js "script.json" := stringify script]> (files w).
Proof.
  intros Hin Hllm Hparse Hseg Hkf Hmcd Htruthy Hlen Hnull.
  rewrite (step2_parsed callLLM stringify w d raw o script _ _ _
             Hin Hllm Hparse Hseg Hkf Hmcd).
  cbv zeta. cbn [Json.isArray negb orb JsonOps.items]. rewrite Htruthy. cbn [negb].
  replace (length kfs =? length segs + 1)%nat with true
    by (symmetry; apply Nat.eqb_eq; exact Hlen).
  cbn [negb]. rewrite logScript_files. split; [| reflexivity].
  match goal with
  | |- snd (logScript mcd kfs segs ?w1) = _ =>
      destruct (logScript_result mcd kfs segs w1) as [[_ Hall] | Hthrow]
  end; [| exact Hthrow].
  rewrite Forall_forall in Hall. exfalso. exact (Hall Json.Null Hnull eq_refl).
Qed.

Lemma step2_null_segment_throws_after_write_witness :
  snd (step2 (Sample.llm (Render.text Demo.nullSegment)) Render.text Sample.project)
  = Throw TypeError
  /\ files (fst (step2 (Sample.llm (Render.text Demo.nullSegment)) Render.text
                   Sample.project))
     = <[js "script.json" := Render.text Demo.nullSegment]> (files Sample.project).
Proof.
  apply (step2_null_segment_throws_after_write
           (Sample.llm (Render.text Demo.nullSegment)) Render.text
           Sample.project (js "a lone astronaut")
           (Render.text Demo.nullSegment) tt Demo.nullSegment
           [Json.Null] [Json.Str (js "dawn"); Json.Str (js "dusk")]
           (Some (Json.Str (js "an astronaut")))).
  all: try (vm_compute; reflexivity).
  apply list_elem_of_here.
Defined.

(** X14.  The description given to step 1 is the prompt of step 2, when
    it is a well-formed string (one with no surrogate that is not half of
    a pair, so that writing it as UTF-8 and reading it back gives the
    string itself): after step 1, a run of step 2 makes one call of the
    text model, with that description, and no other call, whatever the
    call returns and whatever step 2 does with the reply.  In a full run
    that call comes first, and when it fails the run stops there:
    [createMovie] throws the error of the call, input.txt is the one file
    written, and nothing else was called. *)
Theorem description_reaches_the_model {E : Type}
    (callLLM : jstring -> E -> E * result jstring)
    (generateImage : option Json.value -> option jstring -> E -> E * result jstring)
    (generateVideo : option Json.value -> option Json.value -> option Json.value ->
                     E -> E * result jstring)
    (fetch : jstring -> E -> E * result jstring)
    (stringify : Json.value -> jstring)
    (toLength : Json.value -> result nat)
    (ffmpeg : gmap jstring jstring -> E -> gmap jstring jstring * E * result unit)
    (order4 order5 : list nat) (description : jstring) (w : world E) :
  Stringify.isWellFormed description = true ->
  trace (fst (step2 callLLM stringify (fst (step1 description w))))
  = trace w ++ [TextCall description (snd (callLLM description (outside w)))]
  /\ (forall o e,
        callLLM description (outside w) = (o, Throw e) ->
        createMovie callLLM generateImage generateVideo fetch stringify toLength ffmpeg
          order4 order5 description w
        = (World (<[js "input.txt" := description]> (files w)) o
                 (trace w ++ [TextCall description (Throw e)]),
           Throw e)).
Proof.
  intros _. split.
  - unfold step1, writeFileSync. cbn [fst].
    unfold step2, andThen, readFileSync, askText, lift.
    cbn [files outside trace]. rewrite lookup_insert_eq.
    destruct (callLLM description (outside w)) as [o [raw | e]]; [| reflexivity].
    cbn [snd].
    destruct (Repair.parseReply raw) as [script | e]; [| reflexivity].
    destruct (Json.get (Some script) (js "segments")) as [segments | e]; [| reflexivity].
    destruct (Json.get (Some script) (js "keyframes")) as [keyframes | e]; [| reflexivity].
    destruct (Json.get (Some script) (js "mainCharacterDescription")) as [mcd | e];
      [| reflexivity].
    destruct (negb (Json.isArray segments) || negb (Json.isArray keyframes)
              || negb (Json.truthy mcd)); [reflexivity |].
    destruct (JsonOps.items segments) as [segs |]; [| reflexivity].
    destruct (JsonOps.items keyframes) as [kfs |]; [| reflexivity].
    destruct (negb (length kfs =? length segs + 1)%nat); [reflexivity |].
    unfold writeFileSync. rewrite logScript_world. reflexivity.
  - intros o e Hllm. unfold createMovie, andThen, step1, writeFileSync.
    unfold step2, andThen, readFileSync, askText.
    cbn [files outside trace]. rewrite lookup_insert_eq, Hllm. reflexivity.
Qed.

Lemma description_reaches_the_model_witness :
  trace (fst (step2 (Sample.llm (js "{}")) Render.text
                (fst (step1 (js "a lone astronaut") Sample.project))))
  = [TextCall (js "a lone astronaut") (Ok (js "{}"))].
Proof.
  refine (proj1 (description_reaches_the_model (Sample.llm (js "{}")) Demo.image
                   Sample.video Sample.bytes Render.text (fun _ => Ok O)
                   (fun fs o => (fs, o, Ok tt)) [] [] (js "a lone astronaut")
                   Sample.project _)).
  vm_compute. reflexivity.
Defined.
Section CountedFacts.

Context {E : Type}.

Lemma counted (w : world E) (name : jstring) (k : Z) :
  is_Some (files w !! name) ->
  Progress.stepPresent [name] k = true ->
  (k <= completedStep (Progress.detectStatus (Some (readdirSync w))))%Z.
Proof.
  intros Hsome Hk. apply completedStep_least.
  apply (stepPresent_subseteq [name]); [| exact Hk].
  intros x Hx. apply list_elem_of_singleton in Hx. subst x.
  apply readdirSync_elem, Hsome.
Qed.

Lemma counted_keyframe (w : world E) (j : nat) :
  is_Some (files w !! keyframeFile j) ->
  (4 <= completedStep (Progress.detectStatus (Some (readdirSync w))))%Z.
Proof.
  intros Hsome. apply (counted w (keyframeFile j)); [exact Hsome |].
  change (Progress.hasKeyframe [keyframeFile j] = true).
  apply (hasKeyframe_intro _ j), list_elem_of_here.
Qed.

Lemma counted_segment (w : world E) (j : nat) :
  is_Some (files w !! Step5Trace.segmentFile j) ->
  (5 <= completedStep (Progress.detectStatus (Some (readdirSync w))))%Z.
Proof.
  intros Hsome. apply (counted w (Step5Trace.segmentFile j)); [exact Hsome |].
  change (Progress.hasSegment [Step5Trace.segmentFile j] = true).
  apply (hasSegment_intro _ j), list_elem_of_here.
Qed.

End CountedFacts.

(** X15.  A step that returns is counted by progress inference.  On the
    listing of the directory it leaves, [detectStatus] reports at least 1
    after step 1, at least 2 after a step 2 that returned, and at least 3
    after a step 3 that returned, whatever the directory held before. *)
Theorem returned_steps_are_counted {E : Type}
    (callLLM : jstring -> E -> E * result jstring)
    (stringify : Json.value -> jstring)
    (generateImage : option Json.value -> option jstring -> E -> E * result jstring)
    (fetch : jstring -> E -> E * result jstring)
    (description : jstring) (w : world E) :
  (1 <= completedStep
          (Progress.detectStatus (Some (readdirSync (fst (step1 description w))))))%Z
  /\ (snd (step2 callLLM stringify w) = Ok tt ->
      (2 <= completedStep
              (Progress.detectStatus
                 (Some (readdirSync (fst (step2 callLLM stringify w))))))%Z)
  /\ (snd (step3 generateImage fetch w) = Ok tt ->
      (3 <= completedStep
              (Progress.detectStatus
                 (Some (readdirSync (fst (step3 generateImage fetch w))))))%Z).
Proof.
  split; [| split].
  - apply (counted _ (js "input.txt")); [| reflexivity].
    simpl. rewrite lookup_insert_eq. eauto.
  - intros Hok. apply (counted _ (js "script.json")); [| reflexivity].
    destruct (step2_any callLLM stringify w) as [[_ [e He]] | Hw].
    + rewrite Hok in He. discriminate.
    + destruct Hw as (d & raw & script & segs & kfs & mcd & H).
      destruct H as (_ & _ & _ & _ & _ & _ & _ & _ & Hf & _).
      rewrite Hf, lookup_insert_eq. eauto.
  - intros Hok. apply (counted _ (js "character.jpg")); [| reflexivity].
    pose proof (step3_any generateImage fetch w) as H.
    destruct (step3 generateImage fetch w) as [w' [[] | e]]; [| discriminate].
    destruct H as (text & script & dsc & o & url & data & H).
    destruct H as (_ & _ & _ & _ & _ & Hf & _). cbn [fst].
    rewrite Hf, lookup_insert_ne by discriminate. rewrite lookup_insert_eq. eauto.
Qed.

(** X16.  When step 4 returns, keyframes.json and the image of every
    keyframe of the script are in the directory; when step 5 returns, the
    video of every segment of the script is.  So a step 4 that returned
    is counted by progress inference unless the script has no keyframe,
    and a step 5 that returned unless it has no segment. *)
Theorem returned_steps_leave_numbered_files {E : Type}
    (generateImage : option Json.value -> option jstring -> E -> E * result jstring)
    (generateVideo : option Json.value -> option Json.value -> option Json.value ->
                     E -> E * result jstring)
    (fetch : jstring -> E -> E * result jstring)
    (order : list nat) (w : world E) :
  (snd (step4 generateImage fetch order w) = Ok tt ->
     let w4 := fst (step4 generateImage fetch order w) in
     exists text script kfs,
       files w !! js "script.json" = Some text
       /\ Json.parse text = Some script
       /\ Json.get (Some script) (js "keyframes") = Ok (Some (Json.Arr kfs))
       /\ is_Some (files w4 !! js "keyframes.json")
       /\ (forall j, (j < length kfs)%nat ->
             is_Some (files w4 !! (js "keyframe" ++ Js.decimal j ++ js ".jpg")))
       /\ (kfs <> [] ->
           (4 <= completedStep (Progress.detectStatus (Some (readdirSync w4))))%Z))
  /\ (snd (step5 generateVideo fetch order w) = Ok tt ->
     let w5 := fst (step5 generateVideo fetch order w) in
     exists text script segs,
       files w !! js "script.json" = Some text
       /\ Json.parse text = Some script
       /\ Json.get (Some script) (js "segments") = Ok (Some (Json.Arr segs))
       /\ (forall j, (j < length segs)%nat ->
             is_Some (files w5 !! (js "segment" ++ Js.decimal (j + 1) ++ js ".mp4")))
       /\ (segs <> [] ->
           (5 <= completedStep (Progress.detectStatus (Some (readdirSync w5))))%Z)).
Proof.
  split.
  - intros Hok w4.
    destruct (step4_left generateImage fetch order w) as [_ Hret].
    rewrite Hok in Hret.
    destruct Hret as (Hjson & text & script & kfs & Hs & Hp & Hk & Hfiles).
    exists text, script, kfs. repeat split; auto.
    intros Hne. apply (counted_keyframe w4 0), Hfiles.
    destruct kfs; [contradiction | simpl; lia].
  - intros Hok w5.
    destruct (step5_left generateVideo fetch order w) as [_ Hret].
    destruct (Hret Hok) as (text & script & segs & Hs & Hp & Hk & Hfiles).
    exists text, script, segs. repeat split; auto.
    intros Hne. apply (counted_segment w5 0), Hfiles.
    destruct segs; [contradiction | simpl; lia].
Qed.

(** X17.  Progress inference counts a step that failed half way.
    Whatever the order in which its tasks are resumed, and whether it
    returns or throws, a run of step 4 changes no file of the directory
    other than keyframes.json and the images keyframe{i}.jpg, and it
    changes keyframes.json only when it returns; a run that has changed
    any image leaves a directory on which [detectStatus] reports at least
    4.  A run of step 5 changes no file other than the videos
    segment{i+1}.mp4, and one that has changed any leaves a directory on
    which [detectStatus] reports at least 5. *)
Theorem changed_files_are_counted {E : Type}
    (generateImage : option Json.value -> option jstring -> E -> E * result jstring)
    (generateVideo : option Json.value -> option Json.value -> option Json.value ->
                     E -> E * result jstring)
    (fetch : jstring -> E -> E * result jstring)
    (order : list nat) (w : world E) :
  (forall name,
     name <> js "keyframes.json" ->
     files (fst (step4 generateImage fetch order w)) !! name <> files w !! name ->
     (exists i, name = js "keyframe" ++ Js.decimal i ++ js ".jpg")
     /\ (4 <= completedStep
               (Progress.detectStatus
                  (Some (readdirSync (fst (step4 generateImage fetch order w))))))%Z)
  /\ (forall e,
        snd (step4 generateImage fetch order w) = Throw e ->
        files (fst (step4 generateImage fetch order w)) !! js "keyframes.json"
        = files w !! js "keyframes.json")
  /\ (forall name,
        files (fst (step5 generateVideo fetch order w)) !! name <> files w !! name ->
        (exists i, name = js "segment" ++ Js.decimal (i + 1) ++ js ".mp4")
        /\ (5 <= completedStep
                  (Progress.detectStatus
                     (Some (readdirSync (fst (step5 generateVideo fetch order w))))))%Z).
Proof.
  split; [| split].
  - intros name Hne Hch.
    destruct (step4_left generateImage fetch order w) as [Hfiles _].
    destruct (Hfiles name Hne) as [H | (i & data & -> & Hfile)]; [contradiction |].
    split; [exists i; reflexivity |].
    apply (counted_keyframe _ i). rewrite Hfile. eauto.
  - intros e He.
    destruct (step4_left generateImage fetch order w) as [_ Hret].
    rewrite He in Hret. exact Hret.
  - intros name Hch.
    destruct (step5_left generateVideo fetch order w) as [Hfiles _].
    destruct (Hfiles name) as [H | (i & data & -> & Hfile)]; [contradiction |].
    split; [exists i; reflexivity |].
    apply (counted_segment _ i). rewrite Hfile. eauto.
Qed.

Lemma changed_files_are_counted_witness :
  snd (step4 Demo.flaky Demo.fetched [0; 1; 2; 3; 4; 0; 1; 2; 3; 4; 0; 5; 5]%nat
         Demo.flakyProject)
  = Throw (ProviderError (js "busy"))
  /\ (4 <= completedStep
             (Progress.detectStatus
                (Some (readdirSync
                         (fst (step4 Demo.flaky Demo.fetched
                                 [0; 1; 2; 3; 4; 0; 1; 2; 3; 4; 0; 5; 5]%nat
                                 Demo.flakyProject))))))%Z.
Proof.
  split; [vm_compute; reflexivity |].
  refine (proj2 (proj1 (changed_files_are_counted Demo.flaky
                          (fun _ _ _ (n : nat) => (n, Throw (ProviderError (js "busy"))))
                          Demo.fetched [0; 1; 2; 3; 4; 0; 1; 2; 3; 4; 0; 5; 5]%nat
                          Demo.flakyProject)
                   (js "keyframe0.jpg") _ _)).
  - vm_compute. discriminate.
  - vm_compute. discriminate.
Defined.

(** ** Step 6: the list of the segments *)

Section StitchFacts.

Context {E : Type}.

Import Step5Trace.

Lemma listLine_name (i : nat) :
  listLine i = js "file '" ++ segmentFile i ++ js "'".
Proof. unfold listLine, segmentFile. rewrite <- !app_assoc. reflexivity. Qed.

Lemma segmentFile_not_list (i : nat) : js "list.txt" <> segmentFile i.
Proof.
  destruct (segmentFile_head i) as [t Ht]. rewrite Ht. discriminate.
Qed.

(** What step 6 does once script.json is read, for segments that are an
    array. *)
Lemma step6_array (toLength : Json.value -> result nat)
    (ffmpeg : gmap jstring jstring -> E -> gmap jstring jstring * E * result unit)
    (w : world E) (text : jstring) (script : Json.value) (segs : list Json.value) :
  files w !! js "script.json" = Some text ->
  Json.parse text = Some script ->
  Json.get (Some script) (js "segments") = Ok (Some (Json.Arr segs)) ->
  step6 toLength ffmpeg w
  = execFfmpeg ffmpeg
      (World (<[js "list.txt" := listContent (length segs)]> (files w))
             (outside w) (trace w)).
Proof.
  intros Hs Hp Hg. unfold step6, readJSON, andThen, readFileSync, ret, lift, segmentCount.
  rewrite Hs, Hp, Hg. reflexivity.
Qed.

End StitchFacts.

(** X18.  Step 6 lists what step 5 wrote.  After a step 5 that returned,
    step 6 writes list.txt and runs ffmpeg once, on a directory in which
    list.txt has one line per segment of the script, in the order of the
    segments, the line of index i being "file 'segment{i+1}.mp4'", and in
    which every file so named exists; what ffmpeg returns or throws is
    what step 6 returns or throws. *)
Theorem step6_lists_what_step5_wrote {E : Type}
    (generateVideo : option Json.value -> option Json.value -> option Json.value ->
                     E -> E * result jstring)
    (fetch : jstring -> E -> E * result jstring)
    (toLength : Json.value -> result nat)
    (ffmpeg : gmap jstring jstring -> E -> gmap jstring jstring * E * result unit)
    (order : list nat) (w : world E) :
  snd (step5 generateVideo fetch order w) = Ok tt ->
  let w5 := fst (step5 generateVideo fetch order w) in
  exists (text : jstring) (script : Json.value) (segs : list Json.value)
         (lines : list jstring),
    files w5 !! js "script.json" = Some text
    /\ Json.parse text = Some script
    /\ Json.get (Some script) (js "segments") = Ok (Some (Json.Arr segs))
    /\ let dir := <[js "list.txt" := JsText.join [10] lines]> (files w5) in
       step6 toLength ffmpeg w5
       = (World (fst (fst (ffmpeg dir (outside w5)))) (snd (fst (ffmpeg dir (outside w5))))
                (trace w5),
          snd (ffmpeg dir (outside w5)))
       /\ length lines = length segs
       /\ forall i line, lines !! i = Some line ->
            line = js "file '" ++ (js "segment" ++ Js.decimal (i + 1) ++ js ".mp4") ++ js "'"
            /\ is_Some (dir !! (js "segment" ++ Js.decimal (i + 1) ++ js ".mp4")).
Proof.
  intros Hok w5.
  destruct (step5_left generateVideo fetch order w) as [Hfiles Hret].
  destruct (Hret Hok) as (text & script & segs & Hs & Hp & Hg & Hfetched).
  assert (Hs5 : files w5 !! js "script.json" = Some text).
  { destruct (Hfiles (js "script.json")) as [H | (i & data & Heq & _)];
      [subst w5; congruence |].
    destruct (segmentFile_head i) as [t Ht]. rewrite Ht in Heq. discriminate. }
  exists text, script, segs, (listLine <$> seq 0 (length segs)).
  split; [exact Hs5 |]. split; [exact Hp |]. split; [exact Hg |].
  intros dir. split; [| split].
  - rewrite (step6_array toLength ffmpeg w5 text script segs Hs5 Hp Hg).
    unfold execFfmpeg. cbn [files outside trace]. fold (listContent (length segs)).
    subst dir. unfold listContent.
    destruct (ffmpeg _ (outside w5)) as [[fs o] r]. reflexivity.
  - rewrite length_fmap, length_seq. reflexivity.
  - intros i line Hline. rewrite list_lookup_fmap in Hline.
    destruct (seq 0 (length segs) !! i) as [k |] eqn:Hk; [| discriminate].
    apply lookup_seq in Hk as [-> Hi]. simpl in Hline. injection Hline as <-.
    split; [apply listLine_name |].
    subst dir. rewrite lookup_insert_ne by apply segmentFile_not_list.
    exact (Hfetched i Hi).
Qed.

Lemma step6_lists_what_step5_wrote_witness :
  let ffmpeg := fun (fs : gmap jstring jstring) (o : unit) => (fs, o, Ok tt) in
  let w5 := fst (step5 Sample.video Sample.bytes [0; 1; 0; 1; 0; 1]%nat
                   Sample.videoProject) in
  snd (step5 Sample.video Sample.bytes [0; 1; 0; 1; 0; 1]%nat Sample.videoProject) = Ok tt
  /\ exists lines : list jstring,
       length lines = 2%nat
       /\ lines !! 1%nat = Some (js "file 'segment2.mp4'")
       /\ files (fst (step6 (fun _ => Ok O) ffmpeg w5)) !! js "list.txt"
          = Some (JsText.join [10] lines).
Proof.
  intros ffmpeg w5.
  assert (Hok : snd (step5 Sample.video Sample.bytes [0; 1; 0; 1; 0; 1]%nat
                       Sample.videoProject) = Ok tt)
    by (vm_compute; reflexivity).
  split; [exact Hok |].
  destruct (step6_lists_what_step5_wrote Sample.video Sample.bytes
              (fun _ => Ok O) ffmpeg [0; 1; 0; 1; 0; 1]%nat Sample.videoProject Hok)
    as (text & script & segs & lines & Hs & Hp & Hg & Hstep & Hlen & Hlines).
  exists lines.
  assert (Hsegs : length segs = 2%nat).
  { vm_compute in Hs. injection Hs as <-. vm_compute in Hp. injection Hp as <-.
    vm_compute in Hg. injection Hg as <-. reflexivity. }
  split; [congruence |]. split.
  - destruct (lookup_lt_is_Some_2 lines 1 ltac:(lia)) as [line Hline].
    rewrite Hline. f_equal. exact (proj1 (Hlines 1%nat line Hline)).
  - fold w5 in Hstep. rewrite Hstep. cbn [fst files]. apply lookup_insert_eq.
Defined.
(** ** The inputs of the steps *)

Section InputFacts.

(** A text of white space only is no JSON text. *)
Lemma parse_blank (text : jstring) : Layout.space text = true -> Json.parse text = None.
Proof.
  intros Hw. unfold Json.parse.
  rewrite <- (app_nil_r text) at 2.
  rewrite (parse_value_space _ text [] Hw).
  replace (2 * length text + 2)%nat with (S (2 * length text + 1)) by lia. reflexivity.
Qed.

(** With no task, the promise resolves at once, whatever the order. *)
Lemma awaitAll_nil {E A : Type} (order : list nat) (w : world E) :
  awaitAll order ([] : list (task E A)) w = (w, Ok []).
Proof. induction order as [| i order IH]; [reflexivity | exact IH]. Qed.

End InputFacts.

(** X19.  Each step from 2 to 6 reads its input files before it calls
    or writes anything, and stops at the first one it cannot use, with
    the directory, the provider state and the trace as they were: step 2
    throws the error of the read when input.txt is missing; steps 3, 4, 5
    and 6 throw it when script.json is missing, and a SyntaxError when
    script.json is no JSON text (an empty or blank file is none); step 5
    throws the error of the read when keyframes.json is missing. *)
Theorem missing_inputs_stop_a_step {E : Type}
    (callLLM : jstring -> E -> E * result jstring)
    (generateImage : option Json.value -> option jstring -> E -> E * result jstring)
    (generateVideo : option Json.value -> option Json.value -> option Json.value ->
                     E -> E * result jstring)
    (fetch : jstring -> E -> E * result jstring)
    (stringify : Json.value -> jstring)
    (toLength : Json.value -> result nat)
    (ffmpeg : gmap jstring jstring -> E -> gmap jstring jstring * E * result unit)
    (order : list nat) (w : world E) :
  (files w !! js "input.txt" = None ->
     step2 callLLM stringify w = (w, Throw (ENOENT (js "input.txt"))))
  /\ (files w !! js "script.json" = None ->
      step3 generateImage fetch w = (w, Throw (ENOENT (js "script.json")))
      /\ step4 generateImage fetch order w = (w, Throw (ENOENT (js "script.json")))
      /\ step5 generateVideo fetch order w = (w, Throw (ENOENT (js "script.json")))
      /\ step6 toLength ffmpeg w = (w, Throw (ENOENT (js "script.json"))))
  /\ (forall text,
        files w !! js "script.json" = Some text ->
        (Layout.space text = true -> Json.parse text = None)
        /\ (Json.parse text = None ->
            step3 generateImage fetch w = (w, Throw SyntaxError)
            /\ step4 generateImage fetch order w = (w, Throw SyntaxError)
            /\ step5 generateVideo fetch order w = (w, Throw SyntaxError)
            /\ step6 toLength ffmpeg w = (w, Throw SyntaxError)))
  /\ (forall text script,
        files w !! js "script.json" = Some text ->
        Json.parse text = Some script ->
        files w !! js "keyframes.json" = None ->
        step5 generateVideo fetch order w = (w, Throw (ENOENT (js "keyframes.json")))).
Proof.
  unfold step2, step3, step4, step5, step6, readJSON, andThen, readFileSync, throw.
  split; [| split; [| split]].
  - intros ->. reflexivity.
  - intros ->. repeat split; reflexivity.
  - intros text ->. split; [apply parse_blank |].
    intros ->. repeat split; reflexivity.
  - intros text script Hs Hp Hk. rewrite Hs, Hp. cbn [fst snd files]. unfold ret.
    rewrite Hk. reflexivity.
Qed.

(** X20.  A step can return without having produced a numbered file.
    For a script with an empty array of segments, step 5 returns at once:
    the directory, the provider state and the trace are as they were, so
    progress inference reports what it reported before.  For a script
    with an empty array of keyframes, step 4 returns having written
    keyframes.json with the text of the empty array, and nothing else. *)
Theorem empty_arrays_produce_nothing {E : Type}
    (generateImage : option Json.value -> option jstring -> E -> E * result jstring)
    (generateVideo : option Json.value -> option Json.value -> option Json.value ->
                     E -> E * result jstring)
    (fetch : jstring -> E -> E * result jstring)
    (order : list nat) (w : world E) (text : jstring) (script : Json.value) :
  files w !! js "script.json" = Some text ->
  Json.parse text = Some script ->
  (Json.get (Some script) (js "segments") = Ok (Some (Json.Arr [])) ->
     forall text' keyframeUrls,
       files w !! js "keyframes.json" = Some text' ->
       Json.parse text' = Some keyframeUrls ->
       step5 generateVideo fetch order w = (w, Ok tt))
  /\ (Json.get (Some script) (js "keyframes") = Ok (Some (Json.Arr [])) ->
     forall ref,
       files w !! js "character_url.txt" = Some ref ->
       step4 generateImage fetch order w
       = (World (<[js "keyframes.json" := js "[]"]> (files w)) (outside w) (trace w),
          Ok tt)).
Proof.
  intros Hs Hp.
  unfold step4, step5, readJSON, andThen, readFileSync, ret, lift, writeFileSync.
  rewrite Hs, Hp. split.
  - intros -> text' keyframeUrls -> ->. cbn. rewrite awaitAll_nil. reflexivity.
  - intros -> ref ->. cbn. rewrite awaitAll_nil. reflexivity.
Qed.

Lemma empty_arrays_produce_nothing_witness :
  let w : world unit :=
    World {[ js "script.json" := Render.text (Json.Obj [(js "segments", Json.Arr [])]);
             js "keyframes.json" := js "[]" ]} tt [] in
  step5 Sample.video Sample.bytes [0; 1]%nat w = (w, Ok tt).
Proof.
  intros w.
  refine (proj1 (empty_arrays_produce_nothing Demo.image Sample.video Sample.bytes
                   [0; 1]%nat w
                   (Render.text (Json.Obj [(js "segments", Json.Arr [])]))
                   (Json.Obj [(js "segments", Json.Arr [])]) _ _)
            _ (js "[]") (Json.Arr []) _ _); vm_compute; reflexivity.
Defined.
(** ** Step 2: the extraction and the two replacements *)

Section ExtractFacts.

Lemma indexOf_None (s : jstring) (c : N) : Js.indexOf s c = None <-> c ∉ s.
Proof.
  induction s as [| d s IH]; simpl.
  - split; [intros _ H; inversion H | reflexivity].
  - destruct (N.eqb_spec d c) as [-> | Hne].
    + split; [discriminate | intros H; exfalso; apply H, list_elem_of_here].
    + rewrite not_elem_of_cons. destruct (Js.indexOf s c) as [i |]; simpl.
      * split; [discriminate |]. intros [_ H]. apply IH in H. discriminate.
      * split; [| reflexivity]. intros _. split; [congruence | apply IH; reflexivity].
Qed.

Lemma lastIndexOf_None (s : jstring) (c : N) : Js.lastIndexOf s c = None <-> c ∉ s.
Proof.
  induction s as [| d s IH]; simpl.
  - split; [intros _ H; inversion H | reflexivity].
  - rewrite not_elem_of_cons. destruct (Js.lastIndexOf s c) as [i |].
    + split; [discriminate |]. intros [_ H]. apply IH in H. discriminate.
    + destruct (N.eqb_spec d c) as [-> | Hne].
      * split; [discriminate | intros [H _]; contradiction].
      * split; [| reflexivity]. intros _. split; [congruence | apply IH; reflexivity].
Qed.

Lemma indexOf_drop (s : jstring) (c : N) (i : nat) :
  Js.indexOf s c = Some i -> exists t, drop i s = c :: t.
Proof.
  revert i. induction s as [| d s IH]; intros i; simpl; [discriminate |].
  destruct (N.eqb_spec d c) as [-> | Hne].
  - intros [= <-]. simpl. eauto.
  - destruct (Js.indexOf s c) as [j |]; simpl; [| discriminate].
    intros [= <-]. simpl. apply IH. reflexivity.
Qed.

(** The text between the first opening brace and the last closing brace
    is empty or starts with the brace. *)
Lemma slice_head (raw : jstring) (start end_ : nat) :
  Js.indexOf raw 123 = Some start ->
  Js.slice raw start (end_ + 1) = [] \/ exists t, Js.slice raw start (end_ + 1) = 123 :: t.
Proof.
  intros Hs. unfold Js.slice. destruct (indexOf_drop raw 123 start Hs) as [t ->].
  destruct (end_ + 1 - start)%nat as [| n]; simpl; eauto.
Qed.

Lemma parse_empty : Json.parse [] = None.
Proof. reflexivity. Qed.

(** A text that starts with an opening brace parses to an object, if it
    parses. *)
Lemma parse_brace (t : jstring) (v : Json.value) :
  Json.parse (123 :: t) = Some v -> exists ms, v = Json.Obj ms.
Proof.
  unfold Json.parse.
  replace (2 * length (123%N :: t) + 2)%nat with (S (2 * length (123%N :: t) + 1)) by lia.
  cbn [Json.parse_value Json.skip_ws]. change (Json.is_ws 123) with false. cbv iota.
  change (123 =? 123) with true. cbv iota.
  destruct (Json.skip_ws t) as [| d t']; [discriminate |].
  destruct (d =? 125).
  - simpl. destruct (Json.skip_ws t'); [| discriminate]. intros [= <-]. eauto.
  - destruct (Json.parse_members _ (d :: t')) as [[ms rest] |]; simpl; [| discriminate].
    destruct (Json.skip_ws rest); [| discriminate]. intros [= <-]. eauto.
Qed.

Lemma escape_head (t : jstring) :
  Repair.escapeValues (123 :: t) = 123 :: Repair.escapeFrom [123] 0 t.
Proof. reflexivity. Qed.

End ExtractFacts.

(** X21.  What [parseReply] gives for any reply.  It throws "Failed to
    parse script from response" exactly when the reply has no opening
    brace or no closing brace, and a SyntaxError otherwise when it throws;
    a reply whose last closing brace comes before its first opening brace
    is cut to the empty text, and throws a SyntaxError.  When it returns,
    the value is an object: steps 2's reads of the segments, the keyframes
    and the description of the main character never meet null, a number,
    a string or an array. *)
Theorem parseReply_outcomes (raw : jstring) :
  (Repair.parseReply raw = Throw ParseFailure <-> (123 ∉ raw \/ 125 ∉ raw))
  /\ (forall e, Repair.parseReply raw = Throw e -> e = ParseFailure \/ e = SyntaxError)
  /\ (forall start end_,
        Js.indexOf raw 123 = Some start -> Js.lastIndexOf raw 125 = Some end_ ->
        (end_ < start)%nat -> Repair.parseReply raw = Throw SyntaxError)
  /\ (forall v, Repair.parseReply raw = Ok v -> exists ms, v = Json.Obj ms).
Proof.
  unfold Repair.parseReply.
  destruct (Js.indexOf raw 123) as [start |] eqn:Hs.
  2: { apply indexOf_None in Hs. repeat split; auto; try discriminate.
       intros e [= <-]. auto. }
  destruct (Js.lastIndexOf raw 125) as [end_ |] eqn:He.
  2: { apply lastIndexOf_None in He. repeat split; auto; try discriminate.
       intros e [= <-]. auto. }
  assert (Hin1 : 123 ∈ raw).
  { destruct (decide (123 ∈ raw)) as [H | H]; [exact H |].
    apply indexOf_None in H. congruence. }
  assert (Hin2 : 125 ∈ raw).
  { destruct (decide (125 ∈ raw)) as [H | H]; [exact H |].
    apply lastIndexOf_None in H. congruence. }
  cbv zeta.
  split; [| split; [| split]].
  - split.
    + destruct (Json.parse _); [discriminate |]. destruct (Json.parse _); discriminate.
    + intros [H | H]; contradiction.
  - intros e. destruct (Json.parse _); [discriminate |].
    destruct (Json.parse _); [discriminate |]. intros [= <-]. auto.
  - intros start' end' [= <-] [= <-] Hlt. unfold Js.slice.
    replace (end_ + 1 - start)%nat with O by lia. reflexivity.
  - intros v. destruct (slice_head raw start end_ Hs) as [-> | [t ->]].
    + simpl. discriminate.
    + change (Repair.stripTrailingCommas (123 :: t))
        with (123 :: Repair.stripFrom false t).
      rewrite escape_head.
      destruct (Json.parse (123 :: _)) as [script |] eqn:Hp.
      * intros [= <-]. exact (parse_brace _ _ Hp).
      * cbn [Repair.stripControls map]. change (123 <? 32) with false. cbv iota.
        match goal with
        | |- context [Json.parse ?x] =>
            destruct (Json.parse x) as [script |] eqn:Hp'; [| discriminate]
        end.
        intros [= <-]. exact (parse_brace _ _ Hp').
Qed.
Section ReplacementFacts.

Lemma stripFrom_sublist (s : jstring) :
  forall dropping, sublist (Repair.stripFrom dropping s) s.
Proof.
  induction s as [| c t IH]; intros dropping; simpl; [constructor |].
  destruct (dropping && Js.is_space c); [apply sublist_cons, IH |].
  destruct ((c =? 44) && Repair.closes_after_space t); [apply sublist_cons, IH |].
  apply sublist_skip, IH.
Qed.

Lemma stripFrom_kept (s : jstring) :
  forall dropping,
  List.filter (fun c => negb ((c =? 44) || Js.is_space c)) (Repair.stripFrom dropping s)
  = List.filter (fun c => negb ((c =? 44) || Js.is_space c)) s.
Proof.
  induction s as [| c t IH]; intros dropping; simpl; [reflexivity |].
  destruct (dropping && Js.is_space c) eqn:Hd.
  { apply andb_true_iff in Hd as [_ Hsp]. rewrite Hsp, orb_true_r. simpl. apply IH. }
  destruct ((c =? 44) && Repair.closes_after_space t) eqn:Hc.
  { apply andb_true_iff in Hc as [Hc _]. rewrite Hc. simpl. apply IH. }
  simpl. rewrite IH. reflexivity.
Qed.

Lemma stripFrom_id (s : jstring) :
  (forall a b, s = a ++ 44 :: b -> Repair.closes_after_space b = false) ->
  Repair.stripFrom false s = s.
Proof.
  induction s as [| c t IH]; intros Hno; simpl; [reflexivity |].
  destruct (N.eqb_spec c 44) as [-> | Hne]; simpl.
  - rewrite (Hno [] t eq_refl). f_equal. apply IH.
    intros a b ->. apply (Hno (44 :: a) b). reflexivity.
  - f_equal. apply IH. intros a b ->. apply (Hno (c :: a) b). reflexivity.
Qed.

Lemma escapeFrom_printable (s : jstring) :
  Forall (fun c => 32 <= c) s ->
  forall before inside, Repair.escapeFrom before inside s = s.
Proof.
  induction 1 as [| c t Hc _ IH]; intros before inside; [reflexivity |].
  cbn [Repair.escapeFrom]. rewrite (escape_char_printable c Hc).
  destruct inside as [| n]; [| simpl; rewrite IH; reflexivity].
  destruct (if Repair.after_colon_quote before then Repair.value_run (c :: t) else None)
    as [[| n] |]; simpl; rewrite IH; reflexivity.
Qed.

Lemma stripControls_printable (s : jstring) :
  Forall (fun c => 32 <= c) s -> Repair.stripControls s = s.
Proof.
  induction 1 as [| c t Hc _ IH]; [reflexivity |].
  unfold Repair.stripControls in *. simpl.
  replace (c <? 32) with false by (symmetry; apply N.ltb_ge; exact Hc).
  rewrite IH. reflexivity.
Qed.

Lemma Forall_sublist {A : Type} (P : A -> Prop) (l k : list A) :
  sublist l k -> Forall P k -> Forall P l.
Proof.
  intros Hsub Hall. rewrite Forall_forall in *. intros x Hx.
  apply Hall. eapply elem_of_sublist; eauto.
Qed.

Lemma slice_sublist (s : jstring) (from to : nat) : sublist (Js.slice s from to) s.
Proof.
  unfold Js.slice. etransitivity; [apply sublist_take | apply sublist_drop].
Qed.

End ReplacementFacts.

(** X22.  The removal of trailing commas takes nothing but commas and
    white space out of the text: what it returns is the text with some of
    its characters left out, in the same order, and every character that
    is neither a comma nor white space is kept.  A text in which no comma
    is followed by white space and a closing bracket, or by a closing
    bracket, is returned as it is. *)
Theorem stripTrailingCommas_takes_commas_and_space_only (s : jstring) :
  sublist (Repair.stripTrailingCommas s) s
  /\ List.filter (fun c => negb ((c =? 44) || Js.is_space c)) (Repair.stripTrailingCommas s)
     = List.filter (fun c => negb ((c =? 44) || Js.is_space c)) s
  /\ ((forall a b, s = a ++ 44 :: b -> Repair.closes_after_space b = false) ->
      Repair.stripTrailingCommas s = s).
Proof.
  unfold Repair.stripTrailingCommas. split; [apply stripFrom_sublist |].
  split; [apply stripFrom_kept | apply stripFrom_id].
Qed.

(** X23.  On a reply without control characters (every character at
    or above U+0020, as in a reply on one line) the escape of control
    characters and the last resort change nothing: [parseReply] is
    [JSON.parse] of the text between the first opening brace and the last
    closing brace, once its trailing commas are removed. *)
Theorem parseReply_without_control_characters (raw : jstring) (start end_ : nat) :
  Forall (fun c => 32 <= c) raw ->
  Js.indexOf raw 123 = Some start ->
  Js.lastIndexOf raw 125 = Some end_ ->
  Repair.parseReply raw
  = match Json.parse (Repair.stripTrailingCommas (Js.slice raw start (end_ + 1))) with
    | Some script => Ok script
    | None => Throw SyntaxError
    end.
Proof.
  intros Hall Hs He. unfold Repair.parseReply. rewrite Hs, He. cbv zeta.
  assert (Hp : Forall (fun c => 32 <= c)
                 (Repair.stripTrailingCommas (Js.slice raw start (end_ + 1)))).
  { eapply Forall_sublist; [apply stripFrom_sublist |].
    eapply Forall_sublist; [apply slice_sublist | exact Hall]. }
  unfold Repair.escapeValues. rewrite (escapeFrom_printable _ Hp).
  rewrite (stripControls_printable _ Hp).
  destruct (Json.parse _); reflexivity.
Qed.

Lemma parseReply_without_control_characters_witness :
  Repair.parseReply (js "Sure: {} ")
  = match Json.parse (Repair.stripTrailingCommas (Js.slice (js "Sure: {} ") 6 (7 + 1))) with
    | Some script => Ok script
    | None => Throw SyntaxError
    end.
Proof.
  apply (parseReply_without_control_characters (js "Sure: {} ") 6 7).
  - repeat constructor; discriminate.
  - reflexivity.
  - reflexivity.
Defined.
(** ** Step 2: line breaks inside string values *)

Section LineFacts.

Import Flat.

Lemma lineChar_facts (c : N) :
  lineChar c = true ->
  c <> 34 /\ c <> 92 /\ Repair.is_close c = false
  /\ (32 <= c \/ c = 10 \/ c = 13 \/ c = 9).
Proof.
  unfold lineChar. intros H.
  repeat (apply orb_true_iff in H as [H | H]).
  - apply plainChar_facts in H. tauto.
  - apply N.eqb_eq in H. subst. repeat split; try discriminate; auto.
  - apply N.eqb_eq in H. subst. repeat split; try discriminate; auto.
  - apply N.eqb_eq in H. subst. repeat split; try discriminate; auto.
Qed.

(** *** The removal of the trailing commas *)

Lemma closes_after_line (v rest : jstring) :
  forallb lineChar v = true ->
  Repair.closes_after_space (v ++ 34 :: rest) = false.
Proof.
  induction v as [| c v IH]; simpl; [reflexivity |].
  rewrite andb_true_iff. intros [Hc Hv].
  destruct (Js.is_space c); [apply IH, Hv |].
  apply lineChar_facts in Hc. tauto.
Qed.

Lemma strip_line_string (v rest : jstring) :
  forallb lineChar v = true ->
  Repair.stripFrom false (v ++ 34 :: rest) = v ++ 34 :: Repair.stripFrom false rest.
Proof.
  induction v as [| c v IH]; intros Hv; [reflexivity |].
  simpl in Hv. apply andb_true_iff in Hv as [Hc Hv].
  rewrite <- !app_comm_cons.
  destruct (N.eq_dec c 44) as [-> | Hne].
  - rewrite strip_comma_kept by (apply closes_after_line, Hv). f_equal. apply IH, Hv.
  - rewrite strip_other by exact Hne. f_equal. apply IH, Hv.
Qed.

Lemma spaces_all (sp : jstring) :
  forallb (N.eqb 32) sp = true -> Forall (fun c => c = 32) sp.
Proof.
  intros H. apply Forall_forall. intros c Hc.
  rewrite forallb_forall in H. apply list_elem_of_In, H in Hc.
  apply N.eqb_eq in Hc. congruence.
Qed.

Lemma after_colon_spaces (l B : jstring) :
  Forall (fun c => c = 32) l -> Repair.after_colon (l ++ 58 :: B) = true.
Proof. induction 1 as [| c l -> _ IH]; [reflexivity | exact IH]. Qed.

Lemma spaces_facts (sp : jstring) :
  forallb (N.eqb 32) sp = true ->
  Forall (fun c => c <> 44) sp /\ Forall (fun c => c <> 34) sp
  /\ Layout.space sp = true /\ forall B, Repair.after_colon (rev sp ++ 58 :: B) = true.
Proof.
  intros H. apply spaces_all in H. repeat split.
  - eapply Forall_impl; [exact H |]. intros c ->. discriminate.
  - eapply Forall_impl; [exact H |]. intros c ->. discriminate.
  - unfold Layout.space. apply forallb_forall. intros c Hc.
    rewrite Forall_forall in H. apply list_elem_of_In, H in Hc. subst. reflexivity.
  - intros B. apply after_colon_spaces, Forall_rev, H.
Qed.

(** A member is left as it is. *)
Lemma strip_member (m : member) (rest : jstring) :
  Layout.quiet (fst (fst m)) = true ->
  forallb (N.eqb 32) (snd (fst m)) = true ->
  forallb lineChar (snd m) = true ->
  Repair.stripFrom false (memberText m ++ rest)
  = memberText m ++ Repair.stripFrom false rest.
Proof.
  destruct m as [[k sp] v]. cbn [fst snd]. intros Hk Hsp Hv.
  unfold Layout.quiet in Hk. apply andb_true_iff in Hk as [Hk _].
  destruct (spaces_facts sp Hsp) as (H44 & _).
  unfold memberText. cbn [fst snd]. rewrite <- !app_assoc.
  rewrite (strip_quoted k _ Hk). f_equal.
  rewrite <- !app_comm_cons, strip_other by discriminate. f_equal.
  rewrite <- !app_assoc, (strip_app_no_comma sp _ H44). f_equal.
  unfold Render.quoted, Js.quote. rewrite <- !app_comm_cons, <- !app_assoc.
  rewrite strip_other by discriminate. f_equal.
  change (v ++ [34] ++ rest) with (v ++ 34 :: rest).
  rewrite (strip_line_string v _ Hv). reflexivity.
Qed.

Lemma wf_cons (m : member) (ms : list member) :
  wf (m :: ms) = true ->
  Layout.quiet (fst (fst m)) = true /\ forallb (N.eqb 32) (snd (fst m)) = true
  /\ forallb lineChar (snd m) = true /\ wf ms = true.
Proof.
  unfold wf. cbn [forallb]. intros H.
  apply andb_true_iff in H as [H Hms]. apply andb_true_iff in H as [H Hv].
  apply andb_true_iff in H as [Hk Hsp]. auto.
Qed.

Lemma memberText_head (m : member) : exists t, memberText m = 34 :: t.
Proof. destruct m as [[k sp] v]. unfold memberText, Render.quoted, Js.quote. simpl. eauto. Qed.

Lemma escapedMember_head (m : member) : exists t, escapedMember m = 34 :: t.
Proof. destruct m as [[k sp] v]. unfold escapedMember, Render.quoted, Js.quote. simpl. eauto. Qed.

Lemma strip_members (ms : list member) :
  wf ms = true ->
  Repair.stripFrom false (JsText.join [44] (memberText <$> ms) ++ [125])
  = JsText.join [44] (memberText <$> ms) ++ [125].
Proof.
  induction ms as [| m ms IH]; intros Hwf; [reflexivity |].
  apply wf_cons in Hwf as (Hk & Hsp & Hv & Hms).
  destruct ms as [| m' ms].
  - cbn [fmap list_fmap JsText.join]. rewrite (strip_member m _ Hk Hsp Hv). reflexivity.
  - change (JsText.join [44] (memberText <$> m :: m' :: ms))
      with (memberText m ++ [44] ++ JsText.join [44] (memberText <$> m' :: ms)).
    rewrite <- !app_assoc, (strip_member m _ Hk Hsp Hv). f_equal.
    cbn [app]. rewrite strip_comma_kept; [f_equal; apply IH, Hms |].
    cbn [fmap list_fmap]. destruct (memberText_head m') as [t Ht].
    destruct ms; cbn [JsText.join]; rewrite Ht; reflexivity.
Qed.

Lemma strip_text (ms : list member) :
  wf ms = true -> Repair.stripTrailingCommas (text ms) = text ms.
Proof.
  intros Hwf. unfold Repair.stripTrailingCommas, text.
  rewrite strip_other by discriminate. f_equal. apply strip_members, Hwf.
Qed.

(** *** The escape of control characters *)

(** Inside a match every character is replaced by its escape. *)
Lemma escape_inside_any (P : jstring) :
  forall B R,
    Repair.escapeFrom B (length P) (P ++ R)
    = concat (Repair.escape_char <$> P) ++ Repair.escapeFrom (rev P ++ B) 0 R.
Proof.
  induction P as [| c P IH]; intros B R; [reflexivity |].
  rewrite rev_cons_app. cbn [length app Repair.escapeFrom fmap list_fmap concat].
  rewrite <- app_assoc, (IH (c :: B) R). reflexivity.
Qed.

Lemma line_no_quote (v : jstring) :
  forallb lineChar v = true -> Forall (fun c => c <> 34) v.
Proof.
  induction v as [| c v IH]; simpl; [constructor |].
  intros H. apply andb_true_iff in H as [Hc Hv].
  constructor; [apply lineChar_facts in Hc; tauto | apply IH, Hv].
Qed.

Lemma value_run_line (v s : jstring) :
  forallb lineChar v = true -> Repair.value_run (v ++ 34 :: s) = Some (length v).
Proof.
  induction v as [| c v IH]; intros Hv; [reflexivity |].
  simpl in Hv. apply andb_true_iff in Hv as [Hc Hv].
  apply lineChar_facts in Hc as (H34 & H92 & _).
  apply N.eqb_neq in H34, H92. simpl. rewrite H34, H92, (IH Hv). reflexivity.
Qed.

(** The content of a string value that follows a colon is the match:
    its line feeds, carriage returns and tabs are escaped. *)
Lemma escape_value (v B R : jstring) :
  Repair.after_colon_quote B = true ->
  forallb lineChar v = true ->
  Repair.escapeFrom B 0 (v ++ 34 :: R)
  = concat (Repair.escape_char <$> v) ++ 34 :: Repair.escapeFrom (34 :: rev v ++ B) 0 R.
Proof.
  intros HB Hv. pose proof (line_no_quote v Hv) as Hnq.
  destruct v as [| c v].
  - apply escape_empty_match. reflexivity.
  - pose proof (value_run_line (c :: v) R Hv) as Hrun.
    inversion Hnq as [| ? ? Hc Hnq']; subst.
    rewrite <- app_comm_cons in *. cbn [length] in Hrun.
    rewrite (escape_match B _ c (length v) HB Hrun).
    rewrite (escape_inside_any v (c :: B) (34 :: R)).
    cbn [fmap list_fmap concat]. rewrite <- app_assoc. do 2 f_equal.
    rewrite rev_cons_app.
    apply escape_free, free_after_run; [exact Hnq' | apply not_after_quote, Hc].
Qed.

Lemma escape_member (m : member) (B R : jstring) :
  Layout.quiet (fst (fst m)) = true ->
  forallb (N.eqb 32) (snd (fst m)) = true ->
  forallb lineChar (snd m) = true ->
  Repair.after_colon_quote B = false ->
  exists B',
    Repair.escapeFrom B 0 (memberText m ++ R)
    = escapedMember m ++ Repair.escapeFrom B' 0 R.
Proof.
  destruct m as [[k sp] v]. cbn [fst snd]. intros Hk Hsp Hv HB.
  destruct (spaces_facts sp Hsp) as (_ & Hnq & _ & Hcolon).
  unfold memberText, escapedMember. cbn [fst snd]. rewrite <- !app_assoc.
  destruct (escape_quoted k B (58 :: sp ++ Render.quoted v ++ R) Hk HB) as [Hq HB1].
  rewrite <- !app_comm_cons, <- !app_assoc.
  rewrite Hq. clear Hq.
  set (B1 := 34 :: rev k ++ 34 :: B) in *.
  rewrite (escape_free B1 _ 58 HB1).
  rewrite (escape_free_run sp Hnq (58 :: B1) _ (not_after_quote 58 B1 ltac:(discriminate))).
  unfold Render.quoted, Js.quote. rewrite <- !app_comm_cons, <- !app_assoc.
  rewrite escape_free
    by (apply free_after_run; [exact Hnq | apply not_after_quote; discriminate]).
  change (v ++ [34] ++ R) with (v ++ 34 :: R).
  rewrite (escape_value v (34 :: rev sp ++ 58 :: B1) R)
    by (try exact Hv; simpl; apply Hcolon).
  eexists. repeat (rewrite <- app_comm_cons || rewrite <- app_assoc). reflexivity.
Qed.

(** A comma before a member is copied, whether or not it is taken for
    the start of a string value. *)
Lemma escape_separator (B rest : jstring) :
  Repair.escapeFrom B 0 (44 :: 34 :: rest)
  = 44 :: Repair.escapeFrom (44 :: B) 0 (34 :: rest).
Proof.
  destruct (Repair.after_colon_quote B) eqn:HB.
  - rewrite (escape_match B _ 44 0 HB); reflexivity.
  - apply escape_free, HB.
Qed.

Lemma escape_close (B : jstring) : Repair.escapeFrom B 0 [125] = [125].
Proof. simpl. destruct (Repair.after_colon_quote B); reflexivity. Qed.

Lemma escape_members (ms : list member) :
  wf ms = true ->
  forall B, Repair.after_colon_quote B = false ->
  Repair.escapeFrom B 0 (JsText.join [44] (memberText <$> ms) ++ [125])
  = JsText.join [44] (escapedMember <$> ms) ++ [125].
Proof.
  induction ms as [| m ms IH]; intros Hwf B HB; [apply escape_close |].
  apply wf_cons in Hwf as (Hk & Hsp & Hv & Hms).
  destruct ms as [| m' ms].
  - cbn [fmap list_fmap JsText.join].
    destruct (escape_member m B [125] Hk Hsp Hv HB) as [B' ->].
    rewrite escape_close. reflexivity.
  - change (JsText.join [44] (memberText <$> m :: m' :: ms))
      with (memberText m ++ [44] ++ JsText.join [44] (memberText <$> m' :: ms)).
    change (JsText.join [44] (escapedMember <$> m :: m' :: ms))
      with (escapedMember m ++ [44] ++ JsText.join [44] (escapedMember <$> m' :: ms)).
    rewrite <- !app_assoc.
    match goal with
    | |- Repair.escapeFrom B 0 (memberText m ++ ?R) = _ =>
        destruct (escape_member m B R Hk Hsp Hv HB) as [B' ->]
    end.
    f_equal.
    cbn [app].
    assert (Hhead : exists t, JsText.join [44] (memberText <$> m' :: ms) ++ [125] = 34 :: t).
    { cbn [fmap list_fmap]. destruct (memberText_head m') as [t Ht].
      destruct ms; cbn [JsText.join]; rewrite Ht; simpl; eauto. }
    destruct Hhead as [t Ht]. rewrite Ht, escape_separator, <- Ht. f_equal.
    apply (IH Hms). apply not_after_quote. discriminate.
Qed.

Lemma escape_text (ms : list member) :
  wf ms = true -> Repair.escapeValues (text ms) = escapedText ms.
Proof.
  intros Hwf. unfold Repair.escapeValues, text, escapedText.
  rewrite escape_free by reflexivity. f_equal.
  apply (escape_members ms Hwf). reflexivity.
Qed.

(** *** The parse of the escaped text *)

Lemma parse_chars_escaped (v rest : jstring) :
  forallb lineChar v = true ->
  Json.parse_chars (concat (Repair.escape_char <$> v) ++ 34 :: rest) = Some (v, rest).
Proof.
  induction v as [| c v IH]; intros Hv; [reflexivity |].
  simpl in Hv. apply andb_true_iff in Hv as [Hc Hv].
  apply lineChar_facts in Hc as (H34 & H92 & _ & Hc).
  cbn [fmap list_fmap concat]. rewrite <- app_assoc.
  destruct Hc as [Hc | [-> | [-> | ->]]].
  - rewrite (escape_char_printable c Hc). cbn [app].
    apply parse_chars_literal; auto.
  - apply parse_chars_short; [discriminate | reflexivity | apply IH, Hv].
  - apply parse_chars_short; [discriminate | reflexivity | apply IH, Hv].
  - apply parse_chars_short; [discriminate | reflexivity | apply IH, Hv].
Qed.

Lemma parse_value_escaped (f : nat) (sp v rest : jstring) :
  forallb (N.eqb 32) sp = true ->
  forallb lineChar v = true ->
  Json.parse_value (S f)
    (sp ++ Render.quoted (concat (Repair.escape_char <$> v)) ++ rest)
  = Some (Json.Str v, rest).
Proof.
  intros Hsp Hv. destruct (spaces_facts sp Hsp) as (_ & _ & Hspace & _).
  rewrite (parse_value_space _ sp _ Hspace).
  unfold Render.quoted, Js.quote. rewrite <- app_comm_cons, <- app_assoc.
  cbn [Json.parse_value Json.skip_ws]. change (Json.is_ws 34) with false. cbv iota.
  change (34 =? 123) with false. change (34 =? 91) with false.
  change (34 =? 34) with true. cbv iota.
  cbn [app]. rewrite (parse_chars_escaped v rest Hv). reflexivity.
Qed.

Lemma parse_members_escaped (ms : list member) :
  forall (m : member) (f : nat) (rest : jstring),
  wf (m :: ms) = true -> (length ms < f)%nat ->
  Json.parse_members (S f)
    (JsText.join [44] (escapedMember <$> (m :: ms)) ++ 125 :: rest)
  = Some ((fun m => (fst (fst m), Json.Str (snd m))) <$> (m :: ms), rest).
Proof.
  induction ms as [| m' ms IH]; intros m f rest Hwf Hf;
    apply wf_cons in Hwf as (Hk & Hsp & Hv & Hms);
    (destruct f as [| f]; [simpl in Hf; lia |]);
    destruct m as [[k sp] v]; cbn [fst snd] in *;
    unfold Layout.quiet in Hk; apply andb_true_iff in Hk as [Hk _].
  - cbn [fmap list_fmap JsText.join]. unfold escapedMember. cbn [fst snd].
    unfold Render.quoted at 1. unfold Js.quote.
    rewrite <- !app_comm_cons, <- !app_assoc.
    rewrite parse_members_step. cbn [app].
    rewrite (parse_chars_plain k _ Hk).
    cbn [Json.skip_ws]. change (Json.is_ws 58) with false. cbv iota.
    change (58 =? 58) with true. cbv iota. rewrite <- ?app_assoc.
    rewrite (parse_value_escaped f sp v _ Hsp Hv). reflexivity.
  - change (JsText.join [44] (escapedMember <$> (k, sp, v) :: m' :: ms))
      with (escapedMember (k, sp, v) ++ [44]
            ++ JsText.join [44] (escapedMember <$> m' :: ms)).
    unfold escapedMember at 1. cbn [fst snd].
    unfold Render.quoted at 1. unfold Js.quote.
    rewrite <- !app_comm_cons, <- !app_assoc.
    rewrite parse_members_step. cbn [app].
    rewrite (parse_chars_plain k _ Hk).
    cbn [Json.skip_ws]. change (Json.is_ws 58) with false. cbv iota.
    change (58 =? 58) with true. cbv iota. rewrite <- ?app_assoc.
    rewrite (parse_value_escaped f sp v _ Hsp Hv).
    cbn [app Json.skip_ws]. change (Json.is_ws 44) with false. cbv iota.
    change (44 =? 44) with true. cbv iota.
    rewrite (IH m' f rest Hms) by (simpl in Hf; lia). reflexivity.
Qed.

Lemma parse_escapedText (ms : list member) :
  wf ms = true -> Json.parse (escapedText ms) = Some (value ms).
Proof.
  intros Hwf. destruct ms as [| m ms]; [reflexivity |].
  apply (parse_with_any_fuel (S (S (S (length ms)))) _ []); [| reflexivity].
  unfold escapedText, value.
  destruct (escapedMember_head m) as [t Ht].
  assert (Hhead : exists t', JsText.join [44] (escapedMember <$> m :: ms) ++ [125]
                             = 34 :: t').
  { cbn [fmap list_fmap]. destruct ms; cbn [JsText.join]; rewrite Ht; simpl; eauto. }
  destruct Hhead as [t' Ht'].
  rewrite (parse_value_open_object _ _ t' 34); [| rewrite Ht'; reflexivity | discriminate].
  rewrite <- Ht'.
  rewrite (parse_members_escaped ms m (S (length ms)) [] Hwf) by lia. reflexivity.
Qed.

Lemma slice_object (pre body post : jstring) :
  Forall (fun c => c <> 123) pre ->
  Forall (fun c => c <> 125) post ->
  exists start end_,
    Js.indexOf (pre ++ (123 :: body ++ [125]) ++ post) 123 = Some start
    /\ Js.lastIndexOf (pre ++ (123 :: body ++ [125]) ++ post) 125 = Some end_
    /\ Js.slice (pre ++ (123 :: body ++ [125]) ++ post) start (end_ + 1)
       = 123 :: body ++ [125].
Proof.
  intros Hpre Hpost.
  exists (length pre), (length (pre ++ 123 :: body)).
  split; [| split].
  - replace (pre ++ (123 :: body ++ [125]) ++ post)
      with (pre ++ 123 :: (body ++ [125] ++ post))
      by (rewrite <- !app_comm_cons, <- !app_assoc; reflexivity).
    apply indexOf_fresh, Hpre.
  - replace (pre ++ (123 :: body ++ [125]) ++ post)
      with ((pre ++ 123 :: body) ++ 125 :: post)
      by (rewrite <- !app_assoc, <- !app_comm_cons, <- !app_assoc; reflexivity).
    apply lastIndexOf_last, Hpost.
  - rewrite <- (slice_middle pre (123 :: body ++ [125]) post) at 2. f_equal.
    rewrite !length_app. cbn [length]. rewrite length_app. cbn [length]. lia.
Qed.

End LineFacts.

(** X24.  The escape of control characters does what it is there for.
    For a reply made of prose without an opening brace, the text of an
    object whose values are strings, and prose without a closing brace,
    where the strings are written raw and a value may run over several
    lines (it may hold line feeds, carriage returns and tabs, which
    [JSON.parse] refuses inside a string), [parseReply] returns the
    object, each value with its line breaks and tabs as the reply has
    them.  The names are quiet, the text has no white space but spaces
    after a colon, and the values hold no double quote, backslash, closing
    bracket or other control character. *)
Theorem parseReply_keeps_line_breaks (pre post : jstring) (ms : list Flat.member) :
  Forall (fun c => c <> 123) pre ->
  Forall (fun c => c <> 125) post ->
  Flat.wf ms = true ->
  Repair.parseReply (pre ++ Flat.text ms ++ post) = Ok (Flat.value ms).
Proof.
  intros Hpre Hpost Hwf.
  destruct (slice_object pre (JsText.join [44] (Flat.memberText <$> ms)) post Hpre Hpost)
    as (start & end_ & Hs & He & Hslice).
  unfold Repair.parseReply. fold (Flat.text ms) in Hs, He, Hslice.
  rewrite Hs, He, Hslice. cbv zeta.
  rewrite (strip_text ms Hwf), (escape_text ms Hwf), (parse_escapedText ms Hwf).
  reflexivity.
Qed.

Lemma parseReply_keeps_line_breaks_witness :
  Json.parse (Flat.text Demo.twoLines) = None
  /\ Repair.parseReply (js "Here it is: " ++ Flat.text Demo.twoLines ++ js " Enjoy!")
     = Ok (Flat.value Demo.twoLines).
Proof.
  split; [vm_compute; reflexivity |].
  apply (parseReply_keeps_line_breaks (js "Here it is: ") (js " Enjoy!") Demo.twoLines).
  - repeat constructor; discriminate.
  - repeat constructor; discriminate.
  - vm_compute. reflexivity.
Defined.
(** ** The command line *)

Section CliFacts.

Import Cli.

Lemma omap_all (words : list jstring) :
  omap (fun x => x) (imap (fun (_ : nat) (a : jstring) => Some a) words) = words.
Proof.
  induction words as [| a words IH]; [reflexivity |].
  simpl. f_equal. exact IH.
Qed.

Lemma others_standard (a b c d : jstring) (words : list jstring) :
  others 0 2 (a :: b :: c :: d :: words) = words.
Proof.
  unfold others. cbn [imap]. simpl (negb _ && _ && _ && _).
  cbv iota. simpl (omap _ (None :: _)).
  rewrite <- (omap_all words) at 2. f_equal.
Qed.

Lemma parseInt_id : Server.parseInt (js "--id") = Server.NaN.
Proof. reflexivity. Qed.

End CliFacts.

(** X25.  The command line runs a step only for a step number from 1 to
    6.  With the arguments --step P --id ID followed by any words, [main]
    runs step n of project ID when [parseInt] of P is a number n from 2
    to 6; when it is 1 it runs step 1 with the words joined by spaces and
    trimmed as description, and refuses an empty description; in every
    other case, a number out of range or no number at all, it prints
    "Step must be 1-6" and runs nothing. *)
Theorem cli_runs_steps_1_to_6_only (p id : jstring) (words : list jstring) :
  Cli.main (js "--step" :: p :: js "--id" :: id :: words)
  = match Server.parseInt p with
    | Server.Int 1 =>
        let desc := JsText.trim (JsText.join [32] words) in
        if bool_decide (desc = []) then Cli.Step1NeedsDescription else Cli.Step1 id desc
    | Server.Int n =>
        if ((2 <=? n) && (n <=? 6))%Z then Cli.Step n id else Cli.StepRange
    | Server.NaN => Cli.StepRange
    end.
Proof.
  unfold Cli.main. change (Js.startsWith (js "--step") (js "--step")) with true.
  cbn [negb]. unfold Cli.single.
  change (JsText.indexOf (js "--step" :: p :: js "--id" :: id :: words) (js "--step"))
    with (Some O).
  destruct (decide (p = js "--id")) as [-> | Hp].
  - change (JsText.indexOf (js "--step" :: js "--id" :: js "--id" :: id :: words)
              (js "--id")) with (Some 1%nat).
    reflexivity.
  - assert (Hid : JsText.indexOf (js "--step" :: p :: js "--id" :: id :: words) (js "--id")
                  = Some 2%nat).
    { cbn [JsText.indexOf]. change (Js.eqb (js "--step") (js "--id")) with false.
      cbv iota. unfold Js.eqb at 1. rewrite bool_decide_eq_false_2 by exact Hp.
      rewrite eqb_refl. reflexivity. }
    rewrite Hid. cbn [lookup list_lookup Nat.add].
    rewrite others_standard. reflexivity.
Qed.
(** ** The other routes *)

(** X26.  The script route and the status route agree on script.json.
    The script route answers 404 exactly when the project has no
    directory or its directory holds no script.json; whenever it answers
    anything else, the status route reports a completed step of at least
    2, so a client that asks for the script once the completed step is 2
    or more (as the page does) misses no script. *)
Theorem script_route_agrees_with_status (srv : Server.server) (id : jstring) :
  (Routes.getScript srv id = Routes.ScriptNotFound
   <-> forall dir, Server.disk srv !! id = Some dir -> dir !! js "script.json" = None)
  /\ (Routes.getScript srv id <> Routes.ScriptNotFound ->
      (2 <= completedStep (Routes.state (Routes.getStatus srv id)))%Z).
Proof.
  unfold Routes.getScript, Routes.getStatus, Server.readdir. cbn [Routes.state].
  destruct (Server.disk srv !! id) as [dir |] eqn:Hdir;
    cbn [mbind option_bind fmap option_fmap].
  - destruct (dir !! js "script.json") as [text |] eqn:Hs.
    + split.
      * split.
        -- destruct (Json.parse text); discriminate.
        -- intros H. specialize (H dir eq_refl). congruence.
      * intros _. apply completedStep_least.
        change (Progress.includes (map_to_list dir).*1 (js "script.json") = true).
        apply includes_true, list_elem_of_fmap. exists (js "script.json", text).
        split; [reflexivity | apply elem_of_map_to_list, Hs].
    + split; [| contradiction]. split; [| reflexivity].
      intros _ dir' [= <-]. exact Hs.
  - split; [| contradiction]. split; [| reflexivity]. intros _ dir' [=].
Qed.

(** X27.  The create route names a project after the clock.  A body
    without a description, or with an empty one, is answered 400 and
    changes nothing.  Otherwise step 1 is called once, for the project
    whose id is the decimal numeral of the clock reading, and the table
    of running steps is left as it is.  Projects created at different
    clock readings get different ids; two created at the same reading
    share one id, and so one directory. *)
Theorem create_names_projects_after_the_clock
    (runStep : Z -> jstring -> option Json.value ->
               gmap jstring (gmap jstring jstring) ->
               gmap jstring (gmap jstring jstring) * result unit)
    (srv : Server.server) (reqBody : option Json.value) (now now' : nat) :
  (forall description,
     Json.get reqBody (js "description") = Ok description ->
     Json.truthy description = false ->
     Routes.create runStep now srv reqBody = (srv, Routes.DescriptionRequired))
  /\ (forall description,
     Json.get reqBody (js "description") = Ok description ->
     Json.truthy description = true ->
     let out := runStep 1%Z (Js.decimal now) description (Server.disk srv) in
     Routes.create runStep now srv reqBody
     = (Server.Server (Server.running srv) (fst out)
          (Server.called srv ++ [(Js.decimal now, 1%Z)]),
        match snd out with
        | Ok _ => Routes.Created (Js.decimal now)
        | Throw e => Routes.CreateUnhandled e
        end))
  /\ (Js.decimal now = Js.decimal now' <-> now = now').
Proof.
  unfold Routes.create. split; [| split].
  - intros description -> ->. reflexivity.
  - intros description -> ->. cbn [negb]. unfold Server.callStep.
    destruct (runStep 1%Z (Js.decimal now) description (Server.disk srv)) as [d r].
    reflexivity.
  - split; [apply decimal_inj | intros ->; reflexivity].
Qed.
(** ** The provider *)

Section ProviderFacts.

Import Minimax.

Context {E : Type}.
Variable fetch : request -> E -> E * result response.
Variable toText : option Json.value -> jstring.

Lemma getApiKey_set (key : jstring) : key <> [] -> getApiKey (Some key) = Ok key.
Proof.
  intros Hk. unfold getApiKey. rewrite bool_decide_eq_false_2 by exact Hk. reflexivity.
Qed.

(** The queries and pauses of a loop that gets its verdict at the query
    of index [k]. *)
Lemma poll_steps (key : jstring) (taskId : option Json.value) (text : jstring)
    (outcome : result (option Json.value)) (k : nat) :
  key <> [] ->
  template toText taskId = Ok text ->
  forall (o : nat -> E) (res : nat -> response) (log : list action),
  (forall i, (i <= k)%nat ->
     fetch (QueryVideo key taskId) (o i) = (o (S i), Ok (res i))) ->
  (forall i, (i < k)%nat -> verdict toText (res i) = None) ->
  verdict toText (res k) = Some outcome ->
  forall fuel,
  ((k < fuel)%nat ->
     pollVideoTask (Some key) fetch toText fuel taskId (o O, log)
     = ((o (S k),
         log ++ concat (replicate k [Sent (QueryVideo key taskId); Slept 5000])
             ++ [Sent (QueryVideo key taskId)]),
        Some outcome))
  /\ ((fuel <= k)%nat ->
     snd (pollVideoTask (Some key) fetch toText fuel taskId (o O, log)) = None).
Proof.
  intros Hkey Htpl. induction k as [| k IH]; intros o res log Hfetch Hpending Hlast fuel.
  - split.
    + intros Hfuel. destruct fuel as [| fuel]; [lia |].
      cbn [pollVideoTask]. rewrite Htpl, (getApiKey_set key Hkey).
      unfold send. cbn [fst snd]. rewrite (Hfetch O (le_n _)), Hlast. reflexivity.
    + intros Hfuel. replace fuel with O by lia. reflexivity.
  - split.
    + intros Hfuel. destruct fuel as [| fuel]; [lia |].
      cbn [pollVideoTask]. rewrite Htpl, (getApiKey_set key Hkey).
      unfold send. cbn [fst snd]. rewrite (Hfetch O ltac:(lia)), (Hpending O ltac:(lia)).
      unfold sleep. cbn [fst snd].
      destruct (IH (fun i => o (S i)) (fun i => res (S i))
                  ((log ++ [Sent (QueryVideo key taskId)]) ++ [Slept 5000])
                  ltac:(intros i Hi; apply Hfetch; lia)
                  ltac:(intros i Hi; apply Hpending; lia) Hlast fuel) as [Hrun _].
      rewrite (Hrun ltac:(lia)). cbn [replicate concat].
      rewrite <- !app_assoc. reflexivity.
    + intros Hfuel. destruct fuel as [| fuel]; [reflexivity |].
      cbn [pollVideoTask]. rewrite Htpl, (getApiKey_set key Hkey).
      unfold send. cbn [fst snd]. rewrite (Hfetch O ltac:(lia)), (Hpending O ltac:(lia)).
      unfold sleep. cbn [fst snd].
      destruct (IH (fun i => o (S i)) (fun i => res (S i))
                  ((log ++ [Sent (QueryVideo key taskId)]) ++ [Slept 5000])
                  ltac:(intros i Hi; apply Hfetch; lia)
                  ltac:(intros i Hi; apply Hpending; lia) Hlast fuel) as [_ Hout].
      apply Hout. lia.
Qed.

End ProviderFacts.

(** X28.  Without a key nothing is sent.  When MINIMAX_API_KEY is not set,
    or is empty, each of the three generators throws "MINIMAX_API_KEY not
    set" before any request: the state of the world and the log are as
    they were. *)
Theorem no_key_no_request {E : Type}
    (fetch : Minimax.request -> E -> E * result Minimax.response)
    (toText : option Json.value -> jstring)
    (env : option jstring) (s : E * list Minimax.action) :
  env = None \/ env = Some [] ->
  (forall prompt,
     Minimax.callLLM env fetch prompt s
     = (s, Throw (Error (js "MINIMAX_API_KEY not set"))))
  /\ (forall prompt reference,
     Minimax.generateImage env fetch toText prompt reference s
     = (s, Throw (Error (js "MINIMAX_API_KEY not set"))))
  /\ (forall fuel prompt firstFrame lastFrame,
     Minimax.generateVideo env fetch toText fuel prompt firstFrame lastFrame s
     = (s, Some (Throw (Error (js "MINIMAX_API_KEY not set"))))).
Proof.
  intros [-> | ->]; repeat split; reflexivity.
Qed.

Lemma no_key_no_request_witness :
  Minimax.callLLM None (fun (_ : Minimax.request) (o : unit) => (o, Throw TypeError))
    (js "a prompt") (tt, [])
  = ((tt, []), Throw (Error (js "MINIMAX_API_KEY not set"))).
Proof.
  refine (proj1 (no_key_no_request
                   (fun (_ : Minimax.request) (o : unit) => (o, Throw TypeError))
                   (fun _ => []) None (tt, []) _) (js "a prompt")).
  left. reflexivity.
Defined.

(** X29.  The loop of [pollVideoTask] stops at the first answer that
    settles the task.  When the answers to the first k queries leave the
    task pending and the answer to the next one settles it (a success
    with a file id, a failure, a response that is not ok or cannot be
    read), the loop returns or throws what that answer says, having sent
    k + 1 queries with a pause of 5000 ms after each of the first k;
    it does so with any bound on the number of queries above k, and
    with a bound of k or less it is still waiting. *)
Theorem polling_stops_at_the_first_verdict {E : Type}
    (fetch : Minimax.request -> E -> E * result Minimax.response)
    (toText : option Json.value -> jstring)
    (key : jstring) (taskId : option Json.value) (text : jstring)
    (outcome : result (option Json.value)) (k : nat)
    (o : nat -> E) (res : nat -> Minimax.response) (log : list Minimax.action) :
  key <> [] ->
  Minimax.template toText taskId = Ok text ->
  (forall i, (i <= k)%nat ->
     fetch (Minimax.QueryVideo key taskId) (o i) = (o (S i), Ok (res i))) ->
  (forall i, (i < k)%nat -> Minimax.verdict toText (res i) = None) ->
  Minimax.verdict toText (res k) = Some outcome ->
  forall fuel,
  ((k < fuel)%nat ->
     Minimax.pollVideoTask (Some key) fetch toText fuel taskId (o O, log)
     = ((o (S k),
         log ++ concat (replicate k [Minimax.Sent (Minimax.QueryVideo key taskId);
                                     Minimax.Slept 5000])
             ++ [Minimax.Sent (Minimax.QueryVideo key taskId)]),
        Some outcome))
  /\ ((fuel <= k)%nat ->
     snd (Minimax.pollVideoTask (Some key) fetch toText fuel taskId (o O, log)) = None).
Proof.
  intros Hkey Htpl Hfetch Hpending Hlast fuel.
  exact (poll_steps fetch toText key taskId text outcome k Hkey Htpl o res log
           Hfetch Hpending Hlast fuel).
Qed.
Lemma polling_stops_at_the_first_verdict_witness :
  Minimax.pollVideoTask (Some (js "k")) Demo.provider (fun _ => []) 5
    (Some (Json.Str (js "t1"))) (1%nat, [])
  = ((4%nat,
      [Minimax.Sent (Minimax.QueryVideo (js "k") (Some (Json.Str (js "t1"))));
       Minimax.Slept 5000;
       Minimax.Sent (Minimax.QueryVideo (js "k") (Some (Json.Str (js "t1"))));
       Minimax.Slept 5000;
       Minimax.Sent (Minimax.QueryVideo (js "k") (Some (Json.Str (js "t1"))))]),
     Some (Ok (Some (Json.Str (js "f1"))))).
Proof.
  refine (proj1 (polling_stops_at_the_first_verdict Demo.provider (fun _ => [])
                   (js "k") (Some (Json.Str (js "t1"))) [] (Ok (Some (Json.Str (js "f1"))))
                   2 (fun i => S i) (fun i => Demo.answer (S i)) [] _ _ _ _ _ 5) _).
  - discriminate.
  - reflexivity.
  - intros i _. reflexivity.
  - intros i Hi. assert (i = 0 \/ i = 1)%nat as [-> | ->] by lia; vm_compute; reflexivity.
  - vm_compute. reflexivity.
  - lia.
Defined.

Section VideoFacts.

Import Minimax.

Context {E : Type}.
Variable fetch : request -> E -> E * result response.
Variable toText : option Json.value -> jstring.

(** [generateVideo] once the task is created. *)
Lemma generateVideo_created (key : jstring) (fuel : nat)
    (prompt firstFrame lastFrame : option Json.value) (o o' : E) (log : list action)
    (created : response) (task : Json.value) (taskId : option Json.value) :
  key <> [] ->
  fetch (CreateVideo key prompt firstFrame lastFrame) o = (o', Ok created) ->
  ok created = true ->
  json created = Ok task ->
  checked toText (js "video") task = Ok tt ->
  Json.get (Some task) (js "task_id") = Ok taskId ->
  generateVideo (Some key) fetch toText fuel prompt firstFrame lastFrame (o, log)
  = match pollVideoTask (Some key) fetch toText fuel taskId
            (o', log ++ [Sent (CreateVideo key prompt firstFrame lastFrame)]) with
    | (s, None) => (s, None)
    | (s, Some (Throw e)) => (s, Some (Throw e))
    | (s, Some (Ok fileId)) =>
        let '(s, r) := getFileUrl (Some key) fetch toText fileId s in (s, Some r)
    end.
Proof.
  intros Hkey Hfetch Hok Hjson Hchecked Hid.
  unfold generateVideo. rewrite (getApiKey_set key Hkey).
  unfold send. cbn [fst snd]. rewrite Hfetch, Hok, Hjson. cbn [negb next].
  rewrite Hchecked. cbn [next]. rewrite Hid. reflexivity.
Qed.

End VideoFacts.

(** X30.  The requests of [generateVideo], in order.  When the creation
    of the task is accepted (a response that is ok, whose status code is
    0), the answers to the first k queries leave the task pending, the
    next one reports its success with a file id, and the retrieval of the
    file is answered with a download URL, [generateVideo] returns that
    URL, having sent the creation, k + 1 queries for the task id the
    creation returned, with a pause of 5000 ms after each of the first k,
    and one retrieval for the file id of the success, and nothing
    else. *)
Theorem generateVideo_requests_in_order {E : Type}
    (fetch : Minimax.request -> E -> E * result Minimax.response)
    (toText : option Json.value -> jstring)
    (key : jstring) (prompt firstFrame lastFrame : option Json.value)
    (start finish : E) (log : list Minimax.action)
    (created : Minimax.response) (task : Json.value) (taskId : option Json.value)
    (taskText : jstring)
    (k : nat) (o : nat -> E) (res : nat -> Minimax.response)
    (fileId : option Json.value) (fileText : jstring)
    (retrieved : Minimax.response) (answer : Json.value) (file url : option Json.value) :
  key <> [] ->
  fetch (Minimax.CreateVideo key prompt firstFrame lastFrame) start = (o O, Ok created) ->
  Minimax.ok created = true ->
  Minimax.json created = Ok task ->
  Minimax.checked toText (js "video") task = Ok tt ->
  Json.get (Some task) (js "task_id") = Ok taskId ->
  Minimax.template toText taskId = Ok taskText ->
  (forall i, (i <= k)%nat ->
     fetch (Minimax.QueryVideo key taskId) (o i) = (o (S i), Ok (res i))) ->
  (forall i, (i < k)%nat -> Minimax.verdict toText (res i) = None) ->
  Minimax.verdict toText (res k) = Some (Ok fileId) ->
  Minimax.template toText fileId = Ok fileText ->
  fetch (Minimax.RetrieveFile key fileId) (o (S k)) = (finish, Ok retrieved) ->
  Minimax.ok retrieved = true ->
  Minimax.json retrieved = Ok answer ->
  Json.get (Some answer) (js "file") = Ok file ->
  Json.get file (js "download_url") = Ok url ->
  forall fuel, (k < fuel)%nat ->
  Minimax.generateVideo (Some key) fetch toText fuel prompt firstFrame lastFrame
    (start, log)
  = ((finish,
      log ++ [Minimax.Sent (Minimax.CreateVideo key prompt firstFrame lastFrame)]
          ++ concat (replicate k [Minimax.Sent (Minimax.QueryVideo key taskId);
                                  Minimax.Slept 5000])
          ++ [Minimax.Sent (Minimax.QueryVideo key taskId);
              Minimax.Sent (Minimax.RetrieveFile key fileId)]),
     Some (Ok url)).
Proof.
  intros Hkey Hcreate Hok Hjson Hchecked Hid Htask Hfetch Hpending Hlast Hfile
    Hretrieve Hok' Hjson' Hf Hurl fuel Hfuel.
  rewrite (generateVideo_created fetch toText key fuel prompt firstFrame lastFrame
             start (o O) log created task taskId Hkey Hcreate Hok Hjson Hchecked Hid).
  destruct (poll_steps fetch toText key taskId taskText (Ok fileId) k Hkey Htask o res
              (log ++ [Minimax.Sent (Minimax.CreateVideo key prompt firstFrame lastFrame)])
              Hfetch Hpending Hlast fuel) as [Hrun _].
  rewrite (Hrun Hfuel).
  unfold Minimax.getFileUrl. rewrite Hfile, (getApiKey_set key Hkey).
  unfold Minimax.send. cbn [fst snd]. rewrite Hretrieve, Hok', Hjson'.
  cbn [negb Minimax.next]. rewrite Hf. cbn [Minimax.next]. rewrite Hurl.
  rewrite <- !app_assoc. reflexivity.
Qed.

Lemma generateVideo_requests_in_order_witness :
  Minimax.generateVideo (Some (js "k")) Demo.provider (fun _ => []) 5
    (Some (Json.Str (js "walks"))) (Some (Json.Str (js "u0"))) (Some (Json.Str (js "u1")))
    (0%nat, [])
  = ((5%nat,
      [Minimax.Sent (Minimax.CreateVideo (js "k") (Some (Json.Str (js "walks")))
                       (Some (Json.Str (js "u0"))) (Some (Json.Str (js "u1"))));
       Minimax.Sent (Minimax.QueryVideo (js "k") (Some (Json.Str (js "t1"))));
       Minimax.Slept 5000;
       Minimax.Sent (Minimax.QueryVideo (js "k") (Some (Json.Str (js "t1"))));
       Minimax.Slept 5000;
       Minimax.Sent (Minimax.QueryVideo (js "k") (Some (Json.Str (js "t1"))));
       Minimax.Sent (Minimax.RetrieveFile (js "k") (Some (Json.Str (js "f1"))))]),
     Some (Ok (Some (Json.Str (js "https://v"))))).
Proof.
  refine (generateVideo_requests_in_order Demo.provider (fun _ => []) (js "k")
            (Some (Json.Str (js "walks"))) (Some (Json.Str (js "u0")))
            (Some (Json.Str (js "u1"))) 0%nat 5%nat []
            (Demo.answer 0) (default Json.Null (Demo.answers !! 0%nat))
            (Some (Json.Str (js "t1"))) []
            2 (fun i => S i) (fun i => Demo.answer (S i))
            (Some (Json.Str (js "f1"))) []
            (Demo.answer 4) (default Json.Null (Demo.answers !! 4%nat))
            (Some (Json.Obj [(js "download_url", Json.Str (js "https://v"))]))
            (Some (Json.Str (js "https://v")))
            _ _ _ _ _ _ _ _ _ _ _ _ _ _ _ _ 5 _).
  all: try (vm_compute; reflexivity).
  all: try discriminate.
  all: try lia.
  all: try (intros i _; reflexivity).
  intros i Hi. assert (i = 0 \/ i = 1)%nat as [-> | ->] by lia; vm_compute; reflexivity.
Defined.

(** ** Step 2: where the two replacements reach too far *)

(** The two replacements of step 2 reach further than their
    comments say ("Clean trailing commas before ] or }", "Fix unescaped
    control characters inside JSON string values").  The first removes a
    comma inside a string when white space and a closing bracket follow
    it there: the reply made of the object whose member a is the string
    "x, }y", a JSON text as it stands, is parsed to the object whose
    member a is "x}y".  The second escapes a line feed that stands
    outside every string when the string before it ends with a colon and
    a space: an object over two lines whose first string ends so, and
    which [JSON.parse] reads once its trailing comma is removed, is
    refused with a SyntaxError. *)
Lemma repairs_reach_beyond_their_comments :
  Json.parse (Layout.text Sample.comma)
  = Some (Json.Obj [(js "a", Json.Str (js "x, }y"))])
  /\ Repair.parseReply (Layout.text Sample.comma)
     = Ok (Json.Obj [(js "a", Json.Str (js "x}y"))])
  /\ Json.parse (Repair.stripTrailingCommas (Layout.text Sample.colon))
     = Some (Layout.value Sample.colon)
  /\ Repair.parseReply (Layout.text Sample.colon) = Throw SyntaxError.
Proof. repeat split; vm_compute; reflexivity. Qed.
